(* ===== verification/_CoqProject ===== *)
-Q . S2P
Prelude.v
GoStrings.v
MetaTypes.v
Keys.v
Pebble.v
ObjectStore.v
Listing.v
Versions.v
Tags.v
Buckets.v
Multipart.v
System.v
MetricsRace.v
NetIP.v
Policy.v
Breaker.v
RateLimit.v
Acl.v
