(* ===== verification/Prelude.v ===== *)
(** * Verification of MaxIOFS, an S3-compatible object store written in Go

    MaxIOFS answers S3 requests: an API layer (internal/server, pkg/s3compat)
    authenticates and authorizes a request, the object manager
    (internal/object) moves bytes between the client and the disk, and the
    metadata store (internal/metadata) remembers what exists: buckets, objects,
    versions, tags and multipart uploads, as JSON values in a Pebble key-value
    database.  Nodes of a cluster talk to each other through circuit breakers.
    This development models the bucket, object, version, tag and multipart
    operations of the metadata store and, beside it, bucket policies, ACLs, the
    circuit breaker and the login rate limiter.  Paths below are under src/.

    ** Files

    - [Prelude]: results, record update, [sort.Slice], byte-string order,
      lists sorted by a key, tactics and the [go_str] hint databases.
    - [GoStrings]: the functions of Go's [strings] the code calls, with their
      characterizations.  [NetIP]: the part of [net] and the ASCII case
      folding the policy evaluator calls.
    - [MetaTypes]: internal/metadata/types.go and the data of store.go.
    - [Keys]: internal/metadata/keys.go and [prefixEnd].  A scan bounded by
      [prefixEnd] sees exactly the keys with the prefix, key families are
      disjoint, and keys are injective where the bucket has no colon.
    - [Pebble]: the engine as an interface ([Pebble], with its documented
      behaviour as [PebbleLaws]) and a concrete instance [alist_pebble]; the
      [Store] record (the database, the dirty flag of the WAL, the deleted
      buckets, what is durable and what is only in the log), [pebbleGet],
      [pebbleIter], the synced and unsynced commits, the WAL tick and [crash].
    - [ObjectStore]: [PutObject], [GetObject], [DeleteObject], ... of
      internal/metadata/pebble_objects.go, and the invariant [wf_store].
    - [Listing]: [ListObjects] and [ListObjectsDelimited].
    - [Versions]: [PutObjectVersion] and the version listings, and
      [HasActiveComplianceRetention].
    - [Tags]: the tag operations, the tag index and [SearchObjects].
    - [Buckets]: the bucket operations of internal/metadata/pebble_store.go.
    - [Multipart]: internal/metadata/pebble_multipart.go.
    - [System]: whole executions ([event], [run], [runs]) with WAL ticks and
      hard kills, and the invariant [inv] of all of them.
    - [MetricsRace]: [UpdateBucketMetrics] as two steps per thread,
      interleaved ([mstep]), and with the operations that take another mutex
      ([mstep_env]).
    - [Policy]: internal/bucket/policy_evaluation.go.
    - [Breaker]: internal/cluster/circuit_breaker.go.
    - [RateLimit]: internal/auth/rate_limiter.go.
    - [Acl]: internal/acl.

    A Go method becomes a function of the same name from the state to its
    outcome: [result] for [(value, error)], and the struct back when the method
    writes through its pointer argument.  [time.Now()] is an argument.  A method
    that holds a mutex from its first read to its last write is one step; where
    a claim is about what can happen between two steps the steps are separate
    ([MetricsRace], [Breaker.get_step]).

    ** What is shown

    - Executions: from a well-formed database every sequence of calls, WAL
      ticks and kills keeps the entries well formed and bucket names unique,
      whatever a kill leaves ([execution_invariant]); a kill leaves the state
      after a prefix of the calls since the last synced one ([crash_is_prefix]);
      nothing reappears in a deleted bucket ([deleted_bucket_stays_empty]);
      concurrent metric updates are all counted ([metrics_no_lost_update]).
    - Objects: what is put is read back, a delete is durable, writing a latest
      version demotes the others and never leaves two latest ones; the listings
      of versions and the compliance check see exactly what is stored.
    - Listings: each page is the first [maxKeys] results of the specification
      after the marker, the marker is the last result, and following the
      markers loses and repeats nothing, with and without a delimiter.
    - Tags: the index holds exactly the tags of the plain entries over
      executions of unversioned or latest writes, and the two search paths
      agree with a scan.
    - Multipart: the life of an upload, its parts in order, the stale cleanup.
    - Policy: the decision is AWS's; what a statement matches; [wildcardMatch]
      against the language of patterns; each negated operator against its
      positive one; IP conditions as address intervals.
    - Breaker and rate limiter: refinement of an automaton without counters,
      one breaker per node under races, at most twice the limit in any window,
      and a cleanup nobody can observe.
    - ACLs: what each canned ACL opens, and the ACL store per tenant.

    Theorems about stores are for every engine that satisfies [PebbleLaws];
    their witnesses run on [alist_pebble].

    ** Bounds and fuel

    - [delim_loop] runs with fuel [2 * n + 2] for [n] entries in range: every
      round consumes an entry or follows a jump, and a jump only moves forward.
      [ListObjectsDelimited_page] shows the result never runs out.
    - [wildcard_loop] runs with fuel [(|s|+2) * (|pattern|+|s|+2)];
      [wildcardMatch_glob] shows it always returns.
    - [ipv6_loop] reads two bytes or more per round, so nine rounds are enough.
    - The fuel of [list_pages], [delim_pages] and [search_pages] is the number
      of calls of the client; the theorems say how many are enough.
    - Counters of buckets and of the rate limiter are 64-bit ([int64]);
      [time.Sub] saturates ([time_sub]).
    - [sort.Slice] is not stable in Go; the theorems use only that the result
      is a sorted permutation.

    ** Not modelled

    I/O failures (a read of the engine fails only with not-found, a commit
    succeeds), logging, JSON text (a value is the struct it encodes, or not one),
    opening, closing, backup and the raw key-value methods of the store, and
    [GetStats] of the breaker.  [ToLower] and [EqualFold] are on ASCII.  The
    object manager, the disk layout and encryption, replication, cluster sync,
    the HTTP API, authentication, identity providers, lifecycle, inventory,
    notifications, metrics, settings, shares and the web console are outside.

    Next: the object manager's versioned deletes, retention and legal holds,
    quotas and multipart assembly on top of [System]; the clean-shutdown
    sentinel; anti-entropy of replicas. *)

From stdpp Require Import base gmap sets list strings sorting relations.
From Stdlib Require Import ZArith Lia.
From Stdlib Require Ascii.
Export (notations) Stdlib.Strings.Ascii.
Open Scope Z_scope.

(** ** Results: Go's [(T, error)] pairs as values *)

Inductive result (E A : Type) : Type :=
| Ok (a : A)
| Err (e : E).
Arguments Ok {E A} a.
Arguments Err {E A} e.

Declare Scope go_scope.
Delimit Scope go_scope with go.

(** [x ← e ;; k] style sequencing for fallible code. *)
Definition bind_result {E A B} (m : result E A) (k : A → result E B) : result E B :=
  match m with
  | Ok a => k a
  | Err e => Err e
  end.

Notation "'try' x ':=' m 'in' k" := (bind_result m (λ x, k))
  (at level 10, x pattern, m at level 100, k at level 200) : go_scope.
Open Scope go_scope.

(** ** Record update

    [r <| f := v |>] replaces the field [f].  An instance of [Eta] gives the
    record rebuilt from its projections; the setter of a field is obtained by
    abstracting that term over the projection. *)

Class Eta (R : Type) := eta : R → R.
Class Update {R T : Type} (f : R → T) := update : (T → T) → R → R.
#[export] Hint Mode Update - - ! : typeclass_instances.
Arguments update {R T} f {_} _ _ : simpl never.

Ltac derive_update R f :=
  let e := constr:(_ : Eta R) in
  let e := eval hnf in e in
  match eval pattern f in e with
  | ?g _ => exact (λ u r, g (λ r', u (f r')) r)
  end.
#[export] Hint Extern 0 (@Update ?R _ ?f) => derive_update R f : typeclass_instances.

Notation "r '<|' f ':=' v '|>'" := (update f (λ _, v) r)
  (at level 12, left associativity, format "r  '<|'  f  ':='  v  '|>'") : go_scope.

(** ** Decidable tests as booleans

    The code's conditions are translated with [bool_decide]; [go_simpl] turns
    the resulting hypotheses back into propositions and splits the branches. *)

Ltac go_step :=
  match goal with
  | H : Ok _ = Ok _ |- _ => injection H as H
  | H : Err _ = Err _ |- _ => injection H as H
  | H : Ok _ = Err _ |- _ => discriminate H
  | H : Err _ = Ok _ |- _ => discriminate H
  | H : Some _ = Some _ |- _ => injection H as H
  | H : (_, _) = (_, _) |- _ => injection H as H
  | H : bool_decide _ = true |- _ => apply bool_decide_eq_true in H
  | H : bool_decide _ = false |- _ => apply bool_decide_eq_false in H
  | H : andb _ _ = true |- _ => apply andb_prop in H as [? ?]
  | H : negb _ = true |- _ => apply negb_true_iff in H
  | H : negb _ = false |- _ => apply negb_false_iff in H
  | H : context [match ?x with Ok _ => _ | Err _ => _ end] |- _ => destruct x eqn:?
  | H : context [match ?x with Some _ => _ | None => _ end] |- _ => destruct x eqn:?
  | H : context [if ?b then _ else _] |- _ => destruct b eqn:?
  end.
Ltac go_simpl := repeat (go_step; subst; simpl in *); try done.

(** ** Lists *)

Section Lists.
Context {A : Type}.
Implicit Types (l : list A) (P : A → bool).

(** Go's [for ; cond; ] skipping loop: the suffix from the first element
    that fails the test. *)
Fixpoint drop_while P l : list A :=
  match l with
  | [] => []
  | x :: l' => if P x then drop_while P l' else l
  end.

Lemma drop_while_suffix P l : ∃ l1, l = l1 ++ drop_while P l ∧ Forall (λ x, P x = true) l1.
Proof.
  induction l as [|x l [l1 [IH HP]]]; simpl; [by exists []|].
  destruct (P x) eqn:E; [|by exists []].
  exists (x :: l1). split; [by rewrite IH at 1|by constructor].
Qed.

Lemma length_drop_while P l : (length (drop_while P l) ≤ length l)%nat.
Proof. induction l as [|x l IH]; simpl; [done|]. destruct (P x); simpl; lia. Qed.

Lemma drop_while_all P l : Forall (λ x, P x = true) l → drop_while P l = [].
Proof. induction 1 as [|x l Hx _ IH]; simpl; [done|]. by rewrite Hx. Qed.

Lemma drop_while_head P l x l' : drop_while P l = x :: l' → P x = false.
Proof.
  induction l as [|y l IH]; simpl; [done|]. destruct (P y) eqn:E; [done|].
  by intros [= -> _].
Qed.

Lemma drop_while_app P l1 l2 :
  Forall (λ x, P x = true) l1 → drop_while P (l1 ++ l2) = drop_while P l2.
Proof. induction 1 as [|x l Hx _ IH]; simpl; [done|]. by rewrite Hx. Qed.
End Lists.

(** ** [sort.Slice]

    Go's sort is not stable.  The model is a merge sort by "not [less] the
    other way round"; the theorems claim of its result only what every sort
    delivers, a permutation in which no element is [less] than an earlier one. *)

Section SortSlice.
Context {A : Type} (less : A → A → bool).

Definition sort_le (x y : A) : Prop := less y x = false.
Lemma sorted_weaken (R R' : A → A → Prop) l :
  (∀ x y, R x y → R' x y) → StronglySorted R l → StronglySorted R' l.
Proof.
  intros HR. induction 1 as [|x l Hs IH Hx]; constructor; [done|].
  eapply Forall_impl; [exact Hx|]. auto.
Qed.

#[export] Instance sort_le_dec : RelDecision sort_le.
Proof. intros x y. unfold sort_le. apply _. Defined.

Definition sort_slice (l : list A) : list A := merge_sort sort_le l.

Lemma sort_slice_perm l : sort_slice l ≡ₚ l.
Proof. apply merge_sort_Permutation. Qed.

Lemma elem_of_sort_slice l x : x ∈ sort_slice l ↔ x ∈ l.
Proof. by rewrite sort_slice_perm. Qed.

(** [less] is a strict weak order. *)
Class StrictWeak : Prop := {
  less_asym x y : less x y = true → less y x = false;
  less_neg_trans x y z : less y x = false → less z y = false → less z x = false
}.

Lemma sort_slice_sorted `{!StrictWeak} l :
  StronglySorted (λ x y, less y x = false) (sort_slice l).
Proof.
  assert (Total sort_le) as Htot.
  { intros x y. unfold sort_le. destruct (less y x) eqn:E; [right|by left]. by apply less_asym. }
  assert (Transitive sort_le) as Htr.
  { intros x y z Hxy Hyz. by eapply less_neg_trans. }
  apply (StronglySorted_merge_sort sort_le).
Qed.
End SortSlice.

(** ** The order of byte strings

    Go compares strings byte-wise, and so does Pebble's default comparer;
    [String.compare] is that comparison. *)

Definition blt (s t : string) : bool := String.ltb s t.
Definition ble (s t : string) : bool := String.leb s t.

Lemma compare_refl s : String.compare s s = Eq.
Proof. induction s as [|a s IH]; simpl; [done|]. unfold Ascii.compare. by rewrite N.compare_refl. Qed.

Lemma blt_spec s t : blt s t = true ↔ String.compare s t = Lt.
Proof. unfold blt, String.ltb. by destruct (String.compare s t). Qed.

Lemma ble_blt s t : ble s t = negb (blt t s).
Proof.
  unfold ble, blt, String.leb, String.ltb. rewrite (String.compare_antisym t s).
  by destruct (String.compare s t).
Qed.

Lemma blt_irrefl s : blt s s = false.
Proof. unfold blt, String.ltb. by rewrite compare_refl. Qed.

Lemma blt_trans s t u : blt s t = true → blt t u = true → blt s u = true.
Proof.
  rewrite !blt_spec. revert t u.
  induction s as [|a s IH]; intros [|b t] [|c u]; simpl; try done.
  unfold Ascii.compare.
  destruct (N.compare_spec (Ascii.N_of_ascii a) (Ascii.N_of_ascii b)) as [Hab|Hab|Hab]; try done;
  destruct (N.compare_spec (Ascii.N_of_ascii b) (Ascii.N_of_ascii c)) as [Hbc|Hbc|Hbc]; try done;
  destruct (N.compare_spec (Ascii.N_of_ascii a) (Ascii.N_of_ascii c)); try lia; eauto.
Qed.

Lemma blt_total s t : blt s t = false → blt t s = false → s = t.
Proof.
  unfold blt, String.ltb. rewrite (String.compare_antisym t s).
  destruct (String.compare s t) eqn:E; simpl; try done.
  intros _ _. by apply String.compare_eq_iff.
Qed.

Lemma blt_asym s t : blt s t = true → blt t s = false.
Proof.
  intros H. destruct (blt t s) eqn:E; [|done].
  pose proof (blt_trans _ _ _ H E) as H'. by rewrite blt_irrefl in H'.
Qed.

Lemma blt_ne s t : blt s t = true → s ≠ t.
Proof. intros H ->. by rewrite blt_irrefl in H. Qed.

Lemma blt_false_trans s t u : blt t s = false → blt t u = true → blt s u = true.
Proof.
  intros H1 H2. destruct (blt s t) eqn:E; [by eapply blt_trans|].
  by rewrite (blt_total _ _ E H1).
Qed.

Lemma blt_true_false s t u : blt s t = true → blt u t = false → blt s u = true.
Proof.
  intros H1 H2. destruct (blt t u) eqn:E; [by eapply blt_trans|].
  by rewrite (blt_total _ _ H2 E).
Qed.

Lemma blt_cons a s b t :
  blt (String a s) (String b t) = true ↔
  (Ascii.N_of_ascii a < Ascii.N_of_ascii b)%N ∨ (a = b ∧ blt s t = true).
Proof.
  rewrite !blt_spec. simpl. unfold Ascii.compare.
  destruct (N.compare_spec (Ascii.N_of_ascii a) (Ascii.N_of_ascii b)) as [H|H|H].
  - assert (a = b) as ->.
    { by rewrite <-(Ascii.ascii_N_embedding a), H, Ascii.ascii_N_embedding. }
    split; [by right|]. intros [?|[_ ?]]; [lia|done].
  - split; [by left|done].
  - split; [done|]. intros [?|[-> _]]; lia.
Qed.

(** ** Concatenation *)

Lemma app_nil_l_str s : "" +:+ s = s.
Proof. done. Qed.

Lemma app_nil_r_str s : s +:+ "" = s.
Proof. induction s as [|a s IH]; [done|]. change (String a (s +:+ "") = String a s). by rewrite IH. Qed.

Lemma app_cons_str a s t : String a s +:+ t = String a (s +:+ t).
Proof. done. Qed.

Lemma app_assoc_str s t u : (s +:+ t) +:+ u = s +:+ (t +:+ u).
Proof. induction s as [|a s IH]; [done|]. rewrite !app_cons_str. by rewrite IH. Qed.

Lemma length_app_str s t : String.length (s +:+ t) = (String.length s + String.length t)%nat.
Proof. induction s as [|a s IH]; [done|]. rewrite app_cons_str. simpl. by rewrite IH. Qed.

Lemma app_inv_head_str s t u : s +:+ t = s +:+ u → t = u.
Proof. apply (inj (String.append s)). Qed.

Lemma app_inj_length_str s t s' t' :
  s +:+ t = s' +:+ t' → String.length s = String.length s' → s = s' ∧ t = t'.
Proof.
  revert s'. induction s as [|a s IH]; intros [|b s']; try done.
  rewrite !app_cons_str. simpl. intros [= -> H] [= Hl]. by destruct (IH s' H Hl) as [-> ->].
Qed.

Lemma blt_app_common p s t : blt (p +:+ s) (p +:+ t) = blt s t.
Proof.
  induction p as [|a p IH]; [done|]. rewrite !app_cons_str. rewrite <-IH.
  apply eq_true_iff_eq. rewrite blt_cons. split; [intros [?|[_ ?]]; [lia|done]|by right].
Qed.

Lemma blt_empty s : blt s "" = false.
Proof. by destruct s. Qed.

Lemma filter_all {A} (P : A → Prop) `{∀ x, Decision (P x)} (l : list A) :
  Forall P l → filter P l = l.
Proof. induction 1; [done|]. by rewrite filter_cons_True, IHForall. Qed.

Lemma filter_none {A} (P : A → Prop) `{∀ x, Decision (P x)} (l : list A) :
  Forall (λ x, ¬ P x) l → filter P l = [].
Proof. induction 1; [done|]. by rewrite filter_cons_False. Qed.

Lemma list_filter_ext_Forall {A} (P Q : A → Prop) `{∀ x, Decision (P x), ∀ x, Decision (Q x)} (l : list A) :
  Forall (λ x, P x ↔ Q x) l → filter P l = filter Q l.
Proof.
  induction 1 as [|x l Hx _ IH]; [done|]. destruct (decide (P x)).
  - rewrite !filter_cons_True by tauto. by f_equal.
  - by rewrite !filter_cons_False by tauto.
Qed.

Lemma Forall_filter_incl {A} (Q P : A → Prop) `{∀ x, Decision (P x)} (l : list A) :
  Forall Q l → Forall Q (filter P l).
Proof. rewrite !Forall_forall. intros H' x [_ ?]%list_elem_of_filter. by apply H'. Qed.

(** ** Lists sorted by a string key *)

Section SortedBy.
Context {A : Type} (f : A → string).
Implicit Types (l : list A) (x y : A).

Definition sorted_by : list A → Prop := StronglySorted (λ x y, blt (f x) (f y) = true).

Lemma sorted_by_cons x l :
  sorted_by (x :: l) ↔ Forall (λ y, blt (f x) (f y) = true) l ∧ sorted_by l.
Proof.
  split; [intros H; inversion H; by subst|]. intros [? ?]. by constructor.
Qed.

Lemma sorted_by_app l1 l2 :
  sorted_by (l1 ++ l2) ↔
  sorted_by l1 ∧ sorted_by l2 ∧ (∀ x y, x ∈ l1 → y ∈ l2 → blt (f x) (f y) = true).
Proof.
  induction l1 as [|x l1 IH]; simpl.
  - split; [intros ?; split_and!; [constructor|done|set_solver]|tauto].
  - rewrite !sorted_by_cons, IH, Forall_app, !Forall_forall. set_solver.
Qed.

Lemma sorted_by_NoDup l : sorted_by l → NoDup (f <$> l).
Proof.
  induction l as [|x l IH]; [constructor|]. rewrite sorted_by_cons, fmap_cons, NoDup_cons.
  intros [H Hs]. split; [|by apply IH]. intros (y & E & Hy)%list_elem_of_fmap.
  rewrite Forall_forall in H. specialize (H y Hy). by rewrite E, blt_irrefl in H.
Qed.

Lemma sorted_by_filter (P : A → Prop) `{∀ x, Decision (P x)} l : sorted_by l → sorted_by (filter P l).
Proof.
  induction l as [|x l IH]; [done|]. intros [Hx Hs]%sorted_by_cons.
  destruct (decide (P x)); [rewrite filter_cons_True by done|rewrite filter_cons_False by done; auto].
  apply sorted_by_cons. split; [by apply Forall_filter_incl|auto].
Qed.

(** Skipping to [m] and then over [m] itself keeps exactly what is after [m]. *)
Lemma sorted_by_skip m l :
  sorted_by l →
  match drop_while (λ x, blt (f x) m) l with
  | x :: l' => if bool_decide (f x = m) then l' else x :: l'
  | [] => []
  end = filter (λ x, blt m (f x) = true) l.
Proof.
  induction l as [|x l IH]; [done|]. intros [Hx Hs]%sorted_by_cons. simpl.
  destruct (blt (f x) m) eqn:E.
  - rewrite filter_cons_False by (by rewrite (blt_asym _ _ E)). by apply IH.
  - case_bool_decide as Em.
    + subst m. rewrite filter_cons_False by (by rewrite blt_irrefl). symmetry. by apply filter_all.
    + assert (blt m (f x) = true) as Hm.
      { destruct (blt m (f x)) eqn:E'; [done|]. by rewrite (blt_total _ _ E' E) in Em. }
      rewrite filter_cons_True by done. f_equal. symmetry. apply filter_all.
      eapply Forall_impl; [exact Hx|]. intros y Hy. by eapply blt_trans.
Qed.

(** What is after the last element of a non-empty prefix is the rest. *)
Lemma sorted_by_after_prefix l1 x l2 :
  sorted_by (l1 ++ x :: l2) → filter (λ y, blt (f x) (f y) = true) (l1 ++ x :: l2) = l2.
Proof.
  intros (H1 & [H2 Hs]%sorted_by_cons & H12)%sorted_by_app. rewrite filter_app.
  assert (filter (λ y, blt (f x) (f y) = true) l1 = []) as ->.
  { apply filter_none, Forall_forall. intros y Hy.
    rewrite (blt_asym (f y) (f x)) by (apply H12; set_solver). done. }
  rewrite filter_cons_False by (by rewrite blt_irrefl). by apply filter_all.
Qed.
End SortedBy.

Create HintDb go_str.
Create Rewrite HintDb go_str.
#[export] Hint Resolve blt_irrefl blt_asym blt_ne blt_trans blt_total : go_str.
#[export] Hint Rewrite app_nil_l_str app_nil_r_str app_cons_str app_assoc_str : go_str.
