(* ===== verification/GoStrings.v ===== *)
(** * Go's [strings] package on byte strings

    A Go [string] is a sequence of bytes; it is modelled by [string], whose
    [ascii] characters are the 256 byte values.  The functions here are the
    ones the modelled packages call.  Go's index [-1] is [None]. *)

From S2P Require Import Prelude.
From stdpp Require Import base gmap sets list strings.
From Stdlib Require Import ZArith Lia.
Open Scope nat_scope.

Abbreviation len := String.length.

(** [s[n:]] and [s[:n]]. *)
Fixpoint s_from (n : nat) (s : string) : string :=
  match n, s with
  | S n', String _ s' => s_from n' s'
  | _, _ => s
  end.
Fixpoint s_to (n : nat) (s : string) : string :=
  match n, s with
  | S n', String a s' => String a (s_to n' s')
  | _, _ => ""
  end.

Definition HasPrefix (s p : string) : bool :=
  Nat.leb (len p) (len s) && String.eqb (s_to (len p) s) p.
Definition HasSuffix (s p : string) : bool :=
  Nat.leb (len p) (len s) && String.eqb (s_from (len s - len p) s) p.
Definition TrimPrefix (s p : string) : string :=
  if HasPrefix s p then s_from (len p) s else s.
Definition TrimSuffix (s p : string) : string :=
  if HasSuffix s p then s_to (len s - len p) s else s.

(** [strings.Index]: the first position where [sep] occurs. *)
Fixpoint Index (s sep : string) : option nat :=
  if HasPrefix s sep then Some 0
  else match s with
       | "" => None
       | String _ s' => S <$> Index s' sep
       end.
Definition Contains (s sep : string) : bool := bool_decide (is_Some (Index s sep)).

(** [strings.SplitN s sep n] for [n > 0]. *)
Fixpoint SplitN (n : nat) (s sep : string) : list string :=
  match n with
  | 0 => []
  | S n' =>
      match n' with
      | 0 => [s]
      | S _ => match Index s sep with
               | None => [s]
               | Some i => s_to i s :: SplitN n' (s_from (i + len sep) s) sep
               end
      end
  end.

(** No byte of [s] is [c]. *)
Fixpoint lacks (c : Ascii.ascii) (s : string) : bool :=
  match s with
  | "" => true
  | String a s' => negb (bool_decide (a = c)) && lacks c s'
  end.

(** ** Slices *)

Lemma s_to_from n s : s_to n s +:+ s_from n s = s.
Proof.
  revert s. induction n as [|n IH]; intros [|a s]; try done.
  simpl. rewrite app_cons_str. by rewrite IH.
Qed.

Lemma s_from_0 s : s_from 0 s = s.
Proof. by destruct s. Qed.

Lemma s_to_0 s : s_to 0 s = "".
Proof. by destruct s. Qed.

Lemma s_to_app p t : s_to (len p) (p +:+ t) = p.
Proof. induction p as [|a p IH]; [by destruct t|]. rewrite app_cons_str. simpl. by rewrite IH. Qed.

Lemma s_from_app p t : s_from (len p) (p +:+ t) = t.
Proof. induction p as [|a p IH]; [by destruct t|]. by rewrite app_cons_str. Qed.

Lemma length_s_to n s : n ≤ len s → len (s_to n s) = n.
Proof. revert s. induction n as [|n IH]; intros [|a s]; simpl; try lia. intros ?. rewrite IH; lia. Qed.

Lemma s_from_add m n s : s_from (m + n) s = s_from n (s_from m s).
Proof.
  revert s. induction m as [|m IH]; intros [|a s]; simpl; try done.
  all: by destruct n.
Qed.

Lemma s_to_app_le n p t : n ≤ len p → s_to n (p +:+ t) = s_to n p.
Proof.
  revert p. induction n as [|n IH]; intros p H; [by rewrite !s_to_0|].
  destruct p as [|a p]; simpl in H; [lia|].
  change (String a (s_to n (p +:+ t)) = String a (s_to n p)). rewrite IH; [done|lia].
Qed.

Lemma s_to_idem n s : s_to n (s_to n s) = s_to n s.
Proof. revert s. induction n as [|n IH]; intros [|a s]; simpl; [done..|]. by rewrite IH. Qed.

(** ** Prefixes *)

Lemma HasPrefix_spec s p : HasPrefix s p = true ↔ ∃ t, s = p +:+ t.
Proof.
  unfold HasPrefix. rewrite andb_true_iff, Nat.leb_le, String.eqb_eq. split.
  - intros [_ H]. exists (s_from (len p) s). rewrite <-H at 1. by rewrite s_to_from.
  - intros [t ->]. rewrite length_app_str, s_to_app. by split; [lia|].
Qed.

Lemma HasPrefix_app p t : HasPrefix (p +:+ t) p = true.
Proof. apply HasPrefix_spec. by exists t. Qed.

Lemma HasPrefix_refl s : HasPrefix s s = true.
Proof. apply HasPrefix_spec. exists "". by rewrite app_nil_r_str. Qed.

Lemma HasPrefix_empty s : HasPrefix s "" = true.
Proof. apply HasPrefix_spec. by exists s. Qed.

Lemma HasPrefix_app_common p s t : HasPrefix (p +:+ s) (p +:+ t) = HasPrefix s t.
Proof.
  apply eq_true_iff_eq. rewrite !HasPrefix_spec. split; intros [u H]; exists u.
  - rewrite app_assoc_str in H. by apply app_inv_head_str in H.
  - by rewrite H, app_assoc_str.
Qed.

Lemma HasPrefix_trans s p q : HasPrefix s p = true → HasPrefix p q = true → HasPrefix s q = true.
Proof.
  rewrite !HasPrefix_spec. intros [t ->] [u ->]. exists (u +:+ t). by rewrite app_assoc_str.
Qed.

Lemma HasPrefix_length s p : HasPrefix s p = true → len p ≤ len s.
Proof. rewrite HasPrefix_spec. intros [t ->]. rewrite length_app_str. lia. Qed.

Lemma HasPrefix_blt s p : HasPrefix s p = true → blt s p = false.
Proof.
  rewrite HasPrefix_spec. intros [t ->]. rewrite <-(app_nil_r_str p) at 2.
  by rewrite blt_app_common, blt_empty.
Qed.

Lemma HasPrefix_cons a s b p :
  HasPrefix (String a s) (String b p) = true ↔ a = b ∧ HasPrefix s p = true.
Proof.
  rewrite !HasPrefix_spec. split.
  - intros [t H]. rewrite app_cons_str in H. injection H as -> ->. split; [done|by exists t].
  - intros [-> [t ->]]. exists t. by rewrite app_cons_str.
Qed.

(** Two prefixes of the same string are comparable. *)
Lemma HasPrefix_same s p q :
  HasPrefix s p = true → HasPrefix s q = true → len p ≤ len q → HasPrefix q p = true.
Proof.
  revert p q. induction s as [|a s IH]; intros [|b p] [|c q] Hp Hq Hl;
    try apply HasPrefix_empty; simpl in Hl; try lia; try done.
  apply HasPrefix_cons in Hp as [<- Hp]. apply HasPrefix_cons in Hq as [<- Hq].
  apply HasPrefix_cons. split; [done|]. apply IH; [done..|lia].
Qed.

(** A string between two strings with prefix [p] has prefix [p]. *)
Lemma HasPrefix_between p s t u :
  HasPrefix s p = true → HasPrefix u p = true → blt t s = false → blt u t = false →
  HasPrefix t p = true.
Proof.
  revert s t u. induction p as [|c p IH]; intros s t u Hs Hu H1 H2; [apply HasPrefix_empty|].
  destruct s as [|a s]; [done|]. destruct u as [|b u]; [done|].
  apply HasPrefix_cons in Hs as [-> Hs]. apply HasPrefix_cons in Hu as [-> Hu].
  destruct t as [|d t]; [done|].
  destruct (N.lt_trichotomy (Ascii.N_of_ascii c) (Ascii.N_of_ascii d)) as [H|[H|H]].
  - rewrite (proj2 (blt_cons c u d t)) in H2; [done|by left].
  - assert (c = d) as <-.
    { by rewrite <-(Ascii.ascii_N_embedding c), H, Ascii.ascii_N_embedding. }
    apply HasPrefix_cons. split; [done|]. apply (IH s t u); try done.
    + destruct (blt t s) eqn:E; [|done]. rewrite (proj2 (blt_cons c t c s)) in H1; [done|by right].
    + destruct (blt u t) eqn:E; [|done]. rewrite (proj2 (blt_cons c u c t)) in H2; [done|by right].
  - rewrite (proj2 (blt_cons d t c s)) in H1; [done|by left].
Qed.

(** ** Suffixes *)

Lemma HasSuffix_spec s p : HasSuffix s p = true ↔ ∃ t, s = t +:+ p.
Proof.
  unfold HasSuffix. rewrite andb_true_iff, Nat.leb_le, String.eqb_eq. split.
  - intros [_ H]. exists (s_to (len s - len p) s). rewrite <-H at 2. by rewrite s_to_from.
  - intros [t ->]. rewrite length_app_str.
    replace (len t + len p - len p) with (len t) by lia. rewrite s_from_app. by split; [lia|].
Qed.

Lemma HasSuffix_app t p : HasSuffix (t +:+ p) p = true.
Proof. apply HasSuffix_spec. by exists t. Qed.

(** ** Index *)

Lemma Index_0 s sep : HasPrefix s sep = true → Index s sep = Some 0.
Proof. intros H. destruct s; simpl; by rewrite H. Qed.

Lemma Index_Some s sep i :
  Index s sep = Some i → s = s_to i s +:+ sep +:+ s_from (i + len sep) s ∧ i + len sep ≤ len s.
Proof.
  revert i. induction s as [|a s IH]; intros i; cbn [Index].
  - destruct (HasPrefix "" sep) eqn:E; [|done]. intros [= <-].
    apply HasPrefix_spec in E as [t E]. destruct sep; [|done]. by split.
  - destruct (HasPrefix (String a s) sep) eqn:E.
    + intros [= <-]. pose proof (HasPrefix_length _ _ E). apply HasPrefix_spec in E as [t E].
      rewrite s_to_0. split; [|lia]. rewrite E at 1. simpl. rewrite E, s_from_app. done.
    + destruct (Index s sep) as [j|] eqn:Ej; simpl; [|done]. intros [= <-].
      destruct (IH j eq_refl) as [H1 H2]. simpl. rewrite app_cons_str.
      split; [by rewrite <-H1|lia].
Qed.

(** The first occurrence only depends on the string up to its end. *)
Lemma Index_app_first s sep i t :
  Index s sep = Some i → Index (s_to (i + len sep) s +:+ t) sep = Some i.
Proof.
  revert i. induction s as [|a s IH]; intros i; cbn [Index].
  - destruct (HasPrefix "" sep) eqn:E; [|done]. intros [= <-].
    destruct sep; [|done]. rewrite s_to_0. apply Index_0, HasPrefix_empty.
  - destruct (HasPrefix (String a s) sep) eqn:E.
    + intros [= <-]. apply Index_0. apply HasPrefix_spec in E as [u ->].
      simpl. rewrite s_to_app. apply HasPrefix_app.
    + destruct (Index s sep) as [j|] eqn:Ej; simpl; [|done]. intros [= <-].
      pose proof (Index_Some _ _ _ Ej) as [_ Hl].
      change (s_to (S j + len sep) (String a s) +:+ t) with (String a (s_to (j + len sep) s +:+ t)).
      cbn [Index].
      destruct (HasPrefix (String a (s_to (j + len sep) s +:+ t)) sep) eqn:E'.
      * exfalso. assert (HasPrefix (String a s) sep = true) as ?; [|congruence].
        rewrite <-(s_to_from (j + len sep) s).
        destruct sep as [|b sep]; [apply HasPrefix_empty|].
        apply HasPrefix_cons in E' as [<- E']. apply HasPrefix_cons. split; [done|].
        eapply HasPrefix_trans; [apply HasPrefix_app|].
        eapply HasPrefix_same; [exact E'|apply HasPrefix_app|].
        rewrite length_s_to; simpl in *; lia.
      * by rewrite (IH j eq_refl).
Qed.

(** ** Separators *)

Lemma lacks_app c s t : lacks c (s +:+ t) = lacks c s && lacks c t.
Proof.
  induction s as [|a s IH]; [done|]. rewrite app_cons_str. simpl. rewrite IH.
  by rewrite andb_assoc.
Qed.

Lemma lacks_cons c a s : lacks c (String a s) = true ↔ a ≠ c ∧ lacks c s = true.
Proof. simpl. rewrite andb_true_iff, negb_true_iff, bool_decide_eq_false. done. Qed.

Lemma lacks_split_first c s t s' t' :
  lacks c s = true → lacks c s' = true →
  s +:+ String c t = s' +:+ String c t' → s = s' ∧ t = t'.
Proof.
  revert s'. induction s as [|a s IH]; intros [|b s']; rewrite ?lacks_cons, ?app_cons_str.
  - by intros _ _ [= ->].
  - by intros _ [? _] [= <- _].
  - by intros [? _] _ [= -> _].
  - intros [_ H1] [_ H2] [= -> H]. by destruct (IH s' H1 H2 H) as [-> ->].
Qed.

Lemma lacks_split_last c s t s' t' :
  lacks c t = true → lacks c t' = true →
  s +:+ String c t = s' +:+ String c t' → s = s' ∧ t = t'.
Proof.
  assert (∀ u v w, lacks c w = true → u +:+ String c v = w → False) as Hno.
  { intros u v w Hw <-. rewrite lacks_app in Hw. apply andb_prop in Hw as [_ Hw].
    by apply lacks_cons in Hw as [? _]. }
  revert s'. induction s as [|a s IH]; intros [|b s'] H1 H2; rewrite ?app_cons_str.
  - by intros [= ->].
  - intros [= _ H]. by destruct (Hno s' t' t).
  - intros [= _ H]. by destruct (Hno s t t').
  - intros [= -> H]. by destruct (IH s' H1 H2 H) as [-> ->].
Qed.

Lemma HasPrefix_char s c p : HasPrefix s (String c p) = true → ∃ t, s = String c t.
Proof. rewrite HasPrefix_spec. intros [t ->]. by exists (p +:+ t). Qed.

Lemma Index_char_lacks c s t : lacks c s = true → Index (s +:+ String c t) (String c "") = Some (len s).
Proof.
  induction s as [|a s IH]; intros H.
  - apply Index_0. rewrite app_nil_l_str. apply HasPrefix_cons. split; [done|apply HasPrefix_empty].
  - apply lacks_cons in H as [H1 H2]. rewrite app_cons_str. cbn [Index].
    destruct (HasPrefix _ _) eqn:E; [by apply HasPrefix_cons in E as [-> _]|].
    by rewrite IH.
Qed.

#[export] Hint Resolve HasPrefix_app HasPrefix_refl HasPrefix_empty HasPrefix_trans : go_str.
