(* ===== verification/MetaTypes.v ===== *)
(** * The metadata records ([internal/metadata/types.go], [store.go])

    One record per Go struct, the fields prefixed with the struct's initials
    ([om_] for [ObjectMetadata], [bm_] for [BucketMetadata], ...).

    - A [time.Time] is its instant in nanoseconds since the Unix epoch;
      [zero_time] is Go's zero value (January 1 of year 1, UTC).
    - A nil-able pointer is an [option].  A [map[string]string] is a [gmap]:
      the code never distinguishes a nil map from an empty one (it ranges over
      it, takes its [len], or stores it in a JSON field with [omitempty]).
    - An [interface{}] holding decoded JSON is [iface]. *)

From S2P Require Import Prelude.
From stdpp Require Import base gmap list strings.
From Stdlib Require Import ZArith.
Open Scope Z_scope.

Abbreviation time := Z (only parsing).
Definition second : Z := 1000000000.

(** [t.Sub(u)], and [time.Since(u)] at [t]: saturating. *)
Definition time_sub (t u : time) : Z := Z.max (- 2^63) (Z.min (2^63 - 1) (t - u)).
(** Go's zero [time.Time] as nanoseconds relative to the Unix epoch. *)
Definition zero_time : time := -62135596800 * second.
Definition IsZero (t : time) : bool := bool_decide (t = zero_time).
(** [t.Unix()] rounds towards minus infinity. *)
Definition Unix (t : time) : Z := t / second.
Definition After (t u : time) : bool := u <? t.
Definition Before (t u : time) : bool := t <? u.

Inductive iface : Type :=
| INil
| IBool (b : bool)
| INum (n : Z)
| IString (s : string)
| IStrings (ss : list string)
| IList (vs : list iface)
| IMap (kvs : list (string * iface)).

(** ** Errors ([store.go]) *)

Inductive StoreError : Type :=
| ErrBucketNotFound
| ErrBucketAlreadyExists
| ErrBucketNotEmpty
| ErrObjectNotFound
| ErrObjectAlreadyExists
| ErrInvalidKey
| ErrInvalidBucketName
| ErrUploadNotFound
| ErrPartNotFound
| ErrVersionNotFound
| ErrMsg (msg : string).
#[export] Instance StoreError_eq_dec : EqDecision StoreError.
Proof. solve_decision. Defined.

(** ** Objects *)

Record RetentionMetadata := mkRetention {
  rm_Mode : string;
  rm_RetainUntilDate : time;
  rm_Days : option Z;
  rm_Years : option Z
}.

Record Owner := mkOwner { ow_ID : string; ow_DisplayName : string }.
Record Grantee := mkGrantee {
  ge_Type : string; ge_ID : string; ge_DisplayName : string;
  ge_EmailAddress : string; ge_URI : string
}.
Record Grant := mkGrant { gr_Grantee : option Grantee; gr_Permission : string }.
Record ACLMetadata := mkACL { ac_Owner : option Owner; ac_Grants : list Grant }.

Record ObjectMetadata := mkObject {
  om_Bucket : string;
  om_Key : string;
  om_VersionID : string;
  om_IsLatest : bool;
  om_Size : Z;
  om_LastModified : time;
  om_ETag : string;
  om_ContentType : string;
  om_StorageClass : string;
  om_ContentDisposition : string;
  om_ContentEncoding : string;
  om_CacheControl : string;
  om_ContentLanguage : string;
  om_Metadata : gmap string string;
  om_Tags : gmap string string;
  om_Retention : option RetentionMetadata;
  om_LegalHold : bool;
  om_ACL : option ACLMetadata;
  om_ChecksumAlgorithm : string;
  om_ChecksumValue : string;
  om_RestoreStatus : string;
  om_RestoreExpiresAt : option time;
  om_SSEAlgorithm : string;
  om_SSEKeyID : string;
  om_UploadID : string;
  om_TenantID : string;
  om_CreatedAt : time;
  om_UpdatedAt : time
}.
#[export] Instance eta_object : Eta ObjectMetadata := λ o, {|
  om_Bucket := om_Bucket o; om_Key := om_Key o; om_VersionID := om_VersionID o;
  om_IsLatest := om_IsLatest o; om_Size := om_Size o; om_LastModified := om_LastModified o;
  om_ETag := om_ETag o; om_ContentType := om_ContentType o; om_StorageClass := om_StorageClass o;
  om_ContentDisposition := om_ContentDisposition o; om_ContentEncoding := om_ContentEncoding o;
  om_CacheControl := om_CacheControl o; om_ContentLanguage := om_ContentLanguage o;
  om_Metadata := om_Metadata o; om_Tags := om_Tags o; om_Retention := om_Retention o;
  om_LegalHold := om_LegalHold o; om_ACL := om_ACL o;
  om_ChecksumAlgorithm := om_ChecksumAlgorithm o; om_ChecksumValue := om_ChecksumValue o;
  om_RestoreStatus := om_RestoreStatus o; om_RestoreExpiresAt := om_RestoreExpiresAt o;
  om_SSEAlgorithm := om_SSEAlgorithm o; om_SSEKeyID := om_SSEKeyID o;
  om_UploadID := om_UploadID o; om_TenantID := om_TenantID o;
  om_CreatedAt := om_CreatedAt o; om_UpdatedAt := om_UpdatedAt o |}.

(** An [ObjectMetadata] literal: Go zeroes the fields it does not mention. *)
Definition zero_object : ObjectMetadata :=
  mkObject "" "" "" false 0 zero_time "" "" "" "" "" "" "" ∅ ∅ None false None
    "" "" "" None "" "" "" "" zero_time zero_time.

Record ObjectVersion := mkVersion {
  ov_VersionID : string;
  ov_IsLatest : bool;
  ov_Key : string;
  ov_Size : Z;
  ov_ETag : string;
  ov_LastModified : time;
  ov_StorageClass : string;
  ov_OwnerID : string
}.

(** ** Multipart uploads *)

Record MultipartUploadMetadata := mkUpload {
  mu_UploadID : string;
  mu_Bucket : string;
  mu_Key : string;
  mu_Initiated : time;
  mu_StorageClass : string;
  mu_Metadata : gmap string string;
  mu_ContentType : string;
  mu_TenantID : string;
  mu_OwnerID : string
}.
#[export] Instance eta_upload : Eta MultipartUploadMetadata := λ u, {|
  mu_UploadID := mu_UploadID u; mu_Bucket := mu_Bucket u; mu_Key := mu_Key u;
  mu_Initiated := mu_Initiated u; mu_StorageClass := mu_StorageClass u;
  mu_Metadata := mu_Metadata u; mu_ContentType := mu_ContentType u;
  mu_TenantID := mu_TenantID u; mu_OwnerID := mu_OwnerID u |}.

Record PartMetadata := mkPart {
  pm_UploadID : string;
  pm_PartNumber : Z;
  pm_Size : Z;
  pm_ETag : string;
  pm_LastModified : time
}.
#[export] Instance eta_part : Eta PartMetadata := λ p, {|
  pm_UploadID := pm_UploadID p; pm_PartNumber := pm_PartNumber p; pm_Size := pm_Size p;
  pm_ETag := pm_ETag p; pm_LastModified := pm_LastModified p |}.

(** ** Bucket configuration *)

Record VersioningMetadata := mkVersioning { ve_Enabled : bool; ve_Status : string; ve_MFADelete : bool }.
Record ObjectLockRuleMetadata := mkLockRule { lr_DefaultRetention : option RetentionMetadata }.
Record ObjectLockMetadata := mkObjectLock { ol_Enabled : bool; ol_Rule : option ObjectLockRuleMetadata }.

Record PolicyStatement := mkStatement {
  ps_Sid : string;
  ps_Effect : string;
  ps_Principal : iface;
  ps_Action : iface;
  ps_Resource : iface;
  ps_Condition : list (string * iface)
}.
Record PolicyMetadata := mkPolicy { po_Version : string; po_Statement : list PolicyStatement }.

Record LifecycleAnd := mkLifecycleAnd { la_Prefix : string; la_Tags : gmap string string }.
Record LifecycleFilter := mkLifecycleFilter {
  lf_Prefix : string; lf_Tags : gmap string string; lf_And : option LifecycleAnd }.
Record LifecycleExpiration := mkExpiration {
  le_Days : Z; le_Date : string; le_ExpiredObjectDeleteMarker : bool }.
Record LifecycleTransition := mkTransition { lt_Days : Z; lt_Date : string; lt_StorageClass : string }.
Record NoncurrentTransition := mkNoncurrentTransition { nt_NoncurrentDays : Z; nt_StorageClass : string }.
Record LifecycleRule := mkLifecycleRule {
  lc_ID : string;
  lc_Status : string;
  lc_Filter : option LifecycleFilter;
  lc_Expiration : option LifecycleExpiration;
  lc_Transitions : list LifecycleTransition;
  lc_NoncurrentVersionExpiration : option Z;
  lc_NoncurrentVersionTransitions : list NoncurrentTransition;
  lc_AbortIncompleteMultipartUpload : option Z
}.
Record LifecycleMetadata := mkLifecycle { lm_Rules : list LifecycleRule }.

Record CORSRule := mkCORSRule {
  cr_ID : string; cr_AllowedOrigins : list string; cr_AllowedMethods : list string;
  cr_AllowedHeaders : list string; cr_ExposeHeaders : list string; cr_MaxAgeSeconds : Z }.
Record SSEConfig := mkSSE { ss_SSEAlgorithm : string; ss_KMSMasterKeyID : string }.
Record EncryptionRule := mkEncryptionRule {
  er_ApplyServerSideEncryptionByDefault : option SSEConfig; er_BucketKeyEnabled : bool }.
Record PublicAccessBlockMetadata := mkPAB {
  pb_BlockPublicAcls : bool; pb_IgnorePublicAcls : bool;
  pb_BlockPublicPolicy : bool; pb_RestrictPublicBuckets : bool }.

Record WebsiteRoutingConditionMetadata := mkRoutingCondition {
  wc_HTTPErrorCodeReturnedEquals : string; wc_KeyPrefixEquals : string }.
Record WebsiteRoutingRedirectMetadata := mkRoutingRedirect {
  wd_HostName : string; wd_HTTPRedirectCode : string; wd_Protocol : string;
  wd_ReplaceKeyPrefixWith : string; wd_ReplaceKeyWith : string }.
Record WebsiteRoutingRuleMetadata := mkRoutingRule {
  wr_Condition : WebsiteRoutingConditionMetadata; wr_Redirect : WebsiteRoutingRedirectMetadata }.
Record WebsiteMetadata := mkWebsite {
  we_IndexDocument : string; we_ErrorDocument : string;
  we_RoutingRules : list WebsiteRoutingRuleMetadata }.

Record NotificationFilterMetadata := mkNotificationFilter { nf_Prefix : string; nf_Suffix : string }.
Record NotificationTargetMetadata := mkNotificationTarget {
  nt_ID : string; nt_Endpoint : string; nt_Events : list string;
  nt_Filter : option NotificationFilterMetadata }.
Record NotificationMetadata := mkNotification {
  no_TopicConfigurations : list NotificationTargetMetadata;
  no_QueueConfigurations : list NotificationTargetMetadata;
  no_LambdaConfigurations : list NotificationTargetMetadata }.
Record LoggingMetadata := mkLogging { lg_TargetBucket : string; lg_TargetPrefix : string }.

Record BucketQuota := mkQuota { bq_MaxSizeBytes : Z; bq_MaxObjectCount : Z }.
Record HAReplicaNode := mkReplica {
  ha_NodeID : string; ha_Status : string; ha_Progress : Z; ha_SyncedAt : time }.
Record BucketHA := mkHA { ha_PrimaryNodeID : string; ha_ReplicaNodes : list HAReplicaNode }.

Record BucketMetadata := mkBucket {
  bm_Name : string;
  bm_TenantID : string;
  bm_OwnerID : string;
  bm_OwnerType : string;
  bm_Region : string;
  bm_IsPublic : bool;
  bm_CreatedAt : time;
  bm_UpdatedAt : time;
  bm_Versioning : option VersioningMetadata;
  bm_ObjectLock : option ObjectLockMetadata;
  bm_Policy : option PolicyMetadata;
  bm_Lifecycle : option LifecycleMetadata;
  bm_CORS : option (list CORSRule);
  bm_Encryption : option (list EncryptionRule);
  bm_PublicAccessBlock : option PublicAccessBlockMetadata;
  bm_OwnershipControls : string;
  bm_Website : option WebsiteMetadata;
  bm_Notification : option NotificationMetadata;
  bm_Logging : option LoggingMetadata;
  bm_Tags : gmap string string;
  bm_Metadata : gmap string string;
  bm_ObjectCount : Z;
  bm_TotalSize : Z;
  bm_Quota : option BucketQuota;
  bm_HA : option BucketHA
}.
#[export] Instance eta_bucket : Eta BucketMetadata := λ b, {|
  bm_Name := bm_Name b; bm_TenantID := bm_TenantID b; bm_OwnerID := bm_OwnerID b;
  bm_OwnerType := bm_OwnerType b; bm_Region := bm_Region b; bm_IsPublic := bm_IsPublic b;
  bm_CreatedAt := bm_CreatedAt b; bm_UpdatedAt := bm_UpdatedAt b;
  bm_Versioning := bm_Versioning b; bm_ObjectLock := bm_ObjectLock b; bm_Policy := bm_Policy b;
  bm_Lifecycle := bm_Lifecycle b; bm_CORS := bm_CORS b; bm_Encryption := bm_Encryption b;
  bm_PublicAccessBlock := bm_PublicAccessBlock b; bm_OwnershipControls := bm_OwnershipControls b;
  bm_Website := bm_Website b; bm_Notification := bm_Notification b; bm_Logging := bm_Logging b;
  bm_Tags := bm_Tags b; bm_Metadata := bm_Metadata b; bm_ObjectCount := bm_ObjectCount b;
  bm_TotalSize := bm_TotalSize b; bm_Quota := bm_Quota b; bm_HA := bm_HA b |}.

Definition zero_bucket : BucketMetadata :=
  mkBucket "" "" "" "" "" false zero_time zero_time None None None None None None None ""
    None None None ∅ ∅ 0 0 None None.

(** ** Listing results and filters ([store.go]) *)

Record DelimitedListResult := mkDelimited {
  dl_Objects : list ObjectMetadata;
  dl_CommonPrefixes : list string;
  dl_NextMarker : string;
  dl_IsTruncated : bool
}.
#[export] Instance eta_delimited : Eta DelimitedListResult := λ r, {|
  dl_Objects := dl_Objects r; dl_CommonPrefixes := dl_CommonPrefixes r;
  dl_NextMarker := dl_NextMarker r; dl_IsTruncated := dl_IsTruncated r |}.

Record ObjectFilter := mkFilter {
  of_ContentTypes : list string;
  of_MinSize : option Z;
  of_MaxSize : option Z;
  of_ModifiedAfter : option time;
  of_ModifiedBefore : option time;
  of_Tags : gmap string string
}.

(** ** Stored values

    Every value the store writes is the JSON encoding of one of these structs,
    or the empty byte string of an index entry.  [Value] keeps the struct:
    [json.Marshal] is the constructor and [json.Unmarshal] into a struct is the
    corresponding projection.  Decoding a value of another family is an error;
    the key families never mix ([ObjectStore.wf_store]). *)
Inductive Value : Type :=
| VObject (o : ObjectMetadata)
| VBucket (b : BucketMetadata)
| VUpload (u : MultipartUploadMetadata)
| VPart (p : PartMetadata)
| VEmpty.

Definition unmarshal_object (v : Value) : option ObjectMetadata :=
  match v with VObject o => Some o | _ => None end.
Definition unmarshal_bucket (v : Value) : option BucketMetadata :=
  match v with VBucket b => Some b | _ => None end.
Definition unmarshal_upload (v : Value) : option MultipartUploadMetadata :=
  match v with VUpload u => Some u | _ => None end.
Definition unmarshal_part (v : Value) : option PartMetadata :=
  match v with VPart p => Some p | _ => None end.

(** ** 64-bit integers *)

Definition int64 (z : Z) : Z := (z + 2^63) mod 2^64 - 2^63.
Definition is_int64 (z : Z) : Prop := -2^63 ≤ z < 2^63.

Lemma int64_bounds z : is_int64 (int64 z).
Proof. unfold is_int64, int64. pose proof (Z.mod_pos_bound (z + 2^63) (2^64)). lia. Qed.

Lemma int64_id z : is_int64 z → int64 z = z.
Proof. unfold is_int64, int64. intros H. rewrite Z.mod_small; lia. Qed.
