(* ===== verification/Keys.v ===== *)
(** * The key scheme of the metadata store ([internal/metadata/keys.go])

    Every entry of the store lives under a textual key
    [family:component:...:component].  This file has the key constructors, the
    prefix bound of a scan ([prefixEnd]) and the in-memory object filters,
    with the facts the store relies on: a scan bounded by [prefixEnd] sees
    exactly the keys with the prefix, the families are disjoint, and a key
    determines its components as long as the components that must not contain
    the separator do not. *)

From S2P Require Import Prelude GoStrings MetaTypes.
From stdpp Require Import base gmap sets list strings.
From Stdlib Require Import ZArith Lia DecimalString DecimalN.
Open Scope Z_scope.

Definition colon : Ascii.ascii := ":"%char.

(** ** Key constructors *)

Definition bucketKey (tenantID name : string) : string :=
  "bucket:" +:+ tenantID +:+ ":" +:+ name.
Definition bucketListPrefix (tenantID : string) : string :=
  "bucket:" +:+ tenantID +:+ ":".
Definition objectKey (bucket key : string) : string :=
  "obj:" +:+ bucket +:+ ":" +:+ key.
Definition objectVersionKey (bucket key versionID : string) : string :=
  "version:" +:+ bucket +:+ ":" +:+ key +:+ ":" +:+ versionID.
(** The prefix [version:bucket:] that the version scans write inline. *)
Definition versionListPrefix (bucket : string) : string :=
  "version:" +:+ bucket +:+ ":".
Definition versionKeyPrefix (bucket key : string) : string :=
  "version:" +:+ bucket +:+ ":" +:+ key +:+ ":".
Definition objectListPrefix (bucket : string) : string :=
  "obj:" +:+ bucket +:+ ":".
Definition objectPrefixKey (bucket prefix : string) : string :=
  "obj:" +:+ bucket +:+ ":" +:+ prefix.
Definition multipartUploadKey (uploadID : string) : string :=
  "multipart:" +:+ uploadID.
Definition multipartListPrefix (bucket : string) : string :=
  "multipart_idx:" +:+ bucket +:+ ":".
Definition multipartIndexKey (bucket uploadID : string) : string :=
  "multipart_idx:" +:+ bucket +:+ ":" +:+ uploadID.

(** [%05d]: sign, then decimal digits zero-padded so that the field is at
    least five wide. *)
Definition dec (n : N) : string := NilEmpty.string_of_uint (N.to_uint n).
Fixpoint zeros (n : nat) : string :=
  match n with O => "" | S n' => String "0" (zeros n') end.
Definition pad (w : nat) (s : string) : string := zeros (w - len s) +:+ s.
Definition fmt_05d (z : Z) : string :=
  if z <? 0 then "-" +:+ pad 4 (dec (Z.to_N (- z))) else pad 5 (dec (Z.to_N z)).

Definition partKey (uploadID : string) (partNumber : Z) : string :=
  "part:" +:+ uploadID +:+ ":" +:+ fmt_05d partNumber.
Definition partListPrefix (uploadID : string) : string :=
  "part:" +:+ uploadID +:+ ":".
Definition tagIndexKey (bucket tagKey tagValue objectKey : string) : string :=
  "tag_idx:" +:+ bucket +:+ ":" +:+ tagKey +:+ ":" +:+ tagValue +:+ ":" +:+ objectKey.
Definition tagIndexPrefix (bucket tagKey tagValue : string) : string :=
  "tag_idx:" +:+ bucket +:+ ":" +:+ tagKey +:+ ":" +:+ tagValue +:+ ":".

(** The object name of a metadata key: the third of [SplitN(key, ":", 3)]. *)
Definition extractObjectKeyFromKey (key : string) : string :=
  match SplitN 3 key ":" with
  | [_; _; k] => k
  | _ => ""
  end.

(** ** Filters *)

Definition matchesTags (objectTags requiredTags : gmap string string) : bool :=
  forallb (λ kv, bool_decide (objectTags !! kv.1 = Some kv.2)) (map_to_list requiredTags).

Definition matchesFilter (obj : ObjectMetadata) (filter : option ObjectFilter) : bool :=
  match filter with
  | None => true
  | Some f =>
      (match of_ContentTypes f with
       | [] => true
       | cts => existsb (HasPrefix (om_ContentType obj)) cts
       end) &&
      (match of_MinSize f with Some m => negb (om_Size obj <? m) | None => true end) &&
      (match of_MaxSize f with Some m => negb (m <? om_Size obj) | None => true end) &&
      (match of_ModifiedAfter f with Some t => After (om_LastModified obj) t | None => true end) &&
      (match of_ModifiedBefore f with Some t => Before (om_LastModified obj) t | None => true end) &&
      matchesTags (om_Tags obj) (of_Tags f)
  end.

Definition hasPrefix (s prefix : string) : bool :=
  String.eqb prefix "" || (Nat.leb (len prefix) (len s) && String.eqb (s_to (len prefix) s) prefix).

(** ** Scan bounds ([pebble_store.go]) *)

Definition ascii_inc (a : Ascii.ascii) : Ascii.ascii :=
  Ascii.ascii_of_N ((Ascii.N_of_ascii a + 1) mod 256).

(** [prefixEnd]: walk from the last byte, increment it, and stop at the first
    byte that does not wrap to 0; what follows it is cut off. *)
Fixpoint prefixEnd_loop (rev_bytes : list Ascii.ascii) : option (list Ascii.ascii) :=
  match rev_bytes with
  | [] => None
  | b :: rest =>
      let b' := ascii_inc b in
      if bool_decide (b' ≠ Ascii.zero) then Some (rev (b' :: rest)) else prefixEnd_loop rest
  end.
Definition prefixEnd (prefix : string) : option string :=
  String.string_of_list_ascii <$> prefixEnd_loop (rev (String.list_ascii_of_string prefix)).

(** ** [prefixEnd] bounds exactly the keys with the prefix *)

Lemma ascii_N_inj a b : Ascii.N_of_ascii a = Ascii.N_of_ascii b → a = b.
Proof. intros H. by rewrite <-(Ascii.ascii_N_embedding a), H, Ascii.ascii_N_embedding. Qed.

Lemma ascii_inc_spec a :
  (ascii_inc a = Ascii.zero ∧ Ascii.N_of_ascii a = 255%N) ∨
  (ascii_inc a ≠ Ascii.zero ∧ Ascii.N_of_ascii (ascii_inc a) = (Ascii.N_of_ascii a + 1)%N).
Proof.
  assert (Ascii.N_of_ascii a < 256)%N by apply Ascii.N_ascii_bounded.
  unfold ascii_inc. destruct (decide (Ascii.N_of_ascii a = 255)%N) as [E|E].
  - left. rewrite E. done.
  - right. rewrite N.mod_small by lia. rewrite Ascii.N_ascii_embedding by lia. split; [|done].
    intros H'. apply (f_equal Ascii.N_of_ascii) in H'.
    rewrite Ascii.N_ascii_embedding in H' by lia. change (Ascii.N_of_ascii Ascii.zero) with 0%N in H'. lia.
Qed.

(** The same bound, computed from the front. *)
Fixpoint bound_above (s : string) : option string :=
  match s with
  | "" => None
  | String a s' =>
      match bound_above s' with
      | Some e => Some (String a e)
      | None => if bool_decide (ascii_inc a ≠ Ascii.zero) then Some (String (ascii_inc a) "") else None
      end
  end.

Lemma prefixEnd_loop_snoc l a :
  prefixEnd_loop (l ++ [a]) =
  match prefixEnd_loop l with
  | Some e => Some (a :: e)
  | None => if bool_decide (ascii_inc a ≠ Ascii.zero) then Some [ascii_inc a] else None
  end.
Proof.
  induction l as [|b l IH]; [done|]. simpl.
  destruct (bool_decide (ascii_inc b ≠ Ascii.zero)); [|exact IH].
  f_equal. by rewrite rev_app_distr.
Qed.

Lemma prefixEnd_bound s : prefixEnd s = bound_above s.
Proof.
  unfold prefixEnd. induction s as [|a s IH]; [done|]. simpl.
  rewrite prefixEnd_loop_snoc, <-IH.
  destruct (prefixEnd_loop _); simpl; [done|]. by case_bool_decide.
Qed.

Lemma blt_cons_false a s b t :
  blt (String a s) (String b t) = false ↔
  (Ascii.N_of_ascii b < Ascii.N_of_ascii a)%N ∨ (a = b ∧ blt s t = false).
Proof.
  destruct (blt (String a s) (String b t)) eqn:E.
  - apply blt_cons in E. split; [done|]. intros [?|[? ?]]; destruct E as [?|[? ?]]; subst; try lia; congruence.
  - split; [intros _|done].
    destruct (N.lt_trichotomy (Ascii.N_of_ascii a) (Ascii.N_of_ascii b)) as [H|[H|H]]; [| |by left].
    + rewrite (proj2 (blt_cons a s b t)) in E; [done|by left].
    + apply ascii_N_inj in H as ->. right. split; [done|]. destruct (blt s t) eqn:E'; [|done].
      rewrite (proj2 (blt_cons b s b t)) in E; [done|by right].
Qed.

Lemma bound_above_spec p k :
  (blt k p = false ∧ match bound_above p with Some e => blt k e = true | None => True end)
  ↔ HasPrefix k p = true.
Proof.
  revert k. induction p as [|a p IH]; intros k.
  { rewrite blt_empty. split; [by intros _; apply HasPrefix_empty|by split]. }
  destruct k as [|b k].
  { split; [|done]. intros [H _]. done. }
  rewrite HasPrefix_cons, blt_cons_false. simpl.
  destruct (bound_above p) as [e|] eqn:Ee.
  - rewrite blt_cons. rewrite <-IH. split.
    + intros [[?|[-> ?]] [?|[? ?]]]; subst; try lia; done.
    + intros [-> [? ?]]. split; right; done.
  - destruct (ascii_inc_spec a) as [[Hz Ha]|[Hz Ha]].
    + rewrite bool_decide_eq_false_2 by tauto. rewrite <-IH.
      assert (Ascii.N_of_ascii b < 256)%N by apply Ascii.N_ascii_bounded.
      split; [intros [[?|[-> ?]] _]; [lia|done]|]. intros [-> [? _]]. split; [right|]; done.
    + rewrite bool_decide_eq_true_2 by done. rewrite blt_cons, blt_empty, Ha, <-IH. split.
      * intros [[?|[-> ?]] [?|[_ ?]]]; try lia; done.
      * intros [-> [? _]]. split; [right; done|left; lia].
Qed.

Lemma prefixEnd_spec p k :
  (blt k p = false ∧ match prefixEnd p with Some e => blt k e = true | None => True end)
  ↔ HasPrefix k p = true.
Proof. rewrite prefixEnd_bound. apply bound_above_spec. Qed.

(** Among the keys that are not before [p], the ones below its bound are the
    ones with prefix [p]. *)
Lemma prefixEnd_skip p e k :
  prefixEnd p = Some e → blt k p = false → blt k e = HasPrefix k p.
Proof. intros He Hk. apply eq_true_iff_eq. rewrite <-(prefixEnd_spec p k), He, Hk. tauto. Qed.

Lemma bound_above_Some_app p s e : bound_above p = Some e → is_Some (bound_above (p +:+ s)).
Proof.
  revert e. induction p as [|a p IH]; intros e; [done|]. rewrite app_cons_str. simpl.
  destruct (bound_above p) as [e'|].
  - intros _. destruct (IH e' eq_refl) as [x ->]. done.
  - intros ?. destruct (bound_above (p +:+ s)); [done|]. by case_bool_decide.
Qed.

Lemma prefixEnd_object_Some b p : is_Some (prefixEnd (objectPrefixKey b p)).
Proof. rewrite prefixEnd_bound. by eapply (bound_above_Some_app "obj:"). Qed.

(** ** A key determines its components *)

Ltac unfold_keys :=
  unfold bucketKey, bucketListPrefix, objectKey, objectVersionKey, objectListPrefix,
    objectPrefixKey, multipartUploadKey, multipartListPrefix, multipartIndexKey,
    partKey, partListPrefix, tagIndexKey, tagIndexPrefix in *.

(** Split an equation between two keys at the first separator of each side. *)
Ltac split_key H :=
  apply lacks_split_first in H; [|done..]; destruct H as [-> H].

Lemma colon_app t : ":" +:+ t = String colon t.
Proof. done. Qed.

Lemma bucketKey_inj t n t' n' :
  lacks colon t = true → lacks colon t' = true →
  bucketKey t n = bucketKey t' n' → t = t' ∧ n = n'.
Proof.
  unfold_keys. intros Ht Ht' H%app_inv_head_str. rewrite !colon_app in H. by split_key H.
Qed.

Lemma objectKey_inj b k b' k' :
  lacks colon b = true → lacks colon b' = true →
  objectKey b k = objectKey b' k' → b = b' ∧ k = k'.
Proof.
  unfold_keys. intros Hb Hb' H%app_inv_head_str. rewrite !colon_app in H. by split_key H.
Qed.

Lemma objectKey_inj_key b k k' : objectKey b k = objectKey b k' → k = k'.
Proof.
  unfold_keys. intros H%app_inv_head_str%app_inv_head_str. by rewrite !colon_app in H; injection H.
Qed.

Lemma multipartIndexKey_inj b u b' u' :
  lacks colon b = true → lacks colon b' = true →
  multipartIndexKey b u = multipartIndexKey b' u' → b = b' ∧ u = u'.
Proof.
  unfold_keys. intros Hb Hb' H%app_inv_head_str. rewrite !colon_app in H. by split_key H.
Qed.

Lemma multipartUploadKey_inj u u' : multipartUploadKey u = multipartUploadKey u' → u = u'.
Proof. unfold_keys. apply app_inv_head_str. Qed.

(** A version key is split at its first separator (the bucket) and at its
    last one (the version), so the object key may contain the separator. *)
Lemma objectVersionKey_inj b k v b' k' v' :
  lacks colon b = true → lacks colon b' = true →
  lacks colon v = true → lacks colon v' = true →
  objectVersionKey b k v = objectVersionKey b' k' v' → b = b' ∧ k = k' ∧ v = v'.
Proof.
  unfold_keys. intros Hb Hb' Hv Hv' H%app_inv_head_str. rewrite !colon_app in H. split_key H.
  apply lacks_split_last in H as [-> ->]; done.
Qed.

(** Tag keys and values may not contain the separator for this one. *)
Lemma tagIndexKey_inj b tk tv k b' tk' tv' k' :
  lacks colon b = true → lacks colon b' = true →
  lacks colon tk = true → lacks colon tk' = true →
  lacks colon tv = true → lacks colon tv' = true →
  tagIndexKey b tk tv k = tagIndexKey b' tk' tv' k' → b = b' ∧ tk = tk' ∧ tv = tv' ∧ k = k'.
Proof.
  unfold_keys. intros ?????? H%app_inv_head_str. rewrite !colon_app in H.
  split_key H. split_key H. by split_key H.
Qed.

Lemma dec_inj n m : dec n = dec m → n = m.
Proof.
  unfold dec. intros H. apply (f_equal NilEmpty.uint_of_string) in H.
  rewrite !NilEmpty.usu in H. apply DecimalN.Unsigned.to_uint_inj. congruence.
Qed.

Lemma zeros_value n u s :
  NilEmpty.uint_of_string s = Some u →
  ∃ u', NilEmpty.uint_of_string (zeros n +:+ s) = Some u' ∧ N.of_uint u' = N.of_uint u.
Proof.
  intros Hs. induction n as [|n [u' [IH Hu]]]; [by exists u|].
  exists (Decimal.D0 u'). split; [|done].
  change (zeros (S n) +:+ s) with (String "0" (zeros n +:+ s)). simpl. by rewrite IH.
Qed.

Lemma pad_dec_inj w n m : pad w (dec n) = pad w (dec m) → n = m.
Proof.
  unfold pad, dec. intros H.
  destruct (zeros_value (w - len (NilEmpty.string_of_uint (N.to_uint n))) (N.to_uint n) _
    (NilEmpty.usu _)) as [u [Hu1 Hu2]].
  destruct (zeros_value (w - len (NilEmpty.string_of_uint (N.to_uint m))) (N.to_uint m) _
    (NilEmpty.usu _)) as [u' [Hu1' Hu2']].
  rewrite H, Hu1' in Hu1. injection Hu1 as ->.
  rewrite Hu2 in Hu2'. by rewrite !DecimalN.Unsigned.of_to in Hu2'.
Qed.

Lemma partKey_inj u n u' n' :
  lacks colon u = true → lacks colon u' = true → 0 ≤ n → 0 ≤ n' →
  partKey u n = partKey u' n' → u = u' ∧ n = n'.
Proof.
  unfold_keys. intros Hu Hu' Hn Hn' H%app_inv_head_str. rewrite !colon_app in H. split_key H.
  unfold fmt_05d in H. rewrite (proj2 (Z.ltb_ge n 0)), (proj2 (Z.ltb_ge n' 0)) in H by done.
  apply pad_dec_inj in H. split; [done|lia].
Qed.

(** ** Families

    The text before the first separator; entries of different families never
    share a key. *)
Definition family (k : string) : string :=
  match Index k ":" with Some i => s_to i k | None => k end.

Lemma family_bucket t n : family (bucketKey t n) = "bucket". Proof. done. Qed.
Lemma family_obj b k : family (objectKey b k) = "obj". Proof. done. Qed.
Lemma family_version b k v : family (objectVersionKey b k v) = "version". Proof. done. Qed.
Lemma family_upload u : family (multipartUploadKey u) = "multipart". Proof. done. Qed.
Lemma family_upload_idx b u : family (multipartIndexKey b u) = "multipart_idx". Proof. done. Qed.
Lemma family_part u n : family (partKey u n) = "part". Proof. done. Qed.
Lemma family_tag b tk tv k : family (tagIndexKey b tk tv k) = "tag_idx". Proof. done. Qed.

Create Rewrite HintDb family.
#[export] Hint Rewrite family_bucket family_obj family_version family_upload family_upload_idx
  family_part family_tag : family.

(** Keys of different families differ. *)
Ltac key_ne :=
  let H := fresh in
  intros H; apply (f_equal family) in H; autorewrite with family in H; discriminate H.

(** A key with a prefix of the shape [fam:...] belongs to that family. *)
Lemma family_prefix f k t :
  lacks colon f = true → k = f +:+ ":" +:+ t → family k = f.
Proof.
  intros Hf ->. unfold family. rewrite colon_app. change ":" with (String colon "").
  rewrite (Index_char_lacks colon f t Hf). apply s_to_app.
Qed.

(** ** Object keys and listings *)

Lemma extract_objectKey b k :
  lacks colon b = true → extractObjectKeyFromKey (objectKey b k) = k.
Proof.
  intros Hb. unfold extractObjectKeyFromKey, objectKey.
  change (SplitN 3 ("obj:" +:+ b +:+ ":" +:+ k) ":") with
    ("obj" :: SplitN 2 (s_from 0 (b +:+ ":" +:+ k)) ":").
  rewrite s_from_0, colon_app. cbn [SplitN].
  change ":" with (String colon "").
  rewrite (Index_char_lacks colon b k Hb). change (len (String colon "")) with 1%nat.
  change (String colon k) with (String colon "" +:+ k).
  rewrite <-app_assoc_str.
  replace (len b + 1)%nat with (len (b +:+ String colon "")) by (by rewrite length_app_str).
  by rewrite s_from_app.
Qed.

Lemma objectKey_blt b k k' : blt (objectKey b k) (objectKey b k') = blt k k'.
Proof. unfold objectKey. by rewrite !blt_app_common. Qed.

Lemma objectKey_prefix b k p : HasPrefix (objectKey b k) (objectPrefixKey b p) = HasPrefix k p.
Proof. unfold objectKey, objectPrefixKey. by rewrite !HasPrefix_app_common. Qed.

(** The keys a listing with prefix [p] scans are the object keys of the bucket
    whose name starts with [p]. *)
Lemma objectPrefixKey_inv b p K :
  HasPrefix K (objectPrefixKey b p) = true ↔ ∃ k, K = objectKey b k ∧ HasPrefix k p = true.
Proof.
  split.
  - intros [t ->]%HasPrefix_spec. exists (p +:+ t). split; [|apply HasPrefix_app].
    unfold objectKey, objectPrefixKey. by rewrite !app_assoc_str.
  - intros [k [-> H]]. by rewrite objectKey_prefix.
Qed.

Lemma objectListPrefix_eq b : objectListPrefix b = objectPrefixKey b "".
Proof. done. Qed.

Lemma hasPrefix_HasPrefix s p : hasPrefix s p = HasPrefix s p.
Proof.
  unfold hasPrefix, HasPrefix. destruct (String.eqb_spec p "") as [->|]; [|done].
  by rewrite s_to_0.
Qed.

(** ** Filters *)

Lemma matchesTags_spec objectTags requiredTags :
  matchesTags objectTags requiredTags = true ↔ requiredTags ⊆ objectTags.
Proof.
  unfold matchesTags. rewrite forallb_forall, map_subseteq_spec. split.
  - intros H i x Hi. specialize (H (i, x)). rewrite <-list_elem_of_In, elem_of_map_to_list in H.
    by apply bool_decide_eq_true in H.
  - intros H [i x]. rewrite <-list_elem_of_In, elem_of_map_to_list. intros Hi.
    apply bool_decide_eq_true. by apply H.
Qed.
