(* ===== verification/Pebble.v ===== *)
(** * The key-value engine under the metadata store

    Pebble (github.com/cockroachdb/pebble) is third-party code, so the store
    is written against an interface: [Pebble] is what the store calls and
    [PebbleLaws] is Pebble's documented behaviour - a batch commit applies its
    operations in order and atomically, a read sees the last committed
    operation on its key, and an iterator over [[lower, upper)] visits the live
    keys of the range in byte order.  [alist_pebble] is a concrete instance,
    on which the definitions of the development evaluate.

    I/O failures of the engine are not modelled: a read fails only with
    [pebble.ErrNotFound] and a commit succeeds. *)

From S2P Require Import Prelude GoStrings MetaTypes Keys.
From stdpp Require Import base gmap sets list strings sorting.
From Stdlib Require Import ZArith Lia.

Abbreviation entry := (string * Value)%type.

(** ** The interface *)

Inductive BatchOp : Type :=
| BSet (k : string) (v : Value)
| BDelete (k : string).

(** The effect of one operation, and of a batch, on the value of key [k]. *)
Definition op_effect (k : string) (cur : option Value) (o : BatchOp) : option Value :=
  match o with
  | BSet k' v => if decide (k = k') then Some v else cur
  | BDelete k' => if decide (k = k') then None else cur
  end.
Definition batch_effect (ops : list BatchOp) (k : string) (cur : option Value) : option Value :=
  foldl (op_effect k) cur ops.

Definition in_bounds (lower : string) (upper : option string) (k : string) : Prop :=
  blt k lower = false ∧ match upper with Some u => blt k u = true | None => True end.

Definition key_sorted : list entry → Prop := StronglySorted (λ a b, blt a.1 b.1 = true).

Class Pebble (DB : Type) := {
  pebble_get : DB → string → option Value;
  pebble_commit : list BatchOp → DB → DB;
  pebble_range : DB → string → option string → list entry
}.

Class PebbleLaws (DB : Type) `{Pebble DB} : Prop := {
  get_commit (db : DB) ops k :
    pebble_get (pebble_commit ops db) k = batch_effect ops k (pebble_get db k);
  range_sorted (db : DB) lower upper : key_sorted (pebble_range db lower upper);
  elem_of_range (db : DB) lower upper k v :
    (k, v) ∈ pebble_range db lower upper ↔
    pebble_get db k = Some v ∧ in_bounds lower upper k
}.

(** [iter.SeekGE(k)]: the rest of the iteration from the first key [>= k]. *)
Definition SeekGE (all : list entry) (k : string) : list entry :=
  drop_while (λ e, blt e.1 k) all.

(** ** The store's state

    [st_db] is the engine's visible state, [st_walDirty] and [st_deleted] are
    the [walDirty] and [deletedBuckets] fields of [PebbleStore].  The last two
    components are ghost state for the durability of the write-ahead log: what
    the last fsync made durable, and the batches committed since. *)
Record Store (DB : Type) := mkStore {
  st_db : DB;
  st_walDirty : bool;
  st_deleted : gset string;
  st_durable : DB;
  st_pending : list (list BatchOp)
}.
Arguments mkStore {DB} _ _ _ _ _.
Arguments st_db {DB} _.
Arguments st_walDirty {DB} _.
Arguments st_deleted {DB} _.
Arguments st_durable {DB} _.
Arguments st_pending {DB} _.

Section Store.
Context {DB : Type} `{PB : Pebble DB}.
Implicit Types (s : Store DB) (ops : list BatchOp).

(** A freshly opened store on an existing database: everything found on disk
    is durable, the in-memory marks are empty. *)
Definition open_store (db : DB) : Store DB := mkStore db false ∅ db [].

Definition pebbleGet s (k : string) : option Value := pebble_get (st_db s) k.
Definition pebbleIter s (lower : string) : list entry :=
  pebble_range (st_db s) lower (prefixEnd lower).

(** [commitNoSync] / [setNoSync]: commit without fsync, then flag the WAL. *)
Definition commitNoSync s ops : Store DB :=
  mkStore (pebble_commit ops (st_db s)) true (st_deleted s)
    (st_durable s) (st_pending s ++ [ops]).
Definition setNoSync s (k : string) (v : Value) : Store DB := commitNoSync s [BSet k v].

(** [batch.Commit(pebble.Sync)], [db.Set(.., pebble.Sync)] and
    [db.Delete(.., pebble.Sync)]: the fsync covers every earlier record. *)
Definition commitSync s ops : Store DB :=
  let db := pebble_commit ops (st_db s) in
  mkStore db (st_walDirty s) (st_deleted s) db [].

(** One tick of [runWALSyncLoop]: [if !walDirty.Swap(false) { continue }],
    otherwise an empty log record is written with Sync. *)
Definition walSyncTick s : Store DB :=
  if st_walDirty s
  then mkStore (st_db s) false (st_deleted s) (st_db s) []
  else s.

Definition mark_deleted s (b : string) : Store DB :=
  mkStore (st_db s) (st_walDirty s) ({[b]} ∪ st_deleted s) (st_durable s) (st_pending s).
Definition unmark_deleted s (b : string) : Store DB :=
  mkStore (st_db s) (st_walDirty s) (st_deleted s ∖ {[b]}) (st_durable s) (st_pending s).

(** A hard kill: the log survives up to some record at or after the last
    fsync, and the in-memory state is lost. *)
Definition crash s (s' : Store DB) : Prop :=
  ∃ n, s' = open_store (foldl (λ db ops, pebble_commit ops db) (st_durable s) (take n (st_pending s))).

(** ** Facts used by every component *)
Context `{PL : !PebbleLaws DB}.

Lemma batch_effect_app ops1 ops2 k cur :
  batch_effect (ops1 ++ ops2) k cur = batch_effect ops2 k (batch_effect ops1 k cur).
Proof. apply foldl_app. Qed.

Lemma batch_effect_cons o ops k cur :
  batch_effect (o :: ops) k cur = batch_effect ops k (op_effect k cur o).
Proof. done. Qed.

Definition op_key (o : BatchOp) : string := match o with BSet k _ => k | BDelete k => k end.

Lemma batch_effect_other ops k cur : (∀ o, o ∈ ops → op_key o ≠ k) → batch_effect ops k cur = cur.
Proof.
  revert cur. induction ops as [|o ops IH]; intros cur H; [done|].
  rewrite batch_effect_cons, IH by set_solver. specialize (H o).
  destruct o; simpl in *; rewrite decide_False; set_solver.
Qed.

(** Deleting a list of keys. *)
Lemma batch_effect_deletes {A} (f : A → string) (l : list A) k cur :
  batch_effect ((λ x, BDelete (f x)) <$> l) k cur =
  if decide (k ∈ f <$> l) then None else cur.
Proof.
  revert cur. induction l as [|x l IH]; intros cur; [done|].
  rewrite fmap_cons, batch_effect_cons, IH. simpl.
  destruct (decide (k ∈ f <$> l)) as [E|E].
  - rewrite decide_True by set_solver. done.
  - destruct (decide (k = f x)) as [->|Hne].
    + rewrite decide_True by set_solver. done.
    + rewrite decide_False by set_solver. done.
Qed.

(** Writing the same value under a list of keys. *)
Lemma batch_effect_sets {A} (f : A → string) (v : Value) (l : list A) k cur :
  batch_effect ((λ x, BSet (f x) v) <$> l) k cur =
  if decide (k ∈ f <$> l) then Some v else cur.
Proof.
  revert cur. induction l as [|x l IH]; intros cur; [done|].
  rewrite fmap_cons, batch_effect_cons, IH. simpl.
  destruct (decide (k ∈ f <$> l)) as [E|E].
  - rewrite decide_True by set_solver. done.
  - destruct (decide (k = f x)) as [->|Hne].
    + rewrite decide_True by set_solver. done.
    + rewrite decide_False by set_solver. done.
Qed.

Lemma get_commitNoSync s ops k :
  pebbleGet (commitNoSync s ops) k = batch_effect ops k (pebbleGet s k).
Proof. apply get_commit. Qed.

Lemma get_commitSync s ops k :
  pebbleGet (commitSync s ops) k = batch_effect ops k (pebbleGet s k).
Proof. apply get_commit. Qed.

Lemma get_mark_deleted s b k : pebbleGet (mark_deleted s b) k = pebbleGet s k.
Proof. done. Qed.
Lemma get_unmark_deleted s b k : pebbleGet (unmark_deleted s b) k = pebbleGet s k.
Proof. done. Qed.

(** The scan of a prefix sees exactly the live keys with that prefix. *)
Lemma elem_of_pebbleIter s lower k v :
  (k, v) ∈ pebbleIter s lower ↔ pebbleGet s k = Some v ∧ HasPrefix k lower = true.
Proof. unfold pebbleIter. rewrite elem_of_range. unfold in_bounds. by rewrite prefixEnd_spec. Qed.

Lemma pebbleIter_sorted s lower : key_sorted (pebbleIter s lower).
Proof. apply range_sorted. Qed.

Lemma pebbleIter_nil s lower :
  pebbleIter s lower = [] ↔ ∀ k, HasPrefix k lower = true → pebbleGet s k = None.
Proof.
  split.
  - intros H k Hk. destruct (pebbleGet s k) as [v|] eqn:E; [|done].
    assert ((k, v) ∈ pebbleIter s lower) as Hin by by apply elem_of_pebbleIter.
    rewrite H in Hin. by apply not_elem_of_nil in Hin.
  - intros H. destruct (pebbleIter s lower) as [|[k v] l] eqn:E; [done|].
    assert ((k, v) ∈ pebbleIter s lower) as [H1 H2]%elem_of_pebbleIter
      by (rewrite E; set_solver).
    rewrite H in H1; done.
Qed.

(** Two stores that agree on the keys of a scan give the same scan. *)
Lemma key_sorted_ext (l l' : list entry) :
  key_sorted l → key_sorted l' → (∀ e, e ∈ l ↔ e ∈ l') → l = l'.
Proof.
  intros Hl. revert l'. induction Hl as [|[k v] l Hl IH Hk]; intros l' Hl' Heq.
  { destruct l' as [|e l']; [done|]. exfalso.
    apply (not_elem_of_nil e), Heq. set_solver. }
  destruct Hl' as [|[k' v'] l' Hl' Hk'].
  { exfalso. apply (not_elem_of_nil (k, v)), Heq. set_solver. }
  rewrite Forall_forall in Hk, Hk'.
  assert ((k, v) = (k', v')) as Hkv.
  { assert ((k, v) ∈ (k', v') :: l') as H1 by (apply Heq; set_solver).
    assert ((k', v') ∈ (k, v) :: l) as H2 by (apply Heq; set_solver).
    apply elem_of_cons in H1 as [?|H1]; [done|]. apply elem_of_cons in H2 as [?|H2]; [done|].
    apply Hk' in H1. apply Hk in H2. simpl in *. by rewrite (blt_asym _ _ H1) in H2. }
  injection Hkv as -> ->. f_equal. apply IH; [done|]. intros [j w]. split; intros Hj.
  - assert ((j, w) ∈ (k', v') :: l') as Hj' by (apply Heq; set_solver).
    apply elem_of_cons in Hj' as [[= -> ->]|?]; [|done].
    apply Hk in Hj. simpl in Hj. by rewrite blt_irrefl in Hj.
  - assert ((j, w) ∈ (k', v') :: l) as Hj' by (apply Heq; set_solver).
    apply elem_of_cons in Hj' as [[= -> ->]|?]; [|done].
    apply Hk' in Hj. simpl in Hj. by rewrite blt_irrefl in Hj.
Qed.

Lemma pebbleIter_ext s s' lower :
  (∀ k, HasPrefix k lower = true → pebbleGet s' k = pebbleGet s k) →
  pebbleIter s' lower = pebbleIter s lower.
Proof.
  intros H. apply key_sorted_ext; [apply pebbleIter_sorted..|].
  intros [k v]. rewrite !elem_of_pebbleIter. split; intros [H1 H2]; split; try done;
    by rewrite H in * by done.
Qed.

(** Rewriting some of the entries of a scan in one batch. *)
Lemma batch_effect_rewrites (g : Value → option Value) (l : list entry) K cur :
  NoDup l.*1 →
  batch_effect (omap (λ e, BSet e.1 <$> g e.2) l) K cur =
  match list_find (λ e, e.1 = K) l with
  | Some (_, e) => match g e.2 with Some v' => Some v' | None => cur end
  | None => cur
  end.
Proof.
  revert cur. induction l as [|[k v] l IH]; intros cur; [done|].
  rewrite fmap_cons, NoDup_cons. intros [Hk Hl]. simpl.
  case_decide as Ek; simpl in *; subst.
  - assert (list_find (λ e : entry, e.1 = K) l = None) as Hnone.
    { apply list_find_None, Forall_forall. intros e He Ee. apply Hk. simpl in Ee. rewrite <-Ee. by apply list_elem_of_fmap_2. }
    destruct (g v) as [v'|]; simpl.
    + etrans; [exact (IH _ Hl)|]. rewrite Hnone. simpl. by rewrite decide_True.
    + etrans; [exact (IH _ Hl)|]. by rewrite Hnone.
  - assert (∀ c, batch_effect (omap (λ e, BSet e.1 <$> g e.2) l) K c =
      match list_find (λ e : entry, e.1 = K) l with
      | Some (_, e) => match g e.2 with Some v' => Some v' | None => c end
      | None => c end) as IH' by (intros c; by apply IH).
    transitivity (batch_effect (omap (λ e, BSet e.1 <$> g e.2) l) K cur).
    { destruct (g v) as [v'|]; simpl; [|done]. by rewrite decide_False. }
    rewrite IH'. destruct (list_find _ l) as [[i e]|]; done.
Qed.

Lemma get_rewrites s (g : Value → option Value) lower K :
  batch_effect (omap (λ e, BSet e.1 <$> g e.2) (pebbleIter s lower)) K (pebbleGet s K) =
  if HasPrefix K lower
  then match pebbleGet s K with
       | Some v => match g v with Some v' => Some v' | None => Some v end
       | None => None
       end
  else pebbleGet s K.
Proof.
  assert (NoDup (pebbleIter s lower).*1) as Hnd by (apply (sorted_by_NoDup fst), pebbleIter_sorted).
  rewrite batch_effect_rewrites by done. destruct (list_find _ _) as [[i [K' v]]|] eqn:E.
  - apply list_find_Some in E as (Hi & HK & _). simpl in *. subst K'.
    apply list_elem_of_lookup_2, elem_of_pebbleIter in Hi as [Hg HP]. by rewrite HP, Hg.
  - apply list_find_None in E. rewrite Forall_forall in E. destruct (HasPrefix K lower) eqn:HP; [|done].
    destruct (pebbleGet s K) as [v|] eqn:Hg; [|done].
    exfalso. apply (E (K, v)); [|done]. by apply elem_of_pebbleIter.
Qed.

(** ** Durability *)

(** The engine's state is the durable state plus the pending batches, and
    the dirty flag is up whenever something is pending. *)
Definition wal_ok s : Prop :=
  (∀ k, pebbleGet s k = pebble_get (foldl (λ db ops, pebble_commit ops db) (st_durable s) (st_pending s)) k)
  ∧ (st_walDirty s = false → st_pending s = []).

Lemma wal_ok_open db : wal_ok (open_store db).
Proof. done. Qed.

Lemma wal_ok_commitNoSync s ops : wal_ok s → wal_ok (commitNoSync s ops).
Proof.
  intros [H _]. split; [|done]. intros k. simpl. rewrite foldl_snoc, get_commit, <-H.
  apply get_commitNoSync.
Qed.

Lemma wal_ok_commitSync s ops : wal_ok (commitSync s ops).
Proof. done. Qed.

Lemma wal_ok_tick s : wal_ok s → wal_ok (walSyncTick s).
Proof. intros H. unfold walSyncTick. by destruct (st_walDirty s). Qed.

Lemma wal_ok_mark s b : wal_ok s → wal_ok (mark_deleted s b).
Proof. done. Qed.
Lemma wal_ok_unmark s b : wal_ok s → wal_ok (unmark_deleted s b).
Proof. done. Qed.

(** With nothing pending a hard kill loses nothing. *)
Lemma crash_synced s s' k :
  wal_ok s → st_pending s = [] → crash s s' → pebbleGet s' k = pebbleGet s k.
Proof.
  intros [Hd _] Hp [n ->]. rewrite Hd, Hp. by rewrite take_nil.
Qed.
End Store.

Arguments Store : clear implicits.
Create HintDb store.
Create Rewrite HintDb store.
#[export] Hint Rewrite @get_commitNoSync @get_commitSync @get_mark_deleted @get_unmark_deleted
  using (typeclasses eauto) : store.
#[export] Hint Resolve wal_ok_open wal_ok_commitNoSync wal_ok_commitSync wal_ok_tick
  wal_ok_mark wal_ok_unmark : store.

(** ** A concrete engine: association lists

    The most recent binding of a key comes first; a scan sorts the live
    bindings of its range. *)

Definition alist : Type := list entry.

Fixpoint alist_get (m : alist) (k : string) : option Value :=
  match m with
  | [] => None
  | (k', v) :: m' => if decide (k = k') then Some v else alist_get m' k
  end.
Definition alist_remove (k : string) (m : alist) : alist :=
  List.filter (λ e, negb (bool_decide (e.1 = k))) m.
Definition op_apply (m : alist) (o : BatchOp) : alist :=
  match o with
  | BSet k v => (k, v) :: alist_remove k m
  | BDelete k => alist_remove k m
  end.
(** One binding per key, the first one. *)
Fixpoint alist_live (m : alist) : alist :=
  match m with
  | [] => []
  | e :: m' => e :: alist_remove e.1 (alist_live m')
  end.

Definition in_boundsb (lower : string) (upper : option string) (k : string) : bool :=
  negb (blt k lower) && match upper with Some u => blt k u | None => true end.

Definition entry_le (a b : entry) : Prop := Is_true (ble a.1 b.1).
#[export] Instance entry_le_dec : RelDecision entry_le.
Proof. intros a b. apply _. Defined.

#[export] Instance alist_pebble : Pebble alist := {|
  pebble_get := alist_get;
  pebble_commit ops m := foldl op_apply m ops;
  pebble_range m lower upper :=
    merge_sort entry_le (List.filter (λ e, in_boundsb lower upper e.1) (alist_live m))
|}.

Lemma ble_total s t : ble s t = true ∨ ble t s = true.
Proof.
  rewrite !ble_blt. destruct (blt t s) eqn:E; [right|left; done]. by rewrite blt_asym.
Qed.

#[export] Instance entry_le_total : Total entry_le.
Proof. intros a b. unfold entry_le. destruct (ble_total a.1 b.1) as [->| ->]; auto. Qed.

#[export] Instance entry_le_trans : Transitive entry_le.
Proof.
  intros a b c. unfold entry_le. rewrite !ble_blt, !Is_true_true, !negb_true_iff.
  intros H1 H2. destruct (blt c.1 a.1) eqn:E; [|done].
  rewrite (blt_false_trans b.1 c.1 a.1) in H1; done.
Qed.

Lemma in_boundsb_spec lower upper k : in_boundsb lower upper k = true ↔ in_bounds lower upper k.
Proof.
  unfold in_boundsb, in_bounds. rewrite andb_true_iff, negb_true_iff. destruct upper; tauto.
Qed.

Lemma strict_of_le (l : list entry) :
  StronglySorted entry_le l → NoDup l.*1 → key_sorted l.
Proof.
  induction 1 as [|e l Hl IH He]; [constructor|]. rewrite fmap_cons, NoDup_cons.
  intros [Hn Hd]. constructor; [by apply IH|]. rewrite Forall_forall in He |- *.
  intros x Hx. specialize (He x Hx). unfold entry_le in He.
  rewrite ble_blt, Is_true_true, negb_true_iff in He.
  destruct (blt e.1 x.1) eqn:E; [done|]. exfalso. apply Hn.
  rewrite (blt_total _ _ E He). apply list_elem_of_fmap. by exists x.
Qed.

Lemma alist_get_remove k m k' :
  alist_get (alist_remove k m) k' = if decide (k' = k) then None else alist_get m k'.
Proof.
  induction m as [|[i v] m IH]; simpl; [by case_decide|].
  case_bool_decide as E; simpl; rewrite IH; subst; repeat case_decide; congruence.
Qed.

Lemma elem_of_alist_remove e k m : e ∈ alist_remove k m ↔ e ∈ m ∧ e.1 ≠ k.
Proof.
  unfold alist_remove. rewrite !list_elem_of_In, filter_In, negb_true_iff, bool_decide_eq_false. done.
Qed.

Lemma elem_of_alist_live m k v : (k, v) ∈ alist_live m ↔ alist_get m k = Some v.
Proof.
  induction m as [|[i w] m IH]; simpl; [split; [by intros ?%not_elem_of_nil|done]|].
  rewrite elem_of_cons, elem_of_alist_remove, IH. simpl. case_decide; [subst|]; naive_solver.
Qed.

Lemma NoDup_keys_filter (P : entry → bool) (m : list entry) : NoDup m.*1 → NoDup (List.filter P m).*1.
Proof.
  induction m as [|e m IH]; [done|]. rewrite fmap_cons, NoDup_cons. intros [Hn Hd]. simpl.
  destruct (P e); [|by apply IH]. rewrite fmap_cons, NoDup_cons. split; [|by apply IH].
  intros (x & Hx1 & Hx2)%list_elem_of_fmap. apply Hn, list_elem_of_fmap. exists x.
  split; [done|]. apply list_elem_of_In, filter_In in Hx2 as [Hx2 _]. by apply list_elem_of_In.
Qed.

Lemma alist_live_NoDup m : NoDup (alist_live m).*1.
Proof.
  induction m as [|e m IH]; [constructor|]. simpl. apply NoDup_cons. split.
  - intros (x & Hx1 & Hx2)%list_elem_of_fmap. by apply elem_of_alist_remove in Hx2 as [_ ?].
  - by apply NoDup_keys_filter.
Qed.

#[export] Instance alist_pebble_laws : PebbleLaws alist.
Proof.
  split.
  - intros db ops k. revert db. induction ops as [|o ops IH]; intros db; [done|].
    cbn [pebble_get pebble_commit alist_pebble foldl] in *. rewrite IH, batch_effect_cons. f_equal.
    destruct o as [k' v|k']; simpl; rewrite alist_get_remove; by repeat case_decide.
  - intros db lower upper. apply strict_of_le; [apply (StronglySorted_merge_sort _)|].
    cbn [pebble_range alist_pebble]. rewrite (merge_sort_Permutation entry_le).
    apply NoDup_keys_filter, alist_live_NoDup.
  - intros db lower upper k v. cbn [pebble_range pebble_get alist_pebble].
    rewrite (merge_sort_Permutation entry_le), list_elem_of_In, filter_In, <-list_elem_of_In.
    by rewrite elem_of_alist_live, in_boundsb_spec.
Qed.

(** The empty database. *)
Definition store0 : Store alist := open_store [].
