(* ===== verification/ObjectStore.v ===== *)
(** * Objects of the metadata store ([internal/metadata/pebble_objects.go])

    [PutObject], [GetObject], [DeleteObject], [ObjectExists] and
    [DeleteObjectVersion] of [PebbleStore], each as a function from the store
    to its outcome.  [now] is the value of [time.Now()] in the call.  A Go
    method that writes through its pointer argument returns the updated struct
    too.  Methods run under the bucket's mutation mutex, so a call is one step.

    The invariant [wf_store] says that every entry sits under the key that its
    own fields spell; every operation of the library preserves it, so decoding
    never meets a value of another family. *)

From S2P Require Import Prelude GoStrings MetaTypes Keys Pebble.
From stdpp Require Import base gmap sets list strings.
From Stdlib Require Import ZArith Lia.
Open Scope Z_scope.

(** ** Index keys of a tag set *)

Definition tag_keys (bucket key : string) (tags : gmap string string) : list string :=
  (λ kv, tagIndexKey bucket kv.1 kv.2 key) <$> map_to_list tags.
Definition delete_tags (bucket key : string) (tags : gmap string string) : list BatchOp :=
  (λ kv, BDelete (tagIndexKey bucket kv.1 kv.2 key)) <$> map_to_list tags.
Definition set_tags (bucket key : string) (tags : gmap string string) : list BatchOp :=
  (λ kv, BSet (tagIndexKey bucket kv.1 kv.2 key) VEmpty) <$> map_to_list tags.

Section ObjectStore.
Context {DB : Type} `{PB : Pebble DB}.
Implicit Types (s : Store DB) (o obj : ObjectMetadata) (b k bucket key : string) (v : Value).

(** ** Operations *)

Definition rejectWriteToDeletedBucket s bucket : result StoreError unit :=
  if bool_decide (bucket ∈ st_deleted s) then Err ErrBucketNotFound else Ok tt.

(** The time stamps [PutObject] sets before it marshals the object. *)
Definition stamp_object (now : time) obj : ObjectMetadata :=
  let obj := if IsZero (om_CreatedAt obj) then obj <| om_CreatedAt := now |> else obj in
  let obj := obj <| om_UpdatedAt := now |> in
  if IsZero (om_LastModified obj) || (Unix (om_LastModified obj) <=? 0)
  then obj <| om_LastModified := now |> else obj.

(** The batch of [PutObject]: drop the tag index of the object stored at the
    plain key, write the version entry and/or the plain entry, index the new
    tags. *)
Definition put_ops s obj : list BatchOp :=
  let okey := objectKey (om_Bucket obj) (om_Key obj) in
  (match pebbleGet s okey with
   | Some existingData =>
       match unmarshal_object existingData with
       | Some existing => delete_tags (om_Bucket obj) (om_Key obj) (om_Tags existing)
       | None => []
       end
   | None => []
   end) ++
  (if bool_decide (om_VersionID obj ≠ "")
   then [BSet (objectVersionKey (om_Bucket obj) (om_Key obj) (om_VersionID obj)) (VObject obj)]
   else []) ++
  (if bool_decide (om_VersionID obj = "") || om_IsLatest obj
   then [BSet okey (VObject obj)] else []) ++
  set_tags (om_Bucket obj) (om_Key obj) (om_Tags obj).

Definition PutObject (now : time) s (obj : option ObjectMetadata)
  : result StoreError (Store DB * ObjectMetadata) :=
  match obj with
  | None => Err (ErrMsg "object metadata cannot be nil")
  | Some obj =>
      if bool_decide (om_Bucket obj = "") || bool_decide (om_Key obj = "")
      then Err ErrInvalidKey
      else
        try _ := rejectWriteToDeletedBucket s (om_Bucket obj) in
        let obj := stamp_object now obj in
        Ok (commitNoSync s (put_ops s obj), obj)
  end.

(** The key [GetObject] and [DeleteObject] address: the version entry when
    the variadic [versionID] starts with a non-empty ID. *)
Definition object_ref bucket key (versionID : list string) : string :=
  match versionID with
  | v :: _ => if bool_decide (v ≠ "") then objectVersionKey bucket key v else objectKey bucket key
  | [] => objectKey bucket key
  end.

Definition GetObject s bucket key (versionID : list string) : result StoreError ObjectMetadata :=
  if bool_decide (bucket = "") || bool_decide (key = "") then Err ErrInvalidKey
  else
    match pebbleGet s (object_ref bucket key versionID) with
    | None => Err ErrObjectNotFound
    | Some data =>
        match unmarshal_object data with
        | None => Err (ErrMsg "failed to unmarshal object")
        | Some obj =>
            let obj := if bool_decide (om_Bucket obj = "") then obj <| om_Bucket := bucket |> else obj in
            let obj := if bool_decide (om_Key obj = "") then obj <| om_Key := key |> else obj in
            Ok obj
        end
    end.

Definition DeleteObject s bucket key (versionID : list string) : result StoreError (Store DB) :=
  if bool_decide (bucket = "") || bool_decide (key = "") then Err ErrInvalidKey
  else
    let objKey := object_ref bucket key versionID in
    match pebbleGet s objKey with
    | None => Err ErrObjectNotFound
    | Some data =>
        match unmarshal_object data with
        | None => Err (ErrMsg "failed to unmarshal object")
        | Some obj =>
            Ok (commitSync s (delete_tags bucket key (om_Tags obj) ++ [BDelete objKey]))
        end
    end.

Definition ObjectExists s bucket key : result StoreError bool :=
  if bool_decide (bucket = "") || bool_decide (key = "") then Err ErrInvalidKey
  else Ok (bool_decide (is_Some (pebbleGet s (objectKey bucket key)))).

Definition DeleteObjectVersion s bucket key (versionID : string) : result StoreError (Store DB) :=
  let versionKey := objectVersionKey bucket key versionID in
  match pebbleGet s versionKey with
  | None => Err ErrVersionNotFound
  | Some _ => Ok (commitSync s [BDelete versionKey])
  end.

(** ** The self-describing invariant *)

(** Bucket paths, version IDs and upload IDs never contain the separator:
    bucket names are validated ([bucket/validation.go]), tenant, version and
    upload IDs are generated.  An object key may, but it is not empty. *)
Definition valid_names o : Prop :=
  lacks colon (om_Bucket o) = true ∧ lacks colon (om_VersionID o) = true ∧ om_Key o ≠ "".

Definition entry_ok (K : string) (v : Value) : Prop :=
  match v with
  | VObject o =>
      valid_names o ∧
      (K = objectKey (om_Bucket o) (om_Key o) ∨
       K = objectVersionKey (om_Bucket o) (om_Key o) (om_VersionID o))
  | VBucket b => K = bucketKey (bm_TenantID b) (bm_Name b) ∧ lacks colon (bm_TenantID b) = true
  | VUpload u =>
      K = multipartUploadKey (mu_UploadID u) ∧
      lacks colon (mu_UploadID u) = true ∧ lacks colon (mu_Bucket u) = true
  | VPart p =>
      K = partKey (pm_UploadID p) (pm_PartNumber p) ∧ 0 < pm_PartNumber p ∧
      lacks colon (pm_UploadID p) = true
  | VEmpty => family K = "tag_idx" ∨ family K = "multipart_idx"
  end.
Definition wf_store s : Prop := ∀ K v, pebbleGet s K = Some v → entry_ok K v.

Definition ops_ok (ops : list BatchOp) : Prop := ∀ K v, BSet K v ∈ ops → entry_ok K v.

Context `{PL : !PebbleLaws DB}.

Lemma entry_ok_obj K v : entry_ok K v → family K = "obj" →
  ∃ o, v = VObject o ∧ K = objectKey (om_Bucket o) (om_Key o) ∧ valid_names o.
Proof.
  destruct v as [o| | | |]; simpl.
  - intros [? [->| ->]]; [by exists o|done].
  - by intros [-> _].
  - by intros [-> _].
  - by intros [-> _].
  - by intros [->| ->].
Qed.

Lemma entry_ok_version K v : entry_ok K v → family K = "version" →
  ∃ o, v = VObject o ∧ K = objectVersionKey (om_Bucket o) (om_Key o) (om_VersionID o) ∧ valid_names o.
Proof.
  destruct v as [o| | | |]; simpl.
  - intros [? [->| ->]]; [done|by exists o].
  - by intros [-> _].
  - by intros [-> _].
  - by intros [-> _].
  - by intros [->| ->].
Qed.

(** The scans over the versions of a bucket and of a key. *)
Lemma elem_of_versions s b K v :
  wf_store s → lacks colon b = true →
  (K, v) ∈ pebbleIter s (versionListPrefix b) ↔
  ∃ o, v = VObject o ∧ K = objectVersionKey b (om_Key o) (om_VersionID o) ∧ om_Bucket o = b ∧
    lacks colon (om_VersionID o) = true ∧ pebbleGet s K = Some (VObject o).
Proof.
  intros Hwf Hb. rewrite elem_of_pebbleIter. split.
  - intros [Hg [t Ht]%HasPrefix_spec]. assert (family K = "version") as Hf by by rewrite Ht.
    destruct (entry_ok_version K v (Hwf _ _ Hg) Hf) as (o & -> & E & Hn & Hv & _).
    assert (om_Bucket o = b) as Eb.
    { rewrite E in Ht. unfold objectVersionKey, versionListPrefix in Ht.
      rewrite !app_assoc_str in Ht. apply app_inv_head_str in Ht.
      rewrite !colon_app in Ht. by apply lacks_split_first in Ht as [-> _]. }
    exists o. rewrite <-Eb. split_and!; done.
  - intros (o & -> & -> & _ & _ & Hg). split; [done|]. apply HasPrefix_spec.
    unfold objectVersionKey, versionListPrefix. eexists. by rewrite !app_assoc_str.
Qed.

Lemma elem_of_key_versions s b k K v :
  wf_store s → lacks colon b = true →
  (K, v) ∈ pebbleIter s (versionKeyPrefix b k) ∧
    (match unmarshal_object v with Some o => om_Key o = k | None => False end) ↔
  ∃ o, v = VObject o ∧ om_Key o = k ∧ om_Bucket o = b ∧ K = objectVersionKey b k (om_VersionID o) ∧
    lacks colon (om_VersionID o) = true ∧ pebbleGet s K = Some (VObject o).
Proof.
  intros Hwf Hb. rewrite elem_of_pebbleIter. split.
  - intros [[Hg HK] Hv]. destruct v as [o| | | |]; try done. simpl in Hv.
    assert ((K, VObject o) ∈ pebbleIter s (versionListPrefix b)) as Hin.
    { apply elem_of_pebbleIter. split; [done|]. eapply HasPrefix_trans; [exact HK|].
      apply HasPrefix_spec. exists (k +:+ ":"). unfold versionKeyPrefix, versionListPrefix.
      by rewrite !app_assoc_str. }
    apply elem_of_versions in Hin as (o' & [= <-] & E & ? & ? & ?); [|done..].
    exists o. rewrite <-Hv. done.
  - intros (o & -> & Hk & _ & -> & _ & Hg). split; [|done]. split; [done|].
    apply HasPrefix_spec. unfold objectVersionKey, versionKeyPrefix. eexists. by rewrite !app_assoc_str.
Qed.

(** A batch leaves a key alone or gives it a value the batch writes. *)
Lemma batch_effect_cases ops K cur v :
  batch_effect ops K cur = Some v → cur = Some v ∨ BSet K v ∈ ops.
Proof.
  revert cur. induction ops as [|o ops IH]; intros cur; [by left|].
  rewrite batch_effect_cons. intros [H|H]%IH; [|right; set_solver].
  destruct o as [k' v'|k']; simpl in H; case_decide; subst; try naive_solver.
  right. injection H as ->. set_solver.
Qed.

Lemma wf_commitNoSync s ops : wf_store s → ops_ok ops → wf_store (commitNoSync s ops).
Proof. intros Hs Ho K v. rewrite get_commitNoSync. intros [?|?]%batch_effect_cases; eauto. Qed.

Lemma wf_commitSync s ops : wf_store s → ops_ok ops → wf_store (commitSync s ops).
Proof. intros Hs Ho K v. rewrite get_commitSync. intros [?|?]%batch_effect_cases; eauto. Qed.

Lemma ops_ok_nil : ops_ok [].
Proof. intros K v H. by apply not_elem_of_nil in H. Qed.
Lemma ops_ok_app ops ops' : ops_ok ops → ops_ok ops' → ops_ok (ops ++ ops').
Proof. intros H H' K v [?|?]%elem_of_app; eauto. Qed.
Lemma ops_ok_delete K ops : ops_ok ops → ops_ok (BDelete K :: ops).
Proof. intros H K' v [?|?]%elem_of_cons; [done|eauto]. Qed.
Lemma ops_ok_set K v ops : entry_ok K v → ops_ok ops → ops_ok (BSet K v :: ops).
Proof. intros Hv H K' v' [[= -> ->]|?]%elem_of_cons; [done|eauto]. Qed.
Lemma ops_ok_deletes {A} (f : A → string) (l : list A) : ops_ok ((λ x, BDelete (f x)) <$> l).
Proof. intros K v [x [? _]]%list_elem_of_fmap. done. Qed.
Lemma ops_ok_set_tags b k tags : ops_ok (set_tags b k tags).
Proof. intros K v [x [[= -> ->] _]]%list_elem_of_fmap. by left. Qed.
Lemma ops_ok_delete_tags b k tags : ops_ok (delete_tags b k tags).
Proof. apply (ops_ok_deletes (λ kv : string * string, tagIndexKey b kv.1 kv.2 k)). Qed.

(** ** Tag index keys *)

Lemma elem_of_tag_keys b k tags K :
  K ∈ tag_keys b k tags ↔ ∃ tk tv, tags !! tk = Some tv ∧ K = tagIndexKey b tk tv k.
Proof.
  unfold tag_keys. rewrite list_elem_of_fmap. split.
  - intros [[tk tv] [-> H]]. exists tk, tv. by rewrite elem_of_map_to_list in H.
  - intros (tk & tv & H & ->). exists (tk, tv). by rewrite elem_of_map_to_list.
Qed.

Lemma tag_keys_family b k tags K : family K ≠ "tag_idx" → K ∉ tag_keys b k tags.
Proof. intros HK (tk & tv & _ & ->)%elem_of_tag_keys. done. Qed.

Lemma effect_delete_tags b k tags K cur :
  batch_effect (delete_tags b k tags) K cur = if decide (K ∈ tag_keys b k tags) then None else cur.
Proof. apply (batch_effect_deletes (λ kv : string * string, tagIndexKey b kv.1 kv.2 k)). Qed.

Lemma effect_set_tags b k tags K cur :
  batch_effect (set_tags b k tags) K cur =
  if decide (K ∈ tag_keys b k tags) then Some VEmpty else cur.
Proof. apply (batch_effect_sets (λ kv : string * string, tagIndexKey b kv.1 kv.2 k)). Qed.

(** Outside the tag index, tag operations do nothing. *)
Lemma effect_delete_tags_other b k tags K cur :
  family K ≠ "tag_idx" → batch_effect (delete_tags b k tags) K cur = cur.
Proof. intros H. rewrite effect_delete_tags, decide_False; [done|by apply tag_keys_family]. Qed.
Lemma effect_set_tags_other b k tags K cur :
  family K ≠ "tag_idx" → batch_effect (set_tags b k tags) K cur = cur.
Proof. intros H. rewrite effect_set_tags, decide_False; [done|by apply tag_keys_family]. Qed.

(** ** What [PutObject] leaves in the store *)

Lemma stamp_fields now o :
  om_Bucket (stamp_object now o) = om_Bucket o ∧ om_Key (stamp_object now o) = om_Key o ∧
  om_VersionID (stamp_object now o) = om_VersionID o ∧
  om_IsLatest (stamp_object now o) = om_IsLatest o ∧ om_Tags (stamp_object now o) = om_Tags o.
Proof.
  unfold stamp_object. destruct (IsZero (om_CreatedAt o)); cbv zeta;
    destruct (IsZero (om_LastModified _) || _); done.
Qed.

Lemma PutObject_Ok now s o s' o' :
  PutObject now s (Some o) = Ok (s', o') ↔
  om_Bucket o ≠ "" ∧ om_Key o ≠ "" ∧ om_Bucket o ∉ st_deleted s ∧
  o' = stamp_object now o ∧ s' = commitNoSync s (put_ops s o').
Proof.
  unfold PutObject, rejectWriteToDeletedBucket. split.
  - intros H. repeat case_bool_decide; simpl in *; try done. by injection H as <- <-.
  - intros (Hb & Hk & Hd & -> & ->). by rewrite !bool_decide_eq_false_2.
Qed.

(** The entry of an object after [PutObject], outside the tag index. *)
Lemma get_put_ops s o K :
  family K ≠ "tag_idx" →
  batch_effect (put_ops s o) K (pebbleGet s K) =
  if decide (K = objectKey (om_Bucket o) (om_Key o) ∧ (om_VersionID o = "" ∨ om_IsLatest o = true) ∨
             K = objectVersionKey (om_Bucket o) (om_Key o) (om_VersionID o) ∧ om_VersionID o ≠ "")
  then Some (VObject o) else pebbleGet s K.
Proof.
  intros HK. unfold put_ops. rewrite !batch_effect_app, effect_set_tags_other by done.
  assert (∀ cur, batch_effect match pebbleGet s (objectKey (om_Bucket o) (om_Key o)) with
    | Some existingData => match unmarshal_object existingData with
       | Some existing => delete_tags (om_Bucket o) (om_Key o) (om_Tags existing)
       | None => [] end
    | None => [] end K cur = cur) as ->.
  { intros cur. destruct (pebbleGet s _) as [d|]; [|done]. destruct (unmarshal_object d); [|done].
    by apply effect_delete_tags_other. }
  destruct (bool_decide_reflect (om_VersionID o ≠ "")) as [Hv|Hv].
  - rewrite bool_decide_eq_false_2 by done. simpl.
    destruct (om_IsLatest o); cbn -[decide]; repeat case_decide; naive_solver.
  - rewrite bool_decide_eq_true_2 by (by apply dec_stable). cbn -[decide].
    apply dec_stable in Hv. repeat case_decide; naive_solver.
Qed.

Lemma get_after_put s o K :
  family K ≠ "tag_idx" →
  pebbleGet (commitNoSync s (put_ops s o)) K =
  if decide (K = objectKey (om_Bucket o) (om_Key o) ∧ (om_VersionID o = "" ∨ om_IsLatest o = true) ∨
             K = objectVersionKey (om_Bucket o) (om_Key o) (om_VersionID o) ∧ om_VersionID o ≠ "")
  then Some (VObject o) else pebbleGet s K.
Proof. intros HK. rewrite get_commitNoSync. by apply get_put_ops. Qed.

(** [PutObject]'s effect on the tag index. *)
Lemma get_put_ops_tag s o K :
  family K = "tag_idx" →
  batch_effect (put_ops s o) K (pebbleGet s K) =
  if decide (K ∈ tag_keys (om_Bucket o) (om_Key o) (om_Tags o)) then Some VEmpty
  else match pebbleGet s (objectKey (om_Bucket o) (om_Key o)) with
       | Some (VObject old) =>
           if decide (K ∈ tag_keys (om_Bucket o) (om_Key o) (om_Tags old)) then None else pebbleGet s K
       | _ => pebbleGet s K
       end.
Proof.
  intros HK. unfold put_ops. rewrite !batch_effect_app, effect_set_tags.
  case_decide; [done|].
  assert (K ≠ objectKey (om_Bucket o) (om_Key o)) as H1 by (intros ->; done).
  assert (K ≠ objectVersionKey (om_Bucket o) (om_Key o) (om_VersionID o)) as H2 by (intros ->; done).
  assert (∀ cur, batch_effect (if bool_decide (om_VersionID o = "") || om_IsLatest o
    then [BSet (objectKey (om_Bucket o) (om_Key o)) (VObject o)] else []) K cur = cur) as ->.
  { intros cur. destruct (_ || _); [|done]. cbn -[decide]. by rewrite decide_False. }
  assert (∀ cur, batch_effect (if bool_decide (om_VersionID o ≠ "")
    then [BSet (objectVersionKey (om_Bucket o) (om_Key o) (om_VersionID o)) (VObject o)] else []) K cur = cur) as ->.
  { intros cur. case_bool_decide; [|done]. cbn -[decide]. by rewrite decide_False. }
  destruct (pebbleGet s (objectKey _ _)) as [[old| | | |]|]; try done. simpl.
  apply effect_delete_tags.
Qed.

Lemma ops_ok_put s o : valid_names o → ops_ok (put_ops s o).
Proof.
  intros Hn. unfold put_ops. repeat apply ops_ok_app.
  - destruct (pebbleGet s _) as [d|]; [|apply ops_ok_nil].
    destruct (unmarshal_object d); [apply ops_ok_delete_tags|apply ops_ok_nil].
  - case_bool_decide; [|apply ops_ok_nil]. apply ops_ok_set, ops_ok_nil. split; [done|by right].
  - destruct (_ || _); [|apply ops_ok_nil]. apply ops_ok_set, ops_ok_nil. split; [done|by left].
  - apply ops_ok_set_tags.
Qed.

Lemma valid_names_stamp now o : valid_names o → valid_names (stamp_object now o).
Proof. unfold valid_names. by destruct (stamp_fields now o) as (-> & -> & -> & _). Qed.

Lemma wf_PutObject now s o s' o' :
  wf_store s → valid_names o → PutObject now s (Some o) = Ok (s', o') → wf_store s'.
Proof.
  intros Hs Hn (_ & _ & _ & -> & ->)%PutObject_Ok.
  apply wf_commitNoSync; [done|]. by apply ops_ok_put, valid_names_stamp.
Qed.

Lemma DeleteObject_Ok s b k vid s' :
  DeleteObject s b k vid = Ok s' ↔
  b ≠ "" ∧ k ≠ "" ∧ ∃ o, pebbleGet s (object_ref b k vid) = Some (VObject o) ∧
    s' = commitSync s (delete_tags b k (om_Tags o) ++ [BDelete (object_ref b k vid)]).
Proof.
  unfold DeleteObject. split.
  - intros H. repeat case_bool_decide; simpl in H; try done.
    destruct (pebbleGet s _) as [[o| | | |]|]; try done. injection H as <-. naive_solver.
  - intros (Hb & Hk & o & Ho & ->). rewrite !bool_decide_eq_false_2 by done. simpl. by rewrite Ho.
Qed.

Lemma wf_DeleteObject s b k vid s' : wf_store s → DeleteObject s b k vid = Ok s' → wf_store s'.
Proof.
  intros Hs (_ & _ & o & _ & ->)%DeleteObject_Ok. apply wf_commitSync; [done|].
  apply ops_ok_app; [apply ops_ok_delete_tags|apply ops_ok_delete, ops_ok_nil].
Qed.

Lemma wf_DeleteObjectVersion s b k (vid : string) s' : wf_store s → DeleteObjectVersion s b k vid = Ok s' → wf_store s'.
Proof.
  intros Hs. unfold DeleteObjectVersion. destruct (pebbleGet s _); [|done]. intros [= <-].
  apply wf_commitSync; [done|]. apply ops_ok_delete, ops_ok_nil.
Qed.

Lemma object_ref_family b k vid :
  family (object_ref b k vid) = "obj" ∨ family (object_ref b k vid) = "version".
Proof. destruct vid as [|v vid]; simpl; [by left|]. case_bool_decide; [by right|by left]. Qed.

Lemma object_ref_not_tag b k vid : family (object_ref b k vid) ≠ "tag_idx".
Proof. destruct (object_ref_family b k vid) as [->| ->]; done. Qed.

Definition ref_version (versionID : list string) : string := match versionID with v :: _ => v | [] => "" end.

(** Two references name the same entry only when they name the same object
    and version. *)
Lemma object_ref_inj b k vid b' k' vid' :
  lacks colon b = true → lacks colon b' = true →
  lacks colon (ref_version vid) = true → lacks colon (ref_version vid') = true →
  object_ref b k vid = object_ref b' k' vid' → b = b' ∧ k = k' ∧ ref_version vid = ref_version vid'.
Proof.
  intros Hb Hb' Hv Hv'. unfold object_ref.
  destruct vid as [|v vid], vid' as [|v' vid']; simpl in *;
    repeat case_bool_decide; intros Heq;
    try (by apply (f_equal family) in Heq);
    first [ by apply objectVersionKey_inj in Heq as (-> & -> & ->)
          | apply objectKey_inj in Heq as [-> ->]; [|done..];
            repeat match goal with Hn : ¬ _ ≠ _ |- _ => apply dec_stable in Hn end; subst; done ].
Qed.

(** With non-empty stored names the object is returned unchanged. *)
Lemma GetObject_stored s b k vid o :
  b ≠ "" → k ≠ "" → om_Bucket o ≠ "" → om_Key o ≠ "" →
  pebbleGet s (object_ref b k vid) = Some (VObject o) → GetObject s b k vid = Ok o.
Proof.
  intros Hb Hk Hob Hok H. unfold GetObject. rewrite !bool_decide_eq_false_2 by done. simpl.
  rewrite H. simpl. rewrite (bool_decide_eq_false_2 (om_Bucket o = "")) by done.
  by rewrite bool_decide_eq_false_2.
Qed.

Lemma GetObject_missing s b k vid :
  b ≠ "" → k ≠ "" → pebbleGet s (object_ref b k vid) = None → GetObject s b k vid = Err ErrObjectNotFound.
Proof.
  intros Hb Hk H. unfold GetObject. rewrite !bool_decide_eq_false_2 by done. simpl. by rewrite H.
Qed.

Lemma GetObject_same_entry s s' b k vid :
  pebbleGet s' (object_ref b k vid) = pebbleGet s (object_ref b k vid) →
  GetObject s' b k vid = GetObject s b k vid.
Proof. unfold GetObject. by intros ->. Qed.

Lemma wal_PutObject now s mo s' o' : wal_ok s → PutObject now s mo = Ok (s', o') → wal_ok s'.
Proof.
  destruct mo as [o|]; [|done]. intros Hs (_ & _ & _ & -> & ->)%PutObject_Ok.
  by apply wal_ok_commitNoSync.
Qed.

(** ** Properties *)

(** C3: a successful [PutObject] is read back exactly as stamped - under the
    object's version, and under the plain key too when the object is the
    latest version or has none - and changes what [GetObject] returns for no
    other object or version. *)
Theorem PutObject_GetObject now s o s' o' :
  lacks colon (om_Bucket o) = true → lacks colon (om_VersionID o) = true →
  PutObject now s (Some o) = Ok (s', o') →
  GetObject s' (om_Bucket o) (om_Key o) [om_VersionID o] = Ok o' ∧
  (om_IsLatest o = true → GetObject s' (om_Bucket o) (om_Key o) [] = Ok o') ∧
  (∀ b k vid, lacks colon b = true → lacks colon (ref_version vid) = true →
     (b, k, ref_version vid) ≠ (om_Bucket o, om_Key o, om_VersionID o) →
     ((b, k, ref_version vid) = (om_Bucket o, om_Key o, "") → om_IsLatest o = false) →
     GetObject s' b k vid = GetObject s b k vid).
Proof.
  intros Hcb Hcv (Hb & Hk & _ & Ho' & ->)%PutObject_Ok.
  destruct (stamp_fields now o) as (Eb & Ek & Ev & El & _). rewrite <-Ho' in *.
  rewrite <-Eb, <-Ek, <-Ev, <-El in *. clear Eb Ek Ev El Ho'.
  split_and!.
  - apply GetObject_stored; try done. rewrite get_after_put by apply object_ref_not_tag.
    rewrite decide_True; [done|]. simpl. case_bool_decide as E; [by right|]. left.
    split; [done|]. by left.
  - intros Hl. apply GetObject_stored; try done. rewrite get_after_put by done.
    rewrite decide_True; [done|]. left. split; [done|by right].
  - intros b k vid Hb' Hv' Hne Hlat. apply GetObject_same_entry.
    rewrite get_after_put by apply object_ref_not_tag. rewrite decide_False; [done|].
    intros [[E Hw]|[E Hnv]].
    + change (objectKey _ _) with (object_ref (om_Bucket o') (om_Key o') []) in E.
      apply object_ref_inj in E as (-> & -> & E); try done. simpl in E.
      destruct Hw as [Hw|Hw]; [by rewrite E, Hw in Hne|].
      rewrite Hlat in Hw; [done|]. by rewrite E.
    + assert (objectVersionKey (om_Bucket o') (om_Key o') (om_VersionID o') =
              object_ref (om_Bucket o') (om_Key o') [om_VersionID o']) as E'
        by (simpl; by rewrite bool_decide_eq_true_2).
      rewrite E' in E. apply object_ref_inj in E as (-> & -> & E); try done.
      simpl in E. by rewrite E in Hne.
Qed.

(** C8: [DeleteObject] succeeds exactly on a stored object; afterwards that
    entry is gone - also after any hard kill, because the delete is synced -
    and every other object and version reads as before. *)
Theorem DeleteObject_durable s b k vid :
  b ≠ "" → k ≠ "" → lacks colon b = true → lacks colon (ref_version vid) = true → wf_store s →
  match DeleteObject s b k vid with
  | Ok s' =>
      is_Some (pebbleGet s (object_ref b k vid)) ∧
      (∀ s'', crash s' s'' → GetObject s'' b k vid = Err ErrObjectNotFound) ∧
      (∀ b' k' vid', lacks colon b' = true → lacks colon (ref_version vid') = true →
         (b', k', ref_version vid') ≠ (b, k, ref_version vid) →
         ∀ s'', crash s' s'' → GetObject s'' b' k' vid' = GetObject s b' k' vid')
  | Err e => e = ErrObjectNotFound ∧ pebbleGet s (object_ref b k vid) = None
  end.
Proof.
  intros Hb Hk Hcb Hcv Hwf. destruct (DeleteObject s b k vid) as [s'|e] eqn:E.
  - apply DeleteObject_Ok in E as (_ & _ & o & Ho & ->).
    assert (∀ s'' K, family K ≠ "tag_idx" →
      crash (commitSync s (delete_tags b k (om_Tags o) ++ [BDelete (object_ref b k vid)])) s'' →
      pebbleGet s'' K = if decide (K = object_ref b k vid) then None else pebbleGet s K) as Hget.
    { intros s'' K HK Hc. rewrite (crash_synced _ s'' K (wal_ok_commitSync _ _) eq_refl Hc).
      rewrite get_commitSync, batch_effect_app, effect_delete_tags_other by done. done. }
    split_and!; [by rewrite Ho| |].
    + intros s'' Hc. apply GetObject_missing; try done.
      rewrite (Hget s'') by (done || apply object_ref_not_tag). by rewrite decide_True.
    + intros b' k' vid' Hb' Hv' Hne s'' Hc. apply GetObject_same_entry.
      rewrite (Hget s'') by (done || apply object_ref_not_tag). rewrite decide_False; [done|].
      intros Heq. apply object_ref_inj in Heq as (-> & -> & E); try done. by rewrite E in Hne.
  - unfold DeleteObject in E. rewrite !bool_decide_eq_false_2 in E by done. simpl in E.
    destruct (pebbleGet s _) as [v|] eqn:Hg; [|by injection E as <-].
    destruct (object_ref_family b k vid) as [Hf|Hf].
    + destruct (entry_ok_obj _ _ (Hwf _ _ Hg) Hf) as (o & -> & _). done.
    + destruct (entry_ok_version _ _ (Hwf _ _ Hg) Hf) as (o & -> & _). done.
Qed.
End ObjectStore.

#[export] Hint Resolve wf_PutObject wf_DeleteObject wf_DeleteObjectVersion wf_commitNoSync wf_commitSync
  ops_ok_nil ops_ok_app ops_ok_delete ops_ok_deletes ops_ok_set_tags ops_ok_delete_tags : store.

(** ** Witnesses *)

Definition sample_object : ObjectMetadata :=
  zero_object <| om_Bucket := "t1/photos" |> <| om_Key := "2024/a:b.jpg" |>
              <| om_VersionID := "17.ab" |> <| om_IsLatest := true |> <| om_Size := 42 |>
              <| om_Tags := {["env" := "prod"]} |>.
Definition sample_put : Store alist * ObjectMetadata :=
  match PutObject 5000000000 store0 (Some sample_object) with
  | Ok r => r
  | Err _ => (store0, sample_object)
  end.
Definition sample_store : Store alist := sample_put.1.

Lemma PutObject_GetObject_witness :
  GetObject sample_store "t1/photos" "2024/a:b.jpg" ["17.ab"] = Ok sample_put.2.
Proof.
  apply (PutObject_GetObject 5000000000 store0 sample_object sample_store sample_put.2);
    vm_compute; reflexivity.
Defined.

Lemma wf_store0 : wf_store store0.
Proof. by intros K v H. Qed.

Lemma sample_store_wf : wf_store sample_store.
Proof.
  apply (wf_PutObject 5000000000 store0 sample_object sample_store sample_put.2 wf_store0); [by split_and!|].
  vm_compute. reflexivity.
Qed.

Lemma DeleteObject_durable_witness :
  ∃ s', DeleteObject sample_store "t1/photos" "2024/a:b.jpg" [] = Ok s' ∧
    GetObject (open_store (st_durable s')) "t1/photos" "2024/a:b.jpg" [] = Err ErrObjectNotFound.
Proof.
  pose proof (DeleteObject_durable sample_store "t1/photos" "2024/a:b.jpg" []
    ltac:(done) ltac:(done) ltac:(done) ltac:(done) sample_store_wf) as H.
  destruct (DeleteObject sample_store "t1/photos" "2024/a:b.jpg" []) as [s'|e] eqn:E.
  - exists s'. split; [done|]. apply H. exists 0%nat. by rewrite take_0.
  - exfalso. vm_compute in E. discriminate E.
Defined.
