(* ===== verification/Listing.v ===== *)
(** * Listings ([ListObjects], [ListObjectsDelimited])

    Both listings iterate over the keys of a bucket that start with the
    requested prefix, resume after a marker and stop after [maxKeys] results.
    [ListObjectsDelimited] also rolls keys up into common prefixes, and jumps
    over a whole group with [SeekGE] instead of reading it.

    The specification is over [objects_under], the stored objects of a bucket
    with a prefix in key order: a page is the first [maxKeys] results after
    the marker, the next marker is the last result of the page when there is
    more, and following the markers yields every result exactly once. *)

From S2P Require Import Prelude GoStrings MetaTypes Keys Pebble ObjectStore.
From stdpp Require Import base gmap sets list strings sorting.
From Stdlib Require Import ZArith Lia.
Open Scope Z_scope.

Section Listing.
Context {DB : Type} `{PB : Pebble DB}.
Implicit Types (s : Store DB) (o : ObjectMetadata) (b k bucket prefix marker : string).

(** ** [ListObjects] *)

Definition default_max (maxKeys : Z) : Z := if maxKeys <=? 0 then 1000 else maxKeys.

Definition list_lower bucket prefix : string :=
  if bool_decide (prefix ≠ "") then objectPrefixKey bucket prefix else objectListPrefix bucket.

Fixpoint list_loop marker (maxKeys : Z) (started : bool) (count : Z) (lastKey : string)
    (objects : list ObjectMetadata) (l : list entry) : list ObjectMetadata * string :=
  match l with
  | [] => (objects, "")
  | (K, val) :: l' =>
      let objKeyStr := extractObjectKeyFromKey K in
      if negb started && bool_decide (objKeyStr = marker)
      then list_loop marker maxKeys true count lastKey objects l'
      else if maxKeys <=? count then (objects, lastKey)
      else
        match unmarshal_object val with
        | None => list_loop marker maxKeys true count lastKey objects l'
        | Some obj => list_loop marker maxKeys true (count + 1) objKeyStr (objects ++ [obj]) l'
        end
  end.

Definition ListObjects s bucket prefix marker (maxKeys : Z)
  : result StoreError (list ObjectMetadata * string) :=
  if bool_decide (bucket = "") then Err (ErrMsg "bucket name is required")
  else
    let maxKeys := default_max maxKeys in
    let iter := pebbleIter s (list_lower bucket prefix) in
    let cur := if bool_decide (marker ≠ "") then SeekGE iter (objectKey bucket marker) else iter in
    Ok (list_loop marker maxKeys (bool_decide (marker = "")) 0 "" [] cur).

(** ** [ListObjectsDelimited] *)

(** The common prefix a key rolls up into, if any. *)
Definition find_folder prefix (delimiter objKeyStr : string) : option string :=
  if bool_decide (delimiter ≠ "") && Nat.ltb (len prefix) (len objKeyStr) then
    let remaining := s_from (len prefix) objKeyStr in
    match Index remaining delimiter with
    | Some delimIdx => Some (prefix +:+ s_to (delimIdx + len delimiter) remaining)
    | None => None
    end
  else None.

Record dstate := mkD {
  d_result : DelimitedListResult;
  d_seen : gset string;
  d_count : Z;
  d_last : string
}.
Definition d_truncate (st : dstate) : DelimitedListResult :=
  d_result st <| dl_IsTruncated := true |> <| dl_NextMarker := d_last st |>.
Definition d_add_prefix (cp : string) (st : dstate) : dstate :=
  mkD (d_result st <| dl_CommonPrefixes := dl_CommonPrefixes (d_result st) ++ [cp] |>)
      ({[cp]} ∪ d_seen st) (d_count st + 1) cp.
Definition d_add_object o (name : string) (st : dstate) : dstate :=
  mkD (d_result st <| dl_Objects := dl_Objects (d_result st) ++ [o] |>)
      (d_seen st) (d_count st + 1) name.
Definition d_init : dstate := mkD (mkDelimited [] [] "" false) ∅ 0 "".

(** The [for] loop with its [processKey] label: [top] tells whether control
    is at the head of the loop body or at the label, [cur] is what the
    iterator has left ([SeekGE] repositions it within [all]).  [None] is
    running out of fuel. *)
Fixpoint delim_loop (fuel : nat) bucket prefix (delimiter : string) marker (maxKeys : Z)
    (all : list entry) (top started : bool) (st : dstate) (cur : list entry)
    : option DelimitedListResult :=
  match fuel with
  | O => None
  | S fuel =>
      let loop := delim_loop fuel bucket prefix delimiter marker maxKeys all in
      match cur with
      | [] => Some (d_result st)
      | (K, val) :: rest =>
          let objKeyStr := extractObjectKeyFromKey K in
          if top && negb started && bool_decide (objKeyStr = marker)
          then loop true true st rest
          else
            match find_folder prefix delimiter objKeyStr with
            | Some commonPrefix =>
                if bool_decide (commonPrefix ∉ d_seen st) && (maxKeys <=? d_count st)
                then Some (d_truncate st)
                else
                  let st := if bool_decide (commonPrefix ∉ d_seen st)
                            then d_add_prefix commonPrefix st else st in
                  match prefixEnd (objectPrefixKey bucket commonPrefix) with
                  | Some skipTarget => loop false true st (SeekGE all skipTarget)
                  | None => loop true true st rest
                  end
            | None =>
                if top then loop false true st cur
                else if maxKeys <=? d_count st then Some (d_truncate st)
                else
                  match unmarshal_object val with
                  | None => loop true true st rest
                  | Some obj => loop true true (d_add_object obj objKeyStr st) rest
                  end
            end
      end
  end.

(** Where the iterator starts: after the whole group when the marker is a
    common prefix of an earlier page, at the marker otherwise. *)
Definition delim_start bucket (delimiter : string) marker (all : list entry) : list entry * bool :=
  if bool_decide (marker ≠ "") then
    if bool_decide (delimiter ≠ "") && HasSuffix marker delimiter then
      (match prefixEnd (objectPrefixKey bucket marker) with
       | Some skipTarget => SeekGE all skipTarget
       | None => []
       end, true)
    else (SeekGE all (objectKey bucket marker), false)
  else (all, true).

Definition delim_fuel (all : list entry) : nat := 2 * length all + 2.

Definition ListObjectsDelimited s bucket prefix (delimiter : string) marker (maxKeys : Z)
  : result StoreError (option DelimitedListResult) :=
  if bool_decide (bucket = "") then Err (ErrMsg "bucket name is required")
  else
    let maxKeys := default_max maxKeys in
    let all := pebbleIter s (list_lower bucket prefix) in
    let '(cur, started) := delim_start bucket delimiter marker all in
    Ok (delim_loop (delim_fuel all) bucket prefix delimiter marker maxKeys all true started d_init cur).

(** ** Specification *)

(** The stored objects of [bucket] whose key starts with [prefix], in key order. *)
Definition objects_under s bucket prefix : list ObjectMetadata :=
  omap (λ e, unmarshal_object e.2) (pebbleIter s (objectPrefixKey bucket prefix)).

Definition obj_entry bucket o : entry := (objectKey bucket (om_Key o), VObject o).

Definition after marker (objs : list ObjectMetadata) : list ObjectMetadata :=
  if bool_decide (marker = "") then objs else filter (λ o, blt marker (om_Key o) = true) objs.

Definition last_key (objs : list ObjectMetadata) : string :=
  from_option om_Key "" (last objs).

Definition page_size (maxKeys : Z) : nat := Z.to_nat (default_max maxKeys).

(** A client that follows the markers until there are no more pages. *)
Fixpoint list_pages (fuel : nat) s bucket prefix marker (maxKeys : Z) : list ObjectMetadata :=
  match fuel with
  | O => []
  | S fuel =>
      match ListObjects s bucket prefix marker maxKeys with
      | Err _ => []
      | Ok (page, next) =>
          page ++ (if bool_decide (next = "") then [] else list_pages fuel s bucket prefix next maxKeys)
      end
  end.

(** The results of a delimited listing. *)
Inductive item : Type := IKey (o : ObjectMetadata) | IPrefix (cp : string).
Definition item_name (i : item) : string :=
  match i with IKey o => om_Key o | IPrefix cp => cp end.
Definition item_keys (l : list item) : list ObjectMetadata :=
  omap (λ i, match i with IKey o => Some o | IPrefix _ => None end) l.
Definition item_prefixes (l : list item) : list string :=
  omap (λ i, match i with IPrefix cp => Some cp | IKey _ => None end) l.

(** One result per object outside a folder, one per folder. *)
Fixpoint rollup prefix (delimiter : string) (seen : gset string) (objs : list ObjectMetadata) : list item :=
  match objs with
  | [] => []
  | o :: objs =>
      match find_folder prefix delimiter (om_Key o) with
      | Some cp =>
          if bool_decide (cp ∈ seen) then rollup prefix delimiter seen objs
          else IPrefix cp :: rollup prefix delimiter ({[cp]} ∪ seen) objs
      | None => IKey o :: rollup prefix delimiter seen objs
      end
  end.

(** The objects a delimited listing resumes with. *)
Definition after_delim (delimiter : string) marker (objs : list ObjectMetadata) : list ObjectMetadata :=
  if bool_decide (delimiter ≠ "") && HasSuffix marker delimiter
  then filter (λ o, blt marker (om_Key o) = true ∧ HasPrefix (om_Key o) marker = false) objs
  else after marker objs.

Fixpoint delim_pages (fuel : nat) s bucket prefix (delimiter : string) marker (maxKeys : Z)
  : list ObjectMetadata * list string :=
  match fuel with
  | O => ([], [])
  | S fuel =>
      match ListObjectsDelimited s bucket prefix delimiter marker maxKeys with
      | Ok (Some r) =>
          let rest := if dl_IsTruncated r
                      then delim_pages fuel s bucket prefix delimiter (dl_NextMarker r) maxKeys
                      else ([], []) in
          (dl_Objects r ++ rest.1, dl_CommonPrefixes r ++ rest.2)
      | _ => ([], [])
      end
  end.

Context `{PL : !PebbleLaws DB}.

(** ** The iterator over a bucket *)

Abbreviation sorted_keys := (sorted_by om_Key).

Lemma list_lower_eq bucket prefix : list_lower bucket prefix = objectPrefixKey bucket prefix.
Proof. unfold list_lower. case_bool_decide as E; [done|]. by rewrite E. Qed.

(** Every entry of the scan is the entry of one of the bucket's objects. *)
Lemma scan_entry s b p K v :
  wf_store s → lacks colon b = true → (K, v) ∈ pebbleIter s (objectPrefixKey b p) →
  ∃ o, (K, v) = obj_entry b o ∧ om_Bucket o = b ∧ HasPrefix (om_Key o) p = true.
Proof.
  intros Hwf Hb [Hg (k & -> & Hk)%objectPrefixKey_inv]%elem_of_pebbleIter.
  destruct (entry_ok_obj _ _ (Hwf _ _ Hg)) as (o & -> & E & [Hn _]); [done|].
  apply objectKey_inj in E as [-> ->]; try done. by exists o.
Qed.

Lemma scan_objects s b p :
  wf_store s → lacks colon b = true →
  pebbleIter s (objectPrefixKey b p) = obj_entry b <$> objects_under s b p.
Proof.
  intros Hwf Hb. unfold objects_under.
  assert (∀ e, e ∈ pebbleIter s (objectPrefixKey b p) → ∃ o, e = obj_entry b o) as H.
  { intros [K v] He. destruct (scan_entry s b p K v) as (o & ? & _); eauto. }
  induction (pebbleIter s (objectPrefixKey b p)) as [|e l IH]; [done|].
  destruct (H e) as [o ->]; [set_solver|]. simpl. f_equal. apply IH. set_solver.
Qed.

Lemma elem_of_objects_under s b p o :
  wf_store s → lacks colon b = true →
  o ∈ objects_under s b p ↔
  pebbleGet s (objectKey b (om_Key o)) = Some (VObject o) ∧ HasPrefix (om_Key o) p = true.
Proof.
  intros Hwf Hb. unfold objects_under. rewrite list_elem_of_omap. split.
  - intros ([K v] & Hin & Ho). destruct (scan_entry s b p K v) as (o' & E & _ & Hp); try done.
    injection E as -> ->. simpl in Ho. injection Ho as ->.
    by apply elem_of_pebbleIter in Hin as [? _].
  - intros [Hg Hp]. exists (obj_entry b o). split; [|done].
    apply elem_of_pebbleIter. by rewrite objectKey_prefix.
Qed.

Lemma objects_under_sorted s b p :
  wf_store s → lacks colon b = true → sorted_keys (objects_under s b p).
Proof.
  intros Hwf Hb. pose proof (pebbleIter_sorted s (objectPrefixKey b p)) as H.
  rewrite scan_objects in H by done. clear Hwf.
  induction (objects_under s b p) as [|o l IH]; [constructor|].
  inversion H as [|? ? Hs Hf]; subst. apply sorted_by_cons. split; [|by apply IH].
  apply Forall_fmap in Hf. eapply Forall_impl; [exact Hf|].
  intros o' Ho. simpl in Ho. by rewrite objectKey_blt in Ho.
Qed.

Lemma objects_under_prefix s b p :
  wf_store s → lacks colon b = true → Forall (λ o, HasPrefix (om_Key o) p = true) (objects_under s b p).
Proof. intros Hwf Hb. apply Forall_forall. intros o Ho. by apply elem_of_objects_under in Ho as [_ ?]. Qed.

Lemma extract_obj_entry b o : lacks colon b = true → extractObjectKeyFromKey (obj_entry b o).1 = om_Key o.
Proof. intros Hb. apply (extract_objectKey b (om_Key o) Hb). Qed.

Lemma SeekGE_objects b m objs :
  SeekGE (obj_entry b <$> objs) (objectKey b m) =
  obj_entry b <$> drop_while (λ o, blt (om_Key o) m) objs.
Proof.
  unfold SeekGE. induction objs as [|o objs IH]; [done|]. rewrite fmap_cons. simpl.
  rewrite objectKey_blt. destruct (blt (om_Key o) m); [done|by rewrite fmap_cons].
Qed.

(** ** [ListObjects] *)

Lemma list_loop_objects b m N objs : lacks colon b = true →
  ∀ count lastk acc, 0 ≤ count →
  list_loop m N true count lastk acc (obj_entry b <$> objs) =
  (acc ++ take (Z.to_nat (N - count)) objs,
   if bool_decide (length objs ≤ Z.to_nat (N - count))%nat then ""
   else from_option om_Key lastk (last (take (Z.to_nat (N - count)) objs))).
Proof.
  intros Hb. induction objs as [|o objs IH]; intros count lastk acc Hc.
  { rewrite fmap_nil, take_nil, app_nil_r. rewrite bool_decide_eq_true_2 by (simpl; lia). done. }
  rewrite fmap_cons. simpl. rewrite (extract_objectKey b (om_Key o) Hb).
  destruct (Z.leb_spec N count).
  - replace (Z.to_nat (N - count)) with O by lia. simpl. by rewrite app_nil_r.
  - rewrite IH by lia. replace (Z.to_nat (N - count)) with (S (Z.to_nat (N - (count + 1)))) by lia.
    simpl. rewrite <-app_assoc. f_equal. rewrite last_cons.
    repeat case_bool_decide; try lia; try done. by destruct (last _).
Qed.

Lemma list_loop_marker b m N objs : lacks colon b = true → 0 < N →
  list_loop m N false 0 "" [] (obj_entry b <$> objs) =
  list_loop m N true 0 "" [] (obj_entry b <$>
    match objs with o :: r => if bool_decide (om_Key o = m) then r else objs | [] => [] end).
Proof.
  intros Hb HN. destruct objs as [|o objs]; [done|]. rewrite fmap_cons. simpl.
  rewrite (extract_objectKey b (om_Key o) Hb). case_bool_decide; [done|].
  rewrite fmap_cons. simpl. by rewrite (extract_objectKey b (om_Key o) Hb).
Qed.

Lemma default_max_pos n : 0 < default_max n.
Proof. unfold default_max. destruct (Z.leb_spec n 0); lia. Qed.

Lemma ListObjects_eq s b p m n :
  wf_store s → lacks colon b = true → b ≠ "" →
  ListObjects s b p m n =
  let cand := after m (objects_under s b p) in
  let page := take (page_size n) cand in
  Ok (page, if bool_decide (length cand ≤ page_size n)%nat then "" else last_key page).
Proof.
  intros Hwf Hb Hne. unfold ListObjects. rewrite bool_decide_eq_false_2 by done.
  rewrite list_lower_eq, scan_objects by done. cbv zeta.
  pose proof (default_max_pos n) as Hn.
  unfold after, page_size. destruct (bool_decide_reflect (m = "")) as [->|Hm].
  - rewrite bool_decide_eq_false_2 by tauto. rewrite list_loop_objects by done.
    by rewrite Z.sub_0_r.
  - rewrite bool_decide_eq_true_2 by done. rewrite SeekGE_objects, list_loop_marker by done.
    rewrite list_loop_objects, Z.sub_0_r by done.
    pose proof (sorted_by_skip om_Key m _ (objects_under_sorted s b p Hwf Hb)) as Hskip.
    rewrite <-Hskip. by destruct (drop_while _ _).
Qed.

Lemma after_after k m objs :
  blt m k = true → after k (after m objs) = after k objs.
Proof.
  intros Hm. unfold after. assert (k ≠ "") by (intros ->; by rewrite blt_empty in Hm).
  rewrite bool_decide_eq_false_2 by done. case_bool_decide; [done|].
  rewrite list_filter_filter. apply list_filter_iff. intros o. split; [tauto|].
  intros Ho. split; [done|]. by eapply blt_trans.
Qed.

Lemma after_sorted m objs : sorted_keys objs → sorted_keys (after m objs).
Proof.
  intros H. unfold after. case_bool_decide; [done|]. by apply sorted_by_filter.
Qed.

(** The last key of a full page splits the remaining objects off. *)
Lemma after_page m objs n :
  sorted_keys objs → Forall (λ o, om_Key o ≠ "") objs → (0 < n)%nat →
  (n < length (after m objs))%nat →
  after (last_key (take n (after m objs))) objs = drop n (after m objs) ∧
  last_key (take n (after m objs)) ≠ "".
Proof.
  intros Hs Hne Hn Hlen. set (cand := after m objs) in *.
  assert (sorted_keys cand) as Hsc by by apply after_sorted.
  destruct (lookup_lt_is_Some_2 cand (n - 1)) as [x Hx]; [lia|].
  assert (take n cand = take (n - 1) cand ++ [x]) as Etake.
  { replace n with (S (n - 1)) at 1 by lia. by apply take_S_r. }
  assert (x ∈ cand) as Hin by by eapply list_elem_of_lookup_2.
  assert (x ∈ objs ∧ (m ≠ "" → blt m (om_Key x) = true)) as [Hxo Hxm].
  { unfold cand, after in Hin. case_bool_decide; [tauto|].
    by apply list_elem_of_filter in Hin as [? ?]. }
  rewrite Forall_forall in Hne. specialize (Hne x Hxo).
  unfold last_key. rewrite Etake, last_snoc. simpl. split; [|done].
  assert (after (om_Key x) objs = after (om_Key x) cand) as ->.
  { unfold cand. destruct (decide (m = "")) as [->|Hm]; [done|]. symmetry. by apply after_after, Hxm. }
  pose proof (take_drop_middle cand (n - 1) x Hx) as E.
  unfold after at 1. rewrite bool_decide_eq_false_2 by done.
  rewrite <-E at 1. rewrite (sorted_by_after_prefix om_Key) by (by rewrite E).
  f_equal. lia.
Qed.

(** No stored object has an empty name. *)
Lemma objects_under_named s b p :
  wf_store s → lacks colon b = true → Forall (λ o, om_Key o ≠ "") (objects_under s b p).
Proof.
  intros Hwf Hb. apply Forall_forall. intros o [Hg _]%elem_of_objects_under; [|done..].
  destruct (entry_ok_obj _ _ (Hwf _ _ Hg)) as (o' & [= <-] & _ & _ & _ & ?); done.
Qed.

Lemma list_pages_complete fuel s b p m n :
  wf_store s → lacks colon b = true → b ≠ "" →
  (length (after m (objects_under s b p)) < fuel)%nat →
  list_pages fuel s b p m n = after m (objects_under s b p).
Proof.
  intros Hwf Hb Hne. revert m. induction fuel as [|fuel IH]; intros m Hf; [lia|].
  simpl. rewrite ListObjects_eq by done. cbv zeta.
  pose proof (default_max_pos n) as Hn.
  assert (0 < page_size n)%nat as Hp by (unfold page_size; lia).
  case_bool_decide as Hlen.
  - rewrite bool_decide_eq_true_2 by done. by rewrite take_ge, app_nil_r.
  - destruct (after_page m (objects_under s b p) (page_size n)) as [E Hnk];
      [by apply objects_under_sorted|by apply objects_under_named|done|lia|].
    rewrite bool_decide_eq_false_2 by done. rewrite IH; rewrite E; [by rewrite take_drop|].
    rewrite length_drop. lia.
Qed.

(** ** Common prefixes *)

(** A folder ends with the delimiter, contains the key, and is the folder of
    every key it contains. *)
Lemma find_folder_Some p d k cp :
  HasPrefix k p = true → find_folder p d k = Some cp →
  d ≠ "" ∧ HasPrefix k cp = true ∧ HasSuffix cp d = true ∧
  (∀ k', HasPrefix k' cp = true → find_folder p d k' = Some cp).
Proof.
  intros [u ->]%HasPrefix_spec. unfold find_folder at 1. intros H.
  case_bool_decide as Hd; [|done]. simpl in H. rewrite s_from_app in H.
  destruct (Nat.ltb _ _) eqn:Hl; [clear Hl|done].
  destruct (Index u d) as [i|] eqn:Ei; [|done]. injection H as <-.
  pose proof (Index_Some _ _ _ Ei) as [Esplit Hi].
  set (hd := s_to (i + len d) u) in *.
  assert (hd = s_to i u +:+ d) as Ehd.
  { unfold hd. rewrite Esplit at 1. rewrite <-app_assoc_str.
    replace (i + len d)%nat with (len (s_to i u +:+ d)) at 1; [apply s_to_app|].
    rewrite length_app_str, length_s_to; lia. }
  split_and!; [done| | |].
  - rewrite HasPrefix_app_common. apply HasPrefix_spec. exists (s_from (i + len d) u).
    by unfold hd; rewrite s_to_from.
  - apply HasSuffix_spec. exists (p +:+ s_to i u). by rewrite Ehd, app_assoc_str.
  - intros k' [t ->]%HasPrefix_spec. unfold find_folder. rewrite bool_decide_eq_true_2 by done.
    rewrite !app_assoc_str, s_from_app.
    replace (Nat.ltb _ _) with true; [|symmetry; apply Nat.ltb_lt; rewrite !length_app_str].
    + cbv beta iota. unfold hd. rewrite (Index_app_first _ _ _ t Ei). simpl.
      by rewrite s_to_app_le, s_to_idem by (rewrite length_s_to; lia).
    + destruct d; [done|]. rewrite Ehd, length_app_str. simpl. lia.
Qed.

(** ** The loop against a scan without skipping *)

Fixpoint delim_scan prefix (delimiter : string) (maxKeys : Z) (st : dstate)
    (objs : list ObjectMetadata) : DelimitedListResult :=
  match objs with
  | [] => d_result st
  | o :: objs =>
      match find_folder prefix delimiter (om_Key o) with
      | Some cp =>
          if bool_decide (cp ∈ d_seen st) then delim_scan prefix delimiter maxKeys st objs
          else if maxKeys <=? d_count st then d_truncate st
          else delim_scan prefix delimiter maxKeys (d_add_prefix cp st) objs
      | None =>
          if maxKeys <=? d_count st then d_truncate st
          else delim_scan prefix delimiter maxKeys (d_add_object o (om_Key o) st) objs
      end
  end.

Lemma delim_scan_skip p d N st cp objs :
  cp ∈ d_seen st → (∀ k, HasPrefix k cp = true → find_folder p d k = Some cp) →
  delim_scan p d N st (drop_while (λ o, HasPrefix (om_Key o) cp) objs) = delim_scan p d N st objs.
Proof.
  intros Hseen Hcp. induction objs as [|o objs IH]; [done|]. simpl.
  destruct (HasPrefix (om_Key o) cp) eqn:E; [|done].
  rewrite IH, (Hcp _ E). by rewrite bool_decide_eq_true_2.
Qed.

Lemma drop_while_fmap {A B} (f : A → B) (P : B → bool) (l : list A) :
  drop_while P (f <$> l) = f <$> drop_while (λ x, P (f x)) l.
Proof. induction l as [|x l IH]; [done|]. rewrite fmap_cons. simpl. destruct (P (f x)); done. Qed.

Lemma drop_while_ext {A} (P Q : A → bool) (l : list A) :
  Forall (λ x, P x = Q x) l → drop_while P l = drop_while Q l.
Proof. induction 1 as [|x l Hx _ IH]; [done|]. simpl. by rewrite Hx, IH. Qed.

(** Seeking past a folder lands after the folder's keys. *)
Lemma SeekGE_folder b cp e pre o rest :
  prefixEnd (objectPrefixKey b cp) = Some e → HasPrefix (om_Key o) cp = true →
  sorted_keys (pre ++ o :: rest) →
  SeekGE (obj_entry b <$> (pre ++ o :: rest)) e =
  obj_entry b <$> drop_while (λ x, HasPrefix (om_Key x) cp) rest.
Proof.
  intros He Ho (Hpre & [Hor Hrest]%sorted_by_cons & Hpo)%sorted_by_app.
  assert (∀ x, blt (om_Key x) (om_Key o) = false →
    blt (objectKey b (om_Key x)) e = HasPrefix (om_Key x) cp) as Hge.
  { intros x Hx. rewrite <-(objectKey_prefix b). apply prefixEnd_skip; [done|].
    destruct (blt (objectKey b (om_Key x)) (objectPrefixKey b cp)) eqn:E; [|done].
    change (objectPrefixKey b cp) with (objectKey b cp) in E. rewrite objectKey_blt in E.
    pose proof (HasPrefix_blt _ _ Ho) as Hc.
    by rewrite (blt_true_false _ _ _ E Hc) in Hx. }
  pose proof (Hge o (blt_irrefl _)) as Heo. rewrite Ho in Heo.
  unfold SeekGE. rewrite drop_while_fmap, drop_while_app. 2:{
    apply Forall_forall. intros x Hx. simpl. eapply blt_trans; [|exact Heo].
    rewrite objectKey_blt. apply Hpo; [done|left]. }
  simpl. rewrite Heo. f_equal. apply drop_while_ext. eapply Forall_impl; [exact Hor|].
  intros x Hx. simpl. apply Hge. by apply blt_asym.
Qed.

Lemma delim_loop_scan b p d m N objs :
  lacks colon b = true → sorted_keys objs → Forall (λ o, HasPrefix (om_Key o) p = true) objs →
  ∀ fuel top st pre cur, objs = pre ++ cur →
  (2 * length cur + (if top : bool then 2 else 1) ≤ fuel)%nat →
  delim_loop fuel b p d m N (obj_entry b <$> objs) top true st (obj_entry b <$> cur) =
  Some (delim_scan p d N st cur).
Proof.
  intros Hb Hs Hp. induction fuel as [|fuel IH]; intros top st pre cur Hcur Hf;
    [destruct top; lia|].
  destruct cur as [|o rest]; [done|].
  rewrite fmap_cons. simpl. rewrite (extract_objectKey b (om_Key o) Hb).
  rewrite andb_false_r. simpl.
  assert (HasPrefix (om_Key o) p = true) as Ho.
  { rewrite Hcur, Forall_app, Forall_cons in Hp. tauto. }
  destruct (find_folder p d (om_Key o)) as [cp|] eqn:Ecp.
  - destruct (find_folder_Some p d (om_Key o) cp Ho Ecp) as (Hd & Hk & _ & Hall).
    destruct (prefixEnd_object_Some b cp) as [e He]. rewrite He.
    assert (∀ st', cp ∈ d_seen st' →
      delim_loop fuel b p d m N (obj_entry b <$> objs) false true st' (SeekGE (obj_entry b <$> objs) e)
      = Some (delim_scan p d N st' rest)) as Hgo.
    { intros st' Hst'. rewrite Hcur at 2. rewrite Hcur in Hs.
      rewrite (SeekGE_folder b cp e pre o rest He Hk Hs).
      destruct (drop_while_suffix (λ x, HasPrefix (om_Key x) cp) rest) as [l1 [El1 _]].
      pose proof (length_drop_while (λ x, HasPrefix (om_Key x) cp) rest).
      rewrite (IH false st' (pre ++ o :: l1)); [by rewrite delim_scan_skip| |].
      - rewrite <-app_assoc. simpl. by rewrite <-El1.
      - simpl in Hf. destruct top; lia. }
    destruct (bool_decide_reflect (cp ∈ d_seen st)) as [Hin|Hin].
    + rewrite bool_decide_eq_false_2 by tauto. simpl. by apply Hgo.
    + rewrite bool_decide_eq_true_2 by done. simpl. destruct (N <=? d_count st); [done|].
      apply Hgo. simpl. set_solver.
  - destruct top.
    + change (obj_entry b o :: (obj_entry b <$> rest)) with (obj_entry b <$> (o :: rest)).
      simpl in Hf. rewrite (IH false st pre (o :: rest)); [|done|simpl; lia]. simpl. by rewrite Ecp.
    + destruct (N <=? d_count st); [done|]. simpl in Hf.
      apply (IH true _ (pre ++ [o])); [by rewrite <-app_assoc|lia].
Qed.

(** The first element when the marker itself is a stored key. *)
Lemma delim_loop_marker b p d m N all objs fuel st :
  lacks colon b = true →
  delim_loop (S fuel) b p d m N all true false st (obj_entry b <$> objs) =
  match objs with
  | o :: rest =>
      if bool_decide (om_Key o = m) then delim_loop fuel b p d m N all true true st (obj_entry b <$> rest)
      else delim_loop (S fuel) b p d m N all true true st (obj_entry b <$> objs)
  | [] => delim_loop (S fuel) b p d m N all true true st (obj_entry b <$> objs)
  end.
Proof.
  intros Hb. destruct objs as [|o rest]; [done|]. rewrite fmap_cons. simpl.
  rewrite (extract_objectKey b (om_Key o) Hb). by case_bool_decide.
Qed.

(** ** The scan against [rollup] *)

Definition d_finish (st : dstate) (items : list item) (room : nat) : DelimitedListResult :=
  let page := take room items in
  mkDelimited (dl_Objects (d_result st) ++ item_keys page)
    (dl_CommonPrefixes (d_result st) ++ item_prefixes page)
    (if bool_decide (length items ≤ room)%nat then dl_NextMarker (d_result st)
     else from_option item_name (d_last st) (last page))
    (if bool_decide (length items ≤ room)%nat then dl_IsTruncated (d_result st) else true).

Lemma d_finish_nil st room : d_finish st [] room = d_result st.
Proof.
  unfold d_finish. rewrite take_nil, bool_decide_eq_true_2 by (simpl; lia). simpl.
  rewrite !app_nil_r. by destruct st as [[] ? ? ?].
Qed.

Lemma d_finish_full st i items : d_finish st (i :: items) 0 = d_truncate st.
Proof.
  unfold d_finish. rewrite bool_decide_eq_false_2 by (simpl; lia). simpl.
  rewrite !app_nil_r. by destruct st as [[] ? ? ?].
Qed.

Lemma d_finish_cons st i items room :
  d_finish st (i :: items) (S room) =
  d_finish (match i with IKey o => d_add_object o (om_Key o) st | IPrefix cp => d_add_prefix cp st end)
    items room.
Proof.
  unfold d_finish. simpl. rewrite last_cons.
  destruct i as [o|cp]; simpl; rewrite <-!app_assoc; simpl; f_equal;
    repeat case_bool_decide; try lia; try done; by destruct (last _).
Qed.

Lemma delim_scan_rollup p d N objs st :
  0 ≤ d_count st →
  delim_scan p d N st objs = d_finish st (rollup p d (d_seen st) objs) (Z.to_nat (N - d_count st)).
Proof.
  revert st. induction objs as [|o objs IH]; intros st Hc; simpl; [by rewrite d_finish_nil|].
  assert (∀ i st', d_count st' = d_count st + 1 →
    st' = match i with IKey o => d_add_object o (om_Key o) st | IPrefix cp => d_add_prefix cp st end →
    (if N <=? d_count st then d_truncate st else delim_scan p d N st' objs) =
    d_finish st (i :: rollup p d (d_seen st') objs) (Z.to_nat (N - d_count st))) as Hadd.
  { intros i st' Hst' E. destruct (Z.leb_spec N (d_count st)).
    - replace (Z.to_nat _) with O by lia. by rewrite d_finish_full.
    - replace (Z.to_nat (N - d_count st)) with (S (Z.to_nat (N - (d_count st + 1)))) by lia.
      rewrite d_finish_cons, IH, Hst' by lia. by rewrite E. }
  destruct (find_folder p d (om_Key o)) as [cp|].
  - case_bool_decide; [by apply IH|]. by apply (Hadd (IPrefix cp) (d_add_prefix cp st)).
  - by apply (Hadd (IKey o) (d_add_object o (om_Key o) st)).
Qed.

(** ** Where a page resumes *)

Lemma drop_while_filter (P : ObjectMetadata → bool) objs :
  sorted_keys objs →
  (∀ x y, blt (om_Key x) (om_Key y) = true → P y = true → P x = true) →
  drop_while P objs = filter (λ o, P o = false) objs.
Proof.
  intros Hs HP. induction objs as [|o objs IH]; [done|]. apply sorted_by_cons in Hs as [Ho Hs].
  simpl. destruct (P o) eqn:E.
  - rewrite filter_cons_False by congruence. by apply IH.
  - symmetry. apply filter_all. constructor; [done|]. eapply Forall_impl; [exact Ho|].
    intros x Hx. destruct (P x) eqn:Ex; [|done]. rewrite (HP o x) in E; done.
Qed.

Lemma SeekGE_after_folder b m e objs :
  prefixEnd (objectPrefixKey b m) = Some e → sorted_keys objs →
  SeekGE (obj_entry b <$> objs) e =
  obj_entry b <$> filter (λ o, blt m (om_Key o) = true ∧ HasPrefix (om_Key o) m = false) objs.
Proof.
  intros He Hs. unfold SeekGE. rewrite drop_while_fmap. f_equal. simpl.
  rewrite (drop_while_filter (λ o, blt (objectKey b (om_Key o)) e)); [|done|].
  2:{ intros x y Hxy Hy. eapply blt_trans; [|exact Hy]. by rewrite objectKey_blt. }
  apply list_filter_iff. intros o.
  pose proof (prefixEnd_spec (objectPrefixKey b m) (objectKey b (om_Key o))) as Hspec.
  rewrite He, objectKey_prefix in Hspec. change (objectPrefixKey b m) with (objectKey b m) in *.
  rewrite objectKey_blt in Hspec.
  assert (blt (om_Key o) m = true → blt (objectKey b (om_Key o)) e = true) as Hbelow.
  { intros Hlt. apply (blt_trans _ (objectKey b m)); [by rewrite objectKey_blt|].
    pose proof (prefixEnd_skip _ _ (objectKey b m) He (blt_irrefl _)) as Hm.
    rewrite Hm. apply HasPrefix_refl. }
  destruct (blt (objectKey b (om_Key o)) e) eqn:E1.
  - split; [done|]. intros [H1 H2]. apply blt_asym in H1. destruct Hspec as [Hspec _].
    rewrite Hspec in H2 by done. done.
  - split; [intros _|done]. destruct (blt (om_Key o) m) eqn:E2; [by specialize (Hbelow eq_refl)|].
    destruct (HasPrefix (om_Key o) m) eqn:E3.
    { destruct Hspec as [_ Hspec]. by destruct (Hspec eq_refl) as [_ ?]. }
    split; [|done]. destruct (blt m (om_Key o)) eqn:E4; [done|].
    rewrite (blt_total _ _ E2 E4), HasPrefix_refl in E3. done.
Qed.

Lemma after_delim_other d m objs :
  bool_decide (d ≠ "") && HasSuffix m d = false → after_delim d m objs = after m objs.
Proof. unfold after_delim. by intros ->. Qed.

Lemma HasSuffix_empty d : d ≠ "" → HasSuffix "" d = false.
Proof. intros Hd. destruct (HasSuffix "" d) eqn:E; [|done]. apply HasSuffix_spec in E as [[] E]; by destruct d. Qed.

(** One page of a delimited listing. *)
Lemma delim_run b p d m n objs pre cur fuel :
  lacks colon b = true → sorted_keys objs → Forall (λ o, HasPrefix (om_Key o) p = true) objs →
  objs = pre ++ cur → (2 * length cur + 2 ≤ fuel)%nat →
  delim_loop fuel b p d m (default_max n) (obj_entry b <$> objs) true true d_init (obj_entry b <$> cur) =
  Some (d_finish d_init (rollup p d ∅ cur) (page_size n)).
Proof.
  intros Hb Hs Hp E Hf.
  rewrite (delim_loop_scan b p d m (default_max n) objs Hb Hs Hp fuel true _ pre cur E) by done.
  rewrite delim_scan_rollup by done. simpl. by rewrite Z.sub_0_r.
Qed.

Lemma d_finish_init items n :
  d_finish d_init items (page_size n) =
  mkDelimited (item_keys (take (page_size n) items)) (item_prefixes (take (page_size n) items))
    (if bool_decide (page_size n < length items)%nat
     then from_option item_name "" (last (take (page_size n) items)) else "")
    (bool_decide (page_size n < length items)%nat).
Proof. unfold d_finish. simpl. f_equal; repeat case_bool_decide; done || lia. Qed.

(** What is left after jumping over the group of the marker is a suffix. *)
Lemma after_folder_suffix b m e objs :
  prefixEnd (objectPrefixKey b m) = Some e → sorted_keys objs →
  ∃ pre, objs = pre ++ filter (λ o, blt m (om_Key o) = true ∧ HasPrefix (om_Key o) m = false) objs.
Proof.
  intros He Hs. pose proof (SeekGE_after_folder b m e objs He Hs) as HS. unfold SeekGE in HS.
  rewrite drop_while_fmap in HS.
  destruct (drop_while_suffix (λ x, blt (obj_entry b x).1 e) objs) as [l1 [El1 _]].
  exists l1. rewrite El1 at 1. f_equal. apply (list_fmap_eq_inj (obj_entry b)); [|exact HS].
  by intros x y [= _ ->].
Qed.

Lemma ListObjectsDelimited_eq s b p d m n :
  wf_store s → lacks colon b = true → b ≠ "" →
  ListObjectsDelimited s b p d m n =
  let items := rollup p d ∅ (after_delim d m (objects_under s b p)) in
  let page := take (page_size n) items in
  let truncated := bool_decide (page_size n < length items)%nat in
  Ok (Some (mkDelimited (item_keys page) (item_prefixes page)
              (if truncated then from_option item_name "" (last page) else "") truncated)).
Proof.
  intros Hwf Hb Hne. unfold ListObjectsDelimited. rewrite bool_decide_eq_false_2 by done.
  rewrite list_lower_eq, scan_objects by done. cbv zeta.
  set (objs := objects_under s b p).
  assert (sorted_keys objs) as Hs by by apply objects_under_sorted.
  assert (Forall (λ o, HasPrefix (om_Key o) p = true) objs) as Hp by by apply objects_under_prefix.
  pose proof (λ pre cur fuel, delim_run b p d m n objs pre cur fuel Hb Hs Hp) as Hrun.
  unfold delim_start, delim_fuel. rewrite length_fmap.
  destruct (bool_decide_reflect (m = "")) as [->|Hm].
  - rewrite bool_decide_eq_false_2 by tauto. rewrite (Hrun [] objs) by (done || lia).
    rewrite d_finish_init, after_delim_other; [done|].
    destruct (bool_decide_reflect (d = "")) as [->|Hd]; [done|].
    by rewrite HasSuffix_empty, andb_false_r.
  - rewrite (bool_decide_eq_true_2 (m ≠ "")) by done.
    destruct (bool_decide (d ≠ "") && HasSuffix m d) eqn:Esuf.
    + destruct (prefixEnd_object_Some b m) as [e He]. rewrite He.
      destruct (after_folder_suffix b m e objs He Hs) as [pre Hpre].
      rewrite (SeekGE_after_folder b m e objs He Hs).
      pose proof (length_filter (λ o, blt m (om_Key o) = true ∧ HasPrefix (om_Key o) m = false) objs).
      rewrite (Hrun pre) by (done || lia). rewrite d_finish_init. unfold after_delim. by rewrite Esuf.
    + rewrite after_delim_other by done. rewrite SeekGE_objects.
      pose proof (sorted_by_skip om_Key m objs Hs) as Hskip.
      destruct (drop_while_suffix (λ x, blt (om_Key x) m) objs) as [l1 [El1 _]].
      pose proof (length_drop_while (λ x, blt (om_Key x) m) objs) as Hlen.
      unfold after. rewrite (bool_decide_eq_false_2 (m = "")), <-Hskip by done.
      replace (2 * length objs + 2)%nat with (S (2 * length objs + 1)) by lia.
      rewrite delim_loop_marker by done.
      destruct (drop_while _ objs) as [|o rest]; simpl in Hlen.
      * rewrite (Hrun l1 []) by (done || simpl; lia). by rewrite d_finish_init.
      * case_bool_decide.
        { rewrite (Hrun (l1 ++ [o]) rest); [by rewrite d_finish_init|by rewrite <-app_assoc|lia]. }
        { rewrite (Hrun l1 (o :: rest)); [by rewrite d_finish_init|done|simpl; lia]. }
Qed.

(** ** Following the markers of delimited pages *)

(** Folders of the scan, and the objects that are reported as such. *)
Definition from_obj p d (i : item) o : Prop :=
  match i with
  | IKey o' => o' = o ∧ find_folder p d (om_Key o) = None
  | IPrefix cp => find_folder p d (om_Key o) = Some cp
  end.

Lemma rollup_elem p d seen objs i :
  i ∈ rollup p d seen objs → ∃ o, o ∈ objs ∧ from_obj p d i o.
Proof.
  revert seen. induction objs as [|o objs IH]; intros seen; simpl; [by intros ?%not_elem_of_nil|].
  assert (∀ seen', i ∈ rollup p d seen' objs → ∃ o', o' ∈ o :: objs ∧ from_obj p d i o') as Htl.
  { intros seen' (o' & Ho' & ?)%IH. exists o'. split; [by right|done]. }
  destruct (find_folder p d (om_Key o)) as [cp|] eqn:E.
  - case_bool_decide; [apply Htl|]. intros [->|Hi]%elem_of_cons; [|by eapply Htl].
    exists o. split; [by left|done].
  - intros [->|Hi]%elem_of_cons; [|by eapply Htl]. exists o. split; [by left|done].
Qed.

(** Remembering a folder is dropping its keys. *)
Lemma rollup_seen p d cp seen objs :
  Forall (λ o, HasPrefix (om_Key o) p = true) objs →
  (∀ k, HasPrefix k cp = true → find_folder p d k = Some cp) →
  rollup p d ({[cp]} ∪ seen) objs =
  rollup p d seen (filter (λ o, HasPrefix (om_Key o) cp = false) objs).
Proof.
  intros Hp Hcp. revert seen. induction Hp as [|o objs Ho Hp IH]; intros seen; [done|]. simpl.
  destruct (HasPrefix (om_Key o) cp) eqn:E.
  - rewrite filter_cons_False by congruence. rewrite (Hcp _ E).
    rewrite bool_decide_eq_true_2 by set_solver. apply IH.
  - rewrite filter_cons_True by done. simpl.
    destruct (find_folder p d (om_Key o)) as [cp'|] eqn:E'; [|by rewrite IH].
    destruct (find_folder_Some _ _ _ _ Ho E') as (_ & Hpre & _).
    assert (cp' ≠ cp) by (intros ->; congruence).
    destruct (bool_decide_reflect (cp' ∈ seen)).
    + rewrite bool_decide_eq_true_2 by set_solver. apply IH.
    + rewrite bool_decide_eq_false_2 by set_solver.
      rewrite <-IH. do 2 f_equal. set_solver.
Qed.

(** A later result is named after every earlier key outside its own folder. *)
Lemma item_after p d i o x :
  HasPrefix (om_Key o) p = true →
  from_obj p d i o → blt (om_Key x) (om_Key o) = true →
  find_folder p d (om_Key x) ≠ find_folder p d (om_Key o) ∨ find_folder p d (om_Key x) = None →
  blt (item_name i) (om_Key x) = false.
Proof.
  intros Hp Hi Hlt Hne. destruct i as [o'|cp]; simpl in *.
  - destruct Hi as [-> _]. by apply blt_asym.
  - destruct (blt cp (om_Key x)) eqn:E; [|done]. exfalso.
    destruct (find_folder_Some _ _ _ _ Hp Hi) as (_ & Hpre & _ & Hall).
    assert (HasPrefix (om_Key x) cp = true) as Hx.
    { eapply (HasPrefix_between cp cp _ (om_Key o)); [apply HasPrefix_refl|done|..];
        by apply blt_asym. }
    rewrite (Hall _ Hx), Hi in Hne. naive_solver.
Qed.

(** No object outside the folders is named like a folder: the only such name
    is the listing prefix itself, when it ends with the delimiter. *)
Definition no_folder_object p d (objs : list ObjectMetadata) : Prop :=
  Forall (λ o, find_folder p d (om_Key o) = None → d = "" ∨ HasSuffix (om_Key o) d = false) objs.

Lemma after_delim_key d objs k :
  k ≠ "" → (d = "" ∨ HasSuffix k d = false) →
  after_delim d k objs = filter (λ o, blt k (om_Key o) = true) objs.
Proof.
  intros Hk Hd. rewrite after_delim_other.
  - unfold after. by rewrite bool_decide_eq_false_2.
  - destruct Hd as [->| ->]; [done|]. apply andb_false_r.
Qed.

Lemma after_delim_folder d objs cp :
  d ≠ "" → HasSuffix cp d = true →
  after_delim d cp objs = filter (λ o, blt cp (om_Key o) = true ∧ HasPrefix (om_Key o) cp = false) objs.
Proof. intros Hd Hs. unfold after_delim. by rewrite bool_decide_eq_true_2, Hs. Qed.

Lemma after_delim_cons_skip d m o objs :
  m ≠ "" → blt m (om_Key o) = false → after_delim d m (o :: objs) = after_delim d m objs.
Proof.
  intros Hm Hlt. unfold after_delim, after. destruct (_ && _).
  - by rewrite filter_cons_False by (rewrite Hlt; naive_solver).
  - rewrite !(bool_decide_eq_false_2 (m = "")) by done. by rewrite filter_cons_False by (by rewrite Hlt).
Qed.

Lemma after_delim_filter_skip d m (P : ObjectMetadata → Prop) `{∀ o, Decision (P o)} objs :
  m ≠ "" → Forall (λ o, ¬ P o → blt m (om_Key o) = false) objs →
  after_delim d m (filter P objs) = after_delim d m objs.
Proof.
  intros Hm. induction 1 as [|o objs Ho _ IH]; [done|]. destruct (decide (P o)) as [HPo|HPo].
  - rewrite filter_cons_True by done. revert IH. unfold after_delim, after. destruct (_ && _).
    + intros IH. destruct (decide (blt m (om_Key o) = true ∧ HasPrefix (om_Key o) m = false)) as [Hc|Hc].
      * rewrite !filter_cons_True by exact Hc. by f_equal.
      * by rewrite !filter_cons_False by exact Hc.
    + rewrite !(bool_decide_eq_false_2 (m = "")) by done. intros IH.
      destruct (decide (blt m (om_Key o) = true)) as [Hc|Hc].
      * rewrite !filter_cons_True by done. by f_equal.
      * by rewrite !filter_cons_False by done.
  - rewrite filter_cons_False, IH by done. symmetry. apply after_delim_cons_skip; auto.
Qed.

Lemma item_name_ne p d objs i :
  Forall (λ o, HasPrefix (om_Key o) p = true) objs → Forall (λ o, om_Key o ≠ "") objs →
  i ∈ rollup p d ∅ objs → item_name i ≠ "".
Proof.
  rewrite !Forall_forall. intros Hp Hne (o & Ho & Hi)%rollup_elem. destruct i as [o'|cp]; simpl in *.
  - destruct Hi as [-> _]. by apply Hne.
  - destruct (find_folder_Some _ _ _ _ (Hp o Ho) Hi) as (Hd & _ & Hs & _).
    intros ->. by rewrite HasSuffix_empty in Hs.
Qed.

(** What follows a result is what the listing resumed after it reports. *)
(** An item of what follows a group is after every key of the group. *)
Lemma group_before p d cp o rest i o' :
  sorted_keys (o :: rest) → Forall (λ x, HasPrefix (om_Key x) p = true) (o :: rest) →
  find_folder p d (om_Key o) = Some cp →
  o' ∈ rest → HasPrefix (om_Key o') cp = false → from_obj p d i o' →
  ∀ x, x ∈ o :: rest → HasPrefix (om_Key x) cp = true → blt (item_name i) (om_Key x) = false.
Proof.
  intros [Hor Hs]%sorted_by_cons [Ho Hp]%Forall_cons Ecp Ho' Hncp Hi x Hx Hxc.
  destruct (find_folder_Some _ _ _ _ Ho Ecp) as (Hd & Hpre & Hsuf & Hall).
  rewrite Forall_forall in Hor, Hp.
  apply (item_after p d i o'); [by apply Hp|done|..].
  - apply elem_of_cons in Hx as [->|Hx]; [by apply Hor|].
    destruct (blt (om_Key x) (om_Key o')) eqn:E; [done|].
    assert (HasPrefix (om_Key o') cp = true) as ?; [|congruence].
    apply (HasPrefix_between cp (om_Key o) _ (om_Key x)); try done. by apply blt_asym, Hor.
  - left. rewrite (Hall _ Hxc). intros Heq. symmetry in Heq.
    destruct (find_folder_Some _ _ _ _ (Hp _ Ho') Heq) as (_ & ? & _). congruence.
Qed.

Lemma rollup_resume p d n objs items1 i items2 :
  (length objs ≤ n)%nat →
  sorted_keys objs → Forall (λ o, HasPrefix (om_Key o) p = true) objs →
  Forall (λ o, om_Key o ≠ "") objs → no_folder_object p d objs →
  rollup p d ∅ objs = items1 ++ i :: items2 →
  rollup p d ∅ (after_delim d (item_name i) objs) = items2.
Proof.
  revert objs items1. induction n as [|n IH]; intros objs items1 Hn Hs Hp Hne Hnf Hroll.
  { destruct objs; [by destruct items1|simpl in Hn; lia]. }
  destruct objs as [|o rest]; [by destruct items1|]. simpl in Hn.
  assert (item_name i ≠ "") as Hin by (apply (item_name_ne p d (o :: rest)); [done..|rewrite Hroll; set_solver]).
  apply sorted_by_cons in Hs as [Hor Hs]. apply Forall_cons in Hp as [Ho Hp].
  apply Forall_cons in Hne as [Hok Hne]. apply Forall_cons in Hnf as [Hof Hnf]. simpl in Hroll.
  pose proof Hor as Hor'. rewrite Forall_forall in Hor'.
  destruct (find_folder p d (om_Key o)) as [cp|] eqn:Ecp.
  - destruct (find_folder_Some _ _ _ _ Ho Ecp) as (Hd & Hpre & Hsuf & Hall).
    rewrite bool_decide_eq_false_2 in Hroll by set_solver.
    rewrite (rollup_seen p d cp ∅ rest) in Hroll by done.
    destruct items1 as [|i0 items1]; injection Hroll as <- Hroll.
    + rewrite <-Hroll. change (item_name (IPrefix cp)) with cp.
      rewrite after_delim_folder by done.
      rewrite filter_cons_False by (rewrite Hpre; naive_solver).
      f_equal. apply list_filter_ext_Forall. eapply Forall_impl; [exact Hor|]. intros x Hx. simpl.
      split; [naive_solver|]. intros ?. split; [|done].
      eapply blt_false_trans; [|exact Hx]. by apply HasPrefix_blt.
    + set (rest' := filter (λ o, HasPrefix (om_Key o) cp = false) rest) in *.
      assert (rollup p d ∅ (after_delim d (item_name i) rest') = items2) as <-.
      { apply (IH rest' items1); try done.
        - pose proof (length_filter (λ o, HasPrefix (om_Key o) cp = false) rest). unfold rest'. lia.
        - by apply sorted_by_filter.
        - by apply Forall_filter_incl.
        - by apply Forall_filter_incl.
        - by apply Forall_filter_incl. }
      assert (i ∈ rollup p d ∅ rest') as (o' & Ho' & Hi)%rollup_elem by (rewrite Hroll; set_solver).
      apply list_elem_of_filter in Ho' as [Hncp Ho'].
      assert (∀ x, x ∈ o :: rest → HasPrefix (om_Key x) cp = true →
        blt (item_name i) (om_Key x) = false) as Hgroup.
      { eapply (group_before p d cp o rest i o'); try done; [by apply sorted_by_cons|by apply Forall_cons]. }
      f_equal. rewrite after_delim_cons_skip by first [exact Hin|apply Hgroup; [set_solver|done]].
      symmetry. apply after_delim_filter_skip; [done|]. apply Forall_forall. intros x Hx Hxc.
      apply Hgroup; [set_solver|]. by destruct (HasPrefix (om_Key x) cp).
  - destruct items1 as [|i0 items1]; injection Hroll as <- Hroll.
    + rewrite <-Hroll. f_equal. simpl. rewrite after_delim_key by auto.
      rewrite filter_cons_False by (by rewrite blt_irrefl). by apply filter_all.
    + assert (i ∈ rollup p d ∅ rest) as (o' & Ho' & Hi)%rollup_elem by (rewrite Hroll; set_solver).
      rewrite after_delim_cons_skip; [by apply (IH rest items1); [lia|..]|done|].
      rewrite Forall_forall in Hp. apply (item_after p d i o'); [by apply Hp|done|by apply Hor'|by right].
Qed.

Lemma item_keys_app l1 l2 : item_keys (l1 ++ l2) = item_keys l1 ++ item_keys l2.
Proof. apply omap_app. Qed.
Lemma item_prefixes_app l1 l2 : item_prefixes (l1 ++ l2) = item_prefixes l1 ++ item_prefixes l2.
Proof. apply omap_app. Qed.

(** Following the markers from a point where [pending] is left to report. *)
Lemma delim_pages_eq fuel s b p d m n pending :
  wf_store s → lacks colon b = true → b ≠ "" → no_folder_object p d (objects_under s b p) →
  rollup p d ∅ (after_delim d m (objects_under s b p)) = pending →
  (∃ done, rollup p d ∅ (objects_under s b p) = done ++ pending) →
  (length pending < fuel)%nat →
  delim_pages fuel s b p d m n = (item_keys pending, item_prefixes pending).
Proof.
  intros Hwf Hb Hne Hnf. revert m pending. induction fuel as [|fuel IH]; intros m pending Hm [dn Hdn] Hf; [lia|].
  simpl. rewrite ListObjectsDelimited_eq by done. cbv zeta. rewrite Hm. simpl.
  assert (0 < page_size n)%nat as Hp by (unfold page_size; pose proof (default_max_pos n); lia).
  case_bool_decide as Hlen; [|by rewrite take_ge, !app_nil_r by lia].
  destruct (lookup_lt_is_Some_2 pending (page_size n - 1)) as [i Hi]; [lia|].
  assert (take (page_size n) pending = take (page_size n - 1) pending ++ [i]) as Etake.
  { replace (page_size n) with (S (page_size n - 1)) at 1 by lia. by apply take_S_r. }
  assert (last (take (page_size n) pending) = Some i) as -> by (by rewrite Etake, last_snoc).
  simpl. rewrite (IH (item_name i) (drop (page_size n) pending)); simpl.
  - by rewrite <-item_keys_app, <-item_prefixes_app, take_drop.
  - apply (rollup_resume p d (length (objects_under s b p)) _ (dn ++ take (page_size n - 1) pending));
      [done|by apply objects_under_sorted|by apply objects_under_prefix|by apply objects_under_named|done|].
    rewrite Hdn, <-app_assoc. f_equal. rewrite <-(take_drop (page_size n) pending) at 1.
    by rewrite Etake, <-app_assoc.
  - exists (dn ++ take (page_size n) pending). by rewrite <-app_assoc, take_drop.
  - rewrite length_drop. lia.
Qed.

Lemma rollup_length p d seen objs : (length (rollup p d seen objs) ≤ length objs)%nat.
Proof.
  revert seen. induction objs as [|o objs IH]; intros seen; simpl; [done|].
  destruct (find_folder _ _ _); [case_bool_decide; [etrans; [apply IH|lia]|]|]; simpl; apply le_n_S, IH.
Qed.

Lemma rollup_keys p d seen objs :
  item_keys (rollup p d seen objs) = filter (λ o, find_folder p d (om_Key o) = None) objs.
Proof.
  revert seen. induction objs as [|o objs IH]; intros seen; [done|]. simpl.
  destruct (find_folder p d (om_Key o)) as [cp|] eqn:E.
  - rewrite filter_cons_False by congruence. case_bool_decide; [apply IH|]. simpl. apply IH.
  - rewrite filter_cons_True by done. simpl. by rewrite IH.
Qed.

Lemma rollup_prefixes p d seen objs :
  NoDup (item_prefixes (rollup p d seen objs)) ∧
  ∀ cp, cp ∈ item_prefixes (rollup p d seen objs) ↔
    cp ∉ seen ∧ ∃ o, o ∈ objs ∧ find_folder p d (om_Key o) = Some cp.
Proof.
  revert seen. induction objs as [|o objs IH]; intros seen; simpl.
  { split; [constructor|]. intros cp. split; [by intros ?%not_elem_of_nil|].
    by intros (_ & o & ?%not_elem_of_nil & _). }
  destruct (find_folder p d (om_Key o)) as [cp0|] eqn:E.
  - case_bool_decide as Hs.
    + destruct (IH seen) as [Hnd Hel]. split; [done|]. intros cp. rewrite Hel.
      setoid_rewrite elem_of_cons. naive_solver.
    + destruct (IH ({[cp0]} ∪ seen)) as [Hnd Hel]. simpl. split.
      * apply NoDup_cons. split; [|done]. rewrite Hel. set_solver.
      * intros cp. rewrite elem_of_cons, Hel. setoid_rewrite elem_of_cons.
        destruct (decide (cp = cp0)) as [->|]; [naive_solver|set_solver].
  - destruct (IH seen) as [Hnd Hel]. split; [done|]. intros cp. simpl. rewrite Hel.
    setoid_rewrite elem_of_cons. naive_solver.
Qed.

(** ** Properties *)

(** C7: a page of [ListObjects] is the first [maxKeys] stored objects with
    the prefix after the marker, in byte order of their names, and the next
    marker is the last name of the page exactly when something is left. *)
Theorem ListObjects_page s b p m n :
  wf_store s → lacks colon b = true → b ≠ "" →
  let cand := after m (objects_under s b p) in
  let page := take (page_size n) cand in
  ListObjects s b p m n =
    Ok (page, if bool_decide (length cand ≤ page_size n)%nat then "" else last_key page) ∧
  sorted_keys page ∧
  (∀ o, o ∈ cand ↔ pebbleGet s (objectKey b (om_Key o)) = Some (VObject o) ∧
     HasPrefix (om_Key o) p = true ∧ (m ≠ "" → blt m (om_Key o) = true)).
Proof.
  intros Hwf Hb Hne cand page. split_and!; [by apply ListObjects_eq|..].
  - assert (sorted_keys cand) as Hs by by apply after_sorted, objects_under_sorted.
    rewrite <-(take_drop (page_size n) cand) in Hs. by apply sorted_by_app in Hs as [? _].
  - intros o. unfold cand, after. case_bool_decide as Hm.
    + rewrite elem_of_objects_under by done. naive_solver.
    + rewrite list_elem_of_filter, elem_of_objects_under by done. naive_solver.
Qed.

(** C6: a client that passes each next marker to the next call sees every
    stored object with the prefix exactly once, in order, and stops. *)
Theorem ListObjects_complete fuel s b p n :
  wf_store s → lacks colon b = true → b ≠ "" →
  (length (objects_under s b p) < fuel)%nat →
  list_pages fuel s b p "" n = objects_under s b p ∧ NoDup (objects_under s b p).
Proof.
  intros Hwf Hb Hne Hf. split; [by apply list_pages_complete|].
  apply (NoDup_fmap_1 om_Key), sorted_by_NoDup. by apply objects_under_sorted.
Qed.

(** C5: [ListObjectsDelimited] always returns, and its page is the one of a
    listing that reads every key: the first [maxKeys] results (objects
    outside the folders and one common prefix per folder, in scan order)
    after the marker, truncated with the last result as the next marker
    exactly when results are left.  The jumps over folders lose nothing. *)
Theorem ListObjectsDelimited_page s b p d m n :
  wf_store s → lacks colon b = true → b ≠ "" →
  let items := rollup p d ∅ (after_delim d m (objects_under s b p)) in
  let page := take (page_size n) items in
  let truncated := bool_decide (page_size n < length items)%nat in
  ListObjectsDelimited s b p d m n =
  Ok (Some (mkDelimited (item_keys page) (item_prefixes page)
              (if truncated then from_option item_name "" (last page) else "") truncated)).
Proof. apply ListObjectsDelimited_eq. Qed.

(** C4: following the markers of [ListObjectsDelimited] reports every object
    outside the folders once, every folder once, and nothing else, unless a
    stored object outside the folders has a name that ends with the
    delimiter. *)
Theorem ListObjectsDelimited_complete fuel s b p d n :
  wf_store s → lacks colon b = true → b ≠ "" →
  no_folder_object p d (objects_under s b p) →
  (length (objects_under s b p) < fuel)%nat →
  (delim_pages fuel s b p d "" n).1 =
    filter (λ o, find_folder p d (om_Key o) = None) (objects_under s b p) ∧
  NoDup (delim_pages fuel s b p d "" n).2 ∧
  (∀ cp, cp ∈ (delim_pages fuel s b p d "" n).2 ↔
    ∃ o, o ∈ objects_under s b p ∧ find_folder p d (om_Key o) = Some cp).
Proof.
  intros Hwf Hb Hne Hnf Hf.
  rewrite (delim_pages_eq fuel s b p d "" n (rollup p d ∅ (objects_under s b p))); try done.
  - simpl. rewrite rollup_keys. destruct (rollup_prefixes p d ∅ (objects_under s b p)) as [Hnd Hel].
    split_and!; [done..|]. intros cp. rewrite Hel. set_solver.
  - rewrite after_delim_other; [done|].
    destruct (bool_decide_reflect (d = "")) as [->|Hd]; [done|].
    by rewrite HasSuffix_empty, andb_false_r.
  - by exists [].
  - pose proof (rollup_length p d ∅ (objects_under s b p)). lia.
Qed.
End Listing.

(** ** Witnesses *)

Definition sample_keys : list string := ["a"; "dir/"; "dir/x"; "dir/y/1"; "dir/y/2"; "dir/z"; "e"].
Definition sample_put_key (s : Store alist) (k : string) : Store alist :=
  match PutObject 5000000000 s (Some (zero_object <| om_Bucket := "t1/photos" |> <| om_Key := k |>
                                        <| om_Size := 10 |> <| om_ETag := "e" |>)) with
  | Ok (s', _) => s'
  | Err _ => s
  end.
Definition listing_store : Store alist := foldl sample_put_key store0 sample_keys.

Lemma wf_sample_put_key s k : k ≠ "" → wf_store s → wf_store (sample_put_key s k).
Proof.
  intros Hk Hs. unfold sample_put_key. destruct (PutObject _ _ _) as [[s' o']|e] eqn:E; [|done].
  apply (wf_PutObject 5000000000 s _ s' o' Hs) in E; [done|by split_and!].
Qed.

Lemma listing_store_wf : wf_store listing_store.
Proof. unfold listing_store. simpl. by repeat apply wf_sample_put_key. Qed.

Lemma ListObjects_page_witness :
  ∃ page, ListObjects listing_store "t1/photos" "dir/" "dir/x" 2 = Ok (page, "dir/y/2") ∧
    om_Key <$> page = ["dir/y/1"; "dir/y/2"].
Proof.
  pose proof (ListObjects_page listing_store "t1/photos" "dir/" "dir/x" 2 listing_store_wf
    ltac:(done) ltac:(done)) as (H & _ & _).
  rewrite H. eexists. split; vm_compute; reflexivity.
Defined.

Lemma ListObjects_complete_witness :
  om_Key <$> list_pages 8 listing_store "t1/photos" "" "" 2 = sample_keys.
Proof.
  pose proof (ListObjects_complete 8 listing_store "t1/photos" "" 2 listing_store_wf
    ltac:(done) ltac:(done)) as H.
  destruct H as [-> _]; [vm_compute; lia|]. vm_compute. reflexivity.
Defined.

Lemma ListObjectsDelimited_page_witness :
  ∃ r, ListObjectsDelimited listing_store "t1/photos" "" "/" "a" 1 = Ok (Some r) ∧
    dl_CommonPrefixes r = ["dir/"] ∧ dl_NextMarker r = "dir/" ∧ dl_IsTruncated r = true.
Proof.
  rewrite (ListObjectsDelimited_page listing_store "t1/photos" "" "/" "a" 1 listing_store_wf
    ltac:(done) ltac:(done)).
  eexists. split_and!; vm_compute; reflexivity.
Defined.

Lemma ListObjectsDelimited_complete_witness :
  om_Key <$> (delim_pages 8 listing_store "t1/photos" "" "/" "" 1).1 = ["a"; "e"].
Proof.
  pose proof (ListObjectsDelimited_complete 8 listing_store "t1/photos" "" "/" 1 listing_store_wf
    ltac:(done) ltac:(done)) as H.
  destruct H as [-> _].
  - unfold no_folder_object. apply (bool_decide_unpack _). vm_compute. exact I.
  - vm_compute. lia.
  - vm_compute. reflexivity.
Defined.

(** With the placeholder object [dir/] in the bucket, a listing of [dir/] by
    pages of one stops after the placeholder: the marker [dir/] is taken for a
    common prefix and everything under it is skipped. *)
Example delimited_placeholder_skips_folder :
  ListObjectsDelimited listing_store "t1/photos" "dir/" "/" "" 1 =
    Ok (Some (mkDelimited (filter (λ o, om_Key o = "dir/") (objects_under listing_store "t1/photos" "dir/"))
                [] "dir/" true)) ∧
  ListObjectsDelimited listing_store "t1/photos" "dir/" "/" "dir/" 1 =
    Ok (Some (mkDelimited [] [] "" false)) ∧
  (om_Key <$> objects_under listing_store "t1/photos" "dir/") =
    ["dir/"; "dir/x"; "dir/y/1"; "dir/y/2"; "dir/z"].
Proof. split_and!; vm_compute; reflexivity. Qed.
