(* ===== verification/Versions.v ===== *)
(** * Object versions ([internal/metadata/pebble_objects.go])

    [PutObjectVersion] writes a version entry and, for a latest version, the
    plain entry too after clearing the latest flag of every other version of
    the key.  The listings return summaries sorted by [sort.Slice].

    The invariant is [one_latest]: of the versions of a key at most one is
    flagged latest.  [PutObjectVersion] establishes it for its key. *)

From S2P Require Import Prelude GoStrings MetaTypes Keys Pebble ObjectStore Listing.
From stdpp Require Import base gmap sets list strings sorting.
From Stdlib Require Import ZArith Lia.
Open Scope Z_scope.

Section Versions.
Context {DB : Type} `{PB : Pebble DB}.
Implicit Types (s : Store DB) (o obj : ObjectMetadata) (b k bucket key : string).

(** ** Operations *)

Definition demote o : ObjectMetadata := o <| om_IsLatest := false |>.

(** The updates collected while iterating over [version:bucket:key:]. *)
Definition demote_ops s obj : list BatchOp :=
  omap (λ e, match unmarshal_object e.2 with
             | None => None
             | Some existing =>
                 if bool_decide (om_Key existing ≠ om_Key obj) then None
                 else if om_IsLatest existing then Some (BSet e.1 (VObject (demote existing))) else None
             end) (pebbleIter s (versionKeyPrefix (om_Bucket obj) (om_Key obj))).

Definition PutObjectVersion s (obj : option ObjectMetadata) (version : option ObjectVersion)
  : result StoreError (Store DB * ObjectMetadata) :=
  match obj, version with
  | Some obj, Some version =>
      try _ := rejectWriteToDeletedBucket s (om_Bucket obj) in
      let demotions := if ov_IsLatest version then demote_ops s obj else [] in
      let obj := obj <| om_VersionID := ov_VersionID version |> <| om_IsLatest := ov_IsLatest version |> in
      let ops := demotions ++
        [BSet (objectVersionKey (om_Bucket obj) (om_Key obj) (ov_VersionID version)) (VObject obj)] ++
        (if ov_IsLatest version then [BSet (objectKey (om_Bucket obj) (om_Key obj)) (VObject obj)] else []) in
      Ok (commitNoSync s ops, obj)
  | _, _ => Err (ErrMsg "object and version metadata cannot be nil")
  end.

Definition version_of obj : ObjectVersion :=
  mkVersion (om_VersionID obj) (om_IsLatest obj) (om_Key obj) (om_Size obj) (om_ETag obj)
    (om_LastModified obj) (om_StorageClass obj) "".

Definition newest_first (v w : ObjectVersion) : bool := After (ov_LastModified v) (ov_LastModified w).

(** What one iteration of the loop appends. *)
Definition version_entry key (e : entry) : option ObjectVersion :=
  match unmarshal_object e.2 with
  | Some obj => if bool_decide (om_Key obj ≠ key) then None else Some (version_of obj)
  | None => None
  end.

Definition GetObjectVersions s bucket key : list ObjectVersion :=
  sort_slice newest_first
    (omap (version_entry key) (pebbleIter s (versionKeyPrefix bucket key))).

(** [maxKeys > 0 && len(allVersions) >= maxKeys] *)
Definition full (maxKeys : Z) (all : list ObjectVersion) : bool :=
  (0 <? maxKeys) && (maxKeys <=? Z.of_nat (length all)).
Definition not_listed (prefix key : string) : bool :=
  bool_decide (prefix ≠ "") && negb (HasPrefix key prefix).

Fixpoint versions_pass prefix (maxKeys : Z) (all : list ObjectVersion) (keys : gset string)
    (l : list entry) : list ObjectVersion * gset string :=
  match l with
  | [] => (all, keys)
  | (_, v) :: l =>
      match unmarshal_object v with
      | None => versions_pass prefix maxKeys all keys l
      | Some obj =>
          if not_listed prefix (om_Key obj) then versions_pass prefix maxKeys all keys l
          else
            let all := all ++ [version_of obj] in
            let keys := {[om_Key obj]} ∪ keys in
            if full maxKeys all then (all, keys) else versions_pass prefix maxKeys all keys l
      end
  end.

Definition plain_version obj : ObjectVersion :=
  mkVersion "" true (om_Key obj) (om_Size obj) (om_ETag obj) (om_LastModified obj) "" "".

Fixpoint plain_pass prefix (maxKeys : Z) (keys : gset string) (all : list ObjectVersion)
    (l : list entry) : list ObjectVersion :=
  match l with
  | [] => all
  | (_, v) :: l =>
      match unmarshal_object v with
      | None => plain_pass prefix maxKeys keys all l
      | Some obj =>
          if bool_decide (om_Key obj ∈ keys) then plain_pass prefix maxKeys keys all l
          else if not_listed prefix (om_Key obj) then plain_pass prefix maxKeys keys all l
          else
            let all := all ++ [plain_version obj] in
            if full maxKeys all then all else plain_pass prefix maxKeys keys all l
      end
  end.

Definition by_key_newest (v w : ObjectVersion) : bool :=
  if bool_decide (ov_Key v ≠ ov_Key w) then blt (ov_Key v) (ov_Key w)
  else After (ov_LastModified v) (ov_LastModified w).

Definition ListAllObjectVersions s bucket prefix (maxKeys : Z) : list ObjectVersion :=
  let '(all, keys) := versions_pass prefix maxKeys [] ∅ (pebbleIter s (versionListPrefix bucket)) in
  let all :=
    if (maxKeys <=? 0) || (Z.of_nat (length all) <? maxKeys)
    then plain_pass prefix maxKeys keys all (pebbleIter s (objectListPrefix bucket)) else all in
  sort_slice by_key_newest all.

(** An object whose deletion is forbidden at time [now]. *)
Definition locked (now : time) o : bool :=
  om_LegalHold o ||
  match om_Retention o with
  | Some r => bool_decide (rm_Mode r = "COMPLIANCE") && After (rm_RetainUntilDate r) now
  | None => false
  end.
Definition locked_entry (now : time) (e : entry) : bool :=
  match unmarshal_object e.2 with Some o => locked now o | None => false end.

Definition HasActiveComplianceRetention (now : time) s bucket : bool :=
  if existsb (locked_entry now) (pebbleIter s (versionListPrefix bucket)) then true
  else existsb (locked_entry now) (pebbleIter s (objectListPrefix bucket)).

(** ** Specification *)

Definition is_version s b k (vid : string) o : Prop :=
  pebbleGet s (objectVersionKey b k vid) = Some (VObject o).

Definition one_latest s b k : Prop :=
  ∀ v1 v2 o1 o2, lacks colon v1 = true → lacks colon v2 = true →
    is_version s b k v1 o1 → is_version s b k v2 o2 →
    om_IsLatest o1 = true → om_IsLatest o2 = true → v1 = v2.

Context `{PL : !PebbleLaws DB}.

#[local] Instance newest_first_strict : StrictWeak newest_first.
Proof. split; intros v w; unfold newest_first, After; [|intros u]; lia. Qed.

#[local] Instance by_key_newest_strict : StrictWeak by_key_newest.
Proof.
  split.
  - intros v w. unfold by_key_newest, After. repeat case_bool_decide; try congruence.
    + apply blt_asym.
    + lia.
  - intros v w u. unfold by_key_newest, After.
    repeat case_bool_decide; try congruence; try (intros; lia).
    + intros Hwv Huw. destruct (blt (ov_Key u) (ov_Key v)) eqn:E; [|done].
      by rewrite (blt_false_trans (ov_Key w) (ov_Key u) (ov_Key v) Huw E) in Hwv.
    + intros Hwv Huw. exfalso. assert (ov_Key v = ov_Key u) as E by congruence.
      rewrite <-E in Huw. apply (blt_total _ _ Hwv) in Huw. congruence.
Qed.

(** What the demotions do to a key. *)
Lemma get_demote_ops s obj K :
  wf_store s → lacks colon (om_Bucket obj) = true →
  batch_effect (demote_ops s obj) K (pebbleGet s K) =
  match pebbleGet s K with
  | Some (VObject o) =>
      if bool_decide (K = objectVersionKey (om_Bucket obj) (om_Key obj) (om_VersionID o) ∧
                      om_Bucket o = om_Bucket obj ∧ om_Key o = om_Key obj) && om_IsLatest o
      then Some (VObject (demote o)) else Some (VObject o)
  | cur => cur
  end.
Proof.
  intros Hwf Hb. set (g := λ v, match unmarshal_object v with
    | None => None
    | Some existing => if bool_decide (om_Key existing ≠ om_Key obj) then None
        else if om_IsLatest existing then Some (VObject (demote existing)) else None end).
  assert (demote_ops s obj = omap (λ e : entry, BSet e.1 <$> g e.2)
    (pebbleIter s (versionKeyPrefix (om_Bucket obj) (om_Key obj)))) as ->.
  { unfold demote_ops. apply list_omap_ext. apply Forall2_same_length_lookup_2; [done|].
    intros i x y Hx Hy. rewrite Hx in Hy. injection Hy as <-. unfold g.
    destruct (unmarshal_object x.2) as [e|]; [|done]. case_bool_decide; [done|]. by destruct (om_IsLatest e). }
  rewrite get_rewrites. destruct (pebbleGet s K) as [v|] eqn:Hg; [|by destruct (HasPrefix _ _)].
  pose proof (elem_of_key_versions s (om_Bucket obj) (om_Key obj) K v Hwf Hb) as Hiff.
  rewrite elem_of_pebbleIter in Hiff.
  destruct v as [o| | | |]; try (unfold g; by destruct (HasPrefix _ _)).
  destruct (HasPrefix K _) eqn:HP; unfold g; simpl in *.
  - case_bool_decide as Hk.
    + rewrite bool_decide_eq_false_2; [done|]. by intros (_ & _ & ?).
    + destruct Hiff as [Hiff _].
      destruct Hiff as (o' & [= <-] & _ & Hbk & HK & _); [done|].
      rewrite bool_decide_eq_true_2 by done. by destruct (om_IsLatest o).
  - rewrite bool_decide_eq_false_2; [done|]. intros (HK & Hbk & Hk).
    destruct Hiff as [_ Hiff]. destruct Hiff as [[_ ?] _]; [|done].
    exists o. split_and!; try done. destruct (Hwf _ _ Hg) as [(_ & ? & _) _]. done.
Qed.

Lemma demote_id o : om_IsLatest o = false → demote o = o.
Proof. destruct o. cbn. by intros ->. Qed.

Lemma ops_ok_demote s obj : wf_store s → ops_ok (demote_ops s obj).
Proof.
  intros Hwf K v ([K' v'] & Hin & HE)%list_elem_of_omap. simpl in HE.
  destruct v' as [o| | | |]; try done. simpl in HE.
  case_bool_decide; [done|]. destruct (om_IsLatest o); [|done]. injection HE as -> <-.
  apply elem_of_pebbleIter in Hin as [Hg _]. exact (Hwf _ _ Hg).
Qed.

Lemma PutObjectVersion_Ok s obj ver s' o' :
  PutObjectVersion s (Some obj) (Some ver) = Ok (s', o') ↔
  om_Bucket obj ∉ st_deleted s ∧
  o' = obj <| om_VersionID := ov_VersionID ver |> <| om_IsLatest := ov_IsLatest ver |> ∧
  s' = commitNoSync s ((if ov_IsLatest ver then demote_ops s obj else []) ++
    [BSet (objectVersionKey (om_Bucket obj) (om_Key obj) (ov_VersionID ver)) (VObject o')] ++
    (if ov_IsLatest ver then [BSet (objectKey (om_Bucket obj) (om_Key obj)) (VObject o')] else [])).
Proof.
  unfold PutObjectVersion, rejectWriteToDeletedBucket. case_bool_decide; simpl.
  - split; [done|]. by intros [? _].
  - split; [by intros [= <- <-]|]. by intros (_ & -> & ->).
Qed.

(** Every entry after [PutObjectVersion]. *)
Lemma get_PutObjectVersion s obj ver s' o' K :
  PutObjectVersion s (Some obj) (Some ver) = Ok (s', o') →
  pebbleGet s' K =
  if decide (K = objectKey (om_Bucket obj) (om_Key obj) ∧ ov_IsLatest ver = true ∨
             K = objectVersionKey (om_Bucket obj) (om_Key obj) (ov_VersionID ver))
  then Some (VObject o')
  else if ov_IsLatest ver then batch_effect (demote_ops s obj) K (pebbleGet s K) else pebbleGet s K.
Proof.
  intros (_ & _ & ->)%PutObjectVersion_Ok. rewrite get_commitNoSync, !batch_effect_app.
  destruct (ov_IsLatest ver); cbn -[decide demote_ops]; repeat case_decide; naive_solver.
Qed.

Lemma wf_PutObjectVersion s obj ver s' o' :
  wf_store s → lacks colon (om_Bucket obj) = true → om_Key obj ≠ "" →
  lacks colon (ov_VersionID ver) = true →
  PutObjectVersion s (Some obj) (Some ver) = Ok (s', o') → wf_store s'.
Proof.
  intros Hwf Hb Hk Hv (_ & -> & ->)%PutObjectVersion_Ok. apply wf_commitNoSync; [done|].
  repeat apply ops_ok_app.
  - destruct (ov_IsLatest ver); [by apply ops_ok_demote|apply ops_ok_nil].
  - apply ops_ok_set, ops_ok_nil. split; [by split_and!|by right].
  - destruct (ov_IsLatest ver); [|apply ops_ok_nil]. apply ops_ok_set, ops_ok_nil.
    split; [by split_and!|by left].
Qed.

(** The record under a version key is the record of that version. *)
Lemma version_at s b k vid v :
  wf_store s → lacks colon b = true → lacks colon vid = true →
  pebbleGet s (objectVersionKey b k vid) = Some v →
  ∃ o, v = VObject o ∧ om_Bucket o = b ∧ om_Key o = k ∧ om_VersionID o = vid.
Proof.
  intros Hwf Hb Hvid Hg.
  destruct (entry_ok_version _ _ (Hwf _ _ Hg) eq_refl) as (o & -> & E & Ho1 & Ho2 & _).
  apply objectVersionKey_inj in E as (-> & -> & ->); [|done..]. by exists o.
Qed.

(** The versions of a key after a write to it. *)
Lemma versions_after_put s obj ver s' o' b k vid o :
  wf_store s → lacks colon (om_Bucket obj) = true → lacks colon (ov_VersionID ver) = true →
  lacks colon b = true → lacks colon vid = true →
  PutObjectVersion s (Some obj) (Some ver) = Ok (s', o') →
  is_version s' b k vid o ↔
  if decide ((b, k, vid) = (om_Bucket obj, om_Key obj, ov_VersionID ver)) then o = o'
  else if bool_decide ((b, k) = (om_Bucket obj, om_Key obj)) && ov_IsLatest ver
       then ∃ o0, is_version s b k vid o0 ∧ o = demote o0
       else is_version s b k vid o.
Proof.
  intros Hwf Hob Hver Hb Hv Hput. unfold is_version. rewrite (get_PutObjectVersion _ _ _ _ _ _ Hput).
  case_decide as E1.
  - destruct E1 as [[E1 _]|E1]; [by apply (f_equal family) in E1|].
    apply objectVersionKey_inj in E1 as (-> & -> & ->); [|done..].
    rewrite decide_True by done. split; [by intros [= <-]|by intros ->].
  - rewrite decide_False by (intros [= -> -> ->]; apply E1; by right).
    destruct (ov_IsLatest ver); [|by rewrite andb_false_r]. rewrite andb_true_r, get_demote_ops by done.
    destruct (pebbleGet s (objectVersionKey b k vid)) as [v|] eqn:Hg.
    2: { case_bool_decide; [|done]. split; [done|]. by intros (? & ? & _). }
    destruct (version_at s b k vid v Hwf Hb Hv Hg) as (o0 & -> & E2 & E3 & E4).
    rewrite E2, E3, E4. destruct (bool_decide_reflect ((b, k) = (om_Bucket obj, om_Key obj))) as [[= -> ->]|Hne].
    + rewrite bool_decide_eq_true_2 by done. simpl.
      destruct (om_IsLatest o0) eqn:El; split.
      * intros [= <-]. eauto.
      * intros (? & [= <-] & ->). done.
      * intros [= <-]. exists o0. by rewrite demote_id.
      * intros (? & [= <-] & ->). by rewrite demote_id.
    + rewrite bool_decide_eq_false_2; [done|]. intros (_ & Eb & Ek). apply Hne. by rewrite Eb, Ek.
Qed.

(** ** Properties *)

(** C15: after [PutObjectVersion] of a latest version, the plain entry and the
    version entry both read back the new record, every other version of the
    key is kept and differs at most by a cleared latest flag, so the new
    version is the only latest one, and no other object or version changes. *)
Theorem PutObjectVersion_latest s obj ver s' o' :
  wf_store s → valid_names obj → om_Bucket obj ≠ "" → lacks colon (ov_VersionID ver) = true →
  ov_IsLatest ver = true → PutObjectVersion s (Some obj) (Some ver) = Ok (s', o') →
  GetObject s' (om_Bucket obj) (om_Key obj) [] = Ok o' ∧
  GetObject s' (om_Bucket obj) (om_Key obj) [ov_VersionID ver] = Ok o' ∧
  one_latest s' (om_Bucket obj) (om_Key obj) ∧
  (∀ vid o, lacks colon vid = true → vid ≠ ov_VersionID ver →
     is_version s' (om_Bucket obj) (om_Key obj) vid o ↔
     ∃ o0, is_version s (om_Bucket obj) (om_Key obj) vid o0 ∧ o = demote o0) ∧
  (∀ b k vid, lacks colon b = true → lacks colon (ref_version vid) = true →
     (b, k) ≠ (om_Bucket obj, om_Key obj) → GetObject s' b k vid = GetObject s b k vid).
Proof.
  intros Hwf (Hb & _ & Hk) Hne Hv Hl Hput.
  pose proof (get_PutObjectVersion s obj ver s' o') as Hget.
  pose proof (proj1 (PutObjectVersion_Ok s obj ver s' o') Hput) as (_ & Eo & _).
  assert (∀ vid o, lacks colon vid = true → is_version s' (om_Bucket obj) (om_Key obj) vid o ↔
    if decide (vid = ov_VersionID ver) then o = o'
    else ∃ o0, is_version s (om_Bucket obj) (om_Key obj) vid o0 ∧ o = demote o0) as Hvers.
  { intros vid o Hvid. rewrite versions_after_put by done. rewrite bool_decide_eq_true_2, Hl by done.
    simpl. repeat case_decide; naive_solver. }
  split_and!.
  - apply GetObject_stored; try done; [by rewrite Eo..|]. rewrite (Hget _ Hput), decide_True; [done|].
    left. by split.
  - apply GetObject_stored; try done; [by rewrite Eo..|]. rewrite (Hget _ Hput), decide_True; [done|].
    simpl. case_bool_decide; [by right|by left].
  - intros v1 v2 o1 o2 H1 H2 Ho1%Hvers Ho2%Hvers L1 L2; [|done..].
    repeat case_decide; subst; try done; naive_solver.
  - intros vid o Hvid Hn. rewrite Hvers by done. by rewrite decide_False.
  - intros b k vid Hb' Hv' Hn. apply GetObject_same_entry. rewrite (Hget _ Hput).
    rewrite decide_False.
    + rewrite Hl, get_demote_ops by done. destruct (pebbleGet s _) as [[o| | | |]|] eqn:Hg; try done.
      rewrite bool_decide_eq_false_2; [done|]. intros (E & E1 & E2).
      pose proof (Hwf _ _ Hg) as [(_ & Hov & _) _].
      assert (objectVersionKey (om_Bucket obj) (om_Key obj) (om_VersionID o) =
        object_ref b k vid) as E' by done.
      destruct (object_ref_family b k vid) as [Hf|Hf]; rewrite <-E' in Hf; [done|].
      destruct vid as [|v vid]; simpl in E'; [by apply (f_equal family) in E'|].
      case_bool_decide; [|by apply (f_equal family) in E'].
      apply objectVersionKey_inj in E' as (<- & <- & _); done.
    + intros [[E _]|E].
      * change (objectKey _ _) with (object_ref (om_Bucket obj) (om_Key obj) []) in E.
        by apply object_ref_inj in E as (-> & -> & _).
      * destruct vid as [|v vid]; simpl in E; [by apply (f_equal family) in E|].
        case_bool_decide; [|by apply (f_equal family) in E].
        by apply objectVersionKey_inj in E as (-> & -> & _).
Qed.


Lemma version_entries_NoDup b k (l : list entry) :
  key_sorted l →
  (∀ K w o, (K, w) ∈ l → unmarshal_object w = Some o → om_Key o = k →
     K = objectVersionKey b k (om_VersionID o)) →
  NoDup (ov_VersionID <$> omap (version_entry k) l).
Proof.
  induction 1 as [|[K w] l Hs IH HK]; intros Hkey; [constructor|].
  assert (∀ e v, e ∈ (K, w) :: l → version_entry k e = Some v →
    e.1 = objectVersionKey b k (ov_VersionID v)) as Hentry.
  { intros [K' w'] v Hin. unfold version_entry. simpl. destruct (unmarshal_object w') as [o|] eqn:E; [|done].
    case_bool_decide; [done|]. intros [= <-]. eapply Hkey; eauto. }
  assert (NoDup (ov_VersionID <$> omap (version_entry k) l)) as Hl.
  { apply IH. intros K' w' o Hin. apply Hkey. by right. }
  simpl. destruct (version_entry k (K, w)) as [v|] eqn:Ev; [|done].
  rewrite fmap_cons, NoDup_cons. split; [|done].
  intros (v' & Ev' & (e & Hin & Hv')%list_elem_of_omap)%list_elem_of_fmap.
  rewrite Forall_forall in HK. specialize (HK e Hin). simpl in HK.
  pose proof (Hentry (K, w) v ltac:(by left) Ev) as E1. simpl in E1.
  rewrite (Hentry e v' ltac:(by right) Hv'), E1, Ev' in HK. by rewrite blt_irrefl in HK.
Qed.

(** C25: [GetObjectVersions] lists every stored version of the key once,
    newest first. *)
Theorem GetObjectVersions_spec s b k :
  wf_store s → lacks colon b = true →
  StronglySorted (λ v w, ov_LastModified w ≤ ov_LastModified v) (GetObjectVersions s b k) ∧
  NoDup (ov_VersionID <$> GetObjectVersions s b k) ∧
  (∀ v, v ∈ GetObjectVersions s b k ↔
     ∃ vid o, lacks colon vid = true ∧ is_version s b k vid o ∧ v = version_of o ∧ ov_VersionID v = vid).
Proof.
  intros Hwf Hb. unfold GetObjectVersions. set (l := omap _ _).
  assert (∀ K w, (K, w) ∈ pebbleIter s (versionKeyPrefix b k) ∧
    (match unmarshal_object w with Some o => om_Key o = k | None => False end) ↔
    ∃ o, w = VObject o ∧ om_Key o = k ∧ om_Bucket o = b ∧ K = objectVersionKey b k (om_VersionID o) ∧
      lacks colon (om_VersionID o) = true ∧ pebbleGet s K = Some (VObject o)) as Hscan.
  { intros K w. by apply elem_of_key_versions. }
  split_and!.
  - eapply sorted_weaken; [|apply sort_slice_sorted, _].
    intros v w. unfold newest_first, After. lia.
  - rewrite (sort_slice_perm newest_first l). unfold l.
    apply (version_entries_NoDup b); [apply pebbleIter_sorted|]. intros K w o Hin Ew Ho.
    destruct (proj1 (Hscan K w)) as (o' & -> & _ & _ & HK & _); [by rewrite Ew|].
    by injection Ew as ->.
  - intros v. rewrite elem_of_sort_slice. unfold l. rewrite list_elem_of_omap. split.
    + intros ([K w] & Hin & Hv). unfold version_entry in Hv. simpl in Hv. destruct (unmarshal_object w) as [o|] eqn:Ew; [|done].
      case_bool_decide as Hok; [done|]. injection Hv as <-.
      destruct (proj1 (Hscan K w)) as (o' & -> & _ & _ & -> & Hlv & Hg); [by rewrite Ew|].
      injection Ew as ->. exists (om_VersionID o), o. done.
    + intros (vid & o & Hvid & Hg & -> & <-). simpl in *.
      destruct (version_at s b k _ _ Hwf Hb Hvid Hg) as (o' & [= <-] & E1 & E2 & E3).
      exists (objectVersionKey b k (om_VersionID o), VObject o). unfold version_entry. simpl.
      rewrite bool_decide_eq_false_2 by tauto. split; [|done].
      apply (proj2 (Hscan _ _)). exists o. done.
Qed.

Lemma versions_pass_all p l : ∀ all keys,
  versions_pass p 0 all keys l =
  (all ++ (version_of <$> filter (λ o, not_listed p (om_Key o) = false) (omap (λ e, unmarshal_object e.2) l)),
   list_to_set (om_Key <$> filter (λ o, not_listed p (om_Key o) = false) (omap (λ e, unmarshal_object e.2) l)) ∪ keys).
Proof.
  induction l as [|[K v] l IH]; intros all keys; simpl.
  { rewrite app_nil_r. f_equal. set_solver. }
  destruct (unmarshal_object v) as [o|]; [|apply IH].
  destruct (not_listed p (om_Key o)) eqn:E.
  - rewrite filter_cons_False by congruence. apply IH.
  - rewrite filter_cons_True by done. rewrite IH, !fmap_cons, <-app_assoc. f_equal. simpl. set_solver.
Qed.

Lemma plain_pass_all p keys l : ∀ all,
  plain_pass p 0 keys all l =
  all ++ (plain_version <$> filter (λ o, om_Key o ∉ keys ∧ not_listed p (om_Key o) = false)
            (omap (λ e, unmarshal_object e.2) l)).
Proof.
  induction l as [|[K v] l IH]; intros all; simpl; [by rewrite app_nil_r|].
  destruct (unmarshal_object v) as [o|]; [|apply IH].
  case_bool_decide as Ek; [|destruct (not_listed p (om_Key o)) eqn:E].
  - rewrite filter_cons_False by tauto. apply IH.
  - rewrite filter_cons_False by (rewrite E; naive_solver). apply IH.
  - rewrite filter_cons_True by done. by rewrite IH, <-app_assoc.
Qed.

Lemma not_listed_false p k : not_listed p k = false ↔ HasPrefix k p = true.
Proof.
  unfold not_listed. destruct (bool_decide_reflect (p = "")) as [->|H].
  - rewrite bool_decide_eq_false_2 by tauto. split; [intros _; apply HasPrefix_empty|done].
  - rewrite bool_decide_eq_true_2 by done. simpl. rewrite negb_false_iff. done.
Qed.

(** A limit that is not positive is no limit. *)
Lemma ListAllObjectVersions_unlimited s b p n :
  n ≤ 0 → ListAllObjectVersions s b p n = ListAllObjectVersions s b p 0.
Proof.
  intros Hn. assert (∀ all, full n all = full 0 all) as Hf.
  { intros all. unfold full. by rewrite (proj2 (Z.ltb_ge 0 n)). }
  assert (∀ l all keys, versions_pass p n all keys l = versions_pass p 0 all keys l) as H1.
  { induction l as [|[K v] l IH]; intros all keys; simpl; [done|].
    destruct (unmarshal_object v); [|apply IH]. by rewrite Hf, !IH. }
  assert (∀ keys l all, plain_pass p n keys all l = plain_pass p 0 keys all l) as H2.
  { intros keys. induction l as [|[K v] l IH]; intros all; simpl; [done|].
    destruct (unmarshal_object v); [|apply IH]. by rewrite Hf, !IH. }
  unfold ListAllObjectVersions. rewrite H1. destruct (versions_pass p 0 _ _ _) as [all keys].
  rewrite H2. by rewrite (proj2 (Z.leb_le n 0)).
Qed.

Lemma plain_pass_bound p n keys l all :
  0 < n → Z.of_nat (length all) < n → Z.of_nat (length (plain_pass p n keys all l)) ≤ n.
Proof.
  intros Hn. revert all. induction l as [|[K v] l IH]; intros all Hall; simpl; [lia|].
  destruct (unmarshal_object v) as [o|]; [|by apply IH]. case_bool_decide; [by apply IH|].
  destruct (not_listed _ _); [by apply IH|]. unfold full. rewrite (proj2 (Z.ltb_lt 0 n) Hn).
  cbn [andb]. destruct (Z.leb_spec n (Z.of_nat (length (all ++ [plain_version o]))));
    [rewrite length_app; simpl; lia|by apply IH].
Qed.

Lemma versions_pass_bound p n l all keys :
  0 < n → Z.of_nat (length all) < n → Z.of_nat (length (versions_pass p n all keys l).1) ≤ n.
Proof.
  intros Hn. revert all keys. induction l as [|[K v] l IH]; intros all keys Hall; simpl; [lia|].
  destruct (unmarshal_object v) as [o|]; [|by apply IH].
  destruct (not_listed _ _); [by apply IH|]. unfold full. rewrite (proj2 (Z.ltb_lt 0 n) Hn).
  cbn [andb]. destruct (Z.leb_spec n (Z.of_nat (length (all ++ [version_of o]))));
    [simpl; rewrite length_app; simpl; lia|by apply IH].
Qed.

Lemma versions_objects s b o :
  wf_store s → lacks colon b = true →
  o ∈ omap (λ e, unmarshal_object e.2) (pebbleIter s (versionListPrefix b)) ↔
  is_version s b (om_Key o) (om_VersionID o) o ∧ lacks colon (om_VersionID o) = true.
Proof.
  intros Hwf Hb. rewrite list_elem_of_omap. split.
  - intros ([K v] & Hin & Hv). apply elem_of_versions in Hin as (o' & -> & -> & _ & ? & Hg); [|done..].
    simpl in Hv. injection Hv as ->. done.
  - intros [Hg Hv]. exists (objectVersionKey b (om_Key o) (om_VersionID o), VObject o). split; [|done].
    apply elem_of_versions; [done..|].
    destruct (version_at s b _ _ _ Hwf Hb Hv Hg) as (o' & [= <-] & ? & _). exists o. done.
Qed.


End Versions.

(** ** Witnesses *)

Definition sample_version (vid : string) (latest : bool) : ObjectVersion :=
  mkVersion vid latest "" 0 "" zero_time "" "".
Definition sample_put_version (vid : string) (s : Store alist) : Store alist :=
  match PutObjectVersion s (Some sample_object) (Some (sample_version vid true)) with
  | Ok (s', _) => s'
  | Err _ => s
  end.
(** The stored object of [sample_store] with one more version. *)
Definition version_store : Store alist := sample_put_version "18.cd" sample_store.
Definition version_object : ObjectMetadata :=
  sample_object <| om_VersionID := "18.cd" |> <| om_IsLatest := true |>.

Lemma version_store_Ok :
  PutObjectVersion sample_store (Some sample_object) (Some (sample_version "18.cd" true)) =
  Ok (version_store, version_object).
Proof. vm_compute. reflexivity. Qed.

Lemma version_store_wf : wf_store version_store.
Proof.
  refine (wf_PutObjectVersion _ _ _ _ _ sample_store_wf _ _ _ version_store_Ok); by vm_compute.
Qed.

Lemma PutObjectVersion_latest_witness :
  GetObject version_store "t1/photos" "2024/a:b.jpg" [] = Ok version_object ∧
  (∃ o, is_version version_store "t1/photos" "2024/a:b.jpg" "17.ab" o ∧ om_IsLatest o = false).
Proof.
  destruct (PutObjectVersion_latest sample_store sample_object (sample_version "18.cd" true)
    version_store version_object sample_store_wf) as (H1 & _ & _ & H4 & _);
    [by split_and!|done|done|done|apply version_store_Ok|].
  split; [exact H1|]. exists (demote sample_put.2). split; [|done].
  apply H4; [done|done|]. exists sample_put.2. split; [|done]. vm_compute. reflexivity.
Defined.


Lemma GetObjectVersions_spec_witness :
  NoDup (ov_VersionID <$> GetObjectVersions version_store "t1/photos" "2024/a:b.jpg") ∧
  (ov_VersionID <$> GetObjectVersions version_store "t1/photos" "2024/a:b.jpg") = ["17.ab"; "18.cd"].
Proof.
  split; [|vm_compute; reflexivity].
  apply (GetObjectVersions_spec version_store "t1/photos" "2024/a:b.jpg" version_store_wf). done.
Defined.


