(* ===== verification/Tags.v ===== *)
(** * Object tags and search ([internal/metadata/pebble_objects.go])

    Tags live in the object record; the tag index holds an empty entry
    [tag_idx:bucket:tagKey:tagValue:objectKey] per tag, which the lookups by
    tag scan.  Go picks the first tag of a map in an unspecified order: the
    operations take that choice as an argument [first] and the theorems hold
    for every tag of the query.

    The invariant [index_ok] ties the index to the plain entries.  It needs
    tags without the separator: [tag_separator_collision] shows what happens
    otherwise. *)

From S2P Require Import Prelude GoStrings MetaTypes Keys Pebble ObjectStore Listing.
From stdpp Require Import base gmap sets list strings sorting.
From Stdlib Require Import ZArith Lia.
Open Scope Z_scope.

Section Tags.
Context {DB : Type} `{PB : Pebble DB}.
Implicit Types (s : Store DB) (o obj : ObjectMetadata) (b k bucket key : string)
  (tags : gmap string string).

(** ** Operations *)

Definition PutObjectTags (now : time) s bucket key tags : result StoreError (Store DB) :=
  let objKey := objectKey bucket key in
  match pebbleGet s objKey with
  | None => Err ErrObjectNotFound
  | Some data =>
      match unmarshal_object data with
      | None => Err (ErrMsg "failed to unmarshal object")
      | Some obj =>
          let obj' := obj <| om_Tags := tags |> <| om_UpdatedAt := now |> in
          Ok (commitNoSync s (delete_tags bucket key (om_Tags obj) ++ set_tags bucket key tags ++
                              [BSet objKey (VObject obj')]))
      end
  end.

Definition GetObjectTags s bucket key : result StoreError (gmap string string) :=
  try obj := GetObject s bucket key [] in Ok (om_Tags obj).

Definition DeleteObjectTags (now : time) s bucket key : result StoreError (Store DB) :=
  PutObjectTags now s bucket key ∅.

(** The object keys under the index prefix of a tag. *)
Definition index_candidates s bucket (first : string * string) : list string :=
  let idxPrefix := tagIndexPrefix bucket first.1 first.2 in
  omap (λ e, if HasPrefix e.1 idxPrefix then Some (TrimPrefix e.1 idxPrefix) else None)
    (pebbleIter s idxPrefix).

(** A candidate that still exists and carries all the tags. *)
Definition tagged_object s bucket tags (objKey : string) : option ObjectMetadata :=
  match GetObject s bucket objKey [] with
  | Err _ => None
  | Ok obj => if matchesTags (om_Tags obj) tags then Some obj else None
  end.

Definition ListObjectsByTags s bucket tags (first : string * string)
  : result StoreError (list ObjectMetadata) :=
  if bool_decide (tags = ∅) then Err (ErrMsg "at least one tag is required")
  else
    Ok (omap (tagged_object s bucket tags) (index_candidates s bucket first)).

Definition scanLimit : Z := 100000.

Fixpoint search_loop (flt : option ObjectFilter) (marker : string) (maxKeys : Z) (scanned count : Z)
    (started : bool) (lastKey : string) (objects : list ObjectMetadata) (l : list entry)
    : list ObjectMetadata * string :=
  match l with
  | [] => (objects, "")
  | (K, val) :: l =>
      if scanLimit <=? scanned then (objects, lastKey)
      else
        let scanned := scanned + 1 in
        let objKeyStr := extractObjectKeyFromKey K in
        if negb started && bool_decide (objKeyStr = marker)
        then search_loop flt marker maxKeys scanned count true lastKey objects l
        else if maxKeys <=? count then (objects, lastKey)
        else
          match unmarshal_object val with
          | None => search_loop flt marker maxKeys scanned count true lastKey objects l
          | Some obj =>
              if matchesFilter obj flt
              then search_loop flt marker maxKeys scanned (count + 1) true objKeyStr (objects ++ [obj]) l
              else search_loop flt marker maxKeys scanned count true objKeyStr objects l
          end
  end.

Definition searchObjectsByScan s bucket prefix (marker : string) (maxKeys : Z) (flt : option ObjectFilter)
  : list ObjectMetadata * string :=
  let maxKeys := default_max maxKeys in
  let iter := pebbleIter s (list_lower bucket prefix) in
  let cur := if bool_decide (marker ≠ "") then SeekGE iter (objectKey bucket marker) else iter in
  search_loop flt marker maxKeys 0 0 (bool_decide (marker = "")) "" [] cur.

Fixpoint tag_search_loop s bucket (flt : option ObjectFilter) (maxKeys : Z) (objects : list ObjectMetadata)
    (keys : list string) : list ObjectMetadata * string :=
  match keys with
  | [] => (objects, "")
  | objKey :: keys =>
      if maxKeys <=? Z.of_nat (length objects) then (objects, objKey)
      else
        match GetObject s bucket objKey [] with
        | Err _ => tag_search_loop s bucket flt maxKeys objects keys
        | Ok obj =>
            if matchesFilter obj flt
            then tag_search_loop s bucket flt maxKeys (objects ++ [obj]) keys
            else tag_search_loop s bucket flt maxKeys objects keys
        end
  end.

Definition candidate_ok prefix (marker objKey : string) : bool :=
  negb (bool_decide (prefix ≠ "") && negb (HasPrefix objKey prefix)) &&
  negb (bool_decide (marker ≠ "") && ble objKey marker).

Definition searchObjectsWithTags s bucket prefix (marker : string) (maxKeys : Z) (flt : option ObjectFilter)
    (first : string * string) : list ObjectMetadata * string :=
  let candidateKeys := List.filter (candidate_ok prefix marker) (index_candidates s bucket first) in
  tag_search_loop s bucket flt maxKeys [] (sort_slice blt candidateKeys).

Definition SearchObjects s bucket prefix (marker : string) (maxKeys : Z) (flt : option ObjectFilter)
    (first : string * string) : result StoreError (list ObjectMetadata * string) :=
  if bool_decide (bucket = "") then Err (ErrMsg "bucket name is required")
  else
    let maxKeys := default_max maxKeys in
    match flt with
    | Some f =>
        if bool_decide (of_Tags f ≠ ∅)
        then Ok (searchObjectsWithTags s bucket prefix marker maxKeys flt first)
        else Ok (searchObjectsByScan s bucket prefix marker maxKeys flt)
    | None => Ok (searchObjectsByScan s bucket prefix marker maxKeys flt)
    end.

(** ** Specification *)

Definition plain_tags tags : Prop :=
  map_Forall (λ tk tv, lacks colon tk = true ∧ lacks colon tv = true) tags.

(** The index has an entry exactly for the tags of the plain entries. *)
Definition index_ok s : Prop :=
  (∀ b k o, lacks colon b = true → pebbleGet s (objectKey b k) = Some (VObject o) → plain_tags (om_Tags o)) ∧
  (∀ b k tk tv, lacks colon b = true → lacks colon tk = true → lacks colon tv = true →
     is_Some (pebbleGet s (tagIndexKey b tk tv k)) ↔
     ∃ o, pebbleGet s (objectKey b k) = Some (VObject o) ∧ om_Tags o !! tk = Some tv).

Definition matching s b p (m : string) (flt : option ObjectFilter) : list ObjectMetadata :=
  List.filter (λ o, matchesFilter o flt) (after m (objects_under s b p)).

(** A client that follows the markers of [SearchObjects]. *)
Fixpoint search_pages (fuel : nat) s bucket prefix (marker : string) (maxKeys : Z)
    (flt : option ObjectFilter) : list ObjectMetadata :=
  match fuel with
  | O => []
  | S fuel =>
      let '(page, next) := searchObjectsByScan s bucket prefix marker maxKeys flt in
      page ++ (if bool_decide (next = "") then [] else search_pages fuel s bucket prefix next maxKeys flt)
  end.

Context `{PL : !PebbleLaws DB}.

(** ** The tag index *)

Lemma tag_keys_plain b k tags b' tk tv k' :
  lacks colon b = true → lacks colon b' = true → plain_tags tags →
  lacks colon tk = true → lacks colon tv = true →
  tagIndexKey b' tk tv k' ∈ tag_keys b k tags ↔ b' = b ∧ k' = k ∧ tags !! tk = Some tv.
Proof.
  intros Hb Hb' Hp Htk Htv. rewrite elem_of_tag_keys. split.
  - intros (tk' & tv' & Ht & E). destruct (Hp _ _ Ht) as [H1 H2].
    apply tagIndexKey_inj in E as (-> & -> & -> & ->); done.
  - intros (-> & -> & Ht). by exists tk, tv.
Qed.

Lemma plain_tags_empty : plain_tags ∅.
Proof. apply map_Forall_empty. Qed.

(** One write to the plain entry of [b/k] that moves its tags from the stored
    ones to [tags]. *)
Lemma index_ok_write s s' b k (v : option ObjectMetadata) :
  wf_store s → index_ok s → lacks colon b = true →
  (match v with Some o => plain_tags (om_Tags o) | None => True end) →
  pebbleGet s' (objectKey b k) = VObject <$> v →
  (∀ b' k', (b', k') ≠ (b, k) → lacks colon b' = true →
     pebbleGet s' (objectKey b' k') = pebbleGet s (objectKey b' k')) →
  (∀ K, family K = "tag_idx" → pebbleGet s' K =
     if decide (K ∈ tag_keys b k (match v with Some o => om_Tags o | None => ∅ end)) then Some VEmpty
     else match pebbleGet s (objectKey b k) with
          | Some (VObject old) => if decide (K ∈ tag_keys b k (om_Tags old)) then None else pebbleGet s K
          | _ => pebbleGet s K
          end) →
  index_ok s'.
Proof.
  intros Hwf [Hplain Hidx] Hb Hv Hkey Hoth Htag.
  split.
  - intros b' k' o Hb' Ho. destruct (decide ((b', k') = (b, k))) as [[= -> ->]|Hne].
    + rewrite Hkey in Ho. destruct v as [o'|]; [|done]. simpl in Ho. by injection Ho as <-.
    + rewrite Hoth in Ho by done. eauto.
  - intros b' k' tk tv Hb' Htk Htv. rewrite Htag by done.
    assert (plain_tags (match v with Some o => om_Tags o | None => ∅ end)) as Hnew
      by (destruct v; [done|apply plain_tags_empty]).
    pose proof (tag_keys_plain b k _ b' tk tv k' Hb Hb' Hnew Htk Htv) as Hin.
    destruct (decide ((b', k') = (b, k))) as [[= -> ->]|Hne].
    + rewrite Hkey. case_decide as Hd.
      * split; [intros _|done]. apply Hin in Hd as (_ & _ & Hd).
        destruct v as [o|]; [by exists o|by rewrite lookup_empty in Hd].
      * assert (¬ ∃ o, VObject <$> v = Some (VObject o) ∧ om_Tags o !! tk = Some tv) as Hno.
        { intros (o & Ho & Ht). destruct v as [o'|]; [|done]. injection Ho as ->. apply Hd, Hin. done. }
        split; [|by intros ?%Hno]. intros His. exfalso. specialize (Hidx b k tk tv Hb Htk Htv).
        destruct (pebbleGet s (objectKey b k)) as [[old| | | |]|] eqn:Hold;
          try (apply Hidx in His as (? & ? & _); done).
        pose proof (tag_keys_plain b k _ b tk tv k Hb Hb (Hplain _ _ _ Hb Hold) Htk Htv) as Hin'.
        case_decide as Hd'; [by destruct His|]. apply Hidx in His as (o & [= <-] & Ht).
        by apply Hd', Hin'.
    + rewrite decide_False by (rewrite Hin; naive_solver). rewrite Hoth, <-Hidx by done.
      destruct (pebbleGet s (objectKey b k)) as [[old| | | |]|] eqn:Hold; try done.
      rewrite decide_False; [done|].
      rewrite (tag_keys_plain b k _ b' tk tv k' Hb Hb' (Hplain _ _ _ Hb Hold) Htk Htv). naive_solver.
Qed.

Lemma PutObjectTags_Ok now s b k tags s' :
  PutObjectTags now s b k tags = Ok s' ↔
  ∃ o, pebbleGet s (objectKey b k) = Some (VObject o) ∧
    s' = commitNoSync s (delete_tags b k (om_Tags o) ++ set_tags b k tags ++
           [BSet (objectKey b k) (VObject (o <| om_Tags := tags |> <| om_UpdatedAt := now |>))]).
Proof.
  unfold PutObjectTags. destruct (pebbleGet s _) as [[o| | | |]|]; simpl; split;
    try (by intros (? & ? & ?)); try done.
  - intros [= <-]. by exists o.
  - by intros (? & [= <-] & ->).
Qed.

Lemma get_PutObjectTags now s b k tags o K :
  batch_effect (delete_tags b k (om_Tags o) ++ set_tags b k tags ++
    [BSet (objectKey b k) (VObject (o <| om_Tags := tags |> <| om_UpdatedAt := now |>))]) K (pebbleGet s K) =
  if decide (K = objectKey b k) then Some (VObject (o <| om_Tags := tags |> <| om_UpdatedAt := now |>))
  else if decide (K ∈ tag_keys b k tags) then Some VEmpty
  else if decide (K ∈ tag_keys b k (om_Tags o)) then None else pebbleGet s K.
Proof. rewrite !batch_effect_app, effect_set_tags, effect_delete_tags. done. Qed.

Lemma wf_PutObjectTags now s b k tags s' :
  wf_store s → PutObjectTags now s b k tags = Ok s' → wf_store s'.
Proof.
  intros Hwf (o & Hg & ->)%PutObjectTags_Ok. apply wf_commitNoSync; [done|].
  repeat apply ops_ok_app; [apply ops_ok_delete_tags|apply ops_ok_set_tags|].
  apply ops_ok_set, ops_ok_nil. exact (Hwf _ _ Hg).
Qed.

Lemma index_ok_PutObjectTags now s b k tags s' :
  wf_store s → index_ok s → lacks colon b = true → plain_tags tags →
  PutObjectTags now s b k tags = Ok s' → index_ok s'.
Proof.
  intros Hwf Hix Hb Hp (o & Hg & ->)%PutObjectTags_Ok.
  assert (∀ b' k' t, objectKey b' k' ∉ tag_keys b k t) as Hobj by (intros; by apply tag_keys_family).
  apply (index_ok_write s _ b k (Some (o <| om_Tags := tags |> <| om_UpdatedAt := now |>))); try done.
  - by rewrite get_commitNoSync, get_PutObjectTags, decide_True.
  - intros b' k' Hne Hb'. rewrite get_commitNoSync, get_PutObjectTags.
    rewrite decide_False, !decide_False; try done.
    intros E. apply objectKey_inj in E as [-> ->]; done.
  - intros K HK. rewrite get_commitNoSync, get_PutObjectTags, Hg.
    rewrite decide_False by (by intros ->). done.
Qed.

Lemma index_ok_PutObject now s o s' o' :
  wf_store s → index_ok s → lacks colon (om_Bucket o) = true → plain_tags (om_Tags o) →
  om_VersionID o = "" ∨ om_IsLatest o = true →
  PutObject now s (Some o) = Ok (s', o') → index_ok s'.
Proof.
  intros Hwf Hix Hb Hp Hl (_ & _ & _ & Ho' & ->)%PutObject_Ok.
  destruct (stamp_fields now o) as (Eb & Ek & Ev & El & Et). rewrite <-Ho' in *.
  rewrite <-Eb, <-Et, <-Ev, <-El in *.
  apply (index_ok_write s _ (om_Bucket o') (om_Key o') (Some o')); try done.
  - rewrite get_after_put by done. rewrite decide_True; [done|]. by left.
  - intros b' k' Hne Hb'. rewrite get_after_put by done. rewrite decide_False; [done|].
    intros [[E _]|[E _]]; [|by apply (f_equal family) in E].
    apply objectKey_inj in E as [-> ->]; done.
  - intros K HK. rewrite get_commitNoSync. by apply get_put_ops_tag.
Qed.

Lemma index_ok_DeleteObject s b k s' :
  wf_store s → index_ok s → lacks colon b = true → DeleteObject s b k [] = Ok s' → index_ok s'.
Proof.
  intros Hwf Hix Hb (_ & _ & o & Ho & ->)%DeleteObject_Ok. simpl in *.
  assert (∀ K, pebbleGet (commitSync s (delete_tags b k (om_Tags o) ++ [BDelete (objectKey b k)])) K =
    if decide (K = objectKey b k) then None
    else if decide (K ∈ tag_keys b k (om_Tags o)) then None else pebbleGet s K) as Hget.
  { intros K. rewrite get_commitSync, !batch_effect_app, effect_delete_tags. done. }
  apply (index_ok_write s _ b k None); try done.
  - by rewrite Hget, decide_True.
  - intros b' k' Hne Hb'. rewrite Hget, !decide_False; [done|by apply tag_keys_family|].
    intros E. apply objectKey_inj in E as [-> ->]; done.
  - intros K HK. rewrite Hget, Ho. rewrite decide_False by (by intros ->).
    rewrite (decide_False (P := K ∈ tag_keys b k ∅)); [done|].
    unfold tag_keys. rewrite map_to_list_empty. apply not_elem_of_nil.
Qed.

(** The operations that maintain the index. *)
Inductive tag_step s : Store DB → Prop :=
| TagPut now o s' o' :
    valid_names o → plain_tags (om_Tags o) → om_VersionID o = "" ∨ om_IsLatest o = true →
    PutObject now s (Some o) = Ok (s', o') → tag_step s s'
| TagSet now b k tags s' :
    lacks colon b = true → plain_tags tags → PutObjectTags now s b k tags = Ok s' → tag_step s s'
| TagClear now b k s' :
    lacks colon b = true → DeleteObjectTags now s b k = Ok s' → tag_step s s'
| TagDelete b k s' :
    lacks colon b = true → DeleteObject s b k [] = Ok s' → tag_step s s'.

Lemma wf_tag_step s s' : wf_store s → tag_step s s' → wf_store s'.
Proof.
  intros Hwf [now o s1 o' Hn _ _ H|now b k tags s1 _ _ H|now b k s1 _ H|b k s1 _ H].
  - by eapply wf_PutObject.
  - by eapply wf_PutObjectTags.
  - by eapply wf_PutObjectTags.
  - by eapply wf_DeleteObject.
Qed.

(** ** Lookups by tag *)

Lemma candidates_eq s b (first : string * string) k :
  k ∈ index_candidates s b first ↔ is_Some (pebbleGet s (tagIndexKey b first.1 first.2 k)).
Proof.
  assert (∀ k, tagIndexKey b first.1 first.2 k = tagIndexPrefix b first.1 first.2 +:+ k) as Hk.
  { intros k'. unfold tagIndexKey, tagIndexPrefix. by rewrite !app_assoc_str. }
  unfold index_candidates. rewrite list_elem_of_omap. split.
  - intros ([K v] & [Hg HP]%elem_of_pebbleIter & HE). simpl in HE. rewrite HP in HE. injection HE as <-.
    apply HasPrefix_spec in HP as [t ->]. unfold TrimPrefix. rewrite HasPrefix_app, s_from_app, Hk.
    by rewrite Hg.
  - intros [v Hv]. rewrite Hk in Hv. eexists (_, v). rewrite elem_of_pebbleIter. simpl.
    split; [split; [exact Hv|apply HasPrefix_app]|]. unfold TrimPrefix.
    by rewrite HasPrefix_app, s_from_app.
Qed.

Lemma candidates_NoDup s b (first : string * string) : NoDup (index_candidates s b first).
Proof.
  unfold index_candidates. pose proof (pebbleIter_sorted s (tagIndexPrefix b first.1 first.2)) as Hs.
  assert (Forall (λ e : entry, HasPrefix e.1 (tagIndexPrefix b first.1 first.2) = true)
    (pebbleIter s (tagIndexPrefix b first.1 first.2))) as HP.
  { apply Forall_forall. by intros [K v] [_ ?]%elem_of_pebbleIter. }
  induction Hs as [|[K v] l Hs IH HK]; [constructor|].
  apply Forall_cons in HP as [HPK HP]. simpl in *. rewrite HPK. apply NoDup_cons. split; [|by apply IH].
  intros ([K' v'] & Hin & HE)%list_elem_of_omap. rewrite Forall_forall in HK, HP.
  specialize (HK _ Hin). specialize (HP _ Hin). simpl in *. rewrite HP in HE. injection HE as HE.
  apply HasPrefix_spec in HP as [t ->], HPK as [t' ->]. unfold TrimPrefix in HE.
  rewrite !HasPrefix_app, !s_from_app in HE. subst. by rewrite blt_irrefl in HK.
Qed.

(** Under the invariant the candidates are the keys of the objects that carry the tag. *)
Lemma candidates_objects s b (first : string * string) k :
  index_ok s → lacks colon b = true → lacks colon first.1 = true → lacks colon first.2 = true →
  k ∈ index_candidates s b first ↔
  ∃ o, pebbleGet s (objectKey b k) = Some (VObject o) ∧ om_Tags o !! first.1 = Some first.2.
Proof. intros [_ Hix] Hb H1 H2. rewrite candidates_eq. by apply Hix. Qed.

(** Reading a plain entry. *)
Lemma GetObject_plain s b k o :
  wf_store s → lacks colon b = true → b ≠ "" →
  GetObject s b k [] = Ok o ↔ pebbleGet s (objectKey b k) = Some (VObject o) ∧ om_Key o = k ∧ om_Bucket o = b.
Proof.
  intros Hwf Hb Hne.
  assert (∀ v, pebbleGet s (objectKey b k) = Some v → ∃ o, v = VObject o ∧ om_Key o = k ∧ om_Bucket o = b ∧ k ≠ "") as Hat.
  { intros v Hg. destruct (entry_ok_obj _ _ (Hwf _ _ Hg) eq_refl) as (o' & -> & E & Hn1 & Hn2 & Hn3).
    apply objectKey_inj in E as [-> ->]; [|done..]. by exists o'. }
  split.
  - intros H. assert (k ≠ "") as Hk.
    { intros ->. unfold GetObject in H. by rewrite (bool_decide_eq_true_2 ("" = "")), orb_true_r in H. }
    unfold GetObject in H. rewrite !bool_decide_eq_false_2 in H by done. simpl in H.
    destruct (pebbleGet s (objectKey b k)) as [v|]; [|done].
    destruct (Hat v eq_refl) as (o' & -> & E1 & E2 & _). simpl in H.
    rewrite (bool_decide_eq_false_2 (om_Bucket o' = "")) in H by (by rewrite E2).
    rewrite bool_decide_eq_false_2 in H by (by rewrite E1). injection H as ->. done.
  - intros (Hg & Ek & Eb). destruct (Hat _ Hg) as (o' & _ & _ & _ & Hk).
    apply GetObject_stored; try done; congruence.
Qed.

(** ** Search by scan *)

Abbreviation matches flt := (List.filter (λ o, matchesFilter o flt)).

(** The loop reads a prefix [consumed] of the objects, stops when it has
    [maxKeys] matches or has read its limit, and reports where it stopped. *)
Lemma search_loop_objects b flt m N objs : lacks colon b = true →
  ∀ scanned count lastk acc, 0 ≤ scanned ≤ scanLimit → 0 ≤ count ≤ N →
  ∃ n, (n ≤ length objs)%nat ∧
    search_loop flt m N scanned count true lastk acc (obj_entry b <$> objs) =
    (acc ++ matches flt (take n objs),
     if bool_decide (length objs ≤ n)%nat then "" else from_option om_Key lastk (last (take n objs))) ∧
    count + Z.of_nat (length (matches flt (take n objs))) ≤ N ∧
    ((n < length objs)%nat → count + Z.of_nat (length (matches flt (take n objs))) = N ∨
                             scanned + Z.of_nat n = scanLimit).
Proof.
  intros Hb. induction objs as [|o objs IH]; intros scanned count lastk acc Hs Hc.
  { exists 0%nat. simpl. rewrite app_nil_r. split_and!; [lia|done|lia|lia]. }
  rewrite fmap_cons. cbn [search_loop obj_entry].
  assert (∃ n, (n ≤ length (o :: objs))%nat ∧ (acc, lastk) =
    (acc ++ matches flt (take n (o :: objs)),
     if bool_decide (length (o :: objs) ≤ n)%nat then "" else from_option om_Key lastk (last (take n (o :: objs)))) ∧
    count + Z.of_nat (length (matches flt (take n (o :: objs)))) ≤ N ∧ n = 0%nat) as Hstop.
  { exists 0%nat. rewrite take_0, bool_decide_eq_false_2 by (simpl; lia). simpl. rewrite app_nil_r.
    split_and!; [lia|done|lia|done]. }
  destruct (Z.leb_spec scanLimit scanned) as [Hlim|Hlim].
  { destruct Hstop as (n & H1 & H2 & H3 & ->). exists 0%nat. split_and!; [done..|]. right. lia. }
  cbn [negb andb]. rewrite (extract_objectKey b (om_Key o) Hb).
  destruct (Z.leb_spec N count) as [HN|HN].
  { destruct Hstop as (n & H1 & H2 & H3 & ->). exists 0%nat. split_and!; [done..|]. left. simpl. lia. }
  simpl unmarshal_object. cbv iota beta.
  destruct (matchesFilter o flt) eqn:Em.
  - destruct (IH (scanned + 1) (count + 1) (om_Key o) (acc ++ [o])) as (n & H1 & -> & H3 & H4); [lia|lia|].
    exists (S n). simpl. rewrite Em. split_and!; [lia| |simpl; lia|simpl; lia].
    rewrite <-app_assoc. f_equal. rewrite last_cons. repeat case_bool_decide; try lia; try done.
    by destruct (last _).
  - destruct (IH (scanned + 1) count (om_Key o) acc) as (n & H1 & -> & H3 & H4); [lia|lia|].
    exists (S n). simpl. rewrite Em. split_and!; [lia| |simpl; lia|lia].
    f_equal. rewrite last_cons. repeat case_bool_decide; try lia; try done.
    by destruct (last _).
Qed.

Lemma search_loop_marker b flt m N objs : lacks colon b = true → 0 < N →
  search_loop flt m N 0 0 false "" [] (obj_entry b <$> objs) =
  match objs with
  | o :: r => if bool_decide (om_Key o = m)
              then search_loop flt m N 1 0 true "" [] (obj_entry b <$> r)
              else search_loop flt m N 0 0 true "" [] (obj_entry b <$> objs)
  | [] => ([], "")
  end.
Proof.
  intros Hb HN. destruct objs as [|o objs]; [done|]. rewrite fmap_cons. simpl.
  rewrite (extract_objectKey b (om_Key o) Hb). by case_bool_decide.
Qed.

(** One page of the scan: [n] candidates are read. *)
Lemma searchObjectsByScan_eq s b p m N flt :
  wf_store s → lacks colon b = true →
  let cand := after m (objects_under s b p) in
  ∃ n, (n ≤ length cand)%nat ∧
    searchObjectsByScan s b p m N flt =
    (matches flt (take n cand), if bool_decide (length cand ≤ n)%nat then "" else last_key (take n cand)) ∧
    Z.of_nat (length (matches flt (take n cand))) ≤ default_max N ∧
    ((n < length cand)%nat → Z.of_nat (length (matches flt (take n cand))) = default_max N ∨
                             scanLimit - 1 ≤ Z.of_nat n).
Proof.
  intros Hwf Hb. unfold searchObjectsByScan. rewrite list_lower_eq, scan_objects by done. cbv zeta.
  pose proof (default_max_pos N) as HN. unfold after.
  destruct (bool_decide_reflect (m = "")) as [->|Hm].
  - rewrite bool_decide_eq_false_2 by tauto.
    destruct (search_loop_objects b flt "" (default_max N) (objects_under s b p) Hb 0 0 "" [])
      as (n & H1 & H2 & H3 & H4); [unfold scanLimit; lia|lia|].
    exists n. split_and!; [done|exact H2|lia|]. intros Hn. destruct (H4 Hn); [left; lia|right; lia].
  - rewrite bool_decide_eq_true_2 by done. rewrite SeekGE_objects, search_loop_marker by done.
    rewrite <-(sorted_by_skip om_Key m _ (objects_under_sorted s b p Hwf Hb)).
    destruct (drop_while _ _) as [|o rest]; [|case_bool_decide].
    + exists 0%nat. simpl. split_and!; [done|done|lia|lia].
    + destruct (search_loop_objects b flt m (default_max N) rest Hb 1 0 "" [])
        as (n & H1 & H2 & H3 & H4); [unfold scanLimit; lia|lia|].
      exists n. split_and!; [done|exact H2|lia|]. intros Hn. destruct (H4 Hn); [left; lia|right; lia].
    + destruct (search_loop_objects b flt m (default_max N) (o :: rest) Hb 0 0 "" [])
        as (n & H1 & H2 & H3 & H4); [unfold scanLimit; lia|lia|].
      exists n. split_and!; [done|exact H2|lia|]. intros Hn. destruct (H4 Hn); [left; lia|right; lia].
Qed.

Lemma search_pages_complete fuel s b p m N flt :
  wf_store s → lacks colon b = true →
  (length (after m (objects_under s b p)) < fuel)%nat →
  search_pages fuel s b p m N flt = matching s b p m flt.
Proof.
  intros Hwf Hb. revert m. induction fuel as [|fuel IH]; intros m Hf; [lia|]. simpl.
  destruct (searchObjectsByScan_eq s b p m N flt Hwf Hb) as (n & Hn & -> & Hle & Hstop).
  pose proof (default_max_pos N) as HN. unfold matching. set (cand := after m (objects_under s b p)) in *.
  destruct (bool_decide_reflect (length cand ≤ n)%nat) as [Hlen|Hlen].
  - simpl. by rewrite take_ge, app_nil_r.
  - assert (0 < n)%nat as Hpos.
    { destruct n; [|lia]. destruct (Hstop ltac:(lia)) as [H|H]; [simpl in H; lia|unfold scanLimit in H; lia]. }
    destruct (after_page m (objects_under s b p) n) as [E Hk];
      [by apply objects_under_sorted|by apply objects_under_named|done|fold cand; lia|].
    fold cand in E, Hk. rewrite bool_decide_eq_false_2 by done.
    rewrite IH; [|rewrite E, length_drop; lia]. unfold matching. rewrite E.
    by rewrite <-List.filter_app, take_drop.
Qed.

(** ** Search through the tag index *)

Lemma tag_search_loop_eq s b flt N objs : 
  (∀ o, o ∈ objs → GetObject s b (om_Key o) [] = Ok o) →
  ∀ acc, (tag_search_loop s b flt N acc (om_Key <$> objs)).1 =
    acc ++ take (Z.to_nat N - length acc) (matches flt objs).
Proof.
  induction objs as [|o objs IH]; intros Hget acc; [simpl; by rewrite take_nil, app_nil_r|].
  rewrite fmap_cons. simpl.
  destruct (Z.leb_spec N (Z.of_nat (length acc))).
  { replace (Z.to_nat N - length acc)%nat with 0%nat by lia. simpl. by rewrite app_nil_r. }
  rewrite Hget by (by left). assert (∀ o0, o0 ∈ objs → GetObject s b (om_Key o0) [] = Ok o0) as Hget'.
  { intros o0 ?. apply Hget. by right. }
  destruct (matchesFilter o flt); rewrite IH by done; [|done].
  replace (Z.to_nat N - length acc)%nat with (S (Z.to_nat N - length (acc ++ [o])))%nat
    by (rewrite length_app; simpl; lia).
  by rewrite firstn_cons, <-app_assoc.
Qed.

#[local] Instance blt_strict : StrictWeak blt.
Proof.
  split; [apply blt_asym|]. intros x y z Hyx Hzy. destruct (blt z x) eqn:E; [|done].
  destruct (blt y z) eqn:E'.
  - by rewrite (blt_trans _ _ _ E' E) in Hyx.
  - rewrite (blt_total _ _ E' Hzy) in Hyx. congruence.
Qed.

(** A list of distinct strings sorts to the strictly sorted list with the same elements. *)
Lemma sort_strings_unique (l : list string) (objs : list ObjectMetadata) :
  NoDup l → sorted_by om_Key objs → (∀ k, k ∈ l ↔ k ∈ om_Key <$> objs) →
  sort_slice blt l = om_Key <$> objs.
Proof.
  intros Hnd Hs Hel.
  assert (sort_slice blt l ≡ₚ om_Key <$> objs) as Hp.
  { rewrite sort_slice_perm. apply NoDup_Permutation; [done|by apply sorted_by_NoDup|done]. }
  pose proof (sort_slice_sorted blt l) as Hsort.
  apply (StronglySorted_unique_strong (λ x y, blt y x = false)); [|done| |done].
  - intros x y _ _ H1 H2. by apply blt_total.
  - clear Hel Hp. induction objs as [|o objs IH]; [constructor|]. apply sorted_by_cons in Hs as [Ho Hs].
    rewrite fmap_cons. constructor; [by apply IH|]. apply Forall_fmap. eapply Forall_impl; [exact Ho|].
    intros x Hx. simpl. by apply blt_asym.
Qed.

Lemma candidate_ok_spec p m k : candidate_ok p m k = true ↔ HasPrefix k p = true ∧ (m ≠ "" → blt m k = true).
Proof.
  unfold candidate_ok. rewrite ble_blt, andb_true_iff, !negb_true_iff, !andb_false_iff, !negb_false_iff.
  rewrite !bool_decide_eq_false. split.
  - intros [Hp Hm]. split; [|tauto]. destruct Hp as [Hp|?]; [|done]. apply dec_stable in Hp as ->.
    apply HasPrefix_empty.
  - intros [Hp Hm]. split; [by right|]. destruct (decide (m = "")) as [->|]; [left; tauto|right; auto].
Qed.

(** Objects that match only need to be looked for among those that carry a tag. *)
Lemma matches_carry flt (P : ObjectMetadata → Prop) `{∀ o, Decision (P o)} objs :
  (∀ o, matchesFilter o flt = true → P o) → matches flt (filter P objs) = matches flt objs.
Proof.
  intros HP. induction objs as [|o objs IH]; [done|]. cbn [List.filter]. destruct (decide (P o)) as [Ho|Ho].
  - rewrite filter_cons_True by done. cbn [List.filter]. by rewrite IH.
  - rewrite filter_cons_False, IH by done. destruct (matchesFilter o flt) eqn:E; [|done].
    by destruct Ho; apply HP.
Qed.

(** The indexed search and the scan find the same objects. *)
Lemma searchObjectsWithTags_eq s b p m N f (first : string * string) :
  wf_store s → index_ok s → lacks colon b = true → b ≠ "" → plain_tags (of_Tags f) →
  of_Tags f !! first.1 = Some first.2 →
  (searchObjectsWithTags s b p m N (Some f) first).1 = take (Z.to_nat N) (matching s b p m (Some f)).
Proof.
  intros Hwf Hix Hb Hne Hpl Hfirst. destruct (Hpl _ _ Hfirst) as [Hc1 Hc2].
  set (carry := filter (λ o, om_Tags o !! first.1 = Some first.2) (after m (objects_under s b p))).
  assert (sorted_by om_Key carry) as Hs by (by apply sorted_by_filter, after_sorted, objects_under_sorted).
  assert (∀ o, o ∈ carry ↔ (pebbleGet s (objectKey b (om_Key o)) = Some (VObject o) ∧ HasPrefix (om_Key o) p = true) ∧
    (m ≠ "" → blt m (om_Key o) = true) ∧ om_Tags o !! first.1 = Some first.2) as Hcarry.
  { intros o. unfold carry. rewrite list_elem_of_filter. unfold after. case_bool_decide.
    - rewrite elem_of_objects_under by done. naive_solver.
    - rewrite list_elem_of_filter, elem_of_objects_under by done. naive_solver. }
  unfold searchObjectsWithTags. rewrite (sort_strings_unique _ carry); [| |done|].
  - rewrite tag_search_loop_eq.
    + cbn [app length]. rewrite Nat.sub_0_r. f_equal. unfold carry, matching.
      apply matches_carry. intros o [_ Ho%matchesTags_spec]%andb_prop. by eapply lookup_weaken.
    + intros o ((Hg & _) & _)%Hcarry. apply GetObject_plain; try done. split; [done|].
      destruct (entry_ok_obj _ _ (Hwf _ _ Hg) eq_refl) as (o' & [= <-] & E & Hn1 & _).
      apply objectKey_inj in E as [-> _]; done.
  - apply NoDup_ListNoDup, List.NoDup_filter, NoDup_ListNoDup, candidates_NoDup.
  - intros k. rewrite list_elem_of_In, filter_In, <-list_elem_of_In, candidate_ok_spec.
    rewrite candidates_objects by done. rewrite list_elem_of_fmap. setoid_rewrite Hcarry. split.
    + intros ((o & Hg & Ht) & Hp & Hm). exists o.
      destruct (entry_ok_obj _ _ (Hwf _ _ Hg) eq_refl) as (o' & [= <-] & E & Hn1 & _).
      apply objectKey_inj in E as [-> ->]; [|done..]. done.
    + intros (o & -> & (Hg & Hp) & Hm & Ht). split; [by exists o|done].
Qed.

(** ** Properties *)





End Tags.

(** ** Witnesses *)

Definition sample_put_tagged (s : Store alist) (kt : string * gmap string string) : Store alist :=
  match PutObject 5000000000 s (Some (zero_object <| om_Bucket := "t1/photos" |> <| om_Key := kt.1 |>
                                        <| om_Tags := kt.2 |>)) with
  | Ok (s', _) => s'
  | Err _ => s
  end.
Definition prod_tags : gmap string string := {["env" := "prod"]}.
Definition tag_objects : list (string * gmap string string) :=
  [("a", prod_tags); ("b", prod_tags); ("c", prod_tags); ("d", ∅)].
Definition tag_store : Store alist := foldl sample_put_tagged store0 tag_objects.

Lemma index_ok_store0 : index_ok store0.
Proof.
  split; [done|]. intros b k tk tv _ _ _. split; [by intros [v Hv]|by intros (o & Ho & _)].
Qed.

Lemma plain_prod_tags : plain_tags prod_tags.
Proof. apply map_Forall_singleton. done. Qed.

Lemma sample_put_tagged_ok s kt :
  wf_store s ∧ index_ok s → kt.1 ≠ "" → plain_tags kt.2 →
  wf_store (sample_put_tagged s kt) ∧ index_ok (sample_put_tagged s kt).
Proof.
  intros [Hwf Hix] Hk Ht. unfold sample_put_tagged.
  destruct (PutObject _ _ _) as [[s' o']|e] eqn:E; [|done]. split.
  - apply (wf_PutObject 5000000000 s _ s' o' Hwf) in E; [done|by split_and!].
  - apply (index_ok_PutObject 5000000000 s _ s' o' Hwf Hix) in E; [done|done|done|by left].
Qed.

Lemma tag_store_ok : wf_store tag_store ∧ index_ok tag_store.
Proof.
  unfold tag_store, tag_objects. cbn [foldl].
  repeat apply sample_put_tagged_ok; try done; try apply plain_prod_tags; try apply plain_tags_empty.
  split; [apply wf_store0|apply index_ok_store0].
Qed.





Definition prod_filter : ObjectFilter := mkFilter [] None None None None prod_tags.


(** ** Where the index fails *)

Definition result_keys (r : result StoreError (list ObjectMetadata * string)) : list string * string :=
  match r with Ok (l, next) => (om_Key <$> l, next) | Err _ => ([], "") end.

(** The next marker of the indexed search is the first key that was not
    returned, and the next call starts after it: following the markers with
    pages of one never returns [b]. *)
Example tag_search_skips_marker :
  result_keys (SearchObjects tag_store "t1/photos" "" "" 1 (Some prod_filter) ("env", "prod")) = (["a"], "b") ∧
  result_keys (SearchObjects tag_store "t1/photos" "" "b" 1 (Some prod_filter) ("env", "prod")) = (["c"], "").
Proof. split; vm_compute; reflexivity. Qed.

(** Two objects share an index key when a tag value contains the separator;
    untagging one of them hides the other. *)
Definition colon_store : Store alist :=
  foldl sample_put_tagged store0 [("k", {["a" := "b:c"]}); ("c:k", {["a" := "b"]})].
Example tag_separator_collision :
  ∃ s', DeleteObjectTags 9 colon_store "t1/photos" "k" = Ok s' ∧
    GetObjectTags s' "t1/photos" "c:k" = Ok {["a" := "b"]} ∧
    ListObjectsByTags s' "t1/photos" {["a" := "b"]} ("a", "b") = Ok [].
Proof. eexists. split_and!; vm_compute; reflexivity. Qed.

(** Writing or deleting an older version drops index entries of the latest one. *)
Example old_version_drops_index :
  ∃ s', PutObject 9 sample_store (Some (sample_object <| om_VersionID := "16.aa" |>
          <| om_IsLatest := false |> <| om_Tags := ∅ |>)) = Ok s' ∧
    GetObjectTags s'.1 "t1/photos" "2024/a:b.jpg" = Ok prod_tags ∧
    ListObjectsByTags s'.1 "t1/photos" prod_tags ("env", "prod") = Ok [].
Proof. eexists. split_and!; vm_compute; reflexivity. Qed.
