(* ===== verification/Buckets.v ===== *)
(** * Buckets of the metadata store ([internal/metadata/pebble_store.go])

    Creation, update, deletion and listing of bucket records, and the cached
    object count and total size of a bucket.

    The invariant is [names_unique]: a bucket name belongs to one bucket over
    all tenants.  Deleting a bucket marks its path in [st_deleted], which is
    what makes every later object write fail until the bucket is created
    again; [System.v] shows what that buys over whole executions. *)

From S2P Require Import Prelude GoStrings MetaTypes Keys Pebble ObjectStore Listing.
From stdpp Require Import base gmap sets list strings.
From Stdlib Require Import ZArith Lia.
Open Scope Z_scope.

Definition bucketPathForMutation (tenantID name : string) : string :=
  if bool_decide (tenantID = "") then name else tenantID +:+ "/" +:+ name.

Section Buckets.
Context {DB : Type} `{PB : Pebble DB}.
Implicit Types (s : Store DB) (bkt : BucketMetadata) (tenantID name : string).

(** ** Operations *)

Definition CreateBucket (now : time) s (bucket : option BucketMetadata)
  : result StoreError (Store DB * BucketMetadata) :=
  match bucket with
  | None => Err (ErrMsg "bucket metadata cannot be nil")
  | Some bucket =>
      let key := bucketKey (bm_TenantID bucket) (bm_Name bucket) in
      match pebbleGet s key with
      | Some _ => Err ErrBucketAlreadyExists
      | None =>
          if existsb (λ e, match unmarshal_bucket e.2 with
                           | Some existing => bool_decide (bm_Name existing = bm_Name bucket)
                           | None => false
                           end) (pebbleIter s "bucket:")
          then Err ErrBucketAlreadyExists
          else
            let bucket := if IsZero (bm_CreatedAt bucket) then bucket <| bm_CreatedAt := now |> else bucket in
            let bucket := bucket <| bm_UpdatedAt := now |> in
            let s := commitSync s [BSet key (VBucket bucket)] in
            Ok (unmark_deleted s (bucketPathForMutation (bm_TenantID bucket) (bm_Name bucket)), bucket)
      end
  end.

Definition GetBucket s tenantID name : result StoreError BucketMetadata :=
  match pebbleGet s (bucketKey tenantID name) with
  | None => Err ErrBucketNotFound
  | Some data =>
      match unmarshal_bucket data with
      | None => Err (ErrMsg "failed to unmarshal bucket")
      | Some bucket => Ok bucket
      end
  end.

Definition UpdateBucket (now : time) s (bucket : option BucketMetadata)
  : result StoreError (Store DB * BucketMetadata) :=
  match bucket with
  | None => Err (ErrMsg "bucket metadata cannot be nil")
  | Some bucket =>
      let key := bucketKey (bm_TenantID bucket) (bm_Name bucket) in
      match pebbleGet s key with
      | None => Err ErrBucketNotFound
      | Some _ =>
          let bucket := bucket <| bm_UpdatedAt := now |> in
          let s := commitSync s [BSet key (VBucket bucket)] in
          Ok (unmark_deleted s (bucketPathForMutation (bm_TenantID bucket) (bm_Name bucket)), bucket)
      end
  end.

Definition DeleteBucket s tenantID name : result StoreError (Store DB) :=
  let key := bucketKey tenantID name in
  match pebbleGet s key with
  | None => Err ErrBucketNotFound
  | Some _ => Ok (mark_deleted (commitSync s [BDelete key]) (bucketPathForMutation tenantID name))
  end.

Definition DeleteBucketIfEmpty s tenantID name : result StoreError (Store DB) :=
  let key := bucketKey tenantID name in
  let bucketPath := bucketPathForMutation tenantID name in
  match pebbleGet s key with
  | None => Err ErrBucketNotFound
  | Some _ =>
      match pebbleIter s (objectListPrefix bucketPath) with
      | _ :: _ => Err ErrBucketNotEmpty
      | [] =>
          match pebbleIter s (versionListPrefix bucketPath) with
          | _ :: _ => Err ErrBucketNotEmpty
          | [] => Ok (mark_deleted (commitSync s [BDelete key]) bucketPath)
          end
      end
  end.

Definition ListBuckets s tenantID : list BucketMetadata :=
  let lower := if bool_decide (tenantID = "") then "bucket:" else bucketListPrefix tenantID in
  omap (λ e, unmarshal_bucket e.2) (pebbleIter s lower).

Fixpoint find_bucket name (l : list entry) : result StoreError BucketMetadata :=
  match l with
  | [] => Err ErrBucketNotFound
  | (_, v) :: l =>
      match unmarshal_bucket v with
      | Some bucket => if bool_decide (bm_Name bucket = name) then Ok bucket else find_bucket name l
      | None => find_bucket name l
      end
  end.
Definition GetBucketByName s name : result StoreError BucketMetadata :=
  find_bucket name (pebbleIter s "bucket:").

Definition BucketExists s tenantID name : bool :=
  bool_decide (is_Some (pebbleGet s (bucketKey tenantID name))).

(** [bucket.ObjectCount += delta] on an [int64], then clamped at 0. *)
Definition add_clamped (cur delta : Z) : Z :=
  let sum := int64 (cur + delta) in if sum <? 0 then 0 else sum.

Definition apply_metrics (now : time) (objectCountDelta sizeDelta : Z) bkt : BucketMetadata :=
  bkt <| bm_ObjectCount := add_clamped (bm_ObjectCount bkt) objectCountDelta |>
      <| bm_TotalSize := add_clamped (bm_TotalSize bkt) sizeDelta |>
      <| bm_UpdatedAt := now |>.

Definition UpdateBucketMetrics (now : time) s tenantID bucketName (objectCountDelta sizeDelta : Z)
  : result StoreError (Store DB) :=
  let key := bucketKey tenantID bucketName in
  match pebbleGet s key with
  | None => Err ErrBucketNotFound
  | Some data =>
      match unmarshal_bucket data with
      | None => Err (ErrMsg "failed to unmarshal bucket")
      | Some bucket => Ok (setNoSync s key (VBucket (apply_metrics now objectCountDelta sizeDelta bucket)))
      end
  end.

Definition GetBucketStats s tenantID bucketName : result StoreError (Z * Z) :=
  try bucket := GetBucket s tenantID bucketName in
  Ok (bm_ObjectCount bucket, bm_TotalSize bucket).

(** A delete marker in the plain entry of a versioned object. *)
Definition is_marker (obj : ObjectMetadata) : bool :=
  bool_decide (om_ETag obj = "") && bool_decide (om_Size obj = 0).

Definition recount_step (acc : Z * Z) (e : entry) : Z * Z :=
  match unmarshal_object e.2 with
  | None => acc
  | Some obj => if is_marker obj then acc else (int64 (acc.1 + 1), int64 (acc.2 + om_Size obj))
  end.

Definition RecalculateBucketStats (now : time) s tenantID bucketName : result StoreError (Store DB) :=
  let fullBucketPath := if bool_decide (tenantID ≠ "") then tenantID +:+ "/" +:+ bucketName else bucketName in
  let '(objectCount, totalSize) := foldl recount_step (0, 0) (pebbleIter s (objectListPrefix fullBucketPath)) in
  let key := bucketKey tenantID bucketName in
  match pebbleGet s key with
  | None => Err (ErrMsg "pebble: not found")
  | Some data =>
      match unmarshal_bucket data with
      | None => Err (ErrMsg "json")
      | Some bucket =>
          Ok (setNoSync s key (VBucket (bucket <| bm_ObjectCount := objectCount |>
            <| bm_TotalSize := totalSize |> <| bm_UpdatedAt := now |>)))
      end
  end.

(** ** Invariant *)

(** A bucket name is used once over all tenants. *)
Definition names_unique s : Prop :=
  ∀ K1 K2 b1 b2, pebbleGet s K1 = Some (VBucket b1) → pebbleGet s K2 = Some (VBucket b2) →
    bm_Name b1 = bm_Name b2 → K1 = K2.

(** No object and no version of the bucket path is stored. *)
Definition bucket_empty s (path : string) : Prop :=
  (∀ k, pebbleGet s (objectKey path k) = None) ∧
  (∀ k v, pebbleGet s (objectVersionKey path k v) = None).

Context `{PL : !PebbleLaws DB}.

Lemma entry_ok_bucket K v : entry_ok K v → family K = "bucket" →
  ∃ b, v = VBucket b ∧ K = bucketKey (bm_TenantID b) (bm_Name b) ∧ lacks colon (bm_TenantID b) = true.
Proof.
  destruct v as [o|b| | |]; simpl.
  - by intros [_ [->| ->]].
  - intros [-> ?] _. by exists b.
  - by intros [-> _].
  - by intros [-> _].
  - by intros [->| ->].
Qed.

Lemma bucket_prefix_family K : HasPrefix K "bucket:" = true → family K = "bucket".
Proof. intros [t ->]%HasPrefix_spec. done. Qed.

Lemma elem_of_buckets s K v :
  wf_store s →
  (K, v) ∈ pebbleIter s "bucket:" ↔
  ∃ b, v = VBucket b ∧ pebbleGet s K = Some (VBucket b).
Proof.
  intros Hwf. rewrite elem_of_pebbleIter. split.
  - intros [Hg Hp%bucket_prefix_family].
    destruct (entry_ok_bucket K v (Hwf _ _ Hg) Hp) as (b & -> & _). by exists b.
  - intros (b & -> & Hg). split; [done|].
    destruct (Hwf _ _ Hg) as [-> _]. apply HasPrefix_spec. by eexists.
Qed.

Lemma get_bucket_key s K b :
  wf_store s → pebbleGet s K = Some (VBucket b) →
  K = bucketKey (bm_TenantID b) (bm_Name b) ∧ lacks colon (bm_TenantID b) = true.
Proof. intros Hwf Hg. exact (Hwf _ _ Hg). Qed.

Lemma CreateBucket_Ok now s b s' b' :
  wf_store s →
  CreateBucket now s (Some b) = Ok (s', b') ↔
  pebbleGet s (bucketKey (bm_TenantID b) (bm_Name b)) = None ∧
  (∀ K e, pebbleGet s K = Some (VBucket e) → bm_Name e ≠ bm_Name b) ∧
  b' = (if IsZero (bm_CreatedAt b) then b <| bm_CreatedAt := now |> else b) <| bm_UpdatedAt := now |> ∧
  s' = unmark_deleted (commitSync s [BSet (bucketKey (bm_TenantID b) (bm_Name b)) (VBucket b')])
         (bucketPathForMutation (bm_TenantID b) (bm_Name b)).
Proof.
  intros Hwf. unfold CreateBucket. destruct (pebbleGet s _) eqn:Eg; [naive_solver|].
  set (P := λ e : entry, _).
  assert (existsb P (pebbleIter s "bucket:") = false ↔
    ∀ K e, pebbleGet s K = Some (VBucket e) → bm_Name e ≠ bm_Name b) as HP.
  { rewrite <-not_true_iff_false, existsb_exists. split.
    - intros H K e HK Hn. apply H. exists (K, VBucket e). split.
      + apply list_elem_of_In, elem_of_buckets; eauto.
      + simpl. by apply bool_decide_eq_true.
    - intros H ([K v] & Hin & HPv). apply list_elem_of_In, elem_of_buckets in Hin as (e & -> & HK); [|done].
      simpl in HPv. apply bool_decide_eq_true in HPv. by eapply H. }
  destruct (existsb P _) eqn:Ee.
  - split; [done|]. intros (_ & H & _). apply HP in H. done.
  - destruct HP as [HP _]. specialize (HP eq_refl).
    destruct (IsZero (bm_CreatedAt b)); simpl; split.
    all: first [ by intros [= <- <-] | by intros (_ & _ & -> & ->) ].
Qed.

Lemma find_bucket_spec name l b :
  find_bucket name l = Ok b → ∃ K, (K, VBucket b) ∈ l ∧ bm_Name b = name.
Proof.
  induction l as [|[K v] l IH]; simpl; [done|]. intros H.
  destruct v as [o|b0|u|p|]; simpl in H.
  2: case_bool_decide; [injection H as ->; exists K; split; [left|done]|].
  all: destruct (IH H) as (K' & ? & ?); exists K'; split; [by right|done].
Qed.

Lemma find_bucket_none name l e :
  find_bucket name l = Err e → e = ErrBucketNotFound ∧ ∀ K b, (K, VBucket b) ∈ l → bm_Name b ≠ name.
Proof.
  induction l as [|[K v] l IH]; simpl.
  { intros [= <-]. split; [done|]. by intros K b ?%not_elem_of_nil. }
  intros H. destruct v as [o|b0|u|p|]; simpl in H; try case_bool_decide; try done;
    destruct (IH H) as [-> IH']; (split; [done|]); intros K' b' [[= -> ->]|?]%elem_of_cons; eauto.
Qed.

(** With unique names a lookup by name finds the bucket of that name. *)
Lemma GetBucketByName_spec s K b :
  wf_store s → names_unique s → pebbleGet s K = Some (VBucket b) →
  GetBucketByName s (bm_Name b) = Ok b.
Proof.
  intros Hwf Hu Hg. unfold GetBucketByName.
  destruct (find_bucket (bm_Name b) (pebbleIter s "bucket:")) as [b'|e] eqn:E.
  - apply find_bucket_spec in E as (K' & (b'' & [= <-] & Hg')%elem_of_buckets & Hn); [|done].
    assert (K' = K) as -> by by apply (Hu _ _ b' b). rewrite Hg in Hg'. by injection Hg' as ->.
  - apply find_bucket_none in E as [_ E]. exfalso. apply (E K b); [|done].
    apply elem_of_buckets; eauto.
Qed.

(** Replacing or adding the record of [b] where no other bucket has its name. *)
Lemma names_unique_set s s' b :
  wf_store s →
  (∀ K, pebbleGet s' K = if decide (K = bucketKey (bm_TenantID b) (bm_Name b))
                         then Some (VBucket b) else pebbleGet s K) →
  (∀ K e, pebbleGet s K = Some (VBucket e) → bm_Name e = bm_Name b →
     K = bucketKey (bm_TenantID b) (bm_Name b)) →
  names_unique s → names_unique s'.
Proof.
  intros Hwf Hs' Hb Hu K1 K2 b1 b2. rewrite !Hs'. repeat case_decide; subst; try done.
  - intros [= <-] H2 E. symmetry. by eapply Hb.
  - intros H1 [= <-] E. by eapply Hb.
  - apply Hu.
Qed.

Lemma names_unique_sub s s' :
  (∀ K b, pebbleGet s' K = Some (VBucket b) → pebbleGet s K = Some (VBucket b)) →
  names_unique s → names_unique s'.
Proof. intros Hs Hu K1 K2 b1 b2 H1 H2. eauto. Qed.

(** The record a bucket key holds is the record of that bucket. *)
Lemma bucket_at s t n v :
  wf_store s → lacks colon t = true → pebbleGet s (bucketKey t n) = Some v →
  ∃ b, v = VBucket b ∧ bm_TenantID b = t ∧ bm_Name b = n.
Proof.
  intros Hwf Ht Hg. destruct (entry_ok_bucket _ _ (Hwf _ _ Hg) eq_refl) as (b & -> & E & Hb).
  apply bucketKey_inj in E as [-> ->]; [|done..]. by exists b.
Qed.

(** Rewriting the record of an existing bucket. *)
Lemma names_unique_rewrite s s' t n b :
  wf_store s → lacks colon t = true → is_Some (pebbleGet s (bucketKey t n)) →
  bm_TenantID b = t → bm_Name b = n →
  (∀ K, pebbleGet s' K = if decide (K = bucketKey t n) then Some (VBucket b) else pebbleGet s K) →
  names_unique s → names_unique s'.
Proof.
  intros Hwf Ht [v Hv] <- <- Hs' Hu. eapply names_unique_set; [exact Hwf|exact Hs'| |done].
  intros K e He En. destruct (bucket_at s _ _ v Hwf Ht Hv) as (b0 & -> & _ & E0).
  apply (Hu _ _ e b0); try done. by rewrite En, E0.
Qed.

Lemma GetBucket_stored s t n b : pebbleGet s (bucketKey t n) = Some (VBucket b) → GetBucket s t n = Ok b.
Proof. intros H. unfold GetBucket. by rewrite H. Qed.

Lemma get_single_set s K v K' :
  batch_effect [BSet K v] K' (pebbleGet s K') = if decide (K' = K) then Some v else pebbleGet s K'.
Proof. done. Qed.
Lemma get_single_delete s K K' :
  batch_effect [BDelete K] K' (pebbleGet s K') = if decide (K' = K) then None else pebbleGet s K'.
Proof. done. Qed.

Lemma wf_set_bucket s b :
  lacks colon (bm_TenantID b) = true → ops_ok [BSet (bucketKey (bm_TenantID b) (bm_Name b)) (VBucket b)].
Proof. intros H. apply ops_ok_set, ops_ok_nil. by split. Qed.

Lemma wf_CreateBucket now s b s' b' :
  wf_store s → lacks colon (bm_TenantID b) = true → CreateBucket now s (Some b) = Ok (s', b') → wf_store s'.
Proof.
  intros Hwf Ht (_ & _ & -> & ->)%CreateBucket_Ok; [|done].
  apply (wf_commitSync s); [done|]. apply ops_ok_set, ops_ok_nil. by destruct (IsZero _).
Qed.

Lemma UpdateBucket_Ok now s b s' b' :
  UpdateBucket now s (Some b) = Ok (s', b') ↔
  is_Some (pebbleGet s (bucketKey (bm_TenantID b) (bm_Name b))) ∧ b' = b <| bm_UpdatedAt := now |> ∧
  s' = unmark_deleted (commitSync s [BSet (bucketKey (bm_TenantID b) (bm_Name b)) (VBucket b')])
         (bucketPathForMutation (bm_TenantID b) (bm_Name b)).
Proof.
  unfold UpdateBucket. destruct (pebbleGet s _); split; try done.
  - intros [= <- <-]. split; [by eexists|done].
  - by intros (_ & -> & ->).
  - by intros ([? ?] & _).
Qed.

Lemma wf_UpdateBucket now s b s' b' :
  wf_store s → lacks colon (bm_TenantID b) = true → UpdateBucket now s (Some b) = Ok (s', b') → wf_store s'.
Proof.
  intros Hwf Ht (_ & -> & ->)%UpdateBucket_Ok.
  apply (wf_commitSync s); [done|]. by apply ops_ok_set, ops_ok_nil.
Qed.

Lemma wf_DeleteBucket s t n s' : wf_store s → DeleteBucket s t n = Ok s' → wf_store s'.
Proof.
  intros Hwf. unfold DeleteBucket. destruct (pebbleGet s _); [|done]. intros [= <-].
  apply (wf_commitSync s); [done|]. apply ops_ok_delete, ops_ok_nil.
Qed.

Lemma DeleteBucketIfEmpty_DeleteBucket s t n s' :
  DeleteBucketIfEmpty s t n = Ok s' → DeleteBucket s t n = Ok s'.
Proof. unfold DeleteBucketIfEmpty, DeleteBucket. repeat case_match; done. Qed.

Lemma UpdateBucketMetrics_Ok now s t n dc ds s' :
  UpdateBucketMetrics now s t n dc ds = Ok s' ↔
  ∃ b, pebbleGet s (bucketKey t n) = Some (VBucket b) ∧
    s' = setNoSync s (bucketKey t n) (VBucket (apply_metrics now dc ds b)).
Proof.
  unfold UpdateBucketMetrics. destruct (pebbleGet s _) as [[o|b|u|p|]|]; simpl; split;
    try (by intros (? & ? & ?)); try done.
  - intros [= <-]. by exists b.
  - by intros (? & [= <-] & ->).
Qed.

Lemma wf_rewrite_bucket s t n b b' :
  wf_store s → pebbleGet s (bucketKey t n) = Some (VBucket b) →
  bm_TenantID b' = bm_TenantID b → bm_Name b' = bm_Name b →
  wf_store (setNoSync s (bucketKey t n) (VBucket b')).
Proof.
  intros Hwf Hg Et En. apply wf_commitNoSync; [done|]. apply ops_ok_set, ops_ok_nil.
  simpl. rewrite Et, En. exact (Hwf _ _ Hg).
Qed.

(** The two scans of [DeleteBucketIfEmpty] are empty exactly when no object
    and no version of the bucket is stored. *)
Lemma bucket_scans_empty s path :
  wf_store s → lacks colon path = true →
  (pebbleIter s (objectListPrefix path) = [] ∧ pebbleIter s (versionListPrefix path) = []) ↔
  bucket_empty s path.
Proof.
  intros Hwf Hp. rewrite !pebbleIter_nil. split.
  - intros [Ho Hv]. split.
    + intros k. apply Ho. rewrite objectListPrefix_eq, objectKey_prefix. apply HasPrefix_empty.
    + intros k v. apply Hv, HasPrefix_spec. unfold objectVersionKey, versionListPrefix.
      eexists. by rewrite !app_assoc_str.
  - intros [Ho Hv]. split.
    + intros K (k & -> & _)%objectPrefixKey_inv. apply Ho.
    + intros K HK. destruct (pebbleGet s K) as [v|] eqn:Hg; [|done]. exfalso.
      assert ((K, v) ∈ pebbleIter s (versionListPrefix path)) as Hin by by apply elem_of_pebbleIter.
      apply elem_of_versions in Hin as (o & -> & -> & _); [|done..]. by rewrite Hv in Hg.
Qed.

Lemma add_clamped_spec c d :
  0 ≤ c < 2^63 → is_int64 d →
  add_clamped c d = (if c + d <? 2^63 then Z.max 0 (c + d) else 0) ∧ 0 ≤ add_clamped c d < 2^63.
Proof.
  unfold is_int64. intros Hc Hd. unfold add_clamped.
  destruct (Z.ltb_spec (c + d) (2^63)).
  - rewrite int64_id by (unfold is_int64; lia). destruct (Z.ltb_spec (c + d) 0); lia.
  - assert (int64 (c + d) = c + d - 2^64) as ->.
    { unfold int64. rewrite <-(Z.mod_unique (c + d + 2^63) (2^64) 1 (c + d + 2^63 - 2^64)); lia. }
    destruct (Z.ltb_spec (c + d - 2^64) 0); lia.
Qed.

(** The totals [RecalculateBucketStats] should find. *)
Definition live_objects s path : list ObjectMetadata :=
  List.filter (λ o, negb (is_marker o)) (objects_under s path "").
Definition total_size (objs : list ObjectMetadata) : Z := foldr (λ o acc, om_Size o + acc) 0 objs.

Lemma int64_int64_add z d : int64 (int64 z + d) = int64 (z + d).
Proof.
  unfold int64. f_equal. replace ((z + 2^63) mod 2^64 - 2^63 + d + 2^63) with ((z + 2^63) mod 2^64 + d) by lia.
  rewrite Zplus_mod_idemp_l. f_equal. lia.
Qed.

Lemma recount_objects b objs c t :
  foldl recount_step (int64 c, int64 t) (obj_entry b <$> objs) =
  (int64 (c + Z.of_nat (length (List.filter (λ o, negb (is_marker o)) objs))),
   int64 (t + total_size (List.filter (λ o, negb (is_marker o)) objs))).
Proof.
  revert c t. induction objs as [|o objs IH]; intros c t; [by rewrite !Z.add_0_r|].
  rewrite fmap_cons. cbn [foldl]. unfold recount_step at 2. simpl.
  destruct (is_marker o); simpl; [apply IH|].
  rewrite !int64_int64_add, IH. do 2 f_equal; lia.
Qed.

(** ** Properties *)


(** C20: [DeleteBucketIfEmpty] removes the bucket exactly when it exists and
    none of its objects or versions is stored, says which condition failed
    otherwise, keeps every other entry, marks the path deleted, and its
    effect survives a hard kill. *)
Theorem DeleteBucketIfEmpty_spec s t n :
  wf_store s → lacks colon t = true → lacks colon (bucketPathForMutation t n) = true →
  match DeleteBucketIfEmpty s t n with
  | Ok s' =>
      BucketExists s t n = true ∧ bucket_empty s (bucketPathForMutation t n) ∧
      bucketPathForMutation t n ∈ st_deleted s' ∧
      (∀ s'' K, crash s' s'' → pebbleGet s'' K =
         if decide (K = bucketKey t n) then None else pebbleGet s K)
  | Err e =>
      (e = ErrBucketNotFound ∧ BucketExists s t n = false) ∨
      (e = ErrBucketNotEmpty ∧ BucketExists s t n = true ∧
       ¬ bucket_empty s (bucketPathForMutation t n))
  end.
Proof.
  intros Hwf Ht Hp. unfold DeleteBucketIfEmpty, BucketExists.
  destruct (pebbleGet s (bucketKey t n)) as [v|] eqn:Hg.
  2: { left. split; [done|]. apply bool_decide_eq_false. by intros [? ?]. }
  pose proof (bucket_scans_empty s _ Hwf Hp) as Hempty.
  rewrite (bool_decide_eq_true_2 (is_Some _)) by done.
  destruct (pebbleIter s (objectListPrefix _)) as [|e l] eqn:Eo.
  2: { right. split_and!; [done..|]. by intros [? _]%Hempty. }
  destruct (pebbleIter s (versionListPrefix _)) as [|e l] eqn:Ev.
  2: { right. split_and!; [done..|]. by intros [_ ?]%Hempty. }
  split_and!; [done|by apply Hempty|simpl; set_solver|].
  intros s'' K Hc.
  rewrite (crash_synced _ s'' K (wal_ok_mark _ _ (wal_ok_commitSync s _)) eq_refl Hc).
  rewrite get_mark_deleted, get_commitSync. done.
Qed.


(** C32: [RecalculateBucketStats] sets the counters to the number and the
    total size (as 64-bit sums) of the stored objects of the bucket that are
    not delete markers. *)
Theorem RecalculateBucketStats_spec now s t n s' :
  wf_store s → lacks colon (bucketPathForMutation t n) = true →
  RecalculateBucketStats now s t n = Ok s' →
  let live := live_objects s (bucketPathForMutation t n) in
  GetBucketStats s' t n = Ok (int64 (Z.of_nat (length live)), int64 (total_size live)) ∧
  (∀ k vid b, lacks colon b = true → GetObject s' b k vid = GetObject s b k vid).
Proof.
  intros Hwf Hp. unfold RecalculateBucketStats.
  assert ((if bool_decide (t ≠ "") then t +:+ "/" +:+ n else n) = bucketPathForMutation t n) as ->.
  { unfold bucketPathForMutation. destruct (bool_decide_reflect (t = "")) as [->|H]; [done|].
    by rewrite bool_decide_eq_true_2. }
  rewrite objectListPrefix_eq, scan_objects by done.
  pose proof (recount_objects (bucketPathForMutation t n)
    (objects_under s (bucketPathForMutation t n) "") 0 0) as Hr.
  change (int64 0) with 0 in Hr. rewrite Hr. clear Hr.
  destruct (pebbleGet s (bucketKey t n)) as [[o|b|u|p|]|] eqn:Hg; intros Hrun;
    simpl in Hrun; try discriminate Hrun. injection Hrun as <-. split.
  - unfold GetBucketStats. erewrite GetBucket_stored.
    2: { unfold setNoSync. rewrite get_commitNoSync, get_single_set, decide_True by done. done. }
    done.
  - intros k vid b' Hb'. apply GetObject_same_entry. unfold setNoSync.
    rewrite get_commitNoSync, get_single_set, decide_False; [done|].
    intros E. apply (f_equal family) in E. by destruct (object_ref_family b' k vid) as [H|H]; rewrite H in E.
Qed.

(** [ListBuckets] returns exactly the stored buckets of the tenant (of
    every tenant for the empty tenant ID), each name once. *)
Theorem ListBuckets_spec s t :
  wf_store s → names_unique s → lacks colon t = true →
  (∀ b, b ∈ ListBuckets s t ↔
     pebbleGet s (bucketKey (bm_TenantID b) (bm_Name b)) = Some (VBucket b) ∧ (t = "" ∨ bm_TenantID b = t)) ∧
  NoDup (bm_Name <$> ListBuckets s t).
Proof.
  intros Hwf Hu Ht. unfold ListBuckets.
  set (lower := if bool_decide (t = "") then _ else _).
  assert (∀ K v, (K, v) ∈ pebbleIter s lower → ∃ b, v = VBucket b ∧ pebbleGet s K = Some (VBucket b) ∧
    HasPrefix K lower = true) as Hscan.
  { intros K v [Hg Hl]%elem_of_pebbleIter. assert (family K = "bucket") as Hf.
    { apply bucket_prefix_family. eapply HasPrefix_trans; [exact Hl|]. unfold lower.
      case_bool_decide; [done|]. apply HasPrefix_spec. by eexists. }
    destruct (entry_ok_bucket K v (Hwf _ _ Hg) Hf) as (b & -> & _). eauto. }
  split.
  - intros b. rewrite list_elem_of_omap. split.
    + intros ([K v] & (b' & -> & Hg & Hl)%Hscan & [= ->]).
      destruct (get_bucket_key s K b Hwf Hg) as [-> Htb]. split; [done|].
      unfold lower in Hl. destruct (bool_decide_reflect (t = "")); [by left|right].
      apply HasPrefix_spec in Hl as [u E]. unfold bucketKey, bucketListPrefix in E.
      rewrite !app_assoc_str in E. apply app_inv_head_str in E. rewrite !colon_app in E.
      by apply lacks_split_first in E as [-> _].
    + intros [Hg Hb]. exists (bucketKey (bm_TenantID b) (bm_Name b), VBucket b). split; [|done].
      apply elem_of_pebbleIter. split; [done|]. unfold lower. apply HasPrefix_spec.
      case_bool_decide; [by eexists|]. destruct Hb as [?|<-]; [done|].
      exists (bm_Name b). unfold bucketKey, bucketListPrefix. by rewrite !app_assoc_str.
  - pose proof (pebbleIter_sorted s lower) as Hs. induction Hs as [|[K v] l Hs IH HK]; [constructor|].
    destruct (Hscan K v) as (b & -> & Hg & _); [by left|]. simpl. apply NoDup_cons. split.
    + intros (b' & En & ([K' v'] & Hin & Ev)%list_elem_of_omap)%list_elem_of_fmap.
      destruct (Hscan K' v') as (b'' & -> & Hg' & _); [by right|]. injection Ev as ->.
      rewrite Forall_forall in HK. specialize (HK _ Hin). simpl in HK.
      assert (K' = K) as -> by by apply (Hu _ _ b' b). by rewrite blt_irrefl in HK.
    + apply IH. intros K' v' Hin. apply Hscan. by right.
Qed.
End Buckets.

(** ** Witnesses *)

Definition sample_bucket : BucketMetadata :=
  zero_bucket <| bm_TenantID := "t1" |> <| bm_Name := "photos" |> <| bm_OwnerID := "alice" |>
              <| bm_ObjectCount := 3 |> <| bm_TotalSize := 100 |>.
(** The bucket of [listing_store], created before its objects. *)
Definition bucket_store : Store alist :=
  match CreateBucket 1000000000 listing_store (Some sample_bucket) with
  | Ok (s, _) => s
  | Err _ => listing_store
  end.
Definition empty_bucket_store : Store alist :=
  match CreateBucket 1000000000 store0 (Some sample_bucket) with
  | Ok (s, _) => s
  | Err _ => store0
  end.

Lemma no_bucket_listing K e : pebbleGet listing_store K ≠ Some (VBucket e).
Proof.
  intros H. assert ((K, VBucket e) ∈ pebbleIter listing_store "bucket:") as Hin.
  { apply elem_of_buckets; [apply listing_store_wf|eauto]. }
  assert (pebbleIter listing_store "bucket:" = []) as E by (vm_compute; reflexivity).
  rewrite E in Hin. by apply not_elem_of_nil in Hin.
Qed.

Lemma names_unique_listing : names_unique listing_store.
Proof. intros K1 K2 b1 b2 H. by destruct (no_bucket_listing K1 b1). Qed.


Lemma bucket_store_Ok :
  CreateBucket 1000000000 listing_store (Some sample_bucket) =
  Ok (bucket_store, sample_bucket <| bm_CreatedAt := 1000000000 |> <| bm_UpdatedAt := 1000000000 |>).
Proof. vm_compute. reflexivity. Qed.

Lemma bucket_store_wf : wf_store bucket_store.
Proof.
  assert (lacks colon (bm_TenantID sample_bucket) = true) as Ht by reflexivity.
  exact (wf_CreateBucket _ _ _ _ _ listing_store_wf Ht bucket_store_Ok).
Qed.

Lemma names_unique_bucket_store : names_unique bucket_store.
Proof.
  pose proof bucket_store_Ok as E. apply CreateBucket_Ok in E as (_ & _ & _ & ->); [|apply listing_store_wf].
  eapply (names_unique_set listing_store _ (sample_bucket <| bm_CreatedAt := 1000000000 |>
    <| bm_UpdatedAt := 1000000000 |>)); [apply listing_store_wf| | |apply names_unique_listing].
  - intros K. by rewrite get_unmark_deleted, get_commitSync.
  - intros K e He. by destruct (no_bucket_listing K e).
Qed.

Lemma DeleteBucketIfEmpty_spec_witness :
  (DeleteBucketIfEmpty bucket_store "t1" "photos" = Err ErrBucketNotEmpty ∧
   ¬ bucket_empty bucket_store "t1/photos").
Proof.
  pose proof (DeleteBucketIfEmpty_spec bucket_store "t1" "photos" bucket_store_wf
    ltac:(done) ltac:(done)) as H.
  assert (DeleteBucketIfEmpty bucket_store "t1" "photos" = Err ErrBucketNotEmpty) as E
    by (vm_compute; reflexivity).
  rewrite E in H. split; [exact E|]. destruct H as [[H _]|[_ [_ H]]]; [discriminate H|exact H].
Defined.


Lemma RecalculateBucketStats_spec_witness :
  ∃ s', RecalculateBucketStats 7 sample_store "t1" "photos" = Err (ErrMsg "pebble: not found") ∧
    RecalculateBucketStats 7 bucket_store "t1" "photos" = Ok s' ∧
    GetBucketStats s' "t1" "photos" = Ok (7, 70).
Proof.
  destruct (RecalculateBucketStats 7 bucket_store "t1" "photos") as [s'|e] eqn:E;
    [|vm_compute in E; discriminate E].
  exists s'. split; [vm_compute; reflexivity|]. split; [done|].
  pose proof (RecalculateBucketStats_spec 7 bucket_store "t1" "photos" s' bucket_store_wf
    ltac:(done) E) as [H _].
  rewrite H. vm_compute. reflexivity.
Defined.

Lemma ListBuckets_spec_witness : NoDup (bm_Name <$> ListBuckets bucket_store "").
Proof.
  apply (ListBuckets_spec bucket_store "" bucket_store_wf names_unique_bucket_store). done.
Defined.
