(* ===== verification/Multipart.v ===== *)
(** * Multipart uploads ([internal/metadata/pebble_multipart.go])

    An upload is a record under its ID, an index entry under its bucket, and
    one record per part.  Aborting or completing it removes all three in one
    synced batch; a periodic cleanup aborts the uploads older than seven days.

    The invariant [upload_index_ok] ties the index to the upload records. *)

From S2P Require Import Prelude GoStrings MetaTypes Keys Pebble ObjectStore Listing.
From stdpp Require Import base gmap sets list strings sorting.
From Stdlib Require Import ZArith Lia.
Open Scope Z_scope.

Section Multipart.
Context {DB : Type} `{PB : Pebble DB}.
Implicit Types (s : Store DB) (upload : MultipartUploadMetadata) (part : PartMetadata)
  (obj : ObjectMetadata) (bucket uploadID : string).

(** ** Operations *)

Definition CreateMultipartUpload (now : time) s (upload : option MultipartUploadMetadata)
  : result StoreError (Store DB * MultipartUploadMetadata) :=
  match upload with
  | None => Err (ErrMsg "multipart upload metadata cannot be nil")
  | Some upload =>
      if bool_decide (mu_UploadID upload = "") then Err (ErrMsg "upload ID is required")
      else
        let upload := if IsZero (mu_Initiated upload) then upload <| mu_Initiated := now |> else upload in
        Ok (commitNoSync s [BSet (multipartUploadKey (mu_UploadID upload)) (VUpload upload);
                            BSet (multipartIndexKey (mu_Bucket upload) (mu_UploadID upload)) VEmpty], upload)
  end.

Definition GetMultipartUpload s uploadID : result StoreError MultipartUploadMetadata :=
  match pebbleGet s (multipartUploadKey uploadID) with
  | None => Err ErrUploadNotFound
  | Some data =>
      match unmarshal_upload data with
      | None => Err (ErrMsg "failed to unmarshal multipart upload")
      | Some upload => Ok upload
      end
  end.

Fixpoint uploads_loop s (lower prefix : string) (maxUploads count : Z)
    (uploads : list MultipartUploadMetadata) (l : list entry) : list MultipartUploadMetadata :=
  match l with
  | [] => uploads
  | (K, _) :: l =>
      if maxUploads <=? count then uploads
      else
        match GetMultipartUpload s (s_from (len lower) K) with
        | Err _ => uploads_loop s lower prefix maxUploads count uploads l
        | Ok upload =>
            if bool_decide (prefix ≠ "") && negb (hasPrefix (mu_Key upload) prefix)
            then uploads_loop s lower prefix maxUploads count uploads l
            else uploads_loop s lower prefix maxUploads (count + 1) (uploads ++ [upload]) l
        end
  end.

Definition newest_upload (u v : MultipartUploadMetadata) : bool := After (mu_Initiated u) (mu_Initiated v).

Definition ListMultipartUploads s bucket (prefix : string) (maxUploads : Z) : list MultipartUploadMetadata :=
  let maxUploads := default_max maxUploads in
  let lower := multipartListPrefix bucket in
  sort_slice newest_upload (uploads_loop s lower prefix maxUploads 0 [] (pebbleIter s lower)).

(** The keys collected by the loop over the parts, as deletes of the batch,
    then the index entry and the upload record. *)
Definition remove_upload_ops s bucket uploadID : list BatchOp :=
  ((λ e : entry, BDelete e.1) <$> pebbleIter s (partListPrefix uploadID)) ++
  [BDelete (multipartIndexKey bucket uploadID); BDelete (multipartUploadKey uploadID)].

Definition AbortMultipartUpload s uploadID : result StoreError (Store DB) :=
  try upload := GetMultipartUpload s uploadID in
  Ok (commitSync s (remove_upload_ops s (mu_Bucket upload) uploadID)).

Definition CompleteMultipartUpload (now : time) s uploadID obj : result StoreError (Store DB * ObjectMetadata) :=
  try upload := GetMultipartUpload s uploadID in
  let obj := if IsZero (om_CreatedAt obj) then obj <| om_CreatedAt := now |> else obj in
  let obj := obj <| om_UpdatedAt := now |> <| om_LastModified := now |> in
  try _ := rejectWriteToDeletedBucket s (om_Bucket obj) in
  Ok (commitSync s (BSet (objectKey (om_Bucket obj) (om_Key obj)) (VObject obj) ::
                    remove_upload_ops s (mu_Bucket upload) uploadID), obj).

Definition PutPart (now : time) s (part : option PartMetadata) : result StoreError (Store DB * PartMetadata) :=
  match part with
  | None => Err (ErrMsg "part metadata cannot be nil")
  | Some part =>
      if bool_decide (pm_UploadID part = "") || (pm_PartNumber part <=? 0)
      then Err (ErrMsg "invalid part metadata")
      else
        match pebbleGet s (multipartUploadKey (pm_UploadID part)) with
        | None => Err ErrUploadNotFound
        | Some _ =>
            let part := if IsZero (pm_LastModified part) then part <| pm_LastModified := now |> else part in
            Ok (setNoSync s (partKey (pm_UploadID part) (pm_PartNumber part)) (VPart part), part)
        end
  end.

Definition GetPart s uploadID (partNumber : Z) : result StoreError PartMetadata :=
  match pebbleGet s (partKey uploadID partNumber) with
  | None => Err ErrPartNotFound
  | Some data =>
      match unmarshal_part data with
      | None => Err (ErrMsg "failed to unmarshal part")
      | Some part => Ok part
      end
  end.

Definition lower_part (p q : PartMetadata) : bool := pm_PartNumber p <? pm_PartNumber q.

Definition ListParts s uploadID : list PartMetadata :=
  sort_slice lower_part (omap (λ e, unmarshal_part e.2) (pebbleIter s (partListPrefix uploadID))).

(** [for i := len(s)-1; i >= 0; i--] looking for the separator. *)
Fixpoint last_colon (i : nat) (str : string) : option nat :=
  match i with
  | O => None
  | S i => if bool_decide (String.get i str = Some colon) then Some i else last_colon i str
  end.

Definition stale_upload s (cutoff : time) (e : entry) : option string :=
  let keySuffix := s_from (len "multipart_idx:") e.1 in
  match last_colon (len keySuffix) keySuffix with
  | None => None
  | Some colonIdx =>
      let uploadID := s_from (colonIdx + 1) keySuffix in
      match GetMultipartUpload s uploadID with
      | Err _ => None
      | Ok upload => if Before (mu_Initiated upload) cutoff then Some uploadID else None
      end
  end.

Definition abort_if_present s uploadID : Store DB :=
  match AbortMultipartUpload s uploadID with Ok s' => s' | Err _ => s end.

Definition cleanupStaleMultipartUploads (now : time) s : Store DB :=
  let cutoff := now - 7 * 24 * 3600 * second in
  foldl abort_if_present s (omap (stale_upload s cutoff) (pebbleIter s "multipart_idx:")).

(** ** Invariant *)

Definition upload_index_ok s : Prop :=
  ∀ b u, lacks colon b = true →
    is_Some (pebbleGet s (multipartIndexKey b u)) ↔
    ∃ upl, pebbleGet s (multipartUploadKey u) = Some (VUpload upl) ∧ mu_Bucket upl = b.

Context `{PL : !PebbleLaws DB}.

Lemma entry_ok_upload K v : entry_ok K v → family K = "multipart" →
  ∃ u, v = VUpload u ∧ K = multipartUploadKey (mu_UploadID u) ∧ lacks colon (mu_UploadID u) = true ∧
    lacks colon (mu_Bucket u) = true.
Proof.
  destruct v as [o|b|u|p|]; simpl.
  - by intros [_ [->| ->]].
  - by intros [-> _].
  - intros (-> & ? & ?) _. by exists u.
  - by intros [-> _].
  - by intros [->| ->].
Qed.

Lemma entry_ok_part K v : entry_ok K v → family K = "part" →
  ∃ p, v = VPart p ∧ K = partKey (pm_UploadID p) (pm_PartNumber p) ∧ 0 < pm_PartNumber p ∧
    lacks colon (pm_UploadID p) = true.
Proof.
  destruct v as [o|b|u|p|]; simpl.
  - by intros [_ [->| ->]].
  - by intros [-> _].
  - by intros [-> _].
  - intros (-> & ? & ?) _. by exists p.
  - by intros [->| ->].
Qed.

Lemma part_prefix_family u K : HasPrefix K (partListPrefix u) = true → family K = "part".
Proof. intros [t ->]%HasPrefix_spec. done. Qed.

(** The scan over the parts of an upload. *)
Lemma elem_of_parts s u K v :
  wf_store s → lacks colon u = true →
  (K, v) ∈ pebbleIter s (partListPrefix u) ↔
  ∃ p, v = VPart p ∧ K = partKey u (pm_PartNumber p) ∧ pm_UploadID p = u ∧ 0 < pm_PartNumber p ∧
    pebbleGet s K = Some (VPart p).
Proof.
  intros Hwf Hu. rewrite elem_of_pebbleIter. split.
  - intros [Hg HP]. pose proof (part_prefix_family u K HP) as Hf.
    destruct (entry_ok_part K v (Hwf _ _ Hg) Hf) as (p & -> & E & Hn & Hp).
    apply HasPrefix_spec in HP as [t Ht]. rewrite E in Ht. unfold partKey, partListPrefix in Ht.
    rewrite !app_assoc_str in Ht. apply app_inv_head_str in Ht. rewrite !colon_app in Ht.
    apply lacks_split_first in Ht as [<- _]; [|done..]. by exists p.
  - intros (p & -> & -> & _ & _ & Hg). split; [done|]. apply HasPrefix_spec.
    unfold partKey, partListPrefix. eexists. by rewrite !app_assoc_str.
Qed.

Lemma get_remove_upload s b u K :
  wf_store s → lacks colon u = true →
  batch_effect (remove_upload_ops s b u) K (pebbleGet s K) =
  if decide (HasPrefix K (partListPrefix u) = true ∨ K = multipartIndexKey b u ∨ K = multipartUploadKey u)
  then None else pebbleGet s K.
Proof.
  intros Hwf Hu. unfold remove_upload_ops.
  rewrite batch_effect_app, (batch_effect_deletes (λ e : entry, e.1)). cbn -[decide].
  destruct (decide (HasPrefix K (partListPrefix u) = true ∨ _)) as [Hd|Hd].
  - repeat case_decide; try done. destruct Hd as [HP|[?|?]]; try done.
    destruct (pebbleGet s K) as [v|] eqn:Hg; [|done]. exfalso.
    match goal with Hn : K ∉ _ |- _ => apply Hn end. apply list_elem_of_fmap. exists (K, v).
    split; [done|]. by apply elem_of_pebbleIter.
  - rewrite (decide_False (P := K = multipartUploadKey u)) by tauto.
    rewrite (decide_False (P := K = multipartIndexKey b u)) by tauto.
    case_decide as Hin; [|done]. exfalso. apply Hd. left.
    apply list_elem_of_fmap in Hin as ([K' v] & -> & Hin). by apply elem_of_pebbleIter in Hin as [_ ?].
Qed.

Lemma wf_remove_ops s b u : ops_ok (remove_upload_ops s b u).
Proof.
  apply ops_ok_app; [apply (ops_ok_deletes (λ e : entry, e.1))|].
  apply ops_ok_delete, ops_ok_delete, ops_ok_nil.
Qed.

Lemma GetMultipartUpload_Ok s u upl :
  GetMultipartUpload s u = Ok upl ↔ pebbleGet s (multipartUploadKey u) = Some (VUpload upl).
Proof.
  unfold GetMultipartUpload. destruct (pebbleGet s _) as [[o|b|u'|p|]|]; simpl; split; try done;
    by intros [= ->].
Qed.

Lemma upload_at s u upl :
  wf_store s → pebbleGet s (multipartUploadKey u) = Some (VUpload upl) →
  mu_UploadID upl = u ∧ lacks colon u = true ∧ lacks colon (mu_Bucket upl) = true.
Proof.
  intros Hwf Hg. destruct (entry_ok_upload _ _ (Hwf _ _ Hg) eq_refl) as (u' & [= <-] & E & H1 & H2).
  apply multipartUploadKey_inj in E as ->. done.
Qed.

Lemma GetMultipartUpload_missing s u e :
  wf_store s → GetMultipartUpload s u = Err e → e = ErrUploadNotFound ∧ pebbleGet s (multipartUploadKey u) = None.
Proof.
  intros Hwf. unfold GetMultipartUpload. destruct (pebbleGet s _) as [v|] eqn:Hg; [|by intros [= <-]].
  destruct (entry_ok_upload _ _ (Hwf _ _ Hg) eq_refl) as (u' & -> & _). done.
Qed.

Lemma AbortMultipartUpload_Ok s u s' :
  AbortMultipartUpload s u = Ok s' ↔
  ∃ upl, pebbleGet s (multipartUploadKey u) = Some (VUpload upl) ∧
    s' = commitSync s (remove_upload_ops s (mu_Bucket upl) u).
Proof.
  unfold AbortMultipartUpload. destruct (GetMultipartUpload s u) as [upl|e] eqn:E; simpl.
  - apply GetMultipartUpload_Ok in E. rewrite E. split; [intros [= <-]; eauto|].
    by intros (? & [= <-] & ->).
  - split; [done|]. intros (upl & Hg & _). apply GetMultipartUpload_Ok in Hg. congruence.
Qed.

Lemma wf_Abort s u s' : wf_store s → AbortMultipartUpload s u = Ok s' → wf_store s'.
Proof.
  intros Hwf (upl & _ & ->)%AbortMultipartUpload_Ok. apply wf_commitSync; [done|apply wf_remove_ops].
Qed.

(** Every entry after an abort. *)
Lemma get_Abort s u upl K :
  wf_store s → pebbleGet s (multipartUploadKey u) = Some (VUpload upl) →
  pebbleGet (commitSync s (remove_upload_ops s (mu_Bucket upl) u)) K =
  if decide (HasPrefix K (partListPrefix u) = true ∨ K = multipartIndexKey (mu_Bucket upl) u ∨
             K = multipartUploadKey u)
  then None else pebbleGet s K.
Proof.
  intros Hwf Hg. destruct (upload_at s u upl Hwf Hg) as (_ & Hu & _).
  rewrite get_commitSync. by apply get_remove_upload.
Qed.

Lemma partKey_prefix u n : HasPrefix (partKey u n) (partListPrefix u) = true.
Proof.
  apply HasPrefix_spec. exists (fmt_05d n). unfold partKey, partListPrefix. by rewrite !app_assoc_str.
Qed.

Lemma partKey_prefix_inv u u' n :
  lacks colon u = true → lacks colon u' = true → HasPrefix (partKey u' n) (partListPrefix u) = true → u' = u.
Proof.
  intros Hu Hu' [t Ht]%HasPrefix_spec. unfold partKey, partListPrefix in Ht. rewrite !app_assoc_str in Ht.
  apply app_inv_head_str in Ht. rewrite !colon_app in Ht.
  by apply lacks_split_first in Ht as [-> _].
Qed.

Lemma not_part_key K u : family K ≠ "part" → HasPrefix K (partListPrefix u) = false.
Proof. intros HK. destruct (HasPrefix K _) eqn:E; [|done]. by apply part_prefix_family in E. Qed.

(** *** Last separator *)

Lemma last_colon_spec i (str : string) :
  match last_colon i str with
  | Some j => (j < i)%nat ∧ String.get j str = Some colon ∧
      ∀ k, (j < k < i)%nat → String.get k str ≠ Some colon
  | None => ∀ k, (k < i)%nat → String.get k str ≠ Some colon
  end.
Proof.
  induction i as [|i IH]; simpl; [intros k; lia|]. case_bool_decide as E.
  - split_and!; [lia|done|intros k; lia].
  - destruct (last_colon i str) as [j|].
    + destruct IH as (H1 & H2 & H3). split_and!; [lia|done|]. intros k Hk.
      destruct (decide (k = i)) as [->|]; [done|apply H3; lia].
    + intros k Hk. destruct (decide (k = i)) as [->|]; [done|apply IH; lia].
Qed.

Lemma get_app_right (b t : string) n : String.get (len b + n) (b +:+ t) = String.get n t.
Proof. induction b as [|a b IH]; [done|]. rewrite app_cons_str. simpl. apply IH. Qed.

Lemma lacks_get c t n : lacks c t = true → String.get n t ≠ Some c.
Proof.
  revert n. induction t as [|a t IH]; intros n; [by destruct n|].
  rewrite lacks_cons. intros [Ha Ht]. destruct n as [|n]; simpl; [congruence|by apply IH].
Qed.

Lemma last_colon_app b u :
  lacks colon u = true → last_colon (len (b +:+ ":" +:+ u)) (b +:+ ":" +:+ u) = Some (len b).
Proof.
  intros Hu. pose proof (last_colon_spec (len (b +:+ ":" +:+ u)) (b +:+ ":" +:+ u)) as H.
  assert (String.get (len b) (b +:+ ":" +:+ u) = Some colon) as Hat.
  { rewrite <-(Nat.add_0_r (len b)) at 1. by rewrite get_app_right. }
  assert (∀ k, (len b < k)%nat → String.get k (b +:+ ":" +:+ u) ≠ Some colon) as Hafter.
  { intros k Hk. replace k with (len b + S (k - len b - 1))%nat by lia. rewrite get_app_right.
    change (String.get (k - len b - 1) u ≠ Some colon). by apply lacks_get. }
  assert (len b < len (b +:+ ":" +:+ u))%nat as Hlen.
  { rewrite !length_app_str. simpl. lia. }
  destruct (last_colon _ _) as [j|]; [|by destruct (H _ Hlen)].
  destruct H as (H1 & H2 & H3). destruct (lt_eq_lt_dec j (len b)) as [[Hlt| ->]|Hgt]; [|done|].
  - by destruct (H3 (len b)).
  - by destruct (Hafter j).
Qed.

Lemma stale_upload_spec s cutoff b u v :
  lacks colon u = true →
  stale_upload s cutoff (multipartIndexKey b u, v) =
  match pebbleGet s (multipartUploadKey u) with
  | Some (VUpload upl) => if Before (mu_Initiated upl) cutoff then Some u else None
  | _ => None
  end.
Proof.
  intros Hu. unfold stale_upload. cbn [fst].
  change (s_from (len "multipart_idx:") (multipartIndexKey b u)) with (s_from 0 (b +:+ ":" +:+ u)).
  rewrite s_from_0, last_colon_app by done.
  replace (s_from (len b + 1) (b +:+ ":" +:+ u)) with u.
  - unfold GetMultipartUpload. by destruct (pebbleGet s _) as [[| | | |]|].
  - rewrite <-app_assoc_str. replace (len b + 1)%nat with (len (b +:+ ":")) by (by rewrite length_app_str).
    by rewrite s_from_app.
Qed.

(** What a stale entry of the scan names is a stored, old upload. *)
Lemma stale_upload_Some s cutoff e u :
  stale_upload s cutoff e = Some u →
  ∃ upl, pebbleGet s (multipartUploadKey u) = Some (VUpload upl) ∧ mu_Initiated upl < cutoff.
Proof.
  unfold stale_upload. destruct (last_colon _ _) as [j|]; [|done].
  destruct (GetMultipartUpload s _) as [upl|] eqn:E; [|done].
  destruct (Before _ _) eqn:Hb; [|done]. intros [= <-]. apply GetMultipartUpload_Ok in E.
  exists upl. split; [done|]. unfold Before in Hb. lia.
Qed.

(** *** Aborting a list of uploads *)

Definition removed s (ids : list string) (K : string) : Prop :=
  ∃ u upl, u ∈ ids ∧ pebbleGet s (multipartUploadKey u) = Some (VUpload upl) ∧
    (HasPrefix K (partListPrefix u) = true ∨ K = multipartIndexKey (mu_Bucket upl) u ∨ K = multipartUploadKey u).

Lemma abort_all ids s :
  wf_store s →
  wf_store (foldl abort_if_present s ids) ∧
  ∀ K, (removed s ids K → pebbleGet (foldl abort_if_present s ids) K = None) ∧
       (¬ removed s ids K → pebbleGet (foldl abort_if_present s ids) K = pebbleGet s K).
Proof.
  revert s. induction ids as [|u ids IH]; intros s Hwf.
  { split; [done|]. intros K. split; [|done]. by intros (u & _ & ?%not_elem_of_nil & _). }
  simpl. unfold abort_if_present at 2 4 6. destruct (AbortMultipartUpload s u) as [s1|e] eqn:E.
  - pose proof (wf_Abort _ _ _ Hwf E) as Hwf1. destruct (IH s1 Hwf1) as [Hwf' Hget].
    split; [done|]. apply AbortMultipartUpload_Ok in E as (upl & Hu & Es1).
    assert (∀ K, pebbleGet s1 K = if decide (HasPrefix K (partListPrefix u) = true ∨
      K = multipartIndexKey (mu_Bucket upl) u ∨ K = multipartUploadKey u) then None else pebbleGet s K) as H1.
    { intros K. rewrite Es1. by apply get_Abort. }
    assert (∀ u', u' ≠ u → pebbleGet s1 (multipartUploadKey u') = pebbleGet s (multipartUploadKey u')) as Hother.
    { intros u' Hne. rewrite H1, decide_False; [done|]. rewrite not_part_key by done.
      intros [?|[?|?%multipartUploadKey_inj]]; done. }
    intros K. destruct (Hget K) as [Hr Hnr]. split.
    + intros (u' & upl' & Hin & Hu' & HK). destruct (decide (u' = u)) as [->|Hne].
      * rewrite Hu in Hu'. injection Hu' as <-.
        assert (pebbleGet s1 K = None) as Hnone by by rewrite H1, decide_True.
        destruct (decide (pebbleGet (foldl abort_if_present s1 ids) K = None)) as [?|Hn]; [done|].
        rewrite Hnr; [done|]. intros Hrem. by apply Hn, Hr.
      * apply Hr. exists u', upl'. rewrite Hother by done. split_and!; [set_solver|done..].
    + intros Hnot. rewrite Hnr, H1, decide_False; [done| |].
      * intros HK. apply Hnot. exists u, upl. split_and!; [set_solver|done..].
      * intros (u' & upl' & Hin & Hu' & HK). destruct (decide (u' = u)) as [->|Hne].
        { rewrite H1, decide_True in Hu' by tauto. done. }
        rewrite Hother in Hu' by done. apply Hnot. exists u', upl'. split_and!; [set_solver|done..].
  - destruct (IH s Hwf) as [Hwf' Hget]. split; [done|].
    unfold AbortMultipartUpload in E. destruct (GetMultipartUpload s u) as [?|e'] eqn:Eg; [done|].
    apply GetMultipartUpload_missing in Eg as [_ Hnone]; [|done].
    intros K. destruct (Hget K) as [Hr Hnr]. split.
    + intros (u' & upl' & Hin & Hu' & HK). apply Hr. exists u', upl'.
      apply elem_of_cons in Hin as [->|Hin]; [congruence|done].
    + intros Hnot. apply Hnr. intros (u' & upl' & Hin & Hrest). apply Hnot. exists u', upl'.
      split; [set_solver|done].
Qed.

(** *** Parts *)

Lemma GetPart_Ok s u n p : GetPart s u n = Ok p ↔ pebbleGet s (partKey u n) = Some (VPart p).
Proof.
  unfold GetPart. destruct (pebbleGet s _) as [[| | |q|]|]; simpl; split; try done; by intros [= ->].
Qed.

Lemma elem_of_ListParts s u p :
  wf_store s → lacks colon u = true →
  p ∈ ListParts s u ↔ GetPart s u (pm_PartNumber p) = Ok p ∧ pm_UploadID p = u ∧ 0 < pm_PartNumber p.
Proof.
  intros Hwf Hu. unfold ListParts. rewrite elem_of_sort_slice, list_elem_of_omap, GetPart_Ok. split.
  - intros ([K v] & Hin & Hv). apply elem_of_parts in Hin as (q & -> & -> & Eu & Hn & Hg); [|done..].
    simpl in Hv. by injection Hv as ->.
  - intros (Hg & Hpu & Hn). exists (partKey u (pm_PartNumber p), VPart p). split; [|done].
    apply elem_of_parts; [done..|]. by exists p.
Qed.

Lemma ListParts_ext s s' u :
  (∀ K, HasPrefix K (partListPrefix u) = true → pebbleGet s' K = pebbleGet s K) → ListParts s' u = ListParts s u.
Proof. intros H. unfold ListParts. by rewrite (pebbleIter_ext s s'). Qed.

Lemma ListParts_nil s u :
  (∀ K, HasPrefix K (partListPrefix u) = true → pebbleGet s K = None) → ListParts s u = [].
Proof. intros H. unfold ListParts. by rewrite (proj2 (pebbleIter_nil s _) H). Qed.

#[local] Instance lower_part_strict : StrictWeak lower_part.
Proof. split; intros p q; unfold lower_part; [|intros r]; lia. Qed.
#[local] Instance newest_upload_strict : StrictWeak newest_upload.
Proof. split; intros p q; unfold newest_upload, After; [|intros r]; lia. Qed.

Lemma ListParts_NoDup s u :
  wf_store s → lacks colon u = true → NoDup (pm_PartNumber <$> ListParts s u).
Proof.
  intros Hwf Hu. unfold ListParts. rewrite (sort_slice_perm lower_part).
  pose proof (pebbleIter_sorted s (partListPrefix u)) as Hs.
  assert (∀ K v, (K, v) ∈ pebbleIter s (partListPrefix u) → ∃ p, v = VPart p ∧ K = partKey u (pm_PartNumber p)) as Hp.
  { intros K v (p & -> & -> & _)%elem_of_parts; eauto. }
  induction Hs as [|[K v] l Hs IH HK]; [constructor|].
  destruct (Hp K v) as (p & -> & ->); [by left|]. simpl. apply NoDup_cons. split.
  - intros (q & En & ([K' v'] & Hin & Hv)%list_elem_of_omap)%list_elem_of_fmap.
    destruct (Hp K' v') as (q' & -> & ->); [by right|]. simpl in Hv. injection Hv as ->.
    rewrite Forall_forall in HK. specialize (HK _ Hin). simpl in HK. rewrite En in HK.
    by rewrite blt_irrefl in HK.
  - apply IH. intros K' v' Hin. apply Hp. by right.
Qed.

Lemma PutPart_Ok now s p s' p' :
  PutPart now s (Some p) = Ok (s', p') ↔
  pm_UploadID p ≠ "" ∧ 0 < pm_PartNumber p ∧ is_Some (pebbleGet s (multipartUploadKey (pm_UploadID p))) ∧
  p' = (if IsZero (pm_LastModified p) then p <| pm_LastModified := now |> else p) ∧
  s' = setNoSync s (partKey (pm_UploadID p) (pm_PartNumber p)) (VPart p').
Proof.
  unfold PutPart. case_bool_decide as Hu; simpl; [split; [done|by intros [? _]]|].
  destruct (Z.leb_spec (pm_PartNumber p) 0); [split; [done|by intros (_ & ? & _); lia]|].
  destruct (pebbleGet s _); [|split; [done|by intros (_ & _ & [? ?] & _)]].
  destruct (IsZero (pm_LastModified p)); simpl; split;
    first [ intros [= <- <-]; split_and!; eauto | by intros (_ & _ & _ & -> & ->) ].
Qed.

Lemma wf_PutPart now s p s' p' :
  wf_store s → lacks colon (pm_UploadID p) = true → PutPart now s (Some p) = Ok (s', p') → wf_store s'.
Proof.
  intros Hwf Hu (_ & Hn & _ & -> & ->)%PutPart_Ok. apply wf_commitNoSync; [done|].
  apply ops_ok_set, ops_ok_nil. by destruct (IsZero _).
Qed.

Lemma CreateMultipartUpload_Ok now s u s' u' :
  CreateMultipartUpload now s (Some u) = Ok (s', u') ↔
  mu_UploadID u ≠ "" ∧ u' = (if IsZero (mu_Initiated u) then u <| mu_Initiated := now |> else u) ∧
  s' = commitNoSync s [BSet (multipartUploadKey (mu_UploadID u)) (VUpload u');
                       BSet (multipartIndexKey (mu_Bucket u) (mu_UploadID u)) VEmpty].
Proof.
  unfold CreateMultipartUpload. case_bool_decide as Hu; [split; [done|by intros [? _]]|].
  destruct (IsZero (mu_Initiated u)); simpl; split;
    first [ intros [= <- <-]; done | by intros (_ & -> & ->) ].
Qed.

Lemma wf_Create now s u s' u' :
  wf_store s → lacks colon (mu_UploadID u) = true → lacks colon (mu_Bucket u) = true →
  CreateMultipartUpload now s (Some u) = Ok (s', u') → wf_store s'.
Proof.
  intros Hwf H1 H2 (_ & -> & ->)%CreateMultipartUpload_Ok. apply wf_commitNoSync; [done|].
  apply ops_ok_set; [by destruct (IsZero _)|]. apply ops_ok_set, ops_ok_nil. by right.
Qed.

Lemma CompleteMultipartUpload_Ok now s u o s' o' :
  CompleteMultipartUpload now s u o = Ok (s', o') ↔
  ∃ upl, pebbleGet s (multipartUploadKey u) = Some (VUpload upl) ∧ om_Bucket o ∉ st_deleted s ∧
    o' = (if IsZero (om_CreatedAt o) then o <| om_CreatedAt := now |> else o)
           <| om_UpdatedAt := now |> <| om_LastModified := now |> ∧
    s' = commitSync s (BSet (objectKey (om_Bucket o) (om_Key o)) (VObject o') ::
                       remove_upload_ops s (mu_Bucket upl) u).
Proof.
  unfold CompleteMultipartUpload, rejectWriteToDeletedBucket.
  destruct (GetMultipartUpload s u) as [upl|e] eqn:E.
  - apply GetMultipartUpload_Ok in E. rewrite E. cbn [bind_result].
    destruct (IsZero (om_CreatedAt o)); cbv zeta; change (om_Bucket (_ <| om_LastModified := now |>)) with (om_Bucket o);
      case_bool_decide as Hd; simpl; split;
      first [ by intros [= <- <-]; exists upl | by intros (? & [= <-] & ? & -> & ->) | done ].
  - split; [done|]. intros (upl & Hg & _). apply GetMultipartUpload_Ok in Hg. congruence.
Qed.

Lemma wf_Complete now s u o s' o' :
  wf_store s → valid_names o → CompleteMultipartUpload now s u o = Ok (s', o') → wf_store s'.
Proof.
  intros Hwf Hn (upl & _ & _ & -> & ->)%CompleteMultipartUpload_Ok. apply wf_commitSync; [done|].
  apply ops_ok_set; [|apply wf_remove_ops]. destruct (IsZero (om_CreatedAt o)); by split; [|left].
Qed.

(** *** The index *)

(** Removing one upload removes its index entry. *)
Lemma upload_index_removed s s' u upl :
  wf_store s → upload_index_ok s → pebbleGet s (multipartUploadKey u) = Some (VUpload upl) →
  (∀ K, family K = "multipart" ∨ family K = "multipart_idx" → pebbleGet s' K =
     if decide (K = multipartIndexKey (mu_Bucket upl) u ∨ K = multipartUploadKey u) then None else pebbleGet s K) →
  upload_index_ok s'.
Proof.
  intros Hwf Hix Hg Hget b u' Hb. destruct (upload_at s u upl Hwf Hg) as (_ & Hu & Hbu).
  rewrite !Hget by auto. destruct (decide (u' = u)) as [->|Hne].
  - rewrite (decide_True _ _ (P := multipartUploadKey u = _ ∨ _)) by auto.
    split; [|by intros (? & ? & _)]. case_decide as Hd; [by intros [? ?]|]. intros His. exfalso.
    apply Hix in His as (upl' & Hg' & <-); [|done]. rewrite Hg in Hg'. injection Hg' as <-. tauto.
  - rewrite !decide_False; [by apply Hix| |].
    + intros [E|E]; [by apply (f_equal family) in E|by apply multipartUploadKey_inj in E].
    + intros [E|E]; [by apply multipartIndexKey_inj in E as [_ ?]|by apply (f_equal family) in E].
Qed.

Lemma upload_index_Abort s u s' :
  wf_store s → upload_index_ok s → AbortMultipartUpload s u = Ok s' → upload_index_ok s'.
Proof.
  intros Hwf Hix (upl & Hg & ->)%AbortMultipartUpload_Ok. apply (upload_index_removed s _ u upl); try done.
  intros K HK. rewrite get_Abort by done.
  assert (HasPrefix K (partListPrefix u) = false) as -> by (apply not_part_key; destruct HK as [->| ->]; done).
  repeat case_decide; naive_solver.
Qed.

Lemma upload_index_abort_all ids s :
  wf_store s → upload_index_ok s → upload_index_ok (foldl abort_if_present s ids).
Proof.
  revert s. induction ids as [|u ids IH]; intros s Hwf Hix; [done|]. simpl.
  unfold abort_if_present at 2. destruct (AbortMultipartUpload s u) as [s1|e] eqn:E; [|by apply IH].
  apply IH; [by eapply wf_Abort|by eapply upload_index_Abort].
Qed.

Lemma upload_index_Create now s u s' u' :
  upload_index_ok s → lacks colon (mu_Bucket u) = true →
  pebbleGet s (multipartUploadKey (mu_UploadID u)) = None →
  CreateMultipartUpload now s (Some u) = Ok (s', u') → upload_index_ok s'.
Proof.
  intros Hix Hb0 Hnone (_ & Eu & ->)%CreateMultipartUpload_Ok b v Hb.
  assert (mu_Bucket u' = mu_Bucket u) as Eb by (rewrite Eu; by destruct (IsZero _)).
  rewrite !get_commitNoSync. cbn -[decide]. destruct (decide (v = mu_UploadID u)) as [->|Hne].
  - rewrite (decide_False (P := multipartUploadKey _ = multipartIndexKey _ _)) by key_ne.
    rewrite (decide_True (P := multipartUploadKey _ = multipartUploadKey _)) by done.
    rewrite (decide_False (P := multipartIndexKey _ _ = multipartUploadKey _)) by key_ne.
    specialize (Hix b (mu_UploadID u) Hb). rewrite Hnone in Hix. split.
    + intros His. exists u'. split; [done|]. case_decide as Hd.
      * apply multipartIndexKey_inj in Hd as [-> _]; done.
      * by apply Hix in His as (? & ? & _).
    + intros (upl & [= <-] & <-). rewrite Eb. by rewrite decide_True.
  - rewrite (decide_False (P := multipartUploadKey _ = multipartIndexKey _ _)) by key_ne.
    rewrite (decide_False (P := multipartUploadKey _ = multipartUploadKey _))
      by (by intros ?%multipartUploadKey_inj).
    rewrite (decide_False (P := multipartIndexKey _ _ = multipartUploadKey _)) by key_ne.
    rewrite (decide_False (P := multipartIndexKey _ _ = multipartIndexKey _ _)); [by apply Hix|].
    intros E. by apply multipartIndexKey_inj in E as [_ ?].
Qed.

(** Nothing of the upload is left. *)
Definition upload_gone s bucket uploadID : Prop :=
  GetMultipartUpload s uploadID = Err ErrUploadNotFound ∧ ListParts s uploadID = [] ∧
  (∀ n, GetPart s uploadID n = Err ErrPartNotFound) ∧
  pebbleGet s (multipartIndexKey bucket uploadID) = None.

Lemma upload_gone_intro s b u :
  (∀ K, HasPrefix K (partListPrefix u) = true ∨ K = multipartIndexKey b u ∨ K = multipartUploadKey u →
     pebbleGet s K = None) → upload_gone s b u.
Proof.
  intros H. split_and!.
  - unfold GetMultipartUpload. rewrite H; auto.
  - apply ListParts_nil. auto.
  - intros n. unfold GetPart. rewrite H; [done|]. left. apply partKey_prefix.
  - apply H. auto.
Qed.

(** Another upload, with its parts, as it was. *)
Definition upload_kept s s' uploadID : Prop :=
  GetMultipartUpload s' uploadID = GetMultipartUpload s uploadID ∧
  ListParts s' uploadID = ListParts s uploadID.

Lemma upload_kept_intro s s' u :
  pebbleGet s' (multipartUploadKey u) = pebbleGet s (multipartUploadKey u) →
  (∀ K, HasPrefix K (partListPrefix u) = true → pebbleGet s' K = pebbleGet s K) → upload_kept s s' u.
Proof. intros H1 H2. split; [unfold GetMultipartUpload; by rewrite H1|by apply ListParts_ext]. Qed.

(** A key is under the part prefixes of two uploads only if they are the same. *)
Lemma part_prefix_same u u' K :
  lacks colon u = true → lacks colon u' = true →
  HasPrefix K (partListPrefix u) = true → HasPrefix K (partListPrefix u') = true → u' = u.
Proof.
  intros Hu Hu' [t ->]%HasPrefix_spec [t' Ht]%HasPrefix_spec. unfold partListPrefix in Ht.
  rewrite !app_assoc_str in Ht. apply app_inv_head_str in Ht. rewrite !colon_app in Ht.
  by apply lacks_split_first in Ht as [-> _].
Qed.

Lemma removed_other_upload b u u' K :
  lacks colon u = true → lacks colon u' = true → u' ≠ u →
  HasPrefix K (partListPrefix u') = true ∨ K = multipartUploadKey u' →
  ¬ (HasPrefix K (partListPrefix u) = true ∨ K = multipartIndexKey b u ∨ K = multipartUploadKey u).
Proof.
  intros Hu Hu' Hne [HK| ->] [HK'|[HK'|HK']].
  - by apply Hne, (part_prefix_same u u' K).
  - apply part_prefix_family in HK. by rewrite HK' in HK.
  - apply part_prefix_family in HK. by rewrite HK' in HK.
  - by apply part_prefix_family in HK'.
  - by apply (f_equal family) in HK'.
  - by apply multipartUploadKey_inj in HK'.
Qed.

Lemma object_not_upload b u b' k vid :
  ¬ (HasPrefix (object_ref b' k vid) (partListPrefix u) = true ∨
     object_ref b' k vid = multipartIndexKey b u ∨ object_ref b' k vid = multipartUploadKey u).
Proof.
  destruct (object_ref_family b' k vid) as [Hf|Hf]; intros [H|[H|H]];
    try (apply part_prefix_family in H; congruence); by rewrite H in Hf.
Qed.

(** ** Properties *)

(** C28: [AbortMultipartUpload] succeeds exactly on a stored upload; it then
    removes the upload, all its parts and its index entry, durably, and
    leaves every other upload, its parts and every object alone. *)
Theorem AbortMultipartUpload_spec s u :
  wf_store s →
  match AbortMultipartUpload s u with
  | Ok s' => ∃ upl, GetMultipartUpload s u = Ok upl ∧
      ∀ s'', crash s' s'' →
        upload_gone s'' (mu_Bucket upl) u ∧
        (∀ u', lacks colon u' = true → u' ≠ u → upload_kept s s'' u') ∧
        (∀ b k vid, GetObject s'' b k vid = GetObject s b k vid)
  | Err e => e = ErrUploadNotFound ∧ GetMultipartUpload s u = Err ErrUploadNotFound
  end.
Proof.
  intros Hwf. destruct (AbortMultipartUpload s u) as [s'|e] eqn:E.
  - apply AbortMultipartUpload_Ok in E as (upl & Hg & ->). exists upl.
    split; [by apply GetMultipartUpload_Ok|]. intros s'' Hc.
    destruct (upload_at s u upl Hwf Hg) as (_ & Hu & _).
    assert (∀ K, pebbleGet s'' K = if decide (HasPrefix K (partListPrefix u) = true ∨
      K = multipartIndexKey (mu_Bucket upl) u ∨ K = multipartUploadKey u) then None else pebbleGet s K) as Hget.
    { intros K. rewrite (crash_synced _ s'' K (wal_ok_commitSync _ _) eq_refl Hc). by apply get_Abort. }
    split_and!.
    + apply upload_gone_intro. intros K HK. by rewrite Hget, decide_True.
    + intros u' Hu' Hne. apply upload_kept_intro; [|intros K HK]; rewrite Hget, decide_False; try done;
        apply (removed_other_upload _ u u'); auto.
    + intros b k vid. apply GetObject_same_entry. rewrite Hget, decide_False; [done|].
      apply object_not_upload.
  - unfold AbortMultipartUpload in E. destruct (GetMultipartUpload s u) as [?|e'] eqn:Eg; [done|].
    injection E as <-. pose proof (GetMultipartUpload_missing s u e' Hwf Eg) as [-> _]. done.
Qed.


(** C30: [PutPart] stores a part of an existing upload under its number,
    replacing an earlier one; [ListParts] returns exactly the stored parts,
    in increasing order of part number. *)
Theorem PutPart_ListParts now s p s' p' :
  wf_store s → lacks colon (pm_UploadID p) = true → PutPart now s (Some p) = Ok (s', p') →
  GetPart s' (pm_UploadID p) (pm_PartNumber p) = Ok p' ∧
  StronglySorted (λ a b, pm_PartNumber a ≤ pm_PartNumber b) (ListParts s' (pm_UploadID p)) ∧
  NoDup (pm_PartNumber <$> ListParts s' (pm_UploadID p)) ∧
  (∀ q, q ∈ ListParts s' (pm_UploadID p) ↔
     q = p' ∨ q ∈ ListParts s (pm_UploadID p) ∧ pm_PartNumber q ≠ pm_PartNumber p) ∧
  (∀ u', lacks colon u' = true → u' ≠ pm_UploadID p → upload_kept s s' u').
Proof.
  intros Hwf Hu Hput. pose proof (wf_PutPart now s p s' p' Hwf Hu Hput) as Hwf'.
  apply PutPart_Ok in Hput as (_ & Hn & _ & Ep & Es).
  assert (pm_UploadID p' = pm_UploadID p ∧ pm_PartNumber p' = pm_PartNumber p) as [E1 E2].
  { rewrite Ep. by destruct (IsZero _). }
  assert (∀ K, pebbleGet s' K = if decide (K = partKey (pm_UploadID p) (pm_PartNumber p))
    then Some (VPart p') else pebbleGet s K) as Hget.
  { intros K. rewrite Es. unfold setNoSync. by rewrite get_commitNoSync. }
  assert (GetPart s' (pm_UploadID p) (pm_PartNumber p) = Ok p') as Hp'.
  { apply GetPart_Ok. by rewrite Hget, decide_True. }
  split_and!; [done| |by apply ListParts_NoDup| |].
  - eapply sorted_weaken; [|apply sort_slice_sorted, _]. intros a b. unfold lower_part. lia.
  - intros q. rewrite !elem_of_ListParts, !GetPart_Ok, Hget by done. split.
    + intros (Hq & Eq & Hqn). case_decide as Ek; [left; by injection Hq as <-|right].
      split_and!; try done. intros E. apply Ek. by rewrite E.
    + intros [->|[(Hq & Eq & Hqn) Hne]].
      * rewrite E1, E2, decide_True by done. split_and!; [done..|lia].
      * rewrite decide_False; [done|]. intros E. apply partKey_inj in E as [_ E]; done || lia.
  - intros u' Hu' Hne. apply upload_kept_intro; [|intros K HK]; rewrite Hget, decide_False; try done.
    intros ->. apply (partKey_prefix_inv u' (pm_UploadID p)) in HK; [by subst|done..].
Qed.

(** C29: the hourly cleanup aborts exactly the uploads initiated more than
    seven days ago: those and their parts are gone, every other upload and
    every object is as before, and the index stays consistent. *)
Theorem cleanup_stale_uploads now s :
  wf_store s → upload_index_ok s →
  let s' := cleanupStaleMultipartUploads now s in
  (∀ u upl, GetMultipartUpload s u = Ok upl →
     if decide (mu_Initiated upl < now - 7 * 24 * 3600 * second)
     then upload_gone s' (mu_Bucket upl) u else upload_kept s s' u) ∧
  (∀ b k vid, GetObject s' b k vid = GetObject s b k vid) ∧
  wf_store s' ∧ upload_index_ok s'.
Proof.
  intros Hwf Hix. unfold cleanupStaleMultipartUploads. set (cutoff := now - _). cbv zeta.
  set (ids := omap (stale_upload s cutoff) (pebbleIter s "multipart_idx:")).
  destruct (abort_all ids s Hwf) as [Hwf' Hget].
  set (s' := foldl abort_if_present s ids) in *.
  assert (∀ u, u ∈ ids ↔ ∃ upl, pebbleGet s (multipartUploadKey u) = Some (VUpload upl) ∧ mu_Initiated upl < cutoff) as Hids.
  { intros u. unfold ids. rewrite list_elem_of_omap. split.
    - intros (e & _ & He). by eapply stale_upload_Some.
    - intros (upl & Hg & Hold). destruct (upload_at s u upl Hwf Hg) as (_ & Hu & Hb).
      destruct (proj2 (Hix (mu_Bucket upl) u Hb)) as [v Hv]; [by exists upl|].
      exists (multipartIndexKey (mu_Bucket upl) u, v). rewrite elem_of_pebbleIter, stale_upload_spec, Hg by done.
      split; [split; [done|]|].
      + apply HasPrefix_spec. by eexists.
      + unfold Before. by rewrite (proj2 (Z.ltb_lt _ _)). }
  assert (∀ K, removed s ids K → ∃ u upl, pebbleGet s (multipartUploadKey u) = Some (VUpload upl) ∧
    mu_Initiated upl < cutoff ∧ (HasPrefix K (partListPrefix u) = true ∨
      K = multipartIndexKey (mu_Bucket upl) u ∨ K = multipartUploadKey u)) as Hrem.
  { intros K (u & upl & (upl' & Hg' & Hold)%Hids & Hg & HK). rewrite Hg in Hg'. injection Hg' as <-. eauto. }
  assert (∀ u upl, pebbleGet s (multipartUploadKey u) = Some (VUpload upl) → ¬ mu_Initiated upl < cutoff →
    ∀ K, HasPrefix K (partListPrefix u) = true ∨ K = multipartIndexKey (mu_Bucket upl) u ∨
         K = multipartUploadKey u → pebbleGet s' K = pebbleGet s K) as Hyoung.
  { intros u upl Hg Hy K HK. apply Hget. intros (u0 & upl0 & Hg0 & Hold0 & HK0)%Hrem.
    destruct (upload_at s u upl Hwf Hg) as (_ & Hu & Hb).
    destruct (upload_at s u0 upl0 Hwf Hg0) as (_ & Hu0 & Hb0).
    assert (u ≠ u0) as Hne by (intros ->; rewrite Hg in Hg0; by injection Hg0 as <-).
    destruct HK as [HK|[->|HK]].
    - by eapply (removed_other_upload _ u0 u K); eauto.
    - destruct HK0 as [HK0|[HK0|HK0]]; [by apply part_prefix_family in HK0| |by apply (f_equal family) in HK0].
      apply multipartIndexKey_inj in HK0 as [_ ->]; done.
    - by eapply (removed_other_upload _ u0 u K); eauto. }
  split_and!; [| |done|].
  - intros u upl Hg%GetMultipartUpload_Ok. case_decide as Hold.
    + apply upload_gone_intro. intros K HK. apply Hget. exists u, upl. rewrite Hids. eauto.
    + apply upload_kept_intro; [|intros K HK]; eapply Hyoung; eauto.
  - intros b k vid. apply GetObject_same_entry, Hget. intros (u & upl & _ & _ & HK)%Hrem.
    by apply object_not_upload in HK.
  - by apply upload_index_abort_all.
Qed.

(** The uploads the listing loop reads from the index, in scan order. *)
Definition indexed_upload s (lower prefix : string) (e : entry) : option MultipartUploadMetadata :=
  match GetMultipartUpload s (s_from (len lower) e.1) with
  | Ok upload => if HasPrefix (mu_Key upload) prefix then Some upload else None
  | Err _ => None
  end.

Lemma uploads_loop_eq s lower p n l count acc :
  uploads_loop s lower p n count acc l =
  acc ++ take (Z.to_nat (n - count)) (omap (indexed_upload s lower p) l).
Proof.
  revert count acc. induction l as [|[K v] l IH]; intros count acc; [simpl; by rewrite take_nil, app_nil_r|].
  simpl. destruct (Z.leb_spec n count).
  { replace (Z.to_nat (n - count)) with 0%nat by lia. by rewrite take_0, app_nil_r. }
  unfold indexed_upload at 1. cbn [fst].
  destruct (GetMultipartUpload s _) as [upl|]; [|apply IH].
  rewrite hasPrefix_HasPrefix. destruct (bool_decide_reflect (p = "")) as [->|Hp].
  - rewrite HasPrefix_empty. rewrite bool_decide_eq_false_2 by tauto. cbn [andb negb].
    rewrite IH, <-app_assoc. by replace (Z.to_nat (n - count)) with (S (Z.to_nat (n - (count + 1)))) by lia.
  - rewrite bool_decide_eq_true_2 by done. destruct (HasPrefix (mu_Key upl) p); cbn [andb negb]; [|apply IH].
    rewrite IH, <-app_assoc. by replace (Z.to_nat (n - count)) with (S (Z.to_nat (n - (count + 1)))) by lia.
Qed.

(** [ListMultipartUploads] returns, newest first, uploads in progress of
    the bucket whose key has the prefix, at most [maxUploads] of them, and
    all of them when fewer than that are returned. *)
Theorem ListMultipartUploads_spec s b p n :
  wf_store s → upload_index_ok s → lacks colon b = true →
  let l := ListMultipartUploads s b p n in
  StronglySorted (λ u v, mu_Initiated v ≤ mu_Initiated u) l ∧
  Z.of_nat (length l) ≤ default_max n ∧
  (∀ u, u ∈ l → GetMultipartUpload s (mu_UploadID u) = Ok u ∧ mu_Bucket u = b ∧ HasPrefix (mu_Key u) p = true) ∧
  (Z.of_nat (length l) < default_max n → ∀ u,
     GetMultipartUpload s (mu_UploadID u) = Ok u → mu_Bucket u = b → HasPrefix (mu_Key u) p = true → u ∈ l).
Proof.
  intros Hwf Hix Hb. unfold ListMultipartUploads. rewrite uploads_loop_eq. cbv zeta.
  rewrite Z.sub_0_r. cbn [app]. set (all := omap _ _).
  pose proof (default_max_pos n) as Hn.
  assert (∀ u, u ∈ all ↔ GetMultipartUpload s (mu_UploadID u) = Ok u ∧ mu_Bucket u = b ∧ HasPrefix (mu_Key u) p = true) as Hall.
  { intros u. unfold all. rewrite list_elem_of_omap. unfold indexed_upload.
    assert (∀ t, multipartIndexKey b t = multipartListPrefix b +:+ t) as Hkey.
    { intros t. unfold multipartIndexKey, multipartListPrefix. by rewrite !app_assoc_str. }
    split.
    - intros ([K v] & [Hg [t ->]%HasPrefix_spec]%elem_of_pebbleIter & He). cbn [fst] in He.
      rewrite s_from_app in He. destruct (GetMultipartUpload s t) as [upl|] eqn:E; [|done].
      destruct (HasPrefix (mu_Key upl) p) eqn:Ep; [|done]. injection He as ->.
      apply GetMultipartUpload_Ok in E as E'. destruct (upload_at s t u Hwf E') as (-> & _ & _).
      split_and!; [done| |done]. rewrite <-Hkey in Hg.
      destruct (proj1 (Hix b t Hb)) as (upl' & Hg' & Hb'); [by exists v|].
      rewrite E' in Hg'. by injection Hg' as ->.
    - intros (E & Eb & Ep). apply GetMultipartUpload_Ok in E as E'.
      destruct (proj2 (Hix b (mu_UploadID u) Hb)) as [v Hv]; [by exists u|].
      exists (multipartIndexKey b (mu_UploadID u), v). rewrite elem_of_pebbleIter. cbn [fst].
      rewrite Hkey, HasPrefix_app, s_from_app, E, Ep, <-Hkey. done. }
  split_and!.
  - eapply sorted_weaken; [|apply sort_slice_sorted, _]. intros u v. unfold newest_upload, After. lia.
  - rewrite (sort_slice_perm newest_upload), length_take. lia.
  - intros u. rewrite elem_of_sort_slice. intros Hin. apply Hall.
    rewrite <-(take_drop (Z.to_nat (default_max n)) all). set_solver.
  - rewrite (sort_slice_perm newest_upload), length_take. intros Hlt u Hu Eb Ep.
    rewrite elem_of_sort_slice, take_ge by lia. by apply Hall.
Qed.
End Multipart.

(** ** Witnesses *)

Definition sample_upload (id : string) (initiated : time) : MultipartUploadMetadata :=
  mkUpload id "t1/photos" "big.bin" initiated "" ∅ "" "t1" "alice".
Definition sample_create (s : Store alist) (u : MultipartUploadMetadata) : Store alist :=
  match CreateMultipartUpload 1 s (Some u) with Ok (s', _) => s' | Err _ => s end.
Definition sample_part (id : string) (n : Z) : PartMetadata := mkPart id n 5 "e" 1.
Definition sample_put_part (s : Store alist) (p : PartMetadata) : Store alist :=
  match PutPart 1 s (Some p) with Ok (s', _) => s' | Err _ => s end.
Definition day : Z := 24 * 3600 * second.
(** Uploads [u1] (old) and [u2] (recent), two parts of [u1] and one of [u2]. *)
Definition upload_store : Store alist :=
  foldl sample_put_part (foldl sample_create store0 [sample_upload "u1" 5; sample_upload "u2" (9 * day)])
    [sample_part "u1" 2; sample_part "u1" 1; sample_part "u2" 7].

Lemma sample_create_ok s u :
  wf_store s ∧ upload_index_ok s → lacks colon (mu_UploadID u) = true → lacks colon (mu_Bucket u) = true →
  pebbleGet s (multipartUploadKey (mu_UploadID u)) = None →
  wf_store (sample_create s u) ∧ upload_index_ok (sample_create s u).
Proof.
  intros [Hwf Hix] H1 H2 H3. unfold sample_create.
  destruct (CreateMultipartUpload 1 s (Some u)) as [[s' u']|e] eqn:E; [|done].
  split; [by eapply wf_Create|by eapply upload_index_Create].
Qed.

Lemma sample_put_part_ok s p :
  wf_store s ∧ upload_index_ok s → lacks colon (pm_UploadID p) = true →
  wf_store (sample_put_part s p) ∧ upload_index_ok (sample_put_part s p).
Proof.
  intros [Hwf Hix] H1. unfold sample_put_part.
  destruct (PutPart 1 s (Some p)) as [[s' p']|e] eqn:E; [|done]. split; [by eapply wf_PutPart|].
  apply PutPart_Ok in E as (_ & _ & _ & _ & ->). intros b u Hb. unfold setNoSync.
  rewrite !get_commitNoSync. cbn -[decide]. rewrite !decide_False by key_ne. by apply Hix.
Qed.

Lemma upload_store_ok : wf_store upload_store ∧ upload_index_ok upload_store.
Proof.
  unfold upload_store. cbn [foldl].
  apply sample_put_part_ok; [|done]. apply sample_put_part_ok; [|done]. apply sample_put_part_ok; [|done].
  apply sample_create_ok; [|done|done|vm_compute; reflexivity].
  apply sample_create_ok; [|done|done|vm_compute; reflexivity].
  split; [apply wf_store0|]. intros b u _. split; [by intros [v Hv]|by intros (o & Ho & _)].
Qed.

Lemma AbortMultipartUpload_spec_witness :
  ∃ s', AbortMultipartUpload upload_store "u1" = Ok s' ∧
    upload_gone (open_store (st_durable s')) "t1/photos" "u1".
Proof.
  pose proof (AbortMultipartUpload_spec upload_store "u1" (proj1 upload_store_ok)) as H.
  destruct (AbortMultipartUpload upload_store "u1") as [s'|e] eqn:E; [|vm_compute in E; discriminate E].
  destruct H as (upl & Hu & H). exists s'. split; [done|].
  destruct (H (open_store (st_durable s'))) as (Hgone & _ & _).
  { exists 0%nat. by rewrite take_0. }
  assert (mu_Bucket upl = "t1/photos") as <-.
  { assert (GetMultipartUpload upload_store "u1" = Ok (sample_upload "u1" 5)) as E1 by (vm_compute; reflexivity).
    rewrite E1 in Hu. by injection Hu as <-. }
  exact Hgone.
Defined.


Lemma PutPart_ListParts_witness :
  ∃ s', PutPart 9 upload_store (Some (sample_part "u1" 10)) = Ok (s', sample_part "u1" 10) ∧
    NoDup (pm_PartNumber <$> ListParts s' "u1") ∧ (pm_PartNumber <$> ListParts s' "u1") = [1; 2; 10].
Proof.
  eexists. split; [vm_compute; reflexivity|]. split; [|vm_compute; reflexivity].
  apply (PutPart_ListParts 9 upload_store (sample_part "u1" 10) _ (sample_part "u1" 10) (proj1 upload_store_ok));
    [done|vm_compute; reflexivity].
Defined.

Lemma cleanup_stale_uploads_witness :
  upload_gone (cleanupStaleMultipartUploads (10 * day) upload_store) "t1/photos" "u1" ∧
  upload_kept upload_store (cleanupStaleMultipartUploads (10 * day) upload_store) "u2".
Proof.
  destruct (cleanup_stale_uploads (10 * day) upload_store (proj1 upload_store_ok) (proj2 upload_store_ok))
    as (H & _).
  split.
  - exact (H "u1" (sample_upload "u1" 5) ltac:(vm_compute; reflexivity)).
  - exact (H "u2" (sample_upload "u2" (9 * day)) ltac:(vm_compute; reflexivity)).
Defined.

Lemma ListMultipartUploads_spec_witness :
  Z.of_nat (length (ListMultipartUploads upload_store "t1/photos" "big" 1)) ≤ 1 ∧
  (mu_UploadID <$> ListMultipartUploads upload_store "t1/photos" "big" 0) = ["u2"; "u1"].
Proof.
  split; [|vm_compute; reflexivity].
  apply (ListMultipartUploads_spec upload_store "t1/photos" "big" 1 (proj1 upload_store_ok)
    (proj2 upload_store_ok)). done.
Defined.
