(* ===== verification/System.v ===== *)
(** * Executions of the metadata store

    [run] gives every mutating call of [PebbleStore] one event: the call with
    its arguments and the time it reads, the periodic WAL sync, or a hard kill
    after which the process reopens the database ([ECrash n]: the log survived
    up to the [n]-th record after the last fsync).  A call that fails leaves
    the state alone.  The per-bucket mutexes make each call one step; where
    they do not, see [MetricsRace.v].

    [inv] is the invariant of all executions, crashes included: every database
    a crash can leave is well formed and names its buckets uniquely. *)

From S2P Require Import Prelude GoStrings MetaTypes Keys Pebble ObjectStore Listing Versions Tags Buckets Multipart.
From stdpp Require Import base gmap sets list strings sorting.
From Stdlib Require Import ZArith Lia.
Open Scope Z_scope.

Inductive event : Type :=
| EPutObject (now : time) (o : ObjectMetadata)
| EPutObjectVersion (o : ObjectMetadata) (v : ObjectVersion)
| EDeleteObject (bucket key : string) (versionID : list string)
| EDeleteObjectVersion (bucket key versionID : string)
| EPutObjectTags (now : time) (bucket key : string) (tags : gmap string string)
| ECreateBucket (now : time) (b : BucketMetadata)
| EUpdateBucket (now : time) (b : BucketMetadata)
| EDeleteBucket (tenantID name : string)
| EDeleteBucketIfEmpty (tenantID name : string)
| EUpdateBucketMetrics (now : time) (tenantID name : string) (dc ds : Z)
| ERecalculateBucketStats (now : time) (tenantID name : string)
| ECreateMultipartUpload (now : time) (u : MultipartUploadMetadata)
| EPutPart (now : time) (p : PartMetadata)
| EAbortMultipartUpload (uploadID : string)
| ECompleteMultipartUpload (now : time) (uploadID : string) (o : ObjectMetadata)
| ECleanup (now : time)
| EWalSync
| ECrash (n : nat).

Section System.
Context {DB : Type} `{PB : Pebble DB}.
Implicit Types (s : Store DB) (e : event).

Definition ok_or s (r : result StoreError (Store DB)) : Store DB :=
  match r with Ok s' => s' | Err _ => s end.
Definition ok_or_fst {A} s (r : result StoreError (Store DB * A)) : Store DB :=
  match r with Ok (s', _) => s' | Err _ => s end.

Definition crash_at (n : nat) s : Store DB :=
  open_store (foldl (λ db ops, pebble_commit ops db) (st_durable s) (take n (st_pending s))).

Definition run s e : Store DB :=
  match e with
  | EPutObject now o => ok_or_fst s (PutObject now s (Some o))
  | EPutObjectVersion o v => ok_or_fst s (PutObjectVersion s (Some o) (Some v))
  | EDeleteObject b k vid => ok_or s (DeleteObject s b k vid)
  | EDeleteObjectVersion b k vid => ok_or s (DeleteObjectVersion s b k vid)
  | EPutObjectTags now b k tags => ok_or s (PutObjectTags now s b k tags)
  | ECreateBucket now b => ok_or_fst s (CreateBucket now s (Some b))
  | EUpdateBucket now b => ok_or_fst s (UpdateBucket now s (Some b))
  | EDeleteBucket t n => ok_or s (DeleteBucket s t n)
  | EDeleteBucketIfEmpty t n => ok_or s (DeleteBucketIfEmpty s t n)
  | EUpdateBucketMetrics now t n dc ds => ok_or s (UpdateBucketMetrics now s t n dc ds)
  | ERecalculateBucketStats now t n => ok_or s (RecalculateBucketStats now s t n)
  | ECreateMultipartUpload now u => ok_or_fst s (CreateMultipartUpload now s (Some u))
  | EPutPart now p => ok_or_fst s (PutPart now s (Some p))
  | EAbortMultipartUpload u => ok_or s (AbortMultipartUpload s u)
  | ECompleteMultipartUpload now u o => ok_or_fst s (CompleteMultipartUpload now s u o)
  | ECleanup now => cleanupStaleMultipartUploads now s
  | EWalSync => walSyncTick s
  | ECrash n => crash_at n s
  end.

Definition runs s (es : list event) : Store DB := foldl run s es.

(** The callers' obligations: generated and validated names have no separator. *)
Definition valid_event e : Prop :=
  match e with
  | EPutObject _ o | ECompleteMultipartUpload _ _ o => valid_names o
  | EPutObjectVersion o v =>
      lacks colon (om_Bucket o) = true ∧ om_Key o ≠ "" ∧ lacks colon (ov_VersionID v) = true
  | ECreateBucket _ b | EUpdateBucket _ b => lacks colon (bm_TenantID b) = true
  | EDeleteBucket t _ | EDeleteBucketIfEmpty t _ | EUpdateBucketMetrics _ t _ _ _
  | ERecalculateBucketStats _ t _ => lacks colon t = true
  | ECreateMultipartUpload _ u => lacks colon (mu_UploadID u) = true ∧ lacks colon (mu_Bucket u) = true
  | EPutPart _ p => lacks colon (pm_UploadID p) = true
  | _ => True
  end.

Definition good s : Prop := wf_store s ∧ names_unique s.
Definition inv s : Prop := wal_ok s ∧ good s ∧ ∀ n, good (crash_at n s).

Context `{PL : !PebbleLaws DB}.

(** ** Shapes of a step *)

(** A successful call is one commit, synced or not, possibly with a change of
    the deletion marks. *)
Definition same_marks s s' : Prop := st_deleted s' = st_deleted s.
Inductive committed s : Store DB → Prop :=
| C_nosync ops : committed s (commitNoSync s ops)
| C_sync ops : committed s (commitSync s ops)
| C_mark s' p : committed s s' → committed s (mark_deleted s' p)
| C_unmark s' p : committed s s' → committed s (unmark_deleted s' p)
| C_same : committed s s.

Lemma good_ext s s' : (∀ K, pebbleGet s' K = pebbleGet s K) → good s → good s'.
Proof.
  intros H [Hwf Hu]. split.
  - intros K v. rewrite H. apply Hwf.
  - intros K1 K2 b1 b2. rewrite !H. apply Hu.
Qed.

Lemma inv_committed s s' : inv s → committed s s' → good s' → inv s'.
Proof.
  intros (Hwal & Hg & Hcr) Hc Hg'.
  assert (wal_ok s' ∧ ∀ n, good (crash_at n s')) as [? ?]; [|done].
  induction Hc as [ops|ops|s' p Hc IH|s' p Hc IH|]; [..|done].
  - split; [by apply wal_ok_commitNoSync|]. intros n. unfold crash_at. simpl.
    destruct (decide (n ≤ length (st_pending s))%nat) as [Hn|Hn].
    + rewrite take_app_le by done. apply Hcr.
    + rewrite take_ge by (rewrite length_app; simpl; lia). eapply good_ext; [|exact Hg'].
      intros K. unfold pebbleGet at 1. simpl. rewrite foldl_snoc, get_commit, get_commitNoSync. f_equal.
      destruct Hwal as [Hw _]. by rewrite Hw.
  - split; [apply wal_ok_commitSync|]. intros n. unfold crash_at. simpl. rewrite take_nil.
    eapply good_ext; [|exact Hg']. done.
  - apply IH. eapply good_ext; [|exact Hg']. done.
  - apply IH. eapply good_ext; [|exact Hg']. done.
Qed.

(** ** Every call keeps the stores good *)
(** Batches that write no bucket record. *)
Definition no_bucket (ops : list BatchOp) : Prop := ∀ K b, BSet K (VBucket b) ∉ ops.

Lemma no_bucket_nil : no_bucket [].
Proof. intros K b. apply not_elem_of_nil. Qed.
Lemma no_bucket_app ops ops' : no_bucket ops → no_bucket ops' → no_bucket (ops ++ ops').
Proof. intros H H' K b [?|?]%elem_of_app; [by eapply H|by eapply H']. Qed.
Lemma no_bucket_set K v ops : (∀ b, v ≠ VBucket b) → no_bucket ops → no_bucket (BSet K v :: ops).
Proof. intros Hv H K' b [[= _ E]|?]%elem_of_cons; [by apply (Hv b)|by eapply H]. Qed.
Lemma no_bucket_delete K ops : no_bucket ops → no_bucket (BDelete K :: ops).
Proof. intros H K' b [?|?]%elem_of_cons; [done|by eapply H]. Qed.
Lemma no_bucket_deletes {A} (f : A → string) (l : list A) : no_bucket ((λ x, BDelete (f x)) <$> l).
Proof. by intros K b (x & ? & _)%list_elem_of_fmap. Qed.
Lemma no_bucket_delete_tags b k tags : no_bucket (delete_tags b k tags).
Proof. apply (no_bucket_deletes (λ kv : string * string, tagIndexKey b kv.1 kv.2 k)). Qed.
Lemma no_bucket_set_tags b k tags : no_bucket (set_tags b k tags).
Proof. by intros K x (y & ? & _)%list_elem_of_fmap. Qed.
Lemma no_bucket_demote s o : no_bucket (demote_ops s o).
Proof.
  intros K b ([K' v] & _ & H)%list_elem_of_omap. simpl in H. destruct (unmarshal_object v); [|done].
  by repeat case_match.
Qed.
Lemma no_bucket_put s o : no_bucket (put_ops s o).
Proof.
  unfold put_ops. repeat apply no_bucket_app; [| | |apply no_bucket_set_tags].
  - destruct (pebbleGet s _) as [d|]; [|apply no_bucket_nil].
    destruct (unmarshal_object d); [apply no_bucket_delete_tags|apply no_bucket_nil].
  - case_bool_decide; [apply no_bucket_set; [done|]|]; apply no_bucket_nil.
  - destruct (_ || _); [apply no_bucket_set; [done|]|]; apply no_bucket_nil.
Qed.
Lemma no_bucket_remove_upload s b u : no_bucket (remove_upload_ops s b u).
Proof.
  apply no_bucket_app; [apply (no_bucket_deletes (λ e : entry, e.1))|].
  apply no_bucket_delete, no_bucket_delete, no_bucket_nil.
Qed.

(** The outcome of a call: one commit of a good store. *)
Definition fine s s' : Prop := committed s s' ∧ good s'.

Lemma unique_no_bucket s s' ops :
  (∀ K, pebbleGet s' K = batch_effect ops K (pebbleGet s K)) → no_bucket ops → names_unique s → names_unique s'.
Proof.
  intros H Hnb. apply names_unique_sub. intros K b. rewrite H.
  intros [?|?]%batch_effect_cases; [done|by apply Hnb in H0].
Qed.

Lemma fine_nosync s ops : good s → wf_store (commitNoSync s ops) → no_bucket ops → fine s (commitNoSync s ops).
Proof.
  intros [_ Hu] Hwf Hnb. split; [constructor|]. split; [done|].
  apply (unique_no_bucket s _ ops); [|done..]. intros K. apply get_commitNoSync.
Qed.

Lemma fine_sync s ops : good s → wf_store (commitSync s ops) → no_bucket ops → fine s (commitSync s ops).
Proof.
  intros [_ Hu] Hwf Hnb. split; [constructor|]. split; [done|].
  apply (unique_no_bucket s _ ops); [|done..]. intros K. apply get_commitSync.
Qed.

Lemma fine_same s : good s → fine s s.
Proof. intros H. split; [constructor|done]. Qed.

Lemma fine_PutObject now s o : good s → valid_names o → fine s (ok_or_fst s (PutObject now s (Some o))).
Proof.
  intros Hg Hn. destruct (PutObject _ _ _) as [[s' o']|e] eqn:E; [simpl|by apply fine_same].
  pose proof (wf_PutObject _ _ _ _ _ (proj1 Hg) Hn E) as Hwf. apply PutObject_Ok in E as (_ & _ & _ & _ & ->).
  apply fine_nosync; [done..|apply no_bucket_put].
Qed.

Lemma fine_PutObjectVersion s o v :
  good s → lacks colon (om_Bucket o) = true → om_Key o ≠ "" → lacks colon (ov_VersionID v) = true →
  fine s (ok_or_fst s (PutObjectVersion s (Some o) (Some v))).
Proof.
  intros Hg H1 H2 H3. destruct (PutObjectVersion _ _ _) as [[s' o']|e] eqn:E; [simpl|by apply fine_same].
  pose proof (wf_PutObjectVersion _ _ _ _ _ (proj1 Hg) H1 H2 H3 E) as Hwf.
  apply PutObjectVersion_Ok in E as (_ & _ & ->). apply fine_nosync; [done..|].
  repeat apply no_bucket_app.
  - destruct (ov_IsLatest v); [apply no_bucket_demote|apply no_bucket_nil].
  - apply no_bucket_set, no_bucket_nil. done.
  - destruct (ov_IsLatest v); [apply no_bucket_set; [done|]|]; apply no_bucket_nil.
Qed.

Lemma fine_DeleteObject s b k vid : good s → fine s (ok_or s (DeleteObject s b k vid)).
Proof.
  intros Hg. destruct (DeleteObject s b k vid) as [s'|e] eqn:E; [simpl|by apply fine_same].
  pose proof (wf_DeleteObject _ _ _ _ _ (proj1 Hg) E) as Hwf. apply DeleteObject_Ok in E as (_ & _ & o & _ & ->).
  apply fine_sync; [done..|]. apply no_bucket_app; [apply no_bucket_delete_tags|].
  apply no_bucket_delete, no_bucket_nil.
Qed.

Lemma fine_DeleteObjectVersion s b k (v : string) : good s → fine s (ok_or s (DeleteObjectVersion s b k v)).
Proof.
  intros Hg. destruct (DeleteObjectVersion s b k v) as [s'|e] eqn:E; [simpl|by apply fine_same].
  pose proof (wf_DeleteObjectVersion _ _ _ _ _ (proj1 Hg) E) as Hwf. unfold DeleteObjectVersion in E.
  destruct (pebbleGet s _); [|done]. injection E as <-.
  apply fine_sync; [done..|]. apply no_bucket_delete, no_bucket_nil.
Qed.

Lemma fine_PutObjectTags now s b k tags : good s → fine s (ok_or s (PutObjectTags now s b k tags)).
Proof.
  intros Hg. destruct (PutObjectTags now s b k tags) as [s'|e] eqn:E; [simpl|by apply fine_same].
  pose proof (wf_PutObjectTags _ _ _ _ _ _ (proj1 Hg) E) as Hwf. apply PutObjectTags_Ok in E as (o & _ & ->).
  apply fine_nosync; [done..|]. repeat apply no_bucket_app; [apply no_bucket_delete_tags|apply no_bucket_set_tags|].
  apply no_bucket_set, no_bucket_nil. done.
Qed.

(** Writing a bucket record over an existing one. *)
Lemma fine_rewrite_bucket s t n b b' :
  good s → lacks colon t = true → pebbleGet s (bucketKey t n) = Some (VBucket b) →
  bm_TenantID b' = bm_TenantID b → bm_Name b' = bm_Name b →
  fine s (setNoSync s (bucketKey t n) (VBucket b')).
Proof.
  intros [Hwf Hu] Ht Hg Et En. split; [constructor|].
  destruct (bucket_at s t n _ Hwf Ht Hg) as (b0 & [= <-] & Et0 & En0).
  split; [by eapply wf_rewrite_bucket|].
  refine (names_unique_rewrite s _ t n b' Hwf Ht _ _ _ _ Hu); [by rewrite Hg|congruence|congruence|].
  intros K. unfold setNoSync. by rewrite get_commitNoSync.
Qed.

Lemma fine_CreateBucket now s b :
  good s → lacks colon (bm_TenantID b) = true → fine s (ok_or_fst s (CreateBucket now s (Some b))).
Proof.
  intros Hg Ht. destruct (CreateBucket now s (Some b)) as [[s' b']|e] eqn:E; [simpl|by apply fine_same].
  pose proof (wf_CreateBucket _ _ _ _ _ (proj1 Hg) Ht E) as Hwf.
  apply CreateBucket_Ok in E as (Hnone & Hfresh & Eb & Es); [|apply Hg].
  assert (bm_TenantID b' = bm_TenantID b ∧ bm_Name b' = bm_Name b) as [Et En] by (rewrite Eb; by destruct (IsZero _)).
  split; [rewrite Es; repeat constructor|]. split; [done|].
  apply (names_unique_set s _ b'); rewrite ?Et, ?En; [apply Hg| | |apply Hg].
  - intros K. by rewrite Es, get_unmark_deleted, get_commitSync.
  - intros K e He Hn. by destruct (Hfresh K e He).
Qed.

Lemma fine_UpdateBucket now s b :
  good s → lacks colon (bm_TenantID b) = true → fine s (ok_or_fst s (UpdateBucket now s (Some b))).
Proof.
  intros Hg Ht. destruct (UpdateBucket now s (Some b)) as [[s' b']|e] eqn:E; [simpl|by apply fine_same].
  pose proof (wf_UpdateBucket _ _ _ _ _ (proj1 Hg) Ht E) as Hwf.
  apply UpdateBucket_Ok in E as (Hex & Eb & Es).
  split; [rewrite Es; repeat constructor|]. split; [done|].
  refine (names_unique_rewrite s _ _ _ b' (proj1 Hg) Ht Hex _ _ _ (proj2 Hg)); [by subst|by subst|].
  intros K. by rewrite Es, get_unmark_deleted, get_commitSync.
Qed.

Lemma fine_DeleteBucket s t n : good s → fine s (ok_or s (DeleteBucket s t n)).
Proof.
  intros Hg. destruct (DeleteBucket s t n) as [s'|e] eqn:E; [simpl|by apply fine_same].
  pose proof (wf_DeleteBucket _ _ _ _ (proj1 Hg) E) as Hwf. unfold DeleteBucket in E.
  destruct (pebbleGet s _); [|done]. injection E as <-.
  destruct (fine_sync s [BDelete (bucketKey t n)]) as [H1 H2]; [done|done| |].
  { apply no_bucket_delete, no_bucket_nil. }
  split; [by constructor|]. by eapply good_ext; [|exact H2].
Qed.

Lemma fine_DeleteBucketIfEmpty s t n : good s → fine s (ok_or s (DeleteBucketIfEmpty s t n)).
Proof.
  intros Hg. destruct (DeleteBucketIfEmpty s t n) as [s'|e] eqn:E; [|by apply fine_same].
  apply DeleteBucketIfEmpty_DeleteBucket in E. pose proof (fine_DeleteBucket s t n Hg) as H.
  by rewrite E in H.
Qed.

Lemma fine_UpdateBucketMetrics now s t n dc ds :
  good s → lacks colon t = true → fine s (ok_or s (UpdateBucketMetrics now s t n dc ds)).
Proof.
  intros Hg Ht. destruct (UpdateBucketMetrics now s t n dc ds) as [s'|e] eqn:E; [simpl|by apply fine_same].
  apply UpdateBucketMetrics_Ok in E as (b & Hb & ->). by eapply fine_rewrite_bucket.
Qed.

Lemma fine_RecalculateBucketStats now s t n :
  good s → lacks colon t = true → fine s (ok_or s (RecalculateBucketStats now s t n)).
Proof.
  intros Hg Ht. destruct (RecalculateBucketStats now s t n) as [s'|e] eqn:E; [simpl|by apply fine_same].
  unfold RecalculateBucketStats in E. destruct (foldl _ _ _) as [c sz].
  destruct (pebbleGet s (bucketKey t n)) as [[o|b|u|p|]|] eqn:Hb; simpl in E; try done.
  injection E as <-. by eapply fine_rewrite_bucket.
Qed.

Lemma fine_Create now s u :
  good s → lacks colon (mu_UploadID u) = true → lacks colon (mu_Bucket u) = true →
  fine s (ok_or_fst s (CreateMultipartUpload now s (Some u))).
Proof.
  intros Hg H1 H2. destruct (CreateMultipartUpload now s (Some u)) as [[s' u']|e] eqn:E; [simpl|by apply fine_same].
  pose proof (wf_Create _ _ _ _ _ (proj1 Hg) H1 H2 E) as Hwf. apply CreateMultipartUpload_Ok in E as (_ & _ & ->).
  apply fine_nosync; [done..|]. apply no_bucket_set, no_bucket_set, no_bucket_nil; done.
Qed.

Lemma fine_PutPart now s p :
  good s → lacks colon (pm_UploadID p) = true → fine s (ok_or_fst s (PutPart now s (Some p))).
Proof.
  intros Hg H1. destruct (PutPart now s (Some p)) as [[s' p']|e] eqn:E; [simpl|by apply fine_same].
  pose proof (wf_PutPart _ _ _ _ _ (proj1 Hg) H1 E) as Hwf. apply PutPart_Ok in E as (_ & _ & _ & _ & ->).
  apply fine_nosync; [done..|]. by apply no_bucket_set, no_bucket_nil.
Qed.

Lemma fine_Abort s u : good s → fine s (ok_or s (AbortMultipartUpload s u)).
Proof.
  intros Hg. destruct (AbortMultipartUpload s u) as [s'|e] eqn:E; [simpl|by apply fine_same].
  pose proof (wf_Abort _ _ _ (proj1 Hg) E) as Hwf. apply AbortMultipartUpload_Ok in E as (upl & _ & ->).
  apply fine_sync; [done..|apply no_bucket_remove_upload].
Qed.

Lemma fine_Complete now s u o :
  good s → valid_names o → fine s (ok_or_fst s (CompleteMultipartUpload now s u o)).
Proof.
  intros Hg Hn. destruct (CompleteMultipartUpload now s u o) as [[s' o']|e] eqn:E; [simpl|by apply fine_same].
  pose proof (wf_Complete _ _ _ _ _ _ (proj1 Hg) Hn E) as Hwf.
  apply CompleteMultipartUpload_Ok in E as (upl & _ & _ & _ & ->).
  apply fine_sync; [done..|]. apply no_bucket_set; [done|apply no_bucket_remove_upload].
Qed.

(** ** The invariant of all executions *)

Lemma inv_fine s s' : inv s → fine s s' → inv s'.
Proof. intros Hi [Hc Hg]. by eapply inv_committed. Qed.

Lemma inv_abort_all ids s : inv s → inv (foldl abort_if_present s ids).
Proof.
  revert s. induction ids as [|u ids IH]; intros s Hi; [done|]. simpl. apply IH.
  eapply inv_fine; [exact Hi|]. apply (fine_Abort s u). apply Hi.
Qed.

Lemma inv_tick s : inv s → inv (walSyncTick s).
Proof.
  intros (Hwal & Hg & Hcr). split; [by apply wal_ok_tick|]. unfold walSyncTick.
  destruct (st_walDirty s) eqn:E; [|by split]. split; [by eapply good_ext; [|exact Hg]|].
  intros n. unfold crash_at. simpl. rewrite take_nil. by eapply good_ext; [|exact Hg].
Qed.

Lemma inv_crash n s : inv s → inv (crash_at n s).
Proof.
  intros (Hwal & Hg & Hcr). split; [apply wal_ok_open|]. split; [apply Hcr|].
  intros m. unfold crash_at at 1. simpl. rewrite take_nil. apply Hcr.
Qed.

Lemma inv_run s e : inv s → valid_event e → inv (run s e).
Proof.
  intros Hi Hv. pose proof (proj1 (proj2 Hi)) as Hg.
  destruct e; simpl in Hv |- *.
  1-15: (eapply inv_fine; [exact Hi|]).
  - by apply fine_PutObject.
  - destruct Hv as (? & ? & ?). by apply fine_PutObjectVersion.
  - by apply fine_DeleteObject.
  - by apply fine_DeleteObjectVersion.
  - by apply fine_PutObjectTags.
  - by apply fine_CreateBucket.
  - by apply fine_UpdateBucket.
  - by apply fine_DeleteBucket.
  - by apply fine_DeleteBucketIfEmpty.
  - by apply fine_UpdateBucketMetrics.
  - by apply fine_RecalculateBucketStats.
  - destruct Hv. by apply fine_Create.
  - by apply fine_PutPart.
  - by apply fine_Abort.
  - by apply fine_Complete.
  - apply inv_abort_all, Hi.
  - by apply inv_tick.
  - by apply inv_crash.
Qed.

Lemma inv_runs s es : inv s → Forall valid_event es → inv (runs s es).
Proof.
  revert s. induction es as [|e es IH]; intros s Hi Hv; [done|]. apply Forall_cons in Hv as [He Hv].
  simpl. apply IH; [by apply inv_run|done].
Qed.

(** ** What a crash can lose *)

(** Everything is durable. *)
Definition synced s : Prop := st_pending s = [] ∧ st_durable s = st_db s.

(** One event, other than a kill, changes nothing, extends the log by one
    record, or leaves everything durable. *)
Definition advance s s' : Prop :=
  (st_durable s' = st_durable s ∧ st_pending s' = st_pending s ∧ st_db s' = st_db s) ∨
  (∃ ops, st_durable s' = st_durable s ∧ st_pending s' = st_pending s ++ [ops]) ∨
  synced s'.

Lemma advance_one s s' : committed s s' → advance s s'.
Proof.
  induction 1 as [ops|ops|s' p _ IH|s' p _ IH|]; try exact IH.
  - right. left. by exists ops.
  - right. right. done.
  - left. done.
Qed.

Lemma abort_cases s u : abort_if_present s u = s ∨ synced (abort_if_present s u).
Proof.
  unfold abort_if_present, AbortMultipartUpload. destruct (GetMultipartUpload s u); simpl; [right|left]; done.
Qed.

Lemma synced_abort_all ids s : synced s → synced (foldl abort_if_present s ids).
Proof.
  revert s. induction ids as [|u ids IH]; intros s Hs; [done|]. simpl. apply IH.
  by destruct (abort_cases s u) as [->|?].
Qed.

Lemma advance_abort_all ids s : advance s (foldl abort_if_present s ids).
Proof.
  revert s. induction ids as [|u ids IH]; intros s; [by left|]. simpl.
  destruct (abort_cases s u) as [->|Hs]; [apply IH|]. right. right. by apply synced_abort_all.
Qed.

Definition is_crash e : Prop := match e with ECrash _ => True | _ => False end.

Lemma advance_run s e : good s → valid_event e → ¬ is_crash e → advance s (run s e).
Proof.
  intros Hg Hv Hc. destruct e; simpl in Hv, Hc |- *; try done.
  1-15: apply advance_one.
  - by apply fine_PutObject.
  - destruct Hv as (? & ? & ?). by apply fine_PutObjectVersion.
  - by apply fine_DeleteObject.
  - by apply fine_DeleteObjectVersion.
  - by apply fine_PutObjectTags.
  - by apply fine_CreateBucket.
  - by apply fine_UpdateBucket.
  - by apply fine_DeleteBucket.
  - by apply fine_DeleteBucketIfEmpty.
  - by apply fine_UpdateBucketMetrics.
  - by apply fine_RecalculateBucketStats.
  - destruct Hv. by apply fine_Create.
  - by apply fine_PutPart.
  - by apply fine_Abort.
  - by apply fine_Complete.
  - apply advance_abort_all.
  - unfold walSyncTick. destruct (st_walDirty s); [by right; right|by left].
Qed.

Lemma get_crash_full n s K :
  wal_ok s → (length (st_pending s) ≤ n)%nat → pebbleGet (crash_at n s) K = pebbleGet s K.
Proof. intros [Hw _] Hn. unfold crash_at, pebbleGet at 1. simpl. by rewrite take_ge, <-Hw. Qed.

(** ** The deletion mark *)

Definition in_bucket (path K : string) : Prop :=
  (∃ k, K = objectKey path k) ∨ (∃ k v, K = objectVersionKey path k v).
Definition emptied s (path : string) : Prop := path ∈ st_deleted s ∧ bucket_empty s path.

Definition reopens (path : string) e : Prop :=
  match e with
  | ECreateBucket _ b | EUpdateBucket _ b => bucketPathForMutation (bm_TenantID b) (bm_Name b) = path
  | ECrash _ => True
  | _ => False
  end.

Lemma emptied_iff s path : bucket_empty s path ↔ ∀ K, in_bucket path K → pebbleGet s K = None.
Proof.
  split.
  - intros [Ho Hv] K [[k ->]|(k & v & ->)]; auto.
  - intros H. split; intros; apply H; [left|right]; eauto.
Qed.

Lemma emptied_batch s s' ops path :
  (∀ K, pebbleGet s' K = batch_effect ops K (pebbleGet s K)) → st_deleted s' = st_deleted s →
  (∀ K v, BSet K v ∈ ops → ¬ in_bucket path K) → emptied s path → emptied s' path.
Proof.
  intros Hget Hdel Hops [Hd He]. split; [by rewrite Hdel|]. rewrite emptied_iff in He |- *.
  intros K HK. destruct (pebbleGet s' K) as [v|] eqn:E; [|done]. rewrite Hget in E.
  apply batch_effect_cases in E as [E|E]; [by rewrite He in E|]. by destruct (Hops K v E).
Qed.

(** A key of another bucket, or of another family. *)
Lemma not_in_bucket_object b k path :
  lacks colon b = true → lacks colon path = true → b ≠ path → ¬ in_bucket path (objectKey b k).
Proof.
  intros H1 H2 Hne [[k' E]|(k' & v & E)]; [|by apply (f_equal family) in E].
  by apply objectKey_inj in E as [-> _].
Qed.
Lemma not_in_bucket_version b k v path :
  lacks colon b = true → lacks colon path = true → b ≠ path → ¬ in_bucket path (objectVersionKey b k v).
Proof.
  intros H1 H2 Hne [[k' E]|(k' & v' & E)]; [by apply (f_equal family) in E|].
  unfold objectVersionKey in E. apply app_inv_head_str in E. rewrite !colon_app in E.
  by apply lacks_split_first in E as [-> _].
Qed.
Lemma not_in_bucket_family K path : family K ≠ "obj" → family K ≠ "version" → ¬ in_bucket path K.
Proof. by intros H1 H2 [[k ->]|(k & v & ->)]. Qed.

(** A stored key is not in an empty bucket. *)
Lemma not_in_bucket_stored s path K v : bucket_empty s path → pebbleGet s K = Some v → ¬ in_bucket path K.
Proof. rewrite emptied_iff. intros H Hg HK. by rewrite H in Hg. Qed.

Lemma batch_sets_tags b k tags K v path : BSet K v ∈ set_tags b k tags → ¬ in_bucket path K.
Proof. intros (x & [= -> ->] & _)%list_elem_of_fmap. by apply not_in_bucket_family. Qed.
Lemma batch_sets_delete_tags b k tags K v : BSet K v ∉ delete_tags b k tags.
Proof. by intros (x & ? & _)%list_elem_of_fmap. Qed.

Lemma emptied_PutObject now s o path :
  lacks colon path = true → lacks colon (om_Bucket o) = true → emptied s path →
  emptied (ok_or_fst s (PutObject now s (Some o))) path.
Proof.
  intros Hp Hb He. destruct (PutObject now s (Some o)) as [[s' o']|e] eqn:E; [simpl|done].
  apply PutObject_Ok in E as (_ & _ & Hd & Eo & ->).
  destruct (stamp_fields now o) as (Eb & _). rewrite <-Eo in Eb.
  assert (om_Bucket o' ≠ path) as Hne by (rewrite Eb; intros E'; destruct He; by rewrite E' in Hd).
  apply (emptied_batch s _ (put_ops s o')); [intros K; apply get_commitNoSync|done| |done].
  rewrite <-Eb in Hb. unfold put_ops. intros K v. rewrite !elem_of_app. intros [H|[H|[H|H]]].
  - destruct (pebbleGet s _) as [d|]; [|by apply not_elem_of_nil in H].
    destruct (unmarshal_object d); [by apply batch_sets_delete_tags in H|by apply not_elem_of_nil in H].
  - case_bool_decide; [|by apply not_elem_of_nil in H]. apply list_elem_of_singleton in H as [= -> ->].
    by apply not_in_bucket_version.
  - destruct (_ || _); [|by apply not_elem_of_nil in H]. apply list_elem_of_singleton in H as [= -> ->].
    by apply not_in_bucket_object.
  - by eapply batch_sets_tags.
Qed.

Lemma emptied_PutObjectVersion s o ver path :
  lacks colon path = true → lacks colon (om_Bucket o) = true → emptied s path →
  emptied (ok_or_fst s (PutObjectVersion s (Some o) (Some ver))) path.
Proof.
  intros Hp Hb He. destruct (PutObjectVersion s _ _) as [[s' o']|e] eqn:E; [simpl|done].
  apply PutObjectVersion_Ok in E as (Hd & _ & ->).
  assert (om_Bucket o ≠ path) as Hne by (intros E'; destruct He; by rewrite E' in Hd).
  eapply emptied_batch; [intros K; apply get_commitNoSync|done| |done].
  intros K v. rewrite !elem_of_app. intros [H|[H|H]].
  - destruct (ov_IsLatest ver); [|by apply not_elem_of_nil in H].
    apply list_elem_of_omap in H as ([K' v'] & Hin & HE). apply elem_of_pebbleIter in Hin as [Hg _].
    apply (not_in_bucket_stored s path K v'); [apply He|]. simpl in HE.
    destruct (unmarshal_object v'); [|done]. repeat case_match; try done. by injection HE as <- _.
  - apply list_elem_of_singleton in H as [= -> ->]. by apply not_in_bucket_version.
  - destruct (ov_IsLatest ver); [|by apply not_elem_of_nil in H].
    apply list_elem_of_singleton in H as [= -> ->]. by apply not_in_bucket_object.
Qed.

Lemma emptied_PutObjectTags now s b k tags path :
  emptied s path → emptied (ok_or s (PutObjectTags now s b k tags)) path.
Proof.
  intros He. destruct (PutObjectTags now s b k tags) as [s'|e] eqn:E; [simpl|done].
  apply PutObjectTags_Ok in E as (o & Hg & ->).
  eapply emptied_batch; [intros K; apply get_commitNoSync|done| |done].
  intros K v. rewrite !elem_of_app. intros [H|[H|H]].
  - by apply batch_sets_delete_tags in H.
  - by eapply batch_sets_tags.
  - apply list_elem_of_singleton in H as [= -> ->]. eapply not_in_bucket_stored; [apply He|exact Hg].
Qed.

Lemma remove_upload_no_sets s b u K v : BSet K v ∉ remove_upload_ops s b u.
Proof.
  intros [(e & ? & _)%list_elem_of_fmap|H]%elem_of_app; [done|].
  repeat (apply elem_of_cons in H as [?|H]; [done|]). by apply not_elem_of_nil in H.
Qed.

Lemma emptied_abort s u path : emptied s path → emptied (abort_if_present s u) path.
Proof.
  intros He. unfold abort_if_present, AbortMultipartUpload.
  destruct (GetMultipartUpload s u) as [upl|e]; simpl; [|done].
  eapply emptied_batch; [intros K; apply get_commitSync|done| |done].
  by intros K v ?%remove_upload_no_sets.
Qed.

Lemma emptied_abort_all ids s path : emptied s path → emptied (foldl abort_if_present s ids) path.
Proof. revert s. induction ids as [|u ids IH]; intros s He; [done|]. by apply IH, emptied_abort. Qed.

Lemma emptied_Complete now s u o path :
  lacks colon path = true → lacks colon (om_Bucket o) = true → emptied s path →
  emptied (ok_or_fst s (CompleteMultipartUpload now s u o)) path.
Proof.
  intros Hp Hb He. destruct (CompleteMultipartUpload now s u o) as [[s' o']|e] eqn:E; [simpl|done].
  apply CompleteMultipartUpload_Ok in E as (upl & _ & Hd & _ & ->).
  assert (om_Bucket o ≠ path) as Hne by (intros E'; destruct He; by rewrite E' in Hd).
  eapply emptied_batch; [intros K; apply get_commitSync|done| |done].
  intros K v [[= -> ->]|H]%elem_of_cons; [by apply not_in_bucket_object|].
  by apply remove_upload_no_sets in H.
Qed.

(** A commit of records of other families. *)
Lemma emptied_other s s' ops path :
  (∀ K, pebbleGet s' K = batch_effect ops K (pebbleGet s K)) → st_deleted s' = st_deleted s →
  (∀ K v, BSet K v ∈ ops → family K ≠ "obj" ∧ family K ≠ "version") → emptied s path → emptied s' path.
Proof.
  intros H1 H2 H3. eapply emptied_batch; [exact H1|exact H2|].
  intros K v [? ?]%H3. by apply not_in_bucket_family.
Qed.

Lemma emptied_bucket_event s t n s' path :
  DeleteBucket s t n = Ok s' → emptied s path → emptied s' path.
Proof.
  unfold DeleteBucket. destruct (pebbleGet s _) as [w|]; [|done]. intros [= <-] [Hd He].
  split; [simpl; set_solver|].
  apply (emptied_batch s (commitSync s [BDelete (bucketKey t n)]) [BDelete (bucketKey t n)] path).
  - intros K. apply get_commitSync.
  - done.
  - intros K v H. apply elem_of_cons in H as [?|H]; [done|by apply not_elem_of_nil in H].
  - by split.
Qed.

Lemma emptied_set s s' K v path :
  (∀ K', pebbleGet s' K' = batch_effect [BSet K v] K' (pebbleGet s K')) → st_deleted s' = st_deleted s →
  family K ≠ "obj" → family K ≠ "version" → emptied s path → emptied s' path.
Proof.
  intros H1 H2 H3 H4. eapply emptied_other; [exact H1|exact H2|].
  by intros K' v' [= -> ->]%list_elem_of_singleton.
Qed.

(** Recording a bucket reopens no other path. *)
Lemma emptied_reopen s s' t n v path :
  (∀ K, pebbleGet s' K = batch_effect [BSet (bucketKey t n) v] K (pebbleGet s K)) →
  st_deleted s' = st_deleted s ∖ {[bucketPathForMutation t n]} →
  bucketPathForMutation t n ≠ path → emptied s path → emptied s' path.
Proof.
  intros H1 H2 Hne [Hd He]. split; [rewrite H2; set_solver|]. rewrite emptied_iff in He |- *.
  intros K HK. rewrite H1. simpl. case_decide as E; [|by apply He]. subst.
  by apply not_in_bucket_family in HK.
Qed.

(** ** One event keeps a deleted bucket empty *)
Lemma emptied_run s e path :
  good s → lacks colon path = true → valid_event e → ¬ reopens path e →
  emptied s path → emptied (run s e) path.
Proof.
  intros Hg Hp Hv Hr He. destruct e; simpl in Hv, Hr; cbn [run].
  - destruct Hv as (? & _). by apply emptied_PutObject.
  - destruct Hv as (? & _). by apply emptied_PutObjectVersion.
  - destruct (DeleteObject _ _ _ _) as [s'|x] eqn:E; [simpl|done].
    apply DeleteObject_Ok in E as (_ & _ & o & _ & ->).
    eapply emptied_batch; [intros K; apply get_commitSync|done| |done].
    intros K v [H|H]%elem_of_app; [by apply batch_sets_delete_tags in H|by apply list_elem_of_singleton in H].
  - unfold DeleteObjectVersion. destruct (pebbleGet s _) as [w|]; [simpl|done].
    eapply emptied_batch; [intros K; apply get_commitSync|done| |done].
    by intros K v H%list_elem_of_singleton.
  - by apply emptied_PutObjectTags.
  - destruct (CreateBucket now s (Some b)) as [[s' b']|x] eqn:E; [simpl|done].
    apply CreateBucket_Ok in E as (_ & _ & _ & ->); [|apply Hg].
    eapply emptied_reopen; [intros K; apply get_commitSync|done|done|done].
  - destruct (UpdateBucket now s (Some b)) as [[s' b']|x] eqn:E; [simpl|done].
    apply UpdateBucket_Ok in E as (_ & _ & ->).
    eapply emptied_reopen; [intros K; apply get_commitSync|done|done|done].
  - destruct (DeleteBucket s tenantID name) as [s'|x] eqn:E; [|done]. by eapply emptied_bucket_event.
  - destruct (DeleteBucketIfEmpty s tenantID name) as [s'|x] eqn:E; [|done].
    apply DeleteBucketIfEmpty_DeleteBucket in E. by eapply emptied_bucket_event.
  - destruct (UpdateBucketMetrics _ _ _ _ _ _) as [s'|x] eqn:E; [simpl|done].
    apply UpdateBucketMetrics_Ok in E as (b & _ & ->).
    eapply emptied_set; [intros K; apply get_commitNoSync|done|done|done|done].
  - unfold RecalculateBucketStats. destruct (foldl _ _ _) as [c sz].
    destruct (pebbleGet s (bucketKey _ _)) as [[o|b|u|p|]|]; simpl; try done.
    eapply emptied_set; [intros K; apply get_commitNoSync|done|done|done|done].
  - destruct (CreateMultipartUpload now s (Some u)) as [[s' u']|x] eqn:E; [simpl|done].
    apply CreateMultipartUpload_Ok in E as (_ & _ & ->).
    eapply emptied_other; [intros K; apply get_commitNoSync|done| |done].
    intros K v [[= -> ->]|[= -> ->]%list_elem_of_singleton]%elem_of_cons; done.
  - destruct (PutPart now s (Some p)) as [[s' p']|x] eqn:E; [simpl|done].
    apply PutPart_Ok in E as (_ & _ & _ & _ & ->).
    eapply emptied_set; [intros K; apply get_commitNoSync|done|done|done|done].
  - by apply (emptied_abort s uploadID path).
  - destruct Hv as (? & _). by apply emptied_Complete.
  - by apply emptied_abort_all.
  - unfold walSyncTick. by destruct (st_walDirty s).
  - done.
Qed.

(** ** Properties *)

(** C1: from a well-formed database, whatever valid calls are made, in
    whatever order, with kills at any point: every entry stays under the key
    its fields spell, bucket names stay unique over all tenants, and
    everything not yet durable is pending behind a raised dirty flag. *)
Theorem execution_invariant db es :
  good (open_store db) → Forall valid_event es →
  wf_store (runs (open_store db) es) ∧ names_unique (runs (open_store db) es) ∧
  wal_ok (runs (open_store db) es).
Proof.
  intros Hg Hv. assert (inv (open_store db)) as Hi.
  { split; [apply wal_ok_open|]. split; [done|]. intros n. unfold crash_at. simpl. by rewrite take_nil. }
  destruct (inv_runs _ es Hi Hv) as (? & [? ?] & _). done.
Qed.


(** C9: once [DeleteBucketIfEmpty] has succeeded, no object and no version
    appears under the bucket's path again until a bucket with that path is
    created or updated, or the process restarts. *)
Theorem deleted_bucket_stays_empty s s0 t n es :
  inv s → lacks colon t = true → lacks colon (bucketPathForMutation t n) = true →
  DeleteBucketIfEmpty s t n = Ok s0 →
  Forall valid_event es → Forall (λ e, ¬ reopens (bucketPathForMutation t n) e) es →
  bucket_empty (runs s0 es) (bucketPathForMutation t n).
Proof.
  intros Hi Ht Hp Hdel Hv Hr.
  pose proof (fine_DeleteBucketIfEmpty s t n (proj1 (proj2 Hi))) as Hfine. rewrite Hdel in Hfine.
  pose proof (inv_fine s s0 Hi Hfine) as Hi0. simpl in Hi0.
  assert (emptied s0 (bucketPathForMutation t n)) as He.
  { unfold DeleteBucketIfEmpty in Hdel. destruct (pebbleGet s _) as [w|]; [|done].
    pose proof (bucket_scans_empty s (bucketPathForMutation t n) (proj1 (proj1 (proj2 Hi))) Hp) as Hscan.
    destruct (pebbleIter s (objectListPrefix _)); [|done].
    destruct (pebbleIter s (versionListPrefix _)); [|done]. injection Hdel as <-.
    split; [simpl; set_solver|]. destruct Hscan as [Hscan _]. specialize (Hscan (conj eq_refl eq_refl)).
    rewrite emptied_iff in Hscan |- *. intros K HK. rewrite get_mark_deleted, get_commitSync. simpl.
    case_decide; [done|]. by apply Hscan. }
  clear Hdel Hfine. revert s0 Hi0 He. induction es as [|e es IH]; intros s0 Hi0 He; [apply He|].
  apply Forall_cons in Hv as [He1 Hv]. apply Forall_cons in Hr as [Hr1 Hr]. simpl. apply IH; [done..| |].
  - by apply inv_run.
  - apply emptied_run; try done. apply Hi0.
Qed.
End System.

(** ** Witnesses *)

Lemma good_store0 : good store0.
Proof. split; [apply wf_store0|]. by intros K1 K2 b1 b2 H. Qed.

(** Create a bucket, write an object, sync, write another, delete both, delete
    the bucket. *)
Definition sample_events : list event :=
  [ ECreateBucket 1 sample_bucket; EPutObject 2 sample_object; EWalSync;
    EPutObject 3 (sample_object <| om_VersionID := "" |> <| om_Key := "x" |>);
    EDeleteObject "t1/photos" "2024/a:b.jpg" ["17.ab"]; EDeleteObject "t1/photos" "2024/a:b.jpg" [];
    EDeleteObject "t1/photos" "x" [] ].

Lemma sample_events_valid : Forall valid_event sample_events.
Proof. repeat constructor; done. Qed.

Lemma execution_invariant_witness :
  wf_store (runs store0 sample_events) ∧ names_unique (runs store0 sample_events).
Proof.
  destruct (execution_invariant ([] : alist) sample_events good_store0 sample_events_valid) as (H1 & H2 & _).
  split; [exact H1|exact H2].
Defined.


Lemma inv_store0 : inv store0.
Proof.
  split; [apply wal_ok_open|]. split; [apply good_store0|]. intros n. unfold crash_at. simpl.
  rewrite take_nil. apply good_store0.
Qed.

Lemma deleted_bucket_stays_empty_witness :
  ∃ s0, DeleteBucketIfEmpty (runs store0 sample_events) "t1" "photos" = Ok s0 ∧
    bucket_empty (runs s0 [EPutObject 9 sample_object]) "t1/photos".
Proof.
  destruct (DeleteBucketIfEmpty (runs store0 sample_events) "t1" "photos") as [s0|e] eqn:E;
    [|vm_compute in E; discriminate E].
  exists s0. split; [done|].
  apply (deleted_bucket_stays_empty (runs store0 sample_events) s0 "t1" "photos" [EPutObject 9 sample_object]).
  - apply inv_runs; [apply inv_store0|apply sample_events_valid].
  - done.
  - done.
  - exact E.
  - repeat constructor; done.
  - repeat constructor. intros [].
Defined.
