(* ===== verification/MetricsRace.v ===== *)
(** * Concurrent updates of a bucket record ([internal/metadata/pebble_store.go])

    [UpdateBucketMetrics] reads the bucket record, adds its deltas and writes
    the record back, under a mutex of its own per bucket.  Here that call is
    two steps of a thread, the read (which acquires the mutex) and the write
    (which releases it), interleaved with the other threads' steps.

    Among themselves the calls are serialized and no update is lost.
    [DeleteBucket] takes a different mutex and [UpdateBucket] none, so they can
    run between the two steps: [delete_race] and [update_race] show a deleted
    bucket coming back and a configuration change disappearing. *)

From S2P Require Import Prelude GoStrings MetaTypes Keys Pebble ObjectStore Listing Buckets.
From stdpp Require Import base gmap sets list strings relations.
From Stdlib Require Import ZArith Lia.
Open Scope Z_scope.

(** One call of [UpdateBucketMetrics], and where it is. *)
Record call := mkCall { ca_now : time; ca_count : Z; ca_size : Z }.
Inductive pc : Type :=
| PcStart
| PcRead (b : BucketMetadata)
| PcDone (err : option StoreError).

Section Race.
Context {DB : Type} `{PB : Pebble DB}.
Context (tenantID name : string) (calls : list call).
Abbreviation key := (bucketKey tenantID name).

Record mstate := mkMS {
  ms_store : Store DB;
  ms_lock : option nat;
  ms_pc : list pc
}.

(** The steps; [M_other] is another operation on the record, which does not
    take the mutex. *)
Inductive mstep : mstate → mstate → Prop :=
| M_read s pcs i c b :
    calls !! i = Some c → pcs !! i = Some PcStart → pebbleGet s key = Some (VBucket b) →
    mstep (mkMS s None pcs) (mkMS s (Some i) (<[i := PcRead b]> pcs))
| M_missing s pcs i c :
    calls !! i = Some c → pcs !! i = Some PcStart → pebbleGet s key = None →
    mstep (mkMS s None pcs) (mkMS s None (<[i := PcDone (Some ErrBucketNotFound)]> pcs))
| M_write s pcs i c b :
    calls !! i = Some c → pcs !! i = Some (PcRead b) →
    mstep (mkMS s (Some i) pcs)
      (mkMS (setNoSync s key (VBucket (apply_metrics (ca_now c) (ca_count c) (ca_size c) b))) None
         (<[i := PcDone None]> pcs)).

Inductive mstep_env : mstate → mstate → Prop :=
| M_call ms ms' : mstep ms ms' → mstep_env ms ms'
| M_delete s s' l pcs : DeleteBucket s tenantID name = Ok s' → mstep_env (mkMS s l pcs) (mkMS s' l pcs)
| M_update now b s s' b' l pcs :
    UpdateBucket now s (Some b) = Ok (s', b') → mstep_env (mkMS s l pcs) (mkMS s' l pcs).

Definition mstart (s : Store DB) : mstate := mkMS s None ((λ _, PcStart) <$> calls).

(** The calls of [order], one after the other. *)
Definition call_one (s : Store DB) (i : nat) : Store DB :=
  match calls !! i with
  | Some c =>
      match UpdateBucketMetrics (ca_now c) s tenantID name (ca_count c) (ca_size c) with
      | Ok s' => s'
      | Err _ => s
      end
  | None => s
  end.
Definition replay (s : Store DB) (order : list nat) : Store DB := foldl call_one s order.

Context `{PL : !PebbleLaws DB}.

(** The store is the replay of the finished calls in the order they wrote;
    a thread that has read holds the mutex and has read the current record. *)
Definition serial (s0 : Store DB) (ms : mstate) : Prop :=
  ∃ order, ms_store ms = replay s0 order ∧ NoDup order ∧
    (∀ i, i ∈ order ↔ ms_pc ms !! i = Some (PcDone None)) ∧
    (∀ i b, ms_pc ms !! i = Some (PcRead b) → ms_lock ms = Some i ∧ pebbleGet (ms_store ms) key = Some (VBucket b)) ∧
    length (ms_pc ms) = length calls.

Lemma serial_start s0 : serial s0 (mstart s0).
Proof.
  exists []. split_and!; [done|apply NoDup_nil_2| | |simpl; by rewrite length_fmap].
  - intros i. split; [by intros ?%not_elem_of_nil|]. simpl. rewrite list_lookup_fmap.
    by destruct (calls !! i).
  - intros i b. simpl. rewrite list_lookup_fmap. by destruct (calls !! i).
Qed.

Lemma serial_step s0 ms ms' : serial s0 ms → mstep ms ms' → serial s0 ms'.
Proof.
  intros (order & Hs & Hnd & Hord & Hread & Hlen) Hstep.
  destruct Hstep as [s pcs i c b Hc Hi Hg|s pcs i c Hc Hi Hg|s pcs i c b Hc Hi]; simpl in *.
  - exists order. simpl. rewrite length_insert. split_and!; [done|done| | |done].
    + intros j. destruct (decide (j = i)) as [->|Hne].
      * rewrite list_lookup_insert_eq by (by eapply lookup_lt_Some). rewrite Hord, Hi. done.
      * by rewrite list_lookup_insert_ne.
    + intros j b'. destruct (decide (j = i)) as [->|Hne].
      * rewrite list_lookup_insert_eq by (by eapply lookup_lt_Some). by intros [= <-].
      * rewrite list_lookup_insert_ne by done. by intros [? _]%Hread.
  - exists order. simpl. rewrite length_insert. split_and!; [done|done| | |done].
    + intros j. destruct (decide (j = i)) as [->|Hne].
      * rewrite list_lookup_insert_eq by (by eapply lookup_lt_Some). rewrite Hord, Hi. done.
      * by rewrite list_lookup_insert_ne.
    + intros j b'. destruct (decide (j = i)) as [->|Hne].
      * by rewrite list_lookup_insert_eq by (by eapply lookup_lt_Some).
      * rewrite list_lookup_insert_ne by done. by intros [? _]%Hread.
  - destruct (Hread i b Hi) as [_ Hg]. exists (order ++ [i]). simpl. rewrite length_insert.
    split_and!; [| | | |done].
    + unfold replay. rewrite foldl_snoc. change (foldl call_one s0 order) with (replay s0 order).
      rewrite <-Hs. unfold call_one. rewrite Hc. unfold UpdateBucketMetrics. by rewrite Hg.
    + apply NoDup_app. split_and!; [done| |apply NoDup_singleton].
      intros j Hj%Hord ->%list_elem_of_singleton. congruence.
    + intros j. rewrite elem_of_app, list_elem_of_singleton.
      destruct (decide (j = i)) as [->|Hne].
      * rewrite list_lookup_insert_eq by (by eapply lookup_lt_Some). naive_solver.
      * rewrite list_lookup_insert_ne by done. rewrite <-Hord. naive_solver.
    + intros j b'. destruct (decide (j = i)) as [->|Hne].
      * by rewrite list_lookup_insert_eq by (by eapply lookup_lt_Some).
      * rewrite list_lookup_insert_ne by done. intros [[= ->] _]%Hread. done.
Qed.

Lemma serial_reachable s0 ms : rtc mstep (mstart s0) ms → serial s0 ms.
Proof.
  assert (∀ a, rtc mstep a ms → serial s0 a → serial s0 ms) as Hgo.
  { intros a Hr. induction Hr as [|a b c Hab Hbc IH]; [done|]. intros Ha. apply IH. by eapply serial_step. }
  intros H. eapply Hgo; [exact H|apply serial_start].
Qed.

(** ** The sum of the updates *)

Definition sum_of (f : call → Z) (order : list nat) : Z :=
  foldr (λ i acc, from_option f 0 (calls !! i) + acc) 0 order.

Lemma sum_of_nonneg f order : Forall (λ c, 0 ≤ f c) calls → 0 ≤ sum_of f order.
Proof.
  intros Hf. induction order as [|i order IH]; simpl; [lia|].
  destruct (calls !! i) as [c|] eqn:E; simpl; [|lia]. rewrite Forall_lookup in Hf. specialize (Hf i c E). lia.
Qed.

Lemma sum_of_perm f order order' : order ≡ₚ order' → sum_of f order = sum_of f order'.
Proof. induction 1; simpl; lia. Qed.

Lemma add_clamped_nonneg c d : 0 ≤ c → 0 ≤ d → c + d < 2^63 → add_clamped c d = c + d.
Proof.
  intros Hc Hd Hs. destruct (add_clamped_spec c d) as [-> _]; [lia|unfold is_int64; lia|].
  rewrite (proj2 (Z.ltb_lt _ _) Hs). lia.
Qed.

Lemma call_one_stats s i c0 z0 :
  GetBucketStats s tenantID name = Ok (c0, z0) → 0 ≤ c0 → 0 ≤ z0 →
  Forall (λ c, 0 ≤ ca_count c) calls → Forall (λ c, 0 ≤ ca_size c) calls →
  c0 + sum_of ca_count [i] < 2^63 → z0 + sum_of ca_size [i] < 2^63 →
  GetBucketStats (call_one s i) tenantID name = Ok (c0 + sum_of ca_count [i], z0 + sum_of ca_size [i]).
Proof.
  intros Hs Hc Hz Hcs Hzs Hlc Hlz. unfold call_one. simpl in *.
  destruct (calls !! i) as [c|] eqn:E; simpl in *; [|by rewrite !Z.add_0_r].
  rewrite Forall_lookup in Hcs, Hzs. specialize (Hcs i c E). specialize (Hzs i c E). rewrite !Z.add_0_r in *.
  unfold GetBucketStats, GetBucket in Hs |- *. unfold UpdateBucketMetrics.
  destruct (pebbleGet s key) as [[o|b|u|p|]|] eqn:Hg; simpl in *; try done.
  injection Hs as Hs1 Hs2. unfold setNoSync. rewrite get_commitNoSync, Hg. simpl. rewrite decide_True by done. simpl.
  f_equal. f_equal.
  - change (add_clamped (bm_ObjectCount b) (ca_count c) = c0 + ca_count c). rewrite Hs1.
    by apply add_clamped_nonneg.
  - change (add_clamped (bm_TotalSize b) (ca_size c) = z0 + ca_size c). rewrite Hs2.
    by apply add_clamped_nonneg.
Qed.

Lemma replay_stats order s c0 z0 :
  GetBucketStats s tenantID name = Ok (c0, z0) → 0 ≤ c0 → 0 ≤ z0 →
  Forall (λ c, 0 ≤ ca_count c) calls → Forall (λ c, 0 ≤ ca_size c) calls →
  c0 + sum_of ca_count order < 2^63 → z0 + sum_of ca_size order < 2^63 →
  GetBucketStats (replay s order) tenantID name = Ok (c0 + sum_of ca_count order, z0 + sum_of ca_size order).
Proof.
  revert s c0 z0. induction order as [|i order IH]; intros s c0 z0 Hs Hc Hz Hcs Hzs Hlc Hlz.
  { simpl. by rewrite !Z.add_0_r. }
  pose proof (sum_of_nonneg ca_count order Hcs). pose proof (sum_of_nonneg ca_size order Hzs).
  pose proof (sum_of_nonneg ca_count [i] Hcs). pose proof (sum_of_nonneg ca_size [i] Hzs).
  change (sum_of ca_count (i :: order)) with (from_option ca_count 0 (calls !! i) + sum_of ca_count order) in *.
  change (sum_of ca_size (i :: order)) with (from_option ca_size 0 (calls !! i) + sum_of ca_size order) in *.
  assert (sum_of ca_count [i] = from_option ca_count 0 (calls !! i)) as E1 by (simpl; lia).
  assert (sum_of ca_size [i] = from_option ca_size 0 (calls !! i)) as E2 by (simpl; lia).
  change (replay s (i :: order)) with (replay (call_one s i) order).
  rewrite (IH _ (c0 + sum_of ca_count [i]) (z0 + sum_of ca_size [i])); try done; try lia.
  - do 2 f_equal; lia.
  - apply call_one_stats; try done; lia.
Qed.

Definition total (f : call → Z) : Z := foldr (λ c acc, f c + acc) 0 calls.

Lemma sum_of_all f : sum_of f (seq 0 (length calls)) = total f.
Proof.
  unfold total. assert (∀ (pre l : list call), calls = pre ++ l →
    sum_of f (seq (length pre) (length l)) = foldr (λ c acc, f c + acc) 0 l) as H.
  { intros pre l. revert pre. induction l as [|c l IH]; intros pre E; [done|]. simpl.
    rewrite E at 1. rewrite lookup_app_r, Nat.sub_diag by done. simpl. f_equal.
    specialize (IH (pre ++ [c])). rewrite length_app, Nat.add_1_r in IH. apply IH. by rewrite E, <-app_assoc. }
  by apply (H []).
Qed.

(** ** Property *)

(** C10: however calls with non-negative deltas interleave, when all of them
    have returned without an error the counters are the initial ones plus the
    sum of all deltas, as long as that is a 64-bit number: no update is lost. *)
Theorem metrics_no_lost_update s0 ms c0 z0 :
  GetBucketStats s0 tenantID name = Ok (c0, z0) → 0 ≤ c0 → 0 ≤ z0 →
  Forall (λ c, 0 ≤ ca_count c) calls → Forall (λ c, 0 ≤ ca_size c) calls →
  c0 + total ca_count < 2^63 → z0 + total ca_size < 2^63 →
  rtc mstep (mstart s0) ms → Forall (λ p, p = PcDone None) (ms_pc ms) →
  GetBucketStats (ms_store ms) tenantID name = Ok (c0 + total ca_count, z0 + total ca_size).
Proof.
  intros Hs Hc Hz Hcs Hzs Hlc Hlz Hr Hdone.
  destruct (serial_reachable s0 ms Hr) as (order & -> & Hnd & Hord & _ & Hlen).
  assert (order ≡ₚ seq 0 (length calls)) as Hperm.
  { apply NoDup_Permutation; [done|apply NoDup_seq|]. intros i. rewrite Hord, elem_of_seq. split.
    - intros Hi%lookup_lt_Some. lia.
    - intros [_ Hi]. destruct (lookup_lt_is_Some_2 (ms_pc ms) i) as [p Hp]; [lia|].
      rewrite Forall_lookup in Hdone. rewrite Hp. f_equal. by eapply Hdone. }
  assert (∀ f, sum_of f order = total f) as Esum.
  { intros f. rewrite (sum_of_perm f _ _ Hperm). apply sum_of_all. }
  rewrite <-(Esum ca_count), <-(Esum ca_size) in *. by apply replay_stats.
Qed.
End Race.

Arguments mkMS {DB} _ _ _.
Arguments ms_store {DB} _.
Arguments ms_pc {DB} _.

(** ** Witness and races *)

Definition two_calls : list call := [mkCall 3 1 10; mkCall 4 2 20].

Lemma metrics_no_lost_update_witness :
  ∃ ms, rtc (mstep "t1" "photos" two_calls) (mstart two_calls bucket_store) ms ∧
    GetBucketStats (ms_store ms) "t1" "photos" = Ok (6, 130).
Proof.
  assert (∃ ms, rtc (mstep "t1" "photos" two_calls) (mstart two_calls bucket_store) ms ∧
    Forall (λ p, p = PcDone None) (ms_pc ms)) as (ms & Hr & Hd).
  { eexists. split.
    - eapply rtc_l; [eapply (M_read _ _ _ _ _ 1%nat); try reflexivity; vm_compute; reflexivity|].
      eapply rtc_l; [eapply (M_write _ _ _ _ _ 1%nat); reflexivity|].
      eapply rtc_l; [eapply (M_read _ _ _ _ _ 0%nat); try reflexivity; vm_compute; reflexivity|].
      eapply rtc_l; [eapply (M_write _ _ _ _ _ 0%nat); reflexivity|]. apply rtc_refl.
    - repeat constructor. }
  exists ms. split; [exact Hr|].
  refine (metrics_no_lost_update "t1" "photos" two_calls bucket_store ms 3 100 _ _ _ _ _ _ _ Hr Hd).
  - vm_compute. reflexivity.
  - lia.
  - lia.
  - repeat constructor; simpl; lia.
  - repeat constructor; simpl; lia.
  - simpl. lia.
  - simpl. lia.
Defined.

(** A metrics update that has read the record when the bucket is deleted
    writes the record back: the deleted bucket exists again. *)
Example delete_race :
  ∃ ms, rtc (mstep_env "t1" "photos" two_calls) (mstart two_calls empty_bucket_store) ms ∧
    (∃ s', DeleteBucket empty_bucket_store "t1" "photos" = Ok s' ∧ BucketExists s' "t1" "photos" = false) ∧
    BucketExists (ms_store ms) "t1" "photos" = true.
Proof.
  eexists. split; [|split].
  - eapply rtc_l; [apply M_call; eapply (M_read _ _ _ _ _ 0%nat); try reflexivity; vm_compute; reflexivity|].
    eapply rtc_l; [apply M_delete; vm_compute; reflexivity|].
    eapply rtc_l; [apply M_call; eapply (M_write _ _ _ _ _ 0%nat); reflexivity|]. apply rtc_refl.
  - eexists. split; vm_compute; reflexivity.
  - vm_compute. reflexivity.
Qed.

(** An [UpdateBucket] between the read and the write is undone: the bucket was
    made public, and is not any more. *)
Example update_race :
  ∃ ms b, rtc (mstep_env "t1" "photos" two_calls) (mstart two_calls empty_bucket_store) ms ∧
    (∃ s' b', UpdateBucket 9 empty_bucket_store (Some (sample_bucket <| bm_IsPublic := true |>)) = Ok (s', b') ∧
       GetBucket s' "t1" "photos" = Ok b' ∧ bm_IsPublic b' = true) ∧
    GetBucket (ms_store ms) "t1" "photos" = Ok b ∧ bm_IsPublic b = false.
Proof.
  eexists _, _. split; [|split; [|split]].
  - eapply rtc_l; [apply M_call; eapply (M_read _ _ _ _ _ 0%nat); try reflexivity; vm_compute; reflexivity|].
    eapply rtc_l; [eapply (M_update _ _ _ 9 (sample_bucket <| bm_IsPublic := true |>)); vm_compute; reflexivity|].
    eapply rtc_l; [apply M_call; eapply (M_write _ _ _ _ _ 0%nat); reflexivity|]. apply rtc_refl.
  - eexists _, _. split_and!; vm_compute; reflexivity.
  - vm_compute. reflexivity.
  - reflexivity.
Qed.
