(* ===== verification/NetIP.v ===== *)
(** * Go's [net] addresses, as far as the policy evaluator uses them

    [ParseIP], [ParseCIDR], [IPNet.Contains] and [IP.Equal] of the standard
    library.  An address is its 16-byte form as a number below [2^128]; an IPv4
    address is the mapped one [::ffff:a.b.c.d], which is what [ParseIP]
    returns for it.  A network is the address, the prefix length and whether
    the text was IPv4 (a 4-byte mask) or IPv6 (a 16-byte mask).

    [ToLower] and [EqualFold] are the standard library's on ASCII text. *)

From S2P Require Import Prelude GoStrings MetaTypes.
From stdpp Require Import base list strings.
From Stdlib Require Import ZArith Lia.
Open Scope Z_scope.

(** ** ASCII case *)

Definition byte_of (a : Ascii.ascii) : Z := Z.of_N (Ascii.N_of_ascii a).
Definition lower_ascii (a : Ascii.ascii) : Ascii.ascii :=
  if (65 <=? byte_of a) && (byte_of a <=? 90) then Ascii.ascii_of_N (Ascii.N_of_ascii a + 32) else a.
Fixpoint ToLower (s : string) : string :=
  match s with "" => "" | String a s => String (lower_ascii a) (ToLower s) end.
Definition EqualFold (s t : string) : bool := String.eqb (ToLower s) (ToLower t).

(** ** Parsing *)

Definition dec_digit (a : Ascii.ascii) : option Z :=
  if (48 <=? byte_of a) && (byte_of a <=? 57) then Some (byte_of a - 48) else None.
Definition hex_digit (a : Ascii.ascii) : option Z :=
  if (48 <=? byte_of a) && (byte_of a <=? 57) then Some (byte_of a - 48)
  else if (97 <=? byte_of a) && (byte_of a <=? 102) then Some (byte_of a - 87)
  else if (65 <=? byte_of a) && (byte_of a <=? 70) then Some (byte_of a - 55)
  else None.

(** [parseIPv4Fields]: [val] and [digLen] are the current octet, [fields] the
    finished ones. *)
Fixpoint ipv4_fields (val : Z) (digLen : nat) (fields : list Z) (s : string) : option (list Z) :=
  match s with
  | "" => if (length fields =? 3)%nat && negb (digLen =? 0)%nat then Some (fields ++ [val]) else None
  | String a s =>
      match dec_digit a with
      | Some d =>
          if (digLen =? 1)%nat && (val =? 0) then None
          else let val := val * 10 + d in
               if 255 <? val then None else ipv4_fields val (S digLen) fields s
      | None =>
          if bool_decide (a = "."%char) && negb (digLen =? 0)%nat && negb (length fields =? 3)%nat
          then ipv4_fields 0 0 (fields ++ [val]) s else None
      end
  end.
Definition parse_ipv4 (s : string) : option (list Z) := ipv4_fields 0 0 [] s.

(** The hex digits at the head of [s]: value, how many, what follows; more than
    four is an error. *)
Fixpoint hex_group (acc : Z) (off : nat) (s : string) : option (Z * nat * string) :=
  match s with
  | String a s' =>
      match hex_digit a with
      | Some d => if (3 <? off)%nat then None else hex_group (acc * 16 + d) (S off) s'
      | None => Some (acc, off, s)
      end
  | "" => Some (acc, off, "")
  end.

(** The loop of [parseIPv6]: [ip] are the bytes read so far, [ellipsis] where
    [::] was seen.  A round reads at least one group, so nine rounds are more
    than enough for 16 bytes. *)
Fixpoint ipv6_loop (fuel : nat) (ip : list Z) (ellipsis : option nat) (s : string)
    : option (list Z * option nat * string) :=
  match fuel with
  | O => None
  | S fuel =>
      if (16 <=? length ip)%nat then Some (ip, ellipsis, s)
      else
        match hex_group 0 0 s with
        | None => None
        | Some (acc, off, rest) =>
            if (off =? 0)%nat then None
            else
              match rest with
              | String "." _ =>
                  if (match ellipsis with None => negb (length ip =? 12)%nat | Some _ => false end)
                     || (16 <? length ip + 4)%nat then None
                  else match parse_ipv4 s with
                       | Some v4 => Some (ip ++ v4, ellipsis, "")
                       | None => None
                       end
              | _ =>
                  let ip := ip ++ [acc / 256; acc mod 256] in
                  match rest with
                  | "" => Some (ip, ellipsis, "")
                  | String ":" "" => None
                  | String ":" (String ":" s) =>
                      match ellipsis with
                      | Some _ => None
                      | None => if bool_decide (s = "") then Some (ip, Some (length ip), "")
                                else ipv6_loop fuel ip (Some (length ip)) s
                      end
                  | String ":" s => ipv6_loop fuel ip ellipsis s
                  | _ => None
                  end
              end
        end
  end.

Definition ipv6_expand (ip : list Z) (ellipsis : option nat) : option (list Z) :=
  if (length ip <? 16)%nat
  then match ellipsis with
       | None => None
       | Some e => Some (take e ip ++ replicate (16 - length ip) 0 ++ drop e ip)
       end
  else match ellipsis with Some _ => None | None => Some ip end.

(** A zone is accepted by [netip.ParseAddr] but rejected by both callers. *)
Definition parse_ipv6 (s : string) : option (list Z) :=
  if Contains s "%" then None
  else
    let '(ellipsis, s) :=
      match s with String ":" (String ":" s') => (Some 0%nat, s') | _ => (None, s) end in
    if bool_decide (ellipsis = Some 0%nat) && bool_decide (s = "") then Some (replicate 16 0)
    else match ipv6_loop 9 [] ellipsis s with
         | Some (ip, ellipsis, "") => ipv6_expand ip ellipsis
         | _ => None
         end.

(** [netip.ParseAddr]: the first [.], [:] or [%] decides. *)
Fixpoint addr_kind (s : string) : option bool :=
  match s with
  | "" => None
  | String "." _ => Some true
  | String ":" _ => Some false
  | String "%" _ => None
  | String _ s => addr_kind s
  end.

Definition bytes_value (bs : list Z) : Z := foldl (λ acc b, acc * 256 + b) 0 bs.
Definition v4_mapped : Z := 65535 * 2^32.
Definition v4_addr (bs : list Z) : Z := v4_mapped + bytes_value bs.

(** The address and whether its text was IPv4. *)
Definition ParseAddr (s : string) : option (Z * bool) :=
  match addr_kind s with
  | Some true => (λ bs, (v4_addr bs, true)) <$> parse_ipv4 s
  | Some false => (λ bs, (bytes_value bs, false)) <$> parse_ipv6 s
  | None => None
  end.

Definition ParseIP (s : string) : option Z := fst <$> ParseAddr s.

(** [dtoi]: the whole string must be decimal digits, below [0xFFFFFF]. *)
Fixpoint dtoi (n : Z) (s : string) : option Z :=
  match s with
  | "" => Some n
  | String a s =>
      match dec_digit a with
      | Some d => let n := n * 10 + d in if 16777215 <=? n then None else dtoi n s
      | None => None
      end
  end.

Record IPNet := mkNet { net_addr : Z; net_bits : Z; net_v4 : bool }.

Definition ParseCIDR (s : string) : option IPNet :=
  match Index s "/" with
  | None => None
  | Some i =>
      match ParseAddr (s_to i s) with
      | None => None
      | Some (addr, v4) =>
          let mask := s_from (i + 1) s in
          match (if bool_decide (mask = "") then None else dtoi 0 mask) with
          | None => None
          | Some n => if (if v4 : bool then 32 else 128) <? n then None else Some (mkNet addr n v4)
          end
      end
  end.

(** [ip.To4()] *)
Definition To4 (ip : Z) : option Z := if ip / 2^32 =? 65535 then Some (ip mod 2^32) else None.

(** The first [n] of [w] bits. *)
Definition top_bits (w n ip : Z) : Z := Z.shiftr ip (w - n).

(** [network.Contains(ip)]: a 4-byte network compares the IPv4 bits; a 16-byte
    mask on a mapped address keeps its last four bytes when the masked address
    is still a mapped one, which takes 96 bits at least. *)
Definition net_contains (n : IPNet) (ip : Z) : bool :=
  if net_v4 n then
    match To4 ip with
    | Some y => top_bits 32 (net_bits n) (net_addr n mod 2^32) =? top_bits 32 (net_bits n) y
    | None => false
    end
  else
    let masked := Z.shiftl (top_bits 128 (net_bits n) (net_addr n)) (128 - net_bits n) in
    match To4 masked, To4 ip with
    | Some x, Some y => top_bits 32 (net_bits n - 96) x =? top_bits 32 (net_bits n - 96) y
    | None, None => top_bits 128 (net_bits n) (net_addr n) =? top_bits 128 (net_bits n) ip
    | _, _ => false
    end.

Example parse_v4 : ParseIP "10.0.0.7" = Some (v4_mapped + 10 * 2^24 + 7).
Proof. vm_compute. reflexivity. Qed.
Example parse_v4_leading_zero : ParseIP "10.0.0.07" = None.
Proof. vm_compute. reflexivity. Qed.
Example parse_v6 : ParseIP "2001:db8::1" = Some (0x20010db8 * 2^96 + 1).
Proof. vm_compute. reflexivity. Qed.
Example parse_v6_mapped : ParseIP "::ffff:10.0.0.7" = ParseIP "10.0.0.7".
Proof. vm_compute. reflexivity. Qed.
Example parse_v6_short : ParseIP "1:2:3" = None.
Proof. vm_compute. reflexivity. Qed.

(** ** Bounds of what is parsed *)

Lemma byte_of_range a : 0 ≤ byte_of a < 256.
Proof. unfold byte_of. pose proof (Ascii.N_ascii_bounded a). lia. Qed.

Lemma ipv4_fields_bytes val n fields s bs :
  ipv4_fields val n fields s = Some bs →
  0 ≤ val ≤ 255 → Forall (λ b, 0 ≤ b ≤ 255) fields →
  length bs = 4%nat ∧ Forall (λ b, 0 ≤ b ≤ 255) bs.
Proof.
  revert val n fields. induction s as [|a s IH]; intros val n fields H Hv Hf; cbn in H.
  - destruct (_ && _) eqn:E; [|done]. injection H as <-.
    apply andb_prop in E as [E%Nat.eqb_eq _]. rewrite length_app, E.
    split; [done|]. apply Forall_app. split; [done|]. by constructor.
  - destruct (dec_digit a) as [d|] eqn:Ed.
    + destruct (_ && _); [done|]. destruct (255 <? val * 10 + d) eqn:El; [done|].
      apply (IH _ _ _ H); [|done]. apply Z.ltb_ge in El. unfold dec_digit in Ed.
      destruct (_ && _) eqn:E; [|done]. injection Ed as <-.
      apply andb_prop in E as [E1%Z.leb_le E2%Z.leb_le]. lia.
    + destruct (_ && _); [|done]. apply (IH _ _ _ H); [lia|].
      apply Forall_app. split; [done|]. by constructor.
Qed.

Lemma parse_ipv4_addr s bs : parse_ipv4 s = Some bs → v4_mapped ≤ v4_addr bs < v4_mapped + 2^32.
Proof.
  intros H. destruct (ipv4_fields_bytes 0 0 [] s bs H) as [Hl Hb]; [lia|constructor|].
  destruct bs as [|a [|b [|c [|d [|]]]]]; try done.
  rewrite !Forall_cons in Hb. unfold v4_addr, bytes_value. simpl. lia.
Qed.

Lemma dtoi_nonneg n s m : dtoi n s = Some m → 0 ≤ n → 0 ≤ m.
Proof.
  revert n. induction s as [|a s IH]; intros n H Hn; cbn in H; [by injection H as <-|].
  destruct (dec_digit a) as [d|] eqn:Ed; [|done]. destruct (_ <=? _); [done|].
  apply (IH _ H). unfold dec_digit in Ed. destruct (_ && _) eqn:E; [|done]. injection Ed as <-.
  apply andb_prop in E as [E1%Z.leb_le E2%Z.leb_le]. lia.
Qed.

Lemma ParseCIDR_v4 s n :
  ParseCIDR s = Some n → net_v4 n = true →
  v4_mapped ≤ net_addr n < v4_mapped + 2^32 ∧ 0 ≤ net_bits n ≤ 32.
Proof.
  unfold ParseCIDR. destruct (Index s "/") as [i|]; [|done].
  destruct (ParseAddr (s_to i s)) as [[addr v4]|] eqn:EA; [|done].
  destruct (if bool_decide (s_from (i + 1) s = "") then None else dtoi 0 (s_from (i + 1) s))
    as [m|] eqn:Em; [|done].
  destruct (_ <? m) eqn:El; [done|]. intros [= <-] E. simpl in *. subst v4.
  apply Z.ltb_ge in El. split.
  - unfold ParseAddr in EA. destruct (addr_kind _) as [[]|]; [| |done].
    + destruct (parse_ipv4 _) as [bs|] eqn:Eb; [|done]. injection EA as <-. by eapply parse_ipv4_addr.
    + by destruct (parse_ipv6 _).
  - split; [|done]. case_bool_decide; [done|]. by eapply dtoi_nonneg.
Qed.

(** An IPv4 network is an interval of IPv4 addresses. *)
Lemma net_contains_range n ip :
  net_v4 n = true → v4_mapped ≤ net_addr n < v4_mapped + 2^32 → 0 ≤ net_bits n ≤ 32 →
  let size := 2^(32 - net_bits n) in
  let base := net_addr n - net_addr n mod size in
  net_contains n ip = true ↔ base ≤ ip < base + size.
Proof.
  intros Hv Ha Hb size base. unfold net_contains, To4, top_bits. rewrite Hv, !Z.shiftr_div_pow2 by lia.
  fold size. assert (0 < size) as Hs by (apply Z.pow_pos_nonneg; lia).
  assert (2^32 = 2^net_bits n * size) as Hm.
  { unfold size. rewrite <-Z.pow_add_r by lia. f_equal. lia. }
  set (k := 2^net_bits n) in *. assert (0 < k) as Hk by (apply Z.pow_pos_nonneg; lia).
  assert (base = size * (net_addr n / size)) as Hbase.
  { unfold base. pose proof (Z.div_mod (net_addr n) size ltac:(lia)). lia. }
  assert (∀ x, (x mod 2^32) / size = x / size - x / 2^32 * k) as Hmod.
  { intros x. rewrite Z.mod_eq by lia. rewrite Hm at 1.
    replace (x - k * size * (x / 2 ^ 32)) with (x + (- (k * (x / 2^32))) * size) by ring.
    rewrite Z.div_add by lia. ring. }
  assert (net_addr n / 2^32 = 65535) as Hn.
  { symmetry. apply (Z.div_unique_pos _ _ _ (net_addr n - v4_mapped)); unfold v4_mapped in *; lia. }
  assert (base ≤ ip < base + size ↔ ip / size = net_addr n / size) as ->.
  { rewrite Hbase. split.
    - intros ?. symmetry. apply (Z.div_unique_pos _ _ _ (ip - size * (net_addr n / size))); lia.
    - intros <-. pose proof (Z.div_mod ip size ltac:(lia)). pose proof (Z.mod_pos_bound ip size Hs). lia. }
  assert (∀ x, x / 2^32 = x / size / k) as Hdd.
  { intros x. rewrite Z.div_div by lia. f_equal. lia. }
  destruct (ip / 2^32 =? 65535) eqn:E.
  - apply Z.eqb_eq in E. rewrite Z.eqb_eq, !Z.shiftr_div_pow2 by lia. fold size. rewrite !Hmod, Hn, E. lia.
  - apply Z.eqb_neq in E. split; [done|]. intros H. destruct E. by rewrite Hdd, H, <-Hdd.
Qed.
