(* ===== verification/Policy.v ===== *)
(** * Bucket policies ([internal/bucket/policy_evaluation.go])

    The evaluator of bucket policies: which statements match a request, and
    the decision they give.  A decoded JSON value is an [iface]; a Go map that
    the code only ranges over, or looks a key up in, is the list of its
    bindings in some iteration order, and the theorems hold for every order.

    Matching is specified declaratively: an action or resource pattern is a
    literal or a literal prefix followed by [*], a [StringLike] pattern is
    [glob], and the decision is AWS's - an explicit deny wins over any allow,
    and without an allow the answer is no. *)

From S2P Require Import Prelude GoStrings MetaTypes NetIP.
From stdpp Require Import base list strings.
From Stdlib Require Import ZArith Lia.
Open Scope Z_scope.

Record PolicyEvaluationRequest := mkRequest {
  rq_Principal : string;
  rq_Action : string;
  rq_Resource : string;
  rq_Bucket : string;
  rq_SourceIP : string;
  rq_SecureTransport : bool;
  rq_RequestContext : list (string * string)
}.

Record Statement := mkStmt {
  st_Sid : string;
  st_Effect : string;
  st_Principal : iface;
  st_Action : iface;
  st_Resource : iface;
  st_Condition : list (string * iface)
}.
Record Policy := mkPol { pol_Version : string; pol_Statement : list Statement }.

Inductive PolicyDecision := DecisionDeny | DecisionAllow | DecisionExplicitDeny.
#[export] Instance PolicyDecision_eq_dec : EqDecision PolicyDecision.
Proof. solve_decision. Defined.

(** ** Principals, actions, resources *)

(** [m[key]] *)
Fixpoint map_get (key : string) (m : list (string * iface)) : option iface :=
  match m with
  | [] => None
  | (k, v) :: m => if String.eqb k key then Some v else map_get key m
  end.

(** The strings of a [[]interface{}]. *)
Definition as_string (v : iface) : option string := match v with IString s => Some s | _ => None end.

Definition matchesPrincipalValue (principalValue : iface) (requestPrincipal : string) : bool :=
  match principalValue with
  | IString v => if String.eqb v "*" then true else String.eqb v requestPrincipal
  | IList v => existsb (λ item, match as_string item with
                                | Some str => String.eqb str "*" || String.eqb str requestPrincipal
                                | None => false
                                end) v
  | IStrings v => existsb (λ str, String.eqb str "*" || String.eqb str requestPrincipal) v
  | _ => false
  end.

Definition principalMatches (principal : iface) (requestPrincipal : string) : bool :=
  match principal with
  | INil => false
  | IString p => if String.eqb p "*" then true else String.eqb p requestPrincipal
  | IMap p =>
      match map_get "AWS" p with
      | Some awsPrincipal => matchesPrincipalValue awsPrincipal requestPrincipal
      | None =>
          match map_get "CanonicalUser" p with
          | Some canonicalUser => matchesPrincipalValue canonicalUser requestPrincipal
          | None => false
          end
      end
  | _ => false
  end.

Definition matchAction (policyAction requestAction : string) : bool :=
  if String.eqb policyAction requestAction then true
  else if String.eqb policyAction "*" || String.eqb policyAction "s3:*" then true
  else if HasSuffix policyAction "*" then HasPrefix requestAction (TrimSuffix policyAction "*")
  else false.

Definition actionMatches (action : iface) (requestAction : string) : bool :=
  match action with
  | IString a => matchAction a requestAction
  | IList a => existsb (λ item, match as_string item with
                                | Some str => matchAction str requestAction
                                | None => false
                                end) a
  | IStrings a => existsb (λ str, matchAction str requestAction) a
  | _ => false
  end.

Definition arn_prefix : string := "arn:aws:s3:::".

Definition normalizeResourceARN (resource bucketName : string) : string :=
  if HasPrefix resource arn_prefix then resource
  else if String.eqb resource bucketName then arn_prefix +:+ bucketName
  else if HasPrefix resource (bucketName +:+ "/") then arn_prefix +:+ resource
  else if HasPrefix resource bucketName then arn_prefix +:+ resource
  else resource.

Definition matchResource (policyResource requestResource bucketName : string) : bool :=
  if String.eqb policyResource requestResource then true
  else if String.eqb policyResource "*" then true
  else
    let normalizedPolicy := normalizeResourceARN policyResource bucketName in
    let normalizedRequest := normalizeResourceARN requestResource bucketName in
    if String.eqb normalizedPolicy normalizedRequest then true
    else if HasSuffix normalizedPolicy "/*" &&
            HasPrefix normalizedRequest (TrimSuffix normalizedPolicy "/*" +:+ "/") then true
    else HasSuffix normalizedPolicy "*" && negb (HasSuffix normalizedPolicy "/*") &&
         HasPrefix normalizedRequest (TrimSuffix normalizedPolicy "*").

Definition resourceMatches (resource : iface) (requestResource bucketName : string) : bool :=
  match resource with
  | IString r => matchResource r requestResource bucketName
  | IList r => existsb (λ item, match as_string item with
                                | Some str => matchResource str requestResource bucketName
                                | None => false
                                end) r
  | IStrings r => existsb (λ str, matchResource str requestResource bucketName) r
  | _ => false
  end.

(** ** Conditions *)

Fixpoint ctx_get (key : string) (m : list (string * string)) : option string :=
  match m with
  | [] => None
  | (k, v) :: m => if String.eqb k key then Some v else ctx_get key m
  end.
Fixpoint ctx_get_fold (lk : string) (m : list (string * string)) : option string :=
  match m with
  | [] => None
  | (k, v) :: m => if String.eqb (ToLower k) lk then Some v else ctx_get_fold lk m
  end.

Definition resolveConditionKey (key : string) (req : PolicyEvaluationRequest) : string :=
  if String.eqb (ToLower key) "aws:sourceip" then rq_SourceIP req
  else if String.eqb (ToLower key) "aws:securetransport"
  then if rq_SecureTransport req then "true" else "false"
  else
    match ctx_get key (rq_RequestContext req) with
    | Some v => v
    | None => match ctx_get_fold (ToLower key) (rq_RequestContext req) with Some v => v | None => "" end
    end.

(** The loop of [wildcardMatch]: [p] and [s] are [pattern[pi:]] and [s[si:]];
    [star] holds [pattern[starIdx+1:]] and [s[matchIdx:]] once a star was met. *)
Fixpoint all_stars (p : string) : bool :=
  match p with
  | String "*" p => all_stars p
  | "" => true
  | _ => false
  end.

Fixpoint wildcard_loop (fuel : nat) (p s : string) (star : option (string * string)) : option bool :=
  match fuel with
  | O => None
  | S fuel =>
      match s with
      | "" => Some (all_stars p)
      | String c s' =>
          let backtrack :=
            match star with
            | Some (sp, ms) => wildcard_loop fuel sp (s_from 1 ms) (Some (sp, s_from 1 ms))
            | None => Some false
            end in
          match p with
          | "" => backtrack
          | String a p' =>
              if bool_decide (a = "?"%char) || bool_decide (a = c) then wildcard_loop fuel p' s' star
              else if bool_decide (a = "*"%char) then wildcard_loop fuel p' s (Some (p', s))
              else backtrack
          end
      end
  end.

Definition wildcard_fuel (pattern s : string) : nat := (len s + 2) * (len pattern + len s + 2).

Definition wildcardMatch (pattern s : string) : option bool :=
  if String.eqb pattern "*" then Some true
  else if String.eqb pattern s then Some true
  else wildcard_loop (wildcard_fuel pattern s) pattern s None.

Definition wildcard (pattern s : string) : bool :=
  match wildcardMatch pattern s with Some b => b | None => false end.

Definition ipMatchesCIDR (ip : Z) (cidr : string) : bool :=
  match ParseCIDR cidr with
  | Some network => net_contains network ip
  | None =>
      match ParseIP cidr with
      | Some other => ip =? other
      | None => false
      end
  end.

Definition toStringSlice (v : iface) : list string :=
  match v with
  | IString val => [val]
  | IList val => omap as_string val
  | IStrings val => val
  | _ => []
  end.

Definition any (test : string → bool) (expectedValues : list string) : bool := existsb test expectedValues.
Definition none (test : string → bool) (expectedValues : list string) : bool := negb (existsb test expectedValues).

Definition evaluateOperator (operator requestValue : string) (expected : iface) : bool :=
  let expectedValues := toStringSlice expected in
  if bool_decide (expectedValues = []) then false
  else
    let op := ToLower operator in
    let isop (name : string) := String.eqb op name in
    if isop "stringequals" then any (String.eqb requestValue) expectedValues
    else if isop "stringnotequals" then none (String.eqb requestValue) expectedValues
    else if isop "stringequalsignorecase" then any (EqualFold requestValue) expectedValues
    else if isop "stringnotequalsignorecase" then none (EqualFold requestValue) expectedValues
    else if isop "stringlike" then any (λ v, wildcard v requestValue) expectedValues
    else if isop "stringnotlike" then none (λ v, wildcard v requestValue) expectedValues
    else if isop "bool" then any (EqualFold requestValue) expectedValues
    else if isop "ipaddress" then
      match ParseIP requestValue with
      | None => false
      | Some ip => any (ipMatchesCIDR ip) expectedValues
      end
    else if isop "notipaddress" then
      match ParseIP requestValue with
      | None => false
      | Some ip => none (ipMatchesCIDR ip) expectedValues
      end
    else if isop "arnequals" || isop "arnlike" then any (λ v, wildcard v requestValue) expectedValues
    else if isop "arnnotequals" || isop "arnnotlike" then none (λ v, wildcard v requestValue) expectedValues
    else if isop "numericequals" then any (String.eqb requestValue) expectedValues
    else if isop "numericnotequals" then none (String.eqb requestValue) expectedValues
    else false.

Definition conditionMatches (condition : list (string * iface)) (req : PolicyEvaluationRequest) : bool :=
  forallb (λ oc, match oc.2 with
                 | IMap kvMap =>
                     forallb (λ kv, evaluateOperator oc.1 (resolveConditionKey kv.1 req) kv.2) kvMap
                 | _ => false
                 end) condition.

(** ** Decisions *)

Definition statementMatches (statement : Statement) (request : PolicyEvaluationRequest) : bool :=
  if negb (principalMatches (st_Principal statement) (rq_Principal request)) then false
  else if negb (actionMatches (st_Action statement) (rq_Action request)) then false
  else if negb (resourceMatches (st_Resource statement) (rq_Resource request) (rq_Bucket request)) then false
  else if negb (conditionMatches (st_Condition statement) request) then false
  else true.

(** The loop over the statements, with its two flags. *)
Fixpoint statements_loop (request : PolicyEvaluationRequest) (hasExplicitAllow : bool)
    (statements : list Statement) : bool * bool :=
  match statements with
  | [] => (hasExplicitAllow, false)
  | statement :: statements =>
      if negb (statementMatches statement request) then statements_loop request hasExplicitAllow statements
      else if String.eqb (st_Effect statement) "Allow" then statements_loop request true statements
      else if String.eqb (st_Effect statement) "Deny" then (hasExplicitAllow, true)
      else statements_loop request hasExplicitAllow statements
  end.

Definition EvaluatePolicy (policy : option Policy) (request : PolicyEvaluationRequest) : PolicyDecision :=
  match policy with
  | None => DecisionDeny
  | Some policy =>
      if bool_decide (pol_Statement policy = []) then DecisionDeny
      else
        let '(hasExplicitAllow, hasExplicitDeny) := statements_loop request false (pol_Statement policy) in
        if hasExplicitDeny : bool then DecisionExplicitDeny
        else if hasExplicitAllow : bool then DecisionAllow else DecisionDeny
  end.

Definition IsActionAllowed (policy : option Policy) (request : PolicyEvaluationRequest) : bool :=
  bool_decide (EvaluatePolicy policy request = DecisionAllow).

(** ** The wildcard language

    [glob p s]: [*] stands for any bytes, [?] for one byte. *)

Inductive glob : string → string → Prop :=
| glob_nil : glob "" ""
| glob_star_stop p s : glob p s → glob (String "*" p) s
| glob_star_more p a s : glob (String "*" p) s → glob (String "*" p) (String a s)
| glob_any p a s : glob p s → glob (String "?" p) (String a s)
| glob_char a p s : a ≠ "*"%char → glob p s → glob (String a p) (String a s).

Create HintDb glob.
#[export] Hint Constructors glob : glob.

Lemma glob_same a p s : glob p s → glob (String a p) (String a s).
Proof. intros H. destruct (decide (a = "*"%char)) as [->|]; auto with glob. Qed.
#[export] Hint Resolve glob_same : glob.

Lemma glob_refl s : glob s s.
Proof. induction s; auto with glob. Qed.

Lemma glob_star_all s : glob "*" s.
Proof. induction s; auto with glob. Qed.
#[export] Hint Resolve glob_refl glob_star_all : glob.

Lemma glob_star_app p x s : glob (String "*" p) s → glob (String "*" p) (x +:+ s).
Proof. induction x; rewrite ?app_cons_str; auto with glob. Qed.

Lemma glob_star_inv p s : glob (String "*" p) s → ∃ x y, s = x +:+ y ∧ glob p y.
Proof.
  remember (String "*" p) as q eqn:E. induction 1 as [|p' s H|p' a s H IH|p' a s H|a p' s Ha H]; try done.
  - injection E as ->. by exists "", s.
  - destruct (IH E) as (x & y & -> & Hy). by exists (String a x), y.
  - congruence.
Qed.

(** Below a character that is not a star the match is forced. *)
Lemma glob_cons_inv a p s :
  a ≠ "*"%char → glob (String a p) s → ∃ b s', s = String b s' ∧ (a = "?"%char ∨ a = b) ∧ glob p s'.
Proof. intros Ha H. inversion H; subst; eauto 10; done. Qed.

Lemma glob_nil_inv s : glob "" s → s = "".
Proof. by inversion 1. Qed.

Lemma glob_all_stars p : glob p "" ↔ all_stars p = true.
Proof.
  split.
  - remember "" as s eqn:E. induction 1; by auto.
  - induction p as [|a p IH]; [auto with glob|]. simpl.
    destruct a as [[] [] [] [] [] [] [] []]; try done. auto with glob.
Qed.

(** *** [wildcardMatch] against it *)

Lemma wildcard_loop_sound fuel p s star :
  wildcard_loop fuel p s star = Some true →
  glob p s ∨ ∃ sp ms, star = Some (sp, ms) ∧ glob (String "*" sp) ms.
Proof.
  revert p s star. induction fuel as [|fuel IH]; intros p s star; [done|]. cbn [wildcard_loop].
  destruct s as [|c s]; [intros [= H]; left; by apply glob_all_stars|].
  set (back := match star with Some _ => _ | None => _ end).
  assert (back = Some true → ∃ sp ms, star = Some (sp, ms) ∧ glob (String "*" sp) ms) as Hback.
  { subst back. destruct star as [[sp ms]|]; [|done]. intros H. exists sp, ms. split; [done|].
    assert (glob (String "*" sp) (s_from 1 ms)) as Hg.
    { apply IH in H as [H|(? & ? & [= <- <-] & H)]; auto with glob. }
    destruct ms as [|m ms]; [done|]. simpl in Hg. auto with glob. }
  clearbody back. destruct p as [|a p]; [eauto|].
  destruct (bool_decide (a = "?"%char) || bool_decide (a = c)) eqn:E.
  - intros [H|H]%IH; [|by right]. left. apply orb_prop in E as [E|E];
      apply bool_decide_eq_true in E; subst; auto with glob.
  - destruct (bool_decide_reflect (a = "*"%char)) as [->|]; [|eauto]. intros [H|(? & ? & [= <- <-] & H)]%IH; auto with glob.
Qed.

(** What the loop has matched since the last star: the same number of
    characters of the pattern, none of them a star. *)
Inductive forced : string → string → string → string → Prop :=
| forced_nil p s : forced p s p s
| forced_cons a b sp ms p s :
    a ≠ "*"%char → forced sp ms p s → forced (String a sp) (String b ms) p s.
#[export] Hint Constructors forced : glob.

Lemma forced_snoc sp ms a p c s :
  a ≠ "*"%char → forced sp ms (String a p) (String c s) → forced sp ms p s.
Proof.
  intros Ha. remember (String a p) as p0 eqn:Ep. remember (String c s) as s0 eqn:Es.
  induction 1; subst; auto with glob.
Qed.

Lemma forced_glob sp ms p s : forced sp ms p s → glob sp ms → glob p s.
Proof.
  induction 1 as [|a b sp ms p s Ha _ IH]; [done|].
  intros (b' & s' & [= <- <-] & _ & H)%glob_cons_inv; auto.
Qed.

(** A match of the pattern after the star further on leaves a match of the
    remaining pattern in a suffix of the remaining subject. *)
Lemma forced_glob_later sp ms p s x y :
  forced sp ms p s → ms = x +:+ y → glob sp y → ∃ x' y', s = x' +:+ y' ∧ glob p y'.
Proof.
  intros H. revert x y. induction H as [|a b sp ms p s Ha _ IH]; intros x y E Hg; [eauto|].
  destruct (glob_cons_inv _ _ _ Ha Hg) as (b' & s' & -> & _ & Hg').
  destruct x as [|b0 x].
  - rewrite app_nil_l_str in E. injection E as <- ->. by apply (IH "" s').
  - rewrite app_cons_str in E. injection E as <- ->.
    apply (IH (x +:+ String b' "") s'); [|done]. by rewrite app_assoc_str.
Qed.

Definition loop_inv (p s : string) (star : option (string * string)) : Prop :=
  match star with
  | None => glob p s
  | Some (sp, ms) => forced sp ms p s ∧ glob (String "*" sp) ms
  end.

Lemma lacks_from c n s : lacks c s = true → lacks c (s_from n s) = true.
Proof. rewrite <-(s_to_from n s) at 1. rewrite lacks_app. by intros [_ ?]%andb_prop. Qed.

Lemma loop_inv_nil p star : loop_inv p "" star → glob p "".
Proof.
  destruct star as [[sp ms]|]; [|done]. intros [Hf (x & y & -> & Hy)%glob_star_inv].
  destruct (forced_glob_later _ _ _ _ x y Hf eq_refl Hy) as (x' & y' & E & Hp).
  destruct x'; [|done]. by rewrite app_nil_l_str in E; subst.
Qed.

Lemma loop_inv_star p s star : loop_inv (String "*" p) s star → loop_inv p s (Some (p, s)).
Proof.
  intros H. split; [apply forced_nil|]. destruct star as [[sp ms]|]; [|done].
  destruct H as [Hf (x & y & -> & Hy)%glob_star_inv].
  destruct (forced_glob_later _ _ _ _ x y Hf eq_refl Hy) as (x' & y' & -> & Hp). by apply glob_star_app.
Qed.

Lemma loop_inv_step a p c s star :
  a ≠ "*"%char → loop_inv (String a p) (String c s) star → loop_inv p s star.
Proof.
  intros Ha. destruct star as [[sp ms]|]; simpl.
  - intros [Hf Hg]. split; [by eapply forced_snoc|done].
  - intros (? & ? & [= <- <-] & _ & H)%glob_cons_inv; done.
Qed.

Lemma loop_inv_back p s sp ms :
  ¬ glob p s → loop_inv p s (Some (sp, ms)) → loop_inv sp (s_from 1 ms) (Some (sp, s_from 1 ms)).
Proof.
  intros Hn [Hf (x & y & -> & Hy)%glob_star_inv]. split; [apply forced_nil|].
  destruct x as [|b x]; [by destruct Hn; eapply forced_glob|].
  rewrite app_cons_str. simpl. apply glob_star_app. auto with glob.
Qed.

Definition star_lacks (star : option (string * string)) : Prop :=
  match star with None => True | Some (_, ms) => lacks "*" ms = true end.

Lemma wildcard_loop_complete fuel p s star b :
  lacks "*" s = true → star_lacks star → loop_inv p s star →
  wildcard_loop fuel p s star = Some b → b = true.
Proof.
  revert p s star. induction fuel as [|fuel IH]; intros p s star Hs Hms Hinv; [done|].
  cbn [wildcard_loop]. destruct s as [|c s].
  { intros [= <-]. by eapply glob_all_stars, loop_inv_nil. }
  pose proof Hs as [Hc Hs']%lacks_cons.
  set (back := match star with Some _ => _ | None => _ end).
  assert (¬ glob p (String c s) → back = Some b → b = true) as Hback.
  { subst back. intros Hn. destruct star as [[sp ms]|]; [|by destruct Hn].
    apply IH; [by apply lacks_from..|]. by eapply loop_inv_back. }
  clearbody back. destruct p as [|a p]; [apply Hback; by inversion 1|].
  destruct (bool_decide (a = "?"%char) || bool_decide (a = c)) eqn:E.
  - apply IH; [done..|]. eapply loop_inv_step; [|done]. intros ->.
    apply orb_prop in E as [E|E]; apply bool_decide_eq_true in E; congruence.
  - apply orb_false_iff in E as [E1%bool_decide_eq_false E2%bool_decide_eq_false].
    destruct (bool_decide_reflect (a = "*"%char)) as [->|Ea].
    + apply IH; [done|done|]. by eapply loop_inv_star.
    + apply Hback. by intros (? & ? & [= <- <-] & [?|?] & _)%glob_cons_inv.
Qed.

(** The measure of the loop: a star moves or a longer one takes over, and
    between two such steps the subject is consumed. *)
Lemma wildcard_loop_returns fuel p s star (L n : nat) :
  match star with
  | None => len s ≤ L ∧ len p + L ≤ n
  | Some (sp, ms) => len p ≤ len sp ∧ len s ≤ len ms ∧ len ms ≤ L ∧ len sp + len ms ≤ n
  end%nat →
  (n * (L + 1) + len s < fuel)%nat → is_Some (wildcard_loop fuel p s star).
Proof.
  revert p s star n. induction fuel as [|fuel IH]; intros p s star n Hst Hf; [lia|].
  cbn [wildcard_loop]. destruct s as [|c s]; [eauto|].
  set (back := match star with Some _ => _ | None => _ end).
  assert (is_Some back) as Hback.
  { subst back. destruct star as [[sp ms]|]; [|eauto].
    destruct ms as [|m ms]; simpl in Hst; [lia|]. simpl.
    destruct n as [|n]; [lia|]. apply (IH _ _ _ n); simpl in *; lia. }
  clearbody back. destruct p as [|a p]; [done|].
  destruct (bool_decide (a = "?"%char) || bool_decide (a = c)).
  - apply (IH _ _ _ n); [|simpl in *; lia]. destruct star as [[sp ms]|]; simpl in *; lia.
  - destruct (bool_decide _); [|done]. destruct n as [|n]; [destruct star as [[sp ms]|]; simpl in *; lia|].
    apply (IH _ _ _ n); [|destruct star as [[sp ms]|]; simpl in *; lia].
    destruct star as [[sp ms]|]; simpl in *; lia.
Qed.

Lemma wildcardMatch_returns pattern s : wildcardMatch pattern s = Some (wildcard pattern s).
Proof.
  unfold wildcard. assert (is_Some (wildcardMatch pattern s)) as [b Hb]; [|by rewrite Hb].
  unfold wildcardMatch, wildcard_fuel. repeat case_match; eauto.
  apply (wildcard_loop_returns _ _ _ _ (len s) (len pattern + len s)); lia.
Qed.

(** C13: [wildcardMatch] returns for every pattern and subject.  When it
    answers yes the subject is in the pattern's language ([*] any bytes, [?] one
    byte), and for a subject without a literal [*] it answers yes on the whole
    language: committing to the latest star loses no match. *)
Theorem wildcardMatch_glob pattern s :
  ∃ b, wildcardMatch pattern s = Some b ∧
       (b = true → glob pattern s) ∧
       (lacks "*" s = true → (b = true ↔ glob pattern s)).
Proof.
  exists (wildcard pattern s). split; [apply wildcardMatch_returns|].
  assert (wildcard pattern s = true → glob pattern s) as Hsound.
  { intros H. pose proof (wildcardMatch_returns pattern s) as E. rewrite H in E. revert E.
    unfold wildcardMatch. destruct (String.eqb_spec pattern "*") as [->|]; [auto with glob|].
    destruct (String.eqb_spec pattern s) as [->|]; [auto with glob|].
    by intros [?|(? & ? & ? & _)]%wildcard_loop_sound. }
  split; [done|]. intros Hs. split; [done|]. intros Hg.
  pose proof (wildcardMatch_returns pattern s) as E. revert E.
  unfold wildcardMatch. repeat case_match; [congruence..|].
  by apply wildcard_loop_complete.
Qed.

(** A [*] in the subject is consumed literally by the pattern's star, which is
    then not available for backtracking. *)
Example wildcard_literal_star : wildcard "*b" "*ab" = false ∧ glob "*b" "*ab".
Proof. split; [vm_compute; reflexivity|]. repeat constructor; done. Qed.

(** ** What a statement matches

    The strings a principal stands for, and the patterns of actions and
    resources: a literal, or a literal prefix and a final [*]. *)

Definition principal_names (principal : iface) : list string :=
  match principal with
  | IString p => [p]
  | IMap p => match map_get "AWS" p with
              | Some v => toStringSlice v
              | None => match map_get "CanonicalUser" p with Some v => toStringSlice v | None => [] end
              end
  | _ => []
  end.

Definition prefix_pattern (pattern s : string) : Prop :=
  pattern = s ∨ ∃ pre, pattern = pre +:+ "*" ∧ HasPrefix s pre = true.

Lemma existsb_strings (f : string → bool) (vs : list iface) :
  existsb (λ item, match as_string item with Some str => f str | None => false end) vs
  = existsb f (omap as_string vs).
Proof. induction vs as [|v vs IH]; [done|]. cbn. destruct (as_string v); simpl; by rewrite IH. Qed.

Lemma existsb_elem {A} (f : A → bool) l : existsb f l = true ↔ ∃ x, x ∈ l ∧ f x = true.
Proof.
  rewrite existsb_exists. split; intros (x & ? & ?); exists x; by rewrite list_elem_of_In in *.
Qed.

Lemma principal_value_names v rp :
  matchesPrincipalValue v rp = existsb (λ str, String.eqb str "*" || String.eqb str rp) (toStringSlice v).
Proof.
  destruct v; try done; simpl.
  - rewrite orb_false_r. by destruct (String.eqb _ "*").
  - by rewrite <-existsb_strings.
Qed.

Lemma principalMatches_names p rp :
  principalMatches p rp = true ↔ ∃ n, n ∈ principal_names p ∧ (n = "*" ∨ n = rp).
Proof.
  assert (principalMatches p rp = existsb (λ str, String.eqb str "*" || String.eqb str rp) (principal_names p)) as ->.
  { destruct p as [| | | | | |p]; try done; cbn [principalMatches principal_names].
    - cbn. rewrite orb_false_r. by destruct (String.eqb _ "*").
    - destruct (map_get "AWS" p); [apply principal_value_names|].
      destruct (map_get "CanonicalUser" p); [apply principal_value_names|done]. }
  rewrite existsb_elem. by setoid_rewrite orb_true_iff; setoid_rewrite String.eqb_eq.
Qed.

Lemma actionMatches_strings a ra :
  actionMatches a ra = true ↔ ∃ n, n ∈ toStringSlice a ∧ matchAction n ra = true.
Proof.
  rewrite <-existsb_elem. destruct a; simpl; try done.
  - by rewrite orb_false_r.
  - by rewrite <-existsb_strings.
Qed.

Lemma resourceMatches_strings r rr b :
  resourceMatches r rr b = true ↔ ∃ n, n ∈ toStringSlice r ∧ matchResource n rr b = true.
Proof.
  rewrite <-existsb_elem. destruct r; simpl; try done.
  - by rewrite orb_false_r.
  - by rewrite <-existsb_strings.
Qed.

Lemma TrimSuffix_app p x : TrimSuffix (p +:+ x) x = p.
Proof.
  unfold TrimSuffix. rewrite HasSuffix_app, length_app_str.
  replace (len p + len x - len x)%nat with (len p) by lia. apply s_to_app.
Qed.

Lemma suffix_test pattern x s :
  HasSuffix pattern x && HasPrefix s (TrimSuffix pattern x) = true ↔
  ∃ pre, pattern = pre +:+ x ∧ HasPrefix s pre = true.
Proof.
  rewrite andb_true_iff. split.
  - intros [[pre ->]%HasSuffix_spec H]. rewrite TrimSuffix_app in H. eauto.
  - intros (pre & -> & H). by rewrite TrimSuffix_app, HasSuffix_app.
Qed.

Lemma matchAction_pattern pa ra :
  matchAction pa ra = true ↔ pa = "s3:*" ∨ prefix_pattern pa ra.
Proof.
  unfold matchAction, prefix_pattern. rewrite <-suffix_test.
  destruct (String.eqb_spec pa ra) as [->|]; [tauto|].
  destruct (String.eqb_spec pa "*") as [->|]; simpl.
  - split; [intros _|done]. right. right. apply HasPrefix_empty.
  - destruct (String.eqb_spec pa "s3:*") as [->|]; [tauto|].
    destruct (HasSuffix pa "*"); simpl; [tauto|]. split; [done|]. by intros [?|[?|?]].
Qed.

(** [/*] is the pattern of the prefix that ends in the slash. *)
Lemma slash_star_test pattern s :
  HasSuffix pattern "/*" && HasPrefix s (TrimSuffix pattern "/*" +:+ "/") = true →
  ∃ pre, pattern = pre +:+ "*" ∧ HasPrefix s pre = true.
Proof.
  intros [[pre ->]%HasSuffix_spec H]%andb_prop. rewrite TrimSuffix_app in H.
  exists (pre +:+ "/"). by rewrite app_assoc_str.
Qed.

Lemma matchResource_pattern pr rr b :
  matchResource pr rr b = true ↔
  pr = "*" ∨ prefix_pattern (normalizeResourceARN pr b) (normalizeResourceARN rr b).
Proof.
  unfold matchResource. destruct (String.eqb_spec pr rr) as [->|_]; [by split; [right; left|]|].
  destruct (String.eqb_spec pr "*") as [->|Hne]; [tauto|].
  set (np := normalizeResourceARN pr b). set (nr := normalizeResourceARN rr b).
  unfold prefix_pattern. destruct (String.eqb_spec np nr) as [->|Hn]; [tauto|].
  destruct (_ && HasPrefix nr (TrimSuffix np "/*" +:+ "/")) eqn:E1.
  { split; [intros _|done]. right. right. by apply slash_star_test. }
  rewrite <-suffix_test. destruct (HasSuffix np "/*") eqn:E2; simpl.
  - rewrite andb_false_r. simpl in *. split; [done|]. intros [?|[?|H]]; [done..|].
    apply HasSuffix_spec in E2 as [pre E2]. rewrite E2, TrimSuffix_app in E1.
    apply andb_prop in H as [_ H]. rewrite E2 in H.
    change (pre +:+ "/*") with (pre +:+ ("/" +:+ "*")) in H.
    rewrite <-app_assoc_str, TrimSuffix_app in H. congruence.
  - rewrite andb_true_r. split; [by right; right|]. intros [?|[?|?]]; done.
Qed.

(** C33: A statement applies to a request exactly when one of the principals it
    names is the caller or [*], one of its action patterns is [s3:*] or covers
    the action, one of its resource patterns is [*] or covers the resource once
    both are in ARN form, and every condition holds; a list that holds no
    string never matches. *)
Theorem statementMatches_spec st rq :
  statementMatches st rq = true ↔
  (∃ p, p ∈ principal_names (st_Principal st) ∧ (p = "*" ∨ p = rq_Principal rq)) ∧
  (∃ a, a ∈ toStringSlice (st_Action st) ∧ (a = "s3:*" ∨ prefix_pattern a (rq_Action rq))) ∧
  (∃ r, r ∈ toStringSlice (st_Resource st) ∧
        (r = "*" ∨ prefix_pattern (normalizeResourceARN r (rq_Bucket rq))
                                  (normalizeResourceARN (rq_Resource rq) (rq_Bucket rq)))) ∧
  (∀ op block, (op, block) ∈ st_Condition st →
     ∃ kvs, block = IMap kvs ∧
            ∀ k v, (k, v) ∈ kvs → evaluateOperator op (resolveConditionKey k rq) v = true).
Proof.
  setoid_rewrite <-matchAction_pattern. setoid_rewrite <-matchResource_pattern.
  rewrite <-principalMatches_names, <-actionMatches_strings, <-resourceMatches_strings.
  assert (conditionMatches (st_Condition st) rq = true ↔
          ∀ op block, (op, block) ∈ st_Condition st →
            ∃ kvs, block = IMap kvs ∧
              ∀ k v, (k, v) ∈ kvs → evaluateOperator op (resolveConditionKey k rq) v = true) as <-.
  { unfold conditionMatches. rewrite forallb_forall. split.
    - intros H op block Hin. specialize (H (op, block)). rewrite <-list_elem_of_In in H.
      specialize (H Hin). simpl in H. destruct block; try done. eexists; split; [done|].
      intros k v Hkv. rewrite forallb_forall in H. apply (H (k, v)). by apply list_elem_of_In.
    - intros H [op block] Hin%list_elem_of_In. destruct (H op block Hin) as (kvs & -> & Hk). simpl.
      apply forallb_forall. intros [k v] Hkv%list_elem_of_In. by apply Hk. }
  unfold statementMatches.
  destruct (principalMatches _ _), (actionMatches _ _), (resourceMatches _ _ _), (conditionMatches _ _);
    simpl; naive_solver.
Qed.

Lemma statements_loop_spec rq acc sts :
  let applies e st := st ∈ sts ∧ st_Effect st = e ∧ statementMatches st rq = true in
  ((statements_loop rq acc sts).2 = true ↔ ∃ st, applies "Deny" st) ∧
  ((statements_loop rq acc sts).2 = false →
   ((statements_loop rq acc sts).1 = true ↔ acc = true ∨ ∃ st, applies "Allow" st)).
Proof.
  revert acc. induction sts as [|st sts IH]; intros acc; cbn.
  { split; [|intros _]; split; try done; [by intros (? & ?%not_elem_of_nil & _)|by left|].
    intros [?|(? & ?%not_elem_of_nil & _)]; done. }
  setoid_rewrite elem_of_cons. destruct (statementMatches st rq) eqn:E; cbn.
  2: { destruct (IH acc) as [IH1 IH2]. split; [rewrite IH1|intros H; rewrite (IH2 H)]; naive_solver congruence. }
  destruct (String.eqb_spec (st_Effect st) "Allow") as [Ea|Ea].
  { destruct (IH true) as [IH1 IH2].
    split; [rewrite IH1|intros H; rewrite (IH2 H)]; naive_solver congruence. }
  destruct (String.eqb_spec (st_Effect st) "Deny") as [Ed|Ed]; [naive_solver|].
  destruct (IH acc) as [IH1 IH2]. split; [rewrite IH1|intros H; rewrite (IH2 H)]; naive_solver congruence.
Qed.

(** C11: Policy evaluation is AWS's: the decision is an explicit deny exactly
    when some Deny statement of the policy applies, an allow exactly when none
    does and some Allow statement applies, and the implicit deny otherwise, in
    particular without a policy; [IsActionAllowed] is the allow.  The order of
    the statements plays no part, although evaluation stops at the first deny. *)
Theorem EvaluatePolicy_spec policy rq :
  let sts := match policy with Some p => pol_Statement p | None => [] end in
  let applies e := ∃ st, st ∈ sts ∧ st_Effect st = e ∧ statementMatches st rq = true in
  (EvaluatePolicy policy rq = DecisionExplicitDeny ↔ applies "Deny") ∧
  (EvaluatePolicy policy rq = DecisionAllow ↔ ¬ applies "Deny" ∧ applies "Allow") ∧
  (EvaluatePolicy policy rq = DecisionDeny ↔ ¬ applies "Deny" ∧ ¬ applies "Allow") ∧
  (IsActionAllowed policy rq = true ↔ ¬ applies "Deny" ∧ applies "Allow").
Proof.
  intros sts applies.
  assert (∀ e, sts = [] → ¬ applies e) as Hnil.
  { intros e E (st & H & _). rewrite E in H. by apply not_elem_of_nil in H. }
  assert (EvaluatePolicy policy rq =
          let '(a, d) := statements_loop rq false sts in
          if d : bool then DecisionExplicitDeny else if a : bool then DecisionAllow else DecisionDeny) as HE.
  { subst sts. destruct policy as [[ver [|st ss]]|]; done. }
  unfold IsActionAllowed. rewrite bool_decide_eq_true, HE.
  destruct (statements_loop_spec rq false sts) as [H1 H2]. fold (applies "Deny") in H1.
  fold (applies "Allow") in H2. destruct (statements_loop rq false sts) as [[] []]; simpl in *;
    intuition congruence.
Qed.

(** *** Condition operators *)

(** The negated operators, in the lower case the code compares. *)
Definition negated : list (string * string) :=
  [("stringequals", "stringnotequals"); ("stringequalsignorecase", "stringnotequalsignorecase");
   ("stringlike", "stringnotlike"); ("arnequals", "arnnotequals"); ("arnlike", "arnnotlike");
   ("numericequals", "numericnotequals"); ("ipaddress", "notipaddress")].

Lemma evaluateOperator_lower op op' v e :
  ToLower op = ToLower op' → evaluateOperator op v e = evaluateOperator op' v e.
Proof. intros H. unfold evaluateOperator. by rewrite H. Qed.

(** C34: Each negated operator is the complement of the one it negates, in any
    letter case, on a condition that lists some string - except that neither
    IP operator holds when the request's address does not parse, so a
    [NotIpAddress] deny does not apply to a caller of unknown address.  With no
    string to compare to, no operator holds. *)
Theorem evaluateOperator_negated op nop v e :
  (ToLower op, ToLower nop) ∈ negated →
  (toStringSlice e = [] → evaluateOperator op v e = false ∧ evaluateOperator nop v e = false) ∧
  (toStringSlice e ≠ [] → ToLower op ≠ "ipaddress" ∨ ParseIP v ≠ None →
     evaluateOperator nop v e = negb (evaluateOperator op v e)) ∧
  (ToLower op = "ipaddress" → ParseIP v = None →
     evaluateOperator op v e = false ∧ evaluateOperator nop v e = false).
Proof.
  intros Hin. unfold evaluateOperator. destruct (toStringSlice e) as [|x xs] eqn:E.
  { rewrite bool_decide_true by done. split_and!; done. }
  rewrite bool_decide_false by done. generalize (ToLower op), (ToLower nop), Hin. clear.
  intros o n Hin. unfold negated in Hin. rewrite !elem_of_cons in Hin.
  split; [done|].
  repeat (destruct Hin as [[= -> ->]|Hin];
    [cbn [String.eqb Ascii.eqb Bool.eqb orb]; split;
     [intros _ Hip; unfold none, any; try done; (destruct (ParseIP v); [done|by destruct Hip])
     |intros Hip Hv; try done; by rewrite Hv]|]).
  by apply not_elem_of_nil in Hin.
Qed.

Lemma evaluateOperator_negated_witness :
  ((ToLower "StringLike", ToLower "StringNotLike") ∈ negated) ∧
  evaluateOperator "StringNotLike" "home/bob/x" (IStrings ["home/amy/*"; "pub/*"])
  = negb (evaluateOperator "StringLike" "home/bob/x" (IStrings ["home/amy/*"; "pub/*"])).
Proof.
  assert ((ToLower "StringLike", ToLower "StringNotLike") ∈ negated) as Hin
    by (apply (bool_decide_eq_true_1 _); vm_compute; reflexivity).
  split; [exact Hin|].
  apply (proj2 (evaluateOperator_negated "StringLike" "StringNotLike" "home/bob/x"
           (IStrings ["home/amy/*"; "pub/*"]) Hin)); [discriminate|left; discriminate].
Defined.

(** C35: An [IpAddress] condition on an IPv4 network [a.b.c.d/n] holds exactly
    for the [2^(32-n)] addresses of the aligned block that contains [a.b.c.d];
    a [NotIpAddress] one holds for the addresses outside it. *)
Theorem ipaddress_range op v ip cidr n :
  ParseIP v = Some ip → ParseCIDR cidr = Some n → net_v4 n = true →
  let size := 2^(32 - net_bits n) in
  let base := net_addr n - net_addr n mod size in
  (ToLower op = "ipaddress" →
     (evaluateOperator op v (IString cidr) = true ↔ base ≤ ip < base + size)) ∧
  (ToLower op = "notipaddress" →
     (evaluateOperator op v (IString cidr) = true ↔ ¬ (base ≤ ip < base + size))).
Proof.
  intros Hip Hc Hv size base. destruct (ParseCIDR_v4 _ _ Hc Hv) as [Ha Hb].
  pose proof (net_contains_range n ip Hv Ha Hb) as H. fold size base in H.
  unfold evaluateOperator, any, none. rewrite bool_decide_false by done.
  split; intros ->; cbn [String.eqb Ascii.eqb Bool.eqb orb]; rewrite Hip; simpl;
    unfold ipMatchesCIDR; rewrite Hc, orb_false_r; [done|].
  rewrite negb_true_iff, <-not_true_iff_false. apply not_iff_compat. exact H.
Qed.

Lemma ipaddress_range_witness :
  ∃ ip n, ParseIP "10.1.2.200" = Some ip ∧ ParseCIDR "10.1.2.129/25" = Some n ∧ net_v4 n = true ∧
    (evaluateOperator "IpAddress" "10.1.2.200" (IString "10.1.2.129/25") = true ↔
     net_addr n - net_addr n mod 2^7 ≤ ip < net_addr n - net_addr n mod 2^7 + 2^7).
Proof.
  exists (v4_mapped + 10 * 2^24 + 2^16 + 2 * 2^8 + 200), (mkNet (v4_mapped + 10 * 2^24 + 2^16 + 2 * 2^8 + 129) 25 true).
  split; [vm_compute; reflexivity|]. split; [vm_compute; reflexivity|]. split; [reflexivity|].
  exact (proj1 (ipaddress_range "IpAddress" "10.1.2.200" _ "10.1.2.129/25"
           (mkNet (v4_mapped + 10 * 2^24 + 2^16 + 2 * 2^8 + 129) 25 true)
           ltac:(vm_compute; reflexivity) ltac:(vm_compute; reflexivity) eq_refl) eq_refl).
Defined.

(** *** What "fail safe" does in a deny statement

    A condition that cannot be evaluated makes its statement not apply.  For an
    allow that is the safe side; for a deny the request goes through. *)

Definition open_policy (deny_condition : list (string * iface)) : Policy :=
  mkPol "2012-10-17"
    [mkStmt "a" "Allow" (IString "*") (IString "s3:*") (IString "*") [];
     mkStmt "d" "Deny" (IString "*") (IString "s3:*") (IString "*") deny_condition].
Definition from_ip (ip : string) : PolicyEvaluationRequest :=
  mkRequest "u" "s3:GetObject" "arn:aws:s3:::b/k" "b" ip true [].
Definition outside_office : list (string * iface) :=
  [("NotIpAddress", IMap [("aws:SourceIp", IString "10.0.0.0/8")])].

Example deny_outside_office :
  EvaluatePolicy (Some (open_policy outside_office)) (from_ip "192.168.1.1") = DecisionExplicitDeny ∧
  EvaluatePolicy (Some (open_policy outside_office)) (from_ip "10.0.0.9") = DecisionAllow.
Proof. split; vm_compute; reflexivity. Qed.
Example deny_unknown_ip_allows :
  EvaluatePolicy (Some (open_policy outside_office)) (from_ip "") = DecisionAllow.
Proof. vm_compute. reflexivity. Qed.
Example deny_unknown_operator_allows :
  EvaluatePolicy (Some (open_policy [("NumericLessThan", IMap [("s3:max-keys", IString "100")])]))
    (from_ip "10.0.0.9") = DecisionAllow.
Proof. vm_compute. reflexivity. Qed.
