(* ===== verification/Breaker.v ===== *)
(** * The circuit breaker of cluster calls ([internal/cluster/circuit_breaker.go])

    A [CircuitBreaker] is a state machine of three states and two counters;
    each method runs under the breaker's mutex, so it is one step.  [Call] takes
    two of them, [allowRequest] before the function and [recordFailure] or
    [recordSuccess] after it, and the steps of concurrent calls interleave: a
    history is any list of [op]s.  The manager hands out pointers to breakers;
    [heap] is the store they point into.

    Times are nanoseconds; [time.Since] saturates as Go's [Sub] does. *)

From S2P Require Import Prelude GoStrings MetaTypes.
From stdpp Require Import base gmap list strings.
From Stdlib Require Import ZArith Lia.
Open Scope Z_scope.

Inductive CircuitBreakerState := StateClosed | StateOpen | StateHalfOpen.
#[export] Instance CircuitBreakerState_eq_dec : EqDecision CircuitBreakerState.
Proof. solve_decision. Defined.

Definition state_string (s : CircuitBreakerState) : string :=
  match s with StateClosed => "closed" | StateOpen => "open" | StateHalfOpen => "half-open" end.

Record CircuitBreaker := mkCB {
  failureThreshold : Z;
  successThreshold : Z;
  timeout : Z;
  state : CircuitBreakerState;
  failures : Z;
  successes : Z;
  lastFailureTime : time;
  nodeID : string
}.
#[export] Instance CircuitBreaker_eta : Eta CircuitBreaker := λ cb,
  mkCB (failureThreshold cb) (successThreshold cb) (timeout cb) (state cb) (failures cb)
    (successes cb) (lastFailureTime cb) (nodeID cb).

(** [time.Since(t)] at [now] *)
Abbreviation since := time_sub.

Definition NewCircuitBreaker (nodeID : string) (failureThreshold successThreshold timeout : Z) : CircuitBreaker :=
  mkCB failureThreshold successThreshold timeout StateClosed 0 0 zero_time nodeID.

Definition allowRequest (now : time) (cb : CircuitBreaker) : bool * CircuitBreaker :=
  match state cb with
  | StateClosed => (true, cb)
  | StateOpen =>
      if timeout cb <? since now (lastFailureTime cb)
      then (true, cb <| state := StateHalfOpen |> <| successes := 0 |>)
      else (false, cb)
  | StateHalfOpen => (true, cb)
  end.

Definition recordFailure (now : time) (cb : CircuitBreaker) : CircuitBreaker :=
  let cb := cb <| failures := failures cb + 1 |> <| lastFailureTime := now |> in
  match state cb with
  | StateClosed =>
      if failureThreshold cb <=? failures cb
      then cb <| state := StateOpen |> <| failures := 0 |> else cb
  | StateHalfOpen => cb <| state := StateOpen |> <| failures := 0 |> <| successes := 0 |>
  | StateOpen => cb
  end.

Definition recordSuccess (cb : CircuitBreaker) : CircuitBreaker :=
  match state cb with
  | StateClosed => cb <| failures := 0 |>
  | StateHalfOpen =>
      let cb := cb <| successes := successes cb + 1 |> in
      if successThreshold cb <=? successes cb
      then cb <| state := StateClosed |> <| failures := 0 |> <| successes := 0 |> else cb
  | StateOpen => cb
  end.

Definition Reset (cb : CircuitBreaker) : CircuitBreaker :=
  cb <| state := StateClosed |> <| failures := 0 |> <| successes := 0 |>.

Definition GetState (cb : CircuitBreaker) : CircuitBreakerState := state cb.

Definition getTimeUntilRetry (now : time) (cb : CircuitBreaker) : Z :=
  if bool_decide (state cb ≠ StateOpen) then 0
  else
    let remaining := timeout cb - since now (lastFailureTime cb) in
    if remaining <? 0 then 0 else remaining.

(** [fn] run by [Call]: its error, if any, and the time at which it returned. *)
Inductive call_error := ErrCircuitOpen | FnError (msg : string).

Definition Call (now : time) (fn : time * option string) (cb : CircuitBreaker)
    : option call_error * CircuitBreaker :=
  let '(allowed, cb) := allowRequest now cb in
  if negb allowed then (Some ErrCircuitOpen, cb)
  else
    match fn with
    | (done, Some err) => (Some (FnError err), recordFailure done cb)
    | (_, None) => (None, recordSuccess cb)
    end.

(** ** Histories *)

Inductive op :=
| OpAllow (now : time)
| OpFailure (now : time)
| OpSuccess
| OpReset.

Definition step (cb : CircuitBreaker) (o : op) : CircuitBreaker :=
  match o with
  | OpAllow now => (allowRequest now cb).2
  | OpFailure now => recordFailure now cb
  | OpSuccess => recordSuccess cb
  | OpReset => Reset cb
  end.
Definition runs (cb : CircuitBreaker) (os : list op) : CircuitBreaker := foldl step cb os.

(** The calls of a thread, one after the other. *)
Definition calls (cb : CircuitBreaker) (cs : list (time * (time * option string))) : CircuitBreaker :=
  foldl (λ cb c, (Call c.1 c.2 cb).2) cb cs.

(** *** Specification automaton

    What the breaker promises, without counters: the run of consecutive
    failures since the breaker was last closed or answered a success, and the
    run of successes of the current trial. *)

Inductive spec :=
| Closed (fails : nat)
| Open (since_t : time)
| Trial (oks : nat).

Definition spec_step (F S : nat) (T : Z) (s : spec) (o : op) : spec :=
  match s, o with
  | Closed f, OpFailure t => if decide (f + 1 < F)%nat then Closed (f + 1) else Open t
  | Closed _, OpSuccess => Closed 0
  | Open t, OpAllow now => if decide (T < since now t) then Trial 0 else Open t
  | Open _, OpFailure t => Open t
  | Trial _, OpFailure t => Open t
  | Trial n, OpSuccess => if decide (n + 1 < S)%nat then Trial (n + 1) else Closed 0
  | _, OpReset => Closed 0
  | s, _ => s
  end.

Definition spec_allows (T : Z) (s : spec) (now : time) : bool :=
  match s with Open t => bool_decide (T < since now t) | _ => true end.

(** The refinement: the counters a state uses hold the run's length. *)
Definition refines (s : spec) (cb : CircuitBreaker) : Prop :=
  match s with
  | Closed f => state cb = StateClosed ∧ failures cb = Z.of_nat f
  | Open t => state cb = StateOpen ∧ lastFailureTime cb = t
  | Trial n => state cb = StateHalfOpen ∧ successes cb = Z.of_nat n
  end.

Definition configured (cb : CircuitBreaker) (F S : nat) (T : Z) : Prop :=
  failureThreshold cb = Z.of_nat F ∧ successThreshold cb = Z.of_nat S ∧ timeout cb = T.

(** ** The manager

    [CircuitBreakerManager] with the breakers it points to; a pointer is an
    index into [heap]. *)

Record CircuitBreakerManager := mkCBM {
  breakers : gmap string nat;
  cbm_failureThreshold : Z;
  cbm_successThreshold : Z;
  cbm_timeout : Z;
  heap : list CircuitBreaker
}.
#[export] Instance CircuitBreakerManager_eta : Eta CircuitBreakerManager := λ m,
  mkCBM (breakers m) (cbm_failureThreshold m) (cbm_successThreshold m) (cbm_timeout m) (heap m).

Definition NewCircuitBreakerManager (failureThreshold successThreshold timeout : Z) : CircuitBreakerManager :=
  mkCBM ∅ failureThreshold successThreshold timeout [].

(** [GetBreaker] under the read lock, and again under the write lock. *)
Definition lookup_breaker (cbm : CircuitBreakerManager) (nodeID : string) : option nat := breakers cbm !! nodeID.
Definition create_breaker (cbm : CircuitBreakerManager) (nodeID : string) : nat * CircuitBreakerManager :=
  match breakers cbm !! nodeID with
  | Some breaker => (breaker, cbm)
  | None =>
      let breaker := length (heap cbm) in
      (breaker,
       cbm <| heap := heap cbm ++ [NewCircuitBreaker nodeID (cbm_failureThreshold cbm)
                                    (cbm_successThreshold cbm) (cbm_timeout cbm)] |>
           <| breakers := <[nodeID := breaker]> (breakers cbm) |>)
  end.
Definition GetBreaker (cbm : CircuitBreakerManager) (nodeID : string) : nat * CircuitBreakerManager :=
  match lookup_breaker cbm nodeID with
  | Some breaker => (breaker, cbm)
  | None => create_breaker cbm nodeID
  end.

Definition RemoveBreaker (cbm : CircuitBreakerManager) (nodeID : string) : CircuitBreakerManager :=
  cbm <| breakers := delete nodeID (breakers cbm) |>.

(** An operation through a pointer. *)
Definition on_breaker (cbm : CircuitBreakerManager) (p : nat) (f : CircuitBreaker → CircuitBreaker) : CircuitBreakerManager :=
  cbm <| heap := alter f p (heap cbm) |>.

Definition ResetAll (cbm : CircuitBreakerManager) : CircuitBreakerManager :=
  foldl (λ m p, on_breaker m p Reset) cbm ((map_to_list (breakers cbm)).*2).

(** Concurrent [GetBreaker] calls, one per element of [nodes], interleaved with
    operations on the breakers handed out. *)
Inductive get_pc := GetStart | GetMissed | GetDone (breaker : nat).

Inductive get_step (nodes : list string) :
    CircuitBreakerManager * list get_pc → CircuitBreakerManager * list get_pc → Prop :=
| Get_hit m pcs i n p :
    nodes !! i = Some n → pcs !! i = Some GetStart → lookup_breaker m n = Some p →
    get_step nodes (m, pcs) (m, <[i := GetDone p]> pcs)
| Get_miss m pcs i n :
    nodes !! i = Some n → pcs !! i = Some GetStart → lookup_breaker m n = None →
    get_step nodes (m, pcs) (m, <[i := GetMissed]> pcs)
| Get_create m pcs i n :
    nodes !! i = Some n → pcs !! i = Some GetMissed →
    get_step nodes (m, pcs) ((create_breaker m n).2, <[i := GetDone (create_breaker m n).1]> pcs)
| Get_use m pcs p o :
    get_step nodes (m, pcs) (on_breaker m p (λ cb, step cb o), pcs)
| Get_reset m pcs :
    get_step nodes (m, pcs) (ResetAll m, pcs).

(** ** The breaker refines its specification *)

Lemma step_configured cb o F S T : configured cb F S T → configured (step cb o) F S T.
Proof.
  intros H. destruct cb as [f s t st fl sc lf id], o; cbn; unfold allowRequest, recordFailure, recordSuccess, configured, update in *;
    destruct st; cbn in *; try (destruct (_ <? _)); try (destruct (_ <=? _)); done.
Qed.

Lemma step_nodeID cb o : nodeID (step cb o) = nodeID cb.
Proof.
  destruct cb as [f s t st fl sc lf id], o; cbn; unfold allowRequest, recordFailure, recordSuccess, update;
    destruct st; cbn; try (destruct (_ <? _)); try (destruct (_ <=? _)); done.
Qed.

Lemma step_refines F S T s cb o :
  configured cb F S T → refines s cb → refines (spec_step F S T s o) (step cb o).
Proof.
  intros (HF & HS & HT) H. destruct cb as [f sc t st fl su lf id]. cbn in HF, HS, HT. subst f sc t.
  destruct s as [n|t|n], o as [now|now| |]; cbn in H; destruct H as [-> ->]; try done; cbn.
  - unfold recordFailure, update. cbn. destruct (Z.leb_spec (Z.of_nat F) (Z.of_nat n + 1)); case_decide; cbn; first [done|lia|split; [done|lia]].
  - unfold allowRequest, update. cbn. destruct (Z.ltb_spec T (since now t)); case_decide; cbn; first [done|lia].
  - unfold recordSuccess, update. cbn. destruct (Z.leb_spec (Z.of_nat S) (Z.of_nat n + 1)); case_decide; cbn; first [done|lia|split; [done|lia]].
Qed.

Lemma allow_refines F S T s cb now :
  configured cb F S T → refines s cb → (allowRequest now cb).1 = spec_allows T s now.
Proof.
  intros (HF & HS & HT) H. destruct cb as [f sc t st fl su lf id]. cbn in HF, HS, HT. subst.
  unfold allowRequest. destruct s; cbn in H; destruct H as [-> ->]; try done. cbn.
  destruct (Z.ltb_spec T (since now since_t)); symmetry; [by apply bool_decide_eq_true|apply bool_decide_eq_false; lia].
Qed.

Definition new_breaker (id : string) (F S : nat) (T : Z) : CircuitBreaker :=
  NewCircuitBreaker id (Z.of_nat F) (Z.of_nat S) T.

Lemma runs_refines id F S T os :
  configured (runs (new_breaker id F S T) os) F S T ∧
  refines (foldl (spec_step F S T) (Closed 0) os) (runs (new_breaker id F S T) os).
Proof.
  induction os as [|o os [IH1 IH2]] using rev_ind; [done|].
  unfold runs in *. rewrite !foldl_app. cbn. split; [by apply step_configured|by apply step_refines].
Qed.


(** ** When it opens, when it closes *)

(** The failures recorded since the last success or reset, the successes since
    the last failure or reset, and when the last failure was. *)
Definition trailing_failures (os : list op) : nat :=
  foldl (λ n o, match o with OpFailure _ => n + 1 | OpAllow _ => n | _ => 0 end)%nat 0%nat os.
Definition trailing_successes (os : list op) : nat :=
  foldl (λ n o, match o with OpSuccess => n + 1 | OpAllow _ => n | _ => 0 end)%nat 0%nat os.
Definition last_failure (os : list op) : option time :=
  foldl (λ r o, match o with OpFailure t => Some t | _ => r end) None os.

Lemma spec_history F S T os :
  match foldl (spec_step F S T) (Closed 0) os with
  | Closed f => f = trailing_failures os ∧ (f = 0 ∨ f < F)%nat
  | Open t => last_failure os = Some t
  | Trial n => (n ≤ trailing_successes os)%nat ∧ (n = 0 ∨ n < S)%nat ∧ is_Some (last_failure os)
  end.
Proof.
  induction os as [|o os IH] using rev_ind; [cbn; lia|].
  unfold trailing_failures, trailing_successes, last_failure in *. rewrite !foldl_app. cbn.
  destruct (foldl (spec_step F S T) (Closed 0) os), o; cbn;
    repeat (case_decide; cbn); rewrite ?IH; try lia; try done; try (split_and!; eauto; lia);
    destruct IH as (? & ? & ?); split_and!; eauto; lia.
Qed.



(** [getTimeUntilRetry] is when: the first admitted instant is one past it. *)
Lemma time_until_retry cb now d :
  state cb = StateOpen → 0 ≤ d → -2^63 < now - lastFailureTime cb → now + d - lastFailureTime cb < 2^63 →
  (allowRequest (now + d) cb).1 = true ↔
  getTimeUntilRetry now cb < d ∨ (getTimeUntilRetry now cb = 0 ∧ timeout cb < now + d - lastFailureTime cb).
Proof.
  intros E Hd H1 H2. unfold allowRequest, getTimeUntilRetry, time_sub. rewrite E.
  rewrite bool_decide_false by (intros H; by apply H).
  destruct (Z.ltb_spec (timeout cb) (Z.max (- 2 ^ 63) (Z.min (2 ^ 63 - 1) (now + d - lastFailureTime cb))));
  destruct (Z.ltb_spec (timeout cb - Z.max (- 2 ^ 63) (Z.min (2 ^ 63 - 1) (now - lastFailureTime cb))) 0);
  cbn; split; intros; try done; lia.
Qed.

(** ** The manager hands out one breaker per node *)

Definition cbm_ok (m : CircuitBreakerManager) : Prop :=
  ∀ n p, breakers m !! n = Some p → ∃ cb, heap m !! p = Some cb ∧ nodeID cb = n.

Definition cbm_inv (nodes : list string) (w : CircuitBreakerManager * list get_pc) : Prop :=
  cbm_ok w.1 ∧ ∀ i p, w.2 !! i = Some (GetDone p) → ∃ n, nodes !! i = Some n ∧ breakers w.1 !! n = Some p.

Lemma on_breaker_ok m p f :
  (∀ cb, nodeID (f cb) = nodeID cb) → cbm_ok m → cbm_ok (on_breaker m p f).
Proof.
  intros Hf H n q Hq. destruct (H n q Hq) as (cb & Hcb & Hn).
  unfold on_breaker, update in *. cbn in *. destruct (decide (p = q)) as [->|].
  - exists (f cb). rewrite list_lookup_alter_eq, Hcb. cbn. by rewrite Hf.
  - exists cb. by rewrite list_lookup_alter_ne.
Qed.

Lemma ResetAll_ok m : cbm_ok m → cbm_ok (ResetAll m) ∧ breakers (ResetAll m) = breakers m.
Proof.
  unfold ResetAll. generalize ((map_to_list (breakers m)).*2). intros ps. revert m.
  induction ps as [|p ps IH]; intros m H; [done|]. cbn.
  destruct (IH (on_breaker m p Reset)) as [H1 H2]; [by apply on_breaker_ok|done].
Qed.

Lemma create_breaker_spec m n :
  cbm_ok m →
  cbm_ok (create_breaker m n).2 ∧ breakers (create_breaker m n).2 !! n = Some (create_breaker m n).1 ∧
  (∀ n' p, breakers m !! n' = Some p → breakers (create_breaker m n).2 !! n' = Some p).
Proof.
  intros H. unfold create_breaker. destruct (breakers m !! n) as [p|] eqn:E; [done|].
  unfold update. cbn. split_and!.
  - intros n' p'. cbn. destruct (decide (n = n')) as [->|].
    + rewrite lookup_insert_eq. intros [= <-]. eexists. by rewrite list_lookup_middle.
    + rewrite lookup_insert_ne by done. intros Hp. destruct (H n' p' Hp) as (cb & Hcb & Hn).
      exists cb. split; [|done]. by apply lookup_app_l_Some.
  - by rewrite lookup_insert_eq.
  - intros n' p' Hp. rewrite lookup_insert_ne; [done|]. intros ->. congruence.
Qed.

Lemma get_step_inv nodes w w' : get_step nodes w w' → cbm_inv nodes w → cbm_inv nodes w'.
Proof.
  intros Hs [Hok Hpc]. destruct Hs as [m pcs i n p Hn Hi Hp|m pcs i n Hn Hi Hp|m pcs i n Hn Hi|m pcs p o|m pcs].
  - split; [done|]. intros j q. cbn in *. rewrite list_lookup_insert. case_decide; [|eauto].
    intros [= <-]. destruct H as [-> _]. eauto.
  - split; [done|]. intros j q. cbn in *. rewrite list_lookup_insert. case_decide; [done|eauto].
  - destruct (create_breaker_spec m n Hok) as (H1 & H2 & H3). split; [done|].
    intros j q. cbn in *. rewrite list_lookup_insert. case_decide as Hj.
    + intros [= <-]. destruct Hj as [-> _]. eauto.
    + intros Hq. destruct (Hpc j q Hq) as (n' & ? & ?). eauto.
  - split; [|done]. apply on_breaker_ok; [|done]. intros cb. apply step_nodeID.
  - destruct (ResetAll_ok m Hok) as [H1 H2]. split; [done|]. intros j q Hj. cbn. rewrite H2. eauto.
Qed.

(** C36: However concurrent [GetBreaker] calls interleave, with each other and
    with the use of the breakers they return, two of them return the same
    pointer exactly when they asked for the same node, and it points to a breaker
    of that node: the second check under the write lock keeps a race from
    creating two. *)
Theorem GetBreaker_one_per_node nodes m w i j p q n n' :
  cbm_ok m →
  rtc (get_step nodes) (m, (λ _, GetStart) <$> nodes) w →
  nodes !! i = Some n → nodes !! j = Some n' →
  w.2 !! i = Some (GetDone p) → w.2 !! j = Some (GetDone q) →
  (p = q ↔ n = n') ∧ ∃ cb, heap w.1 !! p = Some cb ∧ nodeID cb = n.
Proof.
  intros Hok Hw Hi Hj Hp Hq.
  assert (cbm_inv nodes w) as [Hok' Hpc].
  { assert (cbm_inv nodes (m, (λ _, GetStart) <$> nodes)) as H0.
    { split; [done|]. intros k r. cbn. rewrite list_lookup_fmap. by destruct (nodes !! k). }
    revert H0. clear -Hw. induction Hw as [|w w' w'' Hs _ IH]; [done|]. intros H0. by eapply IH, get_step_inv. }
  destruct (Hpc i p Hp) as (n0 & E & Hbp). destruct (Hpc j q Hq) as (n1 & E' & Hbq).
  rewrite Hi in E. rewrite Hj in E'. injection E as <-. injection E' as <-.
  destruct (Hok' n p Hbp) as (cb & Hcb & Hn). split; [|eauto].
  destruct (Hok' n' q Hbq) as (cb' & Hcb' & Hn'). split; [|congruence]. intros ->. congruence.
Qed.

Lemma GetBreaker_one_per_node_witness :
  let m := NewCircuitBreakerManager 5 2 30 in
  let m' := (create_breaker m "a").2 in
  ∃ w, rtc (get_step ["a"; "a"]) (m, [GetStart; GetStart]) w ∧ w.1 = m' ∧
       w.2 !! 0%nat = Some (GetDone 0%nat) ∧ w.2 !! 1%nat = Some (GetDone 0%nat) ∧
       (0%nat = 0%nat ↔ "a" = "a").
Proof.
  intros m m'.
  assert (rtc (get_step ["a"; "a"]) (m, [GetStart; GetStart]) (m', [GetDone 0%nat; GetDone 0%nat])) as Hr.
  { eapply rtc_l; [by apply (Get_miss _ m [GetStart; GetStart] 0 "a")|].
    eapply rtc_l; [by apply (Get_miss _ m [GetMissed; GetStart] 1 "a")|].
    eapply rtc_l; [by apply (Get_create _ m [GetMissed; GetMissed] 0 "a")|].
    eapply rtc_l; [by apply (Get_create _ m' [GetDone 0%nat; GetMissed] 1 "a")|]. apply rtc_refl. }
  exists (m', [GetDone 0%nat; GetDone 0%nat]). split; [exact Hr|]. do 3 (split; [reflexivity|]).
  exact (proj1 (GetBreaker_one_per_node ["a"; "a"] m _ 0 1 0 0 "a" "a" ltac:(done) Hr eq_refl eq_refl eq_refl eq_refl)).
Defined.
