(* ===== verification/RateLimit.v ===== *)
(** * The login rate limiter ([internal/auth/rate_limiter.go])

    Attempts are counted per address in a window that starts with the first of
    them.  Each method holds the limiter's mutex, so a history is a list of
    [event]s with the time the method read the clock; the periodic [cleanup] is
    one of them.  The entries are pointers no one else holds, so the map holds
    values.  Counters are 64-bit. *)

From S2P Require Import Prelude GoStrings MetaTypes.
From stdpp Require Import base gmap list strings sorting.
From Stdlib Require Import ZArith Lia.
Open Scope Z_scope.

Record RateLimitAttempt := mkAttempt { Count : Z; FirstTry : time; LastTry : time }.

Record LoginRateLimiter := mkLimiter {
  attempts : gmap string RateLimitAttempt;
  maxAttempts : Z;
  windowSeconds : Z
}.
#[export] Instance LoginRateLimiter_eta : Eta LoginRateLimiter := λ l,
  mkLimiter (attempts l) (maxAttempts l) (windowSeconds l).

Definition NewLoginRateLimiter (maxAttempts windowSeconds : Z) : LoginRateLimiter :=
  mkLimiter ∅ maxAttempts windowSeconds.

(** [time.Duration(l.windowSeconds)*time.Second] *)
Definition window (l : LoginRateLimiter) : Z := int64 (windowSeconds l * second).
Definition first_attempt (now : time) : RateLimitAttempt := mkAttempt 1 now now.
Definition one_more (now : time) (a : RateLimitAttempt) : RateLimitAttempt :=
  mkAttempt (int64 (Count a + 1)) (FirstTry a) now.
Definition expired (l : LoginRateLimiter) (now : time) (a : RateLimitAttempt) : bool :=
  window l <? time_sub now (FirstTry a).
Definition set_attempt (l : LoginRateLimiter) (ip : string) (a : RateLimitAttempt) : LoginRateLimiter :=
  l <| attempts := <[ip := a]> (attempts l) |>.

Definition AllowLogin (now : time) (l : LoginRateLimiter) (ip : string) : bool :=
  match attempts l !! ip with
  | None => true
  | Some attempt =>
      if expired l now attempt then true
      else if maxAttempts l <=? Count attempt then false
      else true
  end.

Definition RecordFailedAttempt (now : time) (l : LoginRateLimiter) (ip : string) : LoginRateLimiter :=
  match attempts l !! ip with
  | None => set_attempt l ip (first_attempt now)
  | Some attempt =>
      if expired l now attempt then set_attempt l ip (first_attempt now)
      else set_attempt l ip (one_more now attempt)
  end.

Definition UpdateMaxAttempts (n : Z) (l : LoginRateLimiter) : LoginRateLimiter :=
  if n <=? 0 then l else l <| maxAttempts := n |>.

Definition ResetIP (l : LoginRateLimiter) (ip : string) : LoginRateLimiter :=
  l <| attempts := delete ip (attempts l) |>.

Definition CheckAndRecord (now : time) (l : LoginRateLimiter) (ip : string) : bool * LoginRateLimiter :=
  match attempts l !! ip with
  | None => (true, set_attempt l ip (first_attempt now))
  | Some attempt =>
      if expired l now attempt then (true, set_attempt l ip (first_attempt now))
      else if maxAttempts l <=? Count attempt then (false, l)
      else (true, set_attempt l ip (one_more now attempt))
  end.

Definition GetAttempts (now : time) (l : LoginRateLimiter) (ip : string) : Z :=
  match attempts l !! ip with
  | None => 0
  | Some attempt => if expired l now attempt then 0 else Count attempt
  end.

Definition cleanup (now : time) (l : LoginRateLimiter) : LoginRateLimiter :=
  l <| attempts := filter (λ ia, (window l <? time_sub now (LastTry ia.2)) = false) (attempts l) |>.

(** ** Histories *)

Inductive event :=
| EvCheck (now : time) (ip : string)
| EvAllow (now : time) (ip : string)
| EvRecord (now : time) (ip : string)
| EvGet (now : time) (ip : string)
| EvReset (ip : string)
| EvMax (n : Z)
| EvCleanup (now : time).
Inductive output := OBool (b : bool) | OCount (n : Z) | ONone.

Definition exec (l : LoginRateLimiter) (e : event) : output * LoginRateLimiter :=
  match e with
  | EvCheck now ip => let '(b, l) := CheckAndRecord now l ip in (OBool b, l)
  | EvAllow now ip => (OBool (AllowLogin now l ip), l)
  | EvRecord now ip => (ONone, RecordFailedAttempt now l ip)
  | EvGet now ip => (OCount (GetAttempts now l ip), l)
  | EvReset ip => (ONone, ResetIP l ip)
  | EvMax n => (ONone, UpdateMaxAttempts n l)
  | EvCleanup now => (ONone, cleanup now l)
  end.

Fixpoint run (l : LoginRateLimiter) (es : list event) : list (event * output) :=
  match es with
  | [] => []
  | e :: es => (e, (exec l e).1) :: run (exec l e).2 es
  end.

Definition event_time (e : event) : option time :=
  match e with
  | EvCheck now _ | EvAllow now _ | EvRecord now _ | EvGet now _ | EvCleanup now => Some now
  | EvReset _ | EvMax _ => None
  end.

(** The clock does not go back: no event is earlier than [now]. *)
Fixpoint ordered (now : time) (es : list event) : Prop :=
  match es with
  | [] => True
  | e :: es => match event_time e with Some t => now ≤ t ∧ ordered t es | None => ordered now es end
  end.

Definition is_cleanup (e : event) : bool := match e with EvCleanup _ => true | _ => false end.

(** The times at which an attempt from [ip] was let through. *)
Definition allowed_at (ip : string) (eo : event * output) : option time :=
  match eo with
  | (EvCheck now i, OBool true) => if decide (i = ip) then Some now else None
  | _ => None
  end.
Definition allowed_times (ip : string) (r : list (event * output)) : list time := omap (allowed_at ip) r.

(** ** What the methods see

    An entry counts only until its window ends; [view] is the entry a method
    acts on. *)

Definition view (now : time) (l : LoginRateLimiter) (ip : string) : option RateLimitAttempt :=
  match attempts l !! ip with
  | Some a => if expired l now a then None else Some a
  | None => None
  end.

Lemma AllowLogin_view now l ip :
  AllowLogin now l ip = match view now l ip with Some a => negb (maxAttempts l <=? Count a) | None => true end.
Proof. unfold AllowLogin, view. destruct (_ !! ip) as [a|]; [|done]. destruct (expired l now a); [done|]. by destruct (_ <=? _). Qed.

Lemma GetAttempts_view now l ip :
  GetAttempts now l ip = match view now l ip with Some a => Count a | None => 0 end.
Proof. unfold GetAttempts, view. destruct (_ !! ip) as [a|]; [|done]. by destruct (expired l now a). Qed.

Lemma RecordFailedAttempt_view now l ip :
  RecordFailedAttempt now l ip =
  set_attempt l ip (match view now l ip with Some a => one_more now a | None => first_attempt now end).
Proof. unfold RecordFailedAttempt, view. destruct (_ !! ip) as [a|]; [|done]. by destruct (expired l now a). Qed.

(** The check and the record in one critical section are the two methods in
    sequence, with nothing in between. *)
Lemma CheckAndRecord_view now l ip :
  CheckAndRecord now l ip =
  (AllowLogin now l ip, if AllowLogin now l ip then RecordFailedAttempt now l ip else l).
Proof.
  unfold CheckAndRecord, AllowLogin, RecordFailedAttempt. destruct (_ !! ip) as [a|]; [|done].
  destruct (expired l now a); [done|]. by destruct (_ <=? _).
Qed.

Lemma time_sub_mono t t' u : t ≤ t' → time_sub t u ≤ time_sub t' u.
Proof. unfold time_sub. lia. Qed.

Lemma expired_mono l now now' a : now ≤ now' → expired l now a = true → expired l now' a = true.
Proof.
  unfold expired. rewrite !Z.ltb_lt. intros H ?. pose proof (time_sub_mono _ _ (FirstTry a) H). lia.
Qed.

Lemma view_later now now' l ip :
  now ≤ now' →
  view now' l ip = match view now l ip with
                   | Some a => if expired l now' a then None else Some a
                   | None => None
                   end.
Proof.
  intros H. unfold view. destruct (_ !! ip) as [a|]; [|done].
  destruct (expired l now a) eqn:E; [|done]. by rewrite (expired_mono _ _ _ _ H E).
Qed.

Lemma set_attempt_view now l ip a i :
  view now (set_attempt l ip a) i =
  if decide (ip = i) then if expired l now a then None else Some a else view now l i.
Proof.
  unfold view, set_attempt, expired, window, update. cbn.
  destruct (decide (ip = i)) as [->|]; [by rewrite lookup_insert_eq|by rewrite lookup_insert_ne].
Qed.

(** Entries are dated in order and not in the future. *)
Definition dated (now : time) (l : LoginRateLimiter) : Prop :=
  ∀ ip a, attempts l !! ip = Some a → FirstTry a ≤ LastTry a ≤ now.

Lemma cleanup_lookup now l ip a :
  attempts (cleanup now l) !! ip = Some a ↔
  attempts l !! ip = Some a ∧ (window l <? time_sub now (LastTry a)) = false.
Proof. unfold cleanup, update. cbn. by rewrite map_lookup_filter_Some. Qed.

Lemma cleanup_view now l ip : dated now l → view now (cleanup now l) ip = view now l ip.
Proof.
  intros Hd. unfold view. destruct (attempts (cleanup now l) !! ip) as [a|] eqn:E.
  - apply cleanup_lookup in E as [-> _]. done.
  - destruct (attempts l !! ip) as [a|] eqn:E'; [|done].
    destruct (expired l now a) eqn:Ex; [done|]. exfalso.
    assert (attempts (cleanup now l) !! ip = Some a) as ?; [|congruence].
    apply cleanup_lookup. split; [done|]. unfold expired in Ex. rewrite Z.ltb_ge in *.
    destruct (Hd _ _ E') as [H1 H2]. unfold time_sub in *. lia.
Qed.

Lemma dated_set now l ip a : dated now l → FirstTry a ≤ LastTry a ≤ now → dated now (set_attempt l ip a).
Proof.
  intros Hd Ha i b. unfold set_attempt, update. cbn. rewrite lookup_insert_Some. intros [[<- <-]|[_ ?]]; [done|by apply (Hd i)].
Qed.

Lemma dated_later now now' l : now ≤ now' → dated now l → dated now' l.
Proof. intros H Hd ip a Ha. destruct (Hd ip a Ha). lia. Qed.

Lemma view_dated now l ip a : dated now l → view now l ip = Some a → FirstTry a ≤ LastTry a ≤ now.
Proof.
  unfold view. intros Hd. destruct (_ !! ip) as [b|] eqn:E; [|done]. destruct (expired l now b); [done|].
  intros [= <-]. by apply (Hd ip).
Qed.

Lemma dated_record now l ip : dated now l → dated now (RecordFailedAttempt now l ip).
Proof.
  intros Hd. rewrite RecordFailedAttempt_view. apply dated_set; [done|].
  destruct (view now l ip) as [a|] eqn:E; cbn; [|lia]. pose proof (view_dated _ _ _ _ Hd E). lia.
Qed.

Definition at_time (now : time) (e : event) : time := match event_time e with Some t => t | None => now end.

Lemma ordered_cons now e es : ordered now (e :: es) ↔ now ≤ at_time now e ∧ ordered (at_time now e) es.
Proof. unfold at_time. cbn. destruct (event_time e); [done|]. split; [intros; split; [lia|done]|tauto]. Qed.

Lemma dated_exec now l e : now ≤ at_time now e → dated now l → dated (at_time now e) (exec l e).2.
Proof.
  intros Ht Hd%(dated_later _ _ _ Ht). destruct e as [t ip|t ip|t ip|t ip|ip|n|t]; unfold at_time in *; cbn in *.
  - rewrite CheckAndRecord_view. destruct (AllowLogin t l ip); [|done]. by apply dated_record.
  - done.
  - by apply dated_record.
  - done.
  - intros i a. unfold ResetIP, update. cbn. rewrite lookup_delete_Some. intros [_ ?]. eauto.
  - unfold UpdateMaxAttempts. by destruct (_ <=? _).
  - intros i a [Ha _]%cleanup_lookup. eauto.
Qed.

(** ** Cleaning up is unobservable *)

Definition same_view (now : time) (l l' : LoginRateLimiter) : Prop :=
  maxAttempts l = maxAttempts l' ∧ windowSeconds l = windowSeconds l' ∧ ∀ ip, view now l ip = view now l' ip.

Lemma expired_config l l' now a : windowSeconds l = windowSeconds l' → expired l now a = expired l' now a.
Proof. unfold expired, window. by intros ->. Qed.

Lemma same_view_later now now' l l' : now ≤ now' → same_view now l l' → same_view now' l l'.
Proof.
  intros H (H1 & H2 & H3). split_and!; [done..|]. intros ip. rewrite !(view_later now now') by done.
  rewrite H3. destruct (view now l' ip); [|done]. by rewrite (expired_config l l').
Qed.

Lemma same_view_record now l l' ip :
  same_view now l l' → same_view now (RecordFailedAttempt now l ip) (RecordFailedAttempt now l' ip).
Proof.
  intros (H1 & H2 & H3). rewrite !RecordFailedAttempt_view, H3. split_and!; [done..|].
  intros i. rewrite !set_attempt_view, H3. case_decide; [|done]. by rewrite (expired_config l l').
Qed.

Lemma same_view_exec now l l' e :
  event_time e = Some now ∨ event_time e = None → is_cleanup e = false → same_view now l l' →
  (exec l e).1 = (exec l' e).1 ∧ same_view now (exec l e).2 (exec l' e).2.
Proof.
  intros Ht Hc Hs. pose proof Hs as (H1 & H2 & H3).
  assert (∀ ip, AllowLogin now l ip = AllowLogin now l' ip) as HA.
  { intros ip. by rewrite !AllowLogin_view, H1, H3. }
  destruct e as [t ip|t ip|t ip|t ip|ip|n|t]; cbn in *; try done;
    try (destruct Ht as [[= ->]|]; [|done]).
  - rewrite !CheckAndRecord_view. cbn. rewrite HA. split; [done|].
    destruct (AllowLogin now l' ip); [|done]. by apply same_view_record.
  - by rewrite HA.
  - split; [done|]. by apply same_view_record.
  - by rewrite !GetAttempts_view, H3.
  - split; [done|]. split_and!; [done..|]. intros i. specialize (H3 i).
    unfold view, ResetIP, update, expired, window in *. cbn. destruct (decide (ip = i)) as [->|].
    + by rewrite !lookup_delete_eq.
    + by rewrite !lookup_delete_ne.
  - split; [done|]. unfold UpdateMaxAttempts. destruct (n <=? 0); [done|]. by split_and!.
Qed.

Lemma run_same_view now l l' es :
  ordered now es → dated now l → same_view now l l' →
  List.filter (λ eo, negb (is_cleanup eo.1)) (run l es) =
  run l' (List.filter (λ e, negb (is_cleanup e)) es).
Proof.
  revert now l l'. induction es as [|e es IH]; intros now l l' Ho Hd Hs; [done|].
  apply ordered_cons in Ho as [Ht Ho]. pose proof (dated_exec _ _ _ Ht Hd) as Hd'.
  pose proof (same_view_later _ _ _ _ Ht Hs) as Hs'.
  cbn. destruct (is_cleanup e) eqn:Ec; cbn.
  - apply (IH (at_time now e)); [done..|]. destruct e; try done. cbn in *.
    destruct Hs' as (H1 & H2 & H3). split_and!; [done..|]. intros ip. rewrite <-H3.
    apply cleanup_view. by eapply dated_later.
  - destruct (same_view_exec (at_time now e) l l' e) as [-> Hs'']; [|done..|].
    { unfold at_time. destruct (event_time e); auto. }
    f_equal. by apply (IH (at_time now e)).
Qed.

(** C38: The background cleanup is unobservable: over any history of a limiter
    whose clock does not go back, every answer and every attempt count is the
    one of the history without the cleanups. *)
Theorem cleanup_unobservable maxAttempts windowSeconds now es :
  ordered now es →
  List.filter (λ eo, negb (is_cleanup eo.1)) (run (NewLoginRateLimiter maxAttempts windowSeconds) es) =
  run (NewLoginRateLimiter maxAttempts windowSeconds) (List.filter (λ e, negb (is_cleanup e)) es).
Proof. intros Ho. by apply (run_same_view now). Qed.

Lemma cleanup_unobservable_witness :
  let es := [EvCheck 0 "a"; EvCheck (second) "a"; EvCleanup (62 * second); EvAllow (62 * second) "a"; EvGet (63 * second) "a"] in
  ordered 0 es ∧
  List.filter (λ eo, negb (is_cleanup eo.1)) (run (NewLoginRateLimiter 2 60) es) =
  run (NewLoginRateLimiter 2 60) (List.filter (λ e, negb (is_cleanup e)) es).
Proof.
  intros es. assert (ordered 0 es) as Ho by (cbn; unfold second; lia).
  split; [exact Ho|]. exact (cleanup_unobservable 2 60 0 es Ho).
Defined.

(** ** How many attempts get through

    The attempts let through from an address fall into windows, newest first:
    each with at most [M] of them, each starting after the previous one ended. *)

Section Bound.
Context (W M : Z) (ip : string).
Implicit Types cs : list (time * list time).

Definition in_window (c : time * list time) : Prop :=
  Z.of_nat (length c.2) ≤ M ∧ Forall (λ t, c.1 ≤ t ≤ c.1 + W) c.2.
Definition windows cs : Prop :=
  Forall in_window cs ∧ StronglySorted (λ c c', c'.1 + W < c.1) cs.
Definition inside (a : time) (ts : list time) : list time := filter (λ t, a ≤ t ≤ a + W) ts.

Lemma inside_app a ts ts' : inside a (ts ++ ts') = inside a ts ++ inside a ts'.
Proof. apply filter_app. Qed.

Lemma inside_none a c : in_window c → c.1 + W < a ∨ a + W < c.1 → inside a c.2 = [].
Proof.
  intros [_ Hc] Ha. apply filter_none. eapply Forall_impl; [exact Hc|]. cbn. lia.
Qed.

Lemma inside_none_concat a cs :
  Forall in_window cs → Forall (λ c, c.1 + W < a) cs → inside a (concat (snd <$> cs)) = [].
Proof.
  induction cs as [|c cs IH]; [done|]. rewrite !Forall_cons. intros [Hc Hcs] [Ha Has].
  rewrite fmap_cons; cbn [concat]. rewrite inside_app, IH by done. by rewrite (inside_none a c Hc) by (by left).
Qed.

Lemma inside_length a c : in_window c → Z.of_nat (length (inside a c.2)) ≤ M.
Proof. intros [Hc _]. unfold inside. pose proof (length_filter (λ t, a ≤ t ≤ a + W) c.2). lia. Qed.

Lemma windows_count a cs :
  0 ≤ M → windows cs → Z.of_nat (length (inside a (concat (snd <$> cs)))) ≤ 2 * M.
Proof.
  intros HM. induction cs as [|c cs IH]; [cbn; lia|]. intros [[Hc Hcs]%Forall_cons Hs].
  inversion Hs as [|? ? Hs' Hlt]; subst.
  rewrite fmap_cons; cbn [concat]. rewrite inside_app, length_app.
  destruct (decide (a + W < c.1)) as [Hl|Hl].
  { rewrite (inside_none a c Hc) by (by right). apply IH. by split. }
  pose proof (inside_length a c Hc) as H1.
  destruct cs as [|c2 cs]; [cbn; lia|]. apply Forall_cons in Hcs as [Hc2 Hcs].
  inversion Hs' as [|? ? _ Hlt2]; subst. apply Forall_cons in Hlt as [Hlt _].
  rewrite fmap_cons; cbn [concat]. rewrite inside_app, length_app. pose proof (inside_length a c2 Hc2) as H2.
  rewrite (inside_none_concat a cs Hcs); [cbn; lia|].
  eapply Forall_impl; [exact Hlt2|]. cbn. lia.
Qed.

(** The invariant of a limiter that has let [log] through after [n] events. *)
Definition limited (n : nat) (now : time) (l : LoginRateLimiter) (log : list time) : Prop :=
  ∃ cs, windows cs ∧ log ≡ₚ concat (snd <$> cs) ∧
    match view now l ip with
    | Some a => ∃ ts rest, cs = (FirstTry a, ts) :: rest ∧ Z.of_nat (length ts) ≤ Count a ≤ Z.of_nat n
    | None => Forall (λ c, c.1 + W < now) cs
    end.

Context (HM : 1 ≤ M) (HW : 0 ≤ W < 2^63 - 1).

Lemma expired_W l now a : window l = W → expired l now a = true ↔ FirstTry a + W < now.
Proof. unfold expired, time_sub. intros ->. rewrite Z.ltb_lt. lia. Qed.

Lemma windows_push now ts cs :
  windows cs → Forall (λ c, c.1 + W < now) cs → Z.of_nat (length ts) ≤ M →
  Forall (λ t, now ≤ t ≤ now + W) ts → windows ((now, ts) :: cs).
Proof. intros [H1 H2] H3 H4 H5. split; constructor; try done. Qed.

Lemma limited_later n now now' l log :
  window l = W → dated now l → now ≤ now' → limited n now l log → limited n now' l log.
Proof.
  intros Hw Hd Ht (cs & Hcs & Hl & Hv). exists cs. split; [done|]. split; [done|].
  rewrite (view_later now now') by done. destruct (view now l ip) as [a|] eqn:E.
  - pose proof (view_dated _ _ _ _ Hd E). destruct (expired l now' a) eqn:Ex; [|done].
    apply (expired_W _ _ _ Hw) in Ex. destruct Hv as (ts & rest & -> & _).
    constructor; [done|]. destruct Hcs as [_ Hs]. inversion Hs; subst.
    eapply Forall_impl; [done|]. cbn. lia.
  - eapply Forall_impl; [exact Hv|]. cbn. lia.
Qed.

Lemma first_not_expired l now : window l = W → expired l now (first_attempt now) = false.
Proof.
  intros Hw. apply not_true_iff_false. rewrite (expired_W _ _ _ Hw). cbn. lia.
Qed.

(** Recording, with ([b = true]) or without letting the attempt through. *)
Lemma limited_record (b : bool) n now l log :
  window l = W → dated now l → limited n now l log → Z.of_nat n < 2^63 - 1 →
  (b = true → AllowLogin now l ip = true) → maxAttempts l ≤ M →
  limited (S n) now (RecordFailedAttempt now l ip) (if b then now :: log else log).
Proof.
  intros Hw Hd (cs & Hcs & Hl & Hv) Hn Hb HmaxM. rewrite RecordFailedAttempt_view. unfold limited.
  rewrite set_attempt_view, decide_True by done. rewrite AllowLogin_view in Hb.
  destruct (view now l ip) as [a|] eqn:E.
  - pose proof (view_dated _ _ _ _ Hd E) as Hda. destruct Hv as (ts & rest & -> & Hc).
    assert (expired l now a = false) as Hex.
    { unfold view in E. destruct (_ !! ip) as [a'|]; [|done]. destruct (expired l now a') eqn:?; [done|].
      by injection E as <-. }
    assert (now ≤ FirstTry a + W) as Hin.
    { destruct (decide (FirstTry a + W < now)) as [Hx|]; [|lia].
      apply (expired_W l now a Hw) in Hx. congruence. }
    exists ((FirstTry a, if b then now :: ts else ts) :: rest).
    destruct Hcs as [[[Hc1 Hc2] Hr]%Forall_cons Hs]. inversion Hs; subst. split_and!.
    + split; [|by constructor]. constructor; [|done]. destruct b; [|by split].
      specialize (Hb eq_refl). apply negb_true_iff, Z.leb_gt in Hb. cbn in *. split; cbn; [lia|].
      constructor; [lia|done].
    + cbn in *. destruct b; by rewrite Hl.
    + change (expired l now (one_more now a)) with (expired l now a). rewrite Hex.
      do 2 eexists. split; [done|]. cbn. rewrite int64_id by (unfold is_int64; lia).
      destruct b; cbn; lia.
  - rewrite first_not_expired by done. exists ((now, if b then [now] else []) :: cs). split_and!.
    + apply windows_push; [done..| |]; destruct b; cbn; try lia; repeat constructor; lia.
    + cbn. destruct b; by rewrite Hl.
    + do 2 eexists. split; [done|]. destruct b; cbn; lia.
Qed.

Lemma limited_mono n n' now l log : (n ≤ n')%nat → limited n now l log → limited n' now l log.
Proof.
  intros Hn (cs & ? & ? & Hv). exists cs. split_and!; [done..|].
  destruct (view now l ip); [|done]. destruct Hv as (ts & rest & ? & ?).
  exists ts, rest. split; [done|lia].
Qed.

(** Other addresses, and what leaves the entry of [ip] alone. *)
Lemma limited_same_view n now l l' log :
  view now l' ip = view now l ip → limited n now l log → limited n now l' log.
Proof. unfold limited. by intros ->. Qed.

Definition keeps_limit (e : event) : Prop :=
  match e with EvReset i => i ≠ ip | EvMax n => n ≤ M | _ => True end.

Lemma limited_exec n l e log now :
  event_time e = Some now ∨ event_time e = None →
  window l = W → maxAttempts l ≤ M → dated now l → keeps_limit e → Z.of_nat n < 2^63 - 1 →
  limited n now l log →
  limited (S n) now (exec l e).2
    (match allowed_at ip (e, (exec l e).1) with Some t => t :: log | None => log end).
Proof.
  intros Ht Hw Hm Hd Hk Hn Hl.
  assert (limited (S n) now l log) as Hl' by (eapply limited_mono; [|exact Hl]; lia).
  assert (∀ i, i ≠ ip → limited (S n) now (RecordFailedAttempt now l i) log) as Hother.
  { intros i Hi. eapply limited_same_view; [|exact Hl'].
    by rewrite RecordFailedAttempt_view, set_attempt_view, decide_False. }
  destruct e as [t i|t i|t i|t i|i|m|t]; cbn in *; try done;
    try (destruct Ht as [[= ->]|]; [|done]).
  - rewrite CheckAndRecord_view. cbn. destruct (AllowLogin now l i) eqn:EA; [|done].
    case_decide as Hi; [|by apply Hother]. subst i.
    by apply (limited_record true).
  - destruct (decide (i = ip)) as [->|]; [|by apply Hother].
    by apply (limited_record false).
  - eapply limited_same_view; [|exact Hl']. unfold view, ResetIP, update. cbn.
    by rewrite lookup_delete_ne.
  - eapply limited_same_view; [|exact Hl']. unfold UpdateMaxAttempts. by destruct (_ <=? _).
  - eapply limited_same_view; [|exact Hl']. by apply cleanup_view.
Qed.

Lemma exec_config l e :
  window (exec l e).2 = window l ∧ (maxAttempts l ≤ M → keeps_limit e → maxAttempts (exec l e).2 ≤ M).
Proof.
  destruct e as [t i|t i|t i|t i|i|m|t]; cbn; try done.
  - rewrite CheckAndRecord_view. destruct (AllowLogin t l i); [|done]. by rewrite RecordFailedAttempt_view.
  - by rewrite RecordFailedAttempt_view.
  - unfold UpdateMaxAttempts. by destruct (_ <=? _).
Qed.

Lemma limited_run n now l es log :
  window l = W → maxAttempts l ≤ M → dated now l → ordered now es → Forall keeps_limit es →
  Z.of_nat (n + length es) < 2^63 - 1 → limited n now l log →
  ∃ cs, windows cs ∧ allowed_times ip (run l es) ++ log ≡ₚ concat (snd <$> cs).
Proof.
  revert n now l log. induction es as [|e es IH]; intros n now l log Hw Hm Hd Ho Hk Hn Hl.
  { destruct Hl as (cs & ? & ? & _). by exists cs. }
  apply ordered_cons in Ho as [Ht Ho]. apply Forall_cons in Hk as [Hk Hks]. cbn in Hn.
  destruct (exec_config l e) as [Hw' Hm'].
  pose proof (dated_exec _ _ _ Ht Hd) as Hd'.
  apply (limited_later _ _ _ _ _ Hw Hd Ht) in Hl.
  apply (limited_exec n l e log) in Hl;
    [|unfold at_time; destruct (event_time e); auto|done|done|by eapply dated_later|done|lia].
  destruct (IH (S n) _ _ _ ltac:(by rewrite Hw') (Hm' Hm Hk) Hd' Ho Hks ltac:(lia) Hl) as (cs & Hcs & Hp).
  exists cs. split; [done|]. rewrite <-Hp. unfold allowed_times. cbn [run omap list_omap].
  unfold allowed_times in *. destruct (allowed_at ip (e, (exec l e).1)); [|done]. cbn. apply Permutation_middle.
Qed.
End Bound.

(** C18: In any interval as long as the window, at most twice [M] attempts from
    one address get through [CheckAndRecord], where [M] bounds the limit over
    the history - the window is fixed, not sliding - whatever other addresses
    do, however often entries are cleaned up and failures recorded, and as long
    as the address is not reset. *)
Theorem login_rate_bound maxAttempts windowSeconds M now es ip a :
  maxAttempts ≤ M → 1 ≤ M → 0 ≤ windowSeconds < 2^33 →
  ordered now es → Forall (keeps_limit M ip) es → Z.of_nat (length es) < 2^63 - 1 →
  let r := run (NewLoginRateLimiter maxAttempts windowSeconds) es in
  let W := windowSeconds * second in
  Z.of_nat (length (filter (λ t, a ≤ t ≤ a + W) (allowed_times ip r))) ≤ 2 * M.
Proof.
  intros HmM HM Hws Ho Hk Hn r W.
  assert (0 ≤ W < 2^63 - 1) as HW by (unfold W, second; lia).
  assert (window (NewLoginRateLimiter maxAttempts windowSeconds) = W) as Hw.
  { unfold window. apply int64_id. unfold is_int64. cbn. fold W. lia. }
  destruct (limited_run W M ip HM HW 0 now (NewLoginRateLimiter maxAttempts windowSeconds) es [])
    as (cs & Hcs & Hp); try done; [|rewrite app_nil_r in Hp].
  - exists []. split; [split; constructor|]. split; [done|constructor].
  - fold r in Hp. pose proof (windows_count W M a cs ltac:(lia) Hcs) as Hc. unfold inside in Hc.
    by rewrite Hp.
Qed.

(** The bound is attained: the last second of one window and the first of the
    next. *)
Definition burst : list event :=
  [EvCheck 0 "a"; EvCheck (59 * second) "a"; EvCheck (59 * second) "a"; EvCheck (60 * second) "a";
   EvCheck (61 * second) "a"; EvCheck (61 * second) "a"; EvCheck (62 * second) "a"; EvCheck (62 * second) "a"].
Lemma login_rate_bound_witness :
  let r := run (NewLoginRateLimiter 3 60) burst in
  length (filter (λ t, 59 * second ≤ t ≤ 59 * second + 60 * second) (allowed_times "a" r)) = 5%nat ∧
  Z.of_nat (length (filter (λ t, 59 * second ≤ t ≤ 59 * second + 60 * second) (allowed_times "a" r))) ≤ 2 * 3.
Proof.
  intros r. split; [vm_compute; reflexivity|].
  apply (login_rate_bound 3 60 3 0 burst "a" (59 * second)); [lia..| | |].
  - cbn. unfold second. lia.
  - repeat constructor.
  - cbn. lia.
Defined.
