(* ===== verification/Acl.v ===== *)
(** * Access control lists ([internal/acl])

    The ACL manager keeps one ACL per bucket and per object in the raw
    key-value store and answers permission checks.  [kv] is that store as the
    manager uses it; a value that is not the JSON of an ACL is [RawOther], and
    [json.Unmarshal] fails on it.  [Permission] and [GranteeType] are Go string
    types, so any string can occur. *)

From S2P Require Import Prelude GoStrings MetaTypes Keys.
From stdpp Require Import base gmap list strings.
From Stdlib Require Import ZArith Lia.
Open Scope Z_scope.

(** ** Types and constants ([types.go]) *)

Abbreviation Permission := string (only parsing).
Abbreviation GranteeType := string (only parsing).

Record Owner := mkOwner { owner_ID : string; owner_DisplayName : string }.
Record Grantee := mkGrantee {
  grantee_Type : GranteeType;
  grantee_ID : string;
  grantee_DisplayName : string;
  grantee_EmailAddress : string;
  grantee_URI : string
}.
Record Grant := mkGrant { grant_Grantee : Grantee; grant_Permission : Permission }.
Record ACL := mkACL { acl_Owner : Owner; acl_Grants : list Grant; acl_CannedACL : string }.

Inductive acl_error := ErrInvalidACL | ErrInvalidCannedACL | ErrUnmarshal.

Definition PermissionRead : Permission := "READ".
Definition PermissionWrite : Permission := "WRITE".
Definition PermissionReadACP : Permission := "READ_ACP".
Definition PermissionWriteACP : Permission := "WRITE_ACP".
Definition PermissionFullControl : Permission := "FULL_CONTROL".

Definition GranteeTypeCanonicalUser : GranteeType := "CanonicalUser".
Definition GranteeTypeAmazonCustomer : GranteeType := "AmazonCustomerByEmail".
Definition GranteeTypeGroup : GranteeType := "Group".

Definition CannedACLPrivate : string := "private".
Definition CannedACLPublicRead : string := "public-read".
Definition CannedACLPublicReadWrite : string := "public-read-write".
Definition CannedACLAuthenticatedRead : string := "authenticated-read".
Definition CannedACLBucketOwnerRead : string := "bucket-owner-read".
Definition CannedACLBucketOwnerFullControl : string := "bucket-owner-full-control".
Definition CannedACLLogDeliveryWrite : string := "log-delivery-write".

Definition GroupAllUsers : string := "http://acs.amazonaws.com/groups/global/AllUsers".
Definition GroupAuthenticatedUsers : string := "http://acs.amazonaws.com/groups/global/AuthenticatedUsers".
Definition GroupLogDelivery : string := "http://acs.amazonaws.com/groups/s3/LogDelivery".

Definition IsValidCannedACL (cannedACL : string) : bool :=
  existsb (String.eqb cannedACL)
    [CannedACLPrivate; CannedACLPublicRead; CannedACLPublicReadWrite; CannedACLAuthenticatedRead;
     CannedACLBucketOwnerRead; CannedACLBucketOwnerFullControl; CannedACLLogDeliveryWrite].

(** ** Canned ACLs ([canned.go]) *)

Definition owner_grant (ownerID ownerDisplayName : string) : Grant :=
  mkGrant (mkGrantee GranteeTypeCanonicalUser ownerID ownerDisplayName "" "") PermissionFullControl.
Definition group_grant (uri : string) (p : Permission) : Grant :=
  mkGrant (mkGrantee GranteeTypeGroup "" "" "" uri) p.

Definition GetCannedACLGrants (cannedACL ownerID ownerDisplayName : string) : option (list Grant) :=
  let o := owner_grant ownerID ownerDisplayName in
  if String.eqb cannedACL CannedACLPrivate then Some [o]
  else if String.eqb cannedACL CannedACLPublicRead then Some [o; group_grant GroupAllUsers PermissionRead]
  else if String.eqb cannedACL CannedACLPublicReadWrite
  then Some [o; group_grant GroupAllUsers PermissionRead; group_grant GroupAllUsers PermissionWrite]
  else if String.eqb cannedACL CannedACLAuthenticatedRead
  then Some [o; group_grant GroupAuthenticatedUsers PermissionRead]
  else if String.eqb cannedACL CannedACLBucketOwnerRead then Some [o]
  else if String.eqb cannedACL CannedACLBucketOwnerFullControl then Some [o]
  else if String.eqb cannedACL CannedACLLogDeliveryWrite
  then Some [o; group_grant GroupLogDelivery PermissionWrite; group_grant GroupLogDelivery PermissionReadACP]
  else None.

Definition CreateDefaultACL (ownerID ownerDisplayName : string) : ACL :=
  mkACL (mkOwner ownerID ownerDisplayName) [owner_grant ownerID ownerDisplayName] CannedACLPrivate.

(** ** The manager ([manager.go]) *)

Inductive raw := RawACL (a : ACL) | RawOther.
Definition unmarshal_acl (v : raw) : option ACL := match v with RawACL a => Some a | RawOther => None end.
Abbreviation kv := (gmap string raw).

Definition bucketACLPrefix : string := "acl:bucket:".
Definition objectACLPrefix : string := "acl:object:".

Definition bucketACLKey (tenantID bucketName : string) : string :=
  if String.eqb tenantID "" then bucketACLPrefix +:+ bucketName
  else bucketACLPrefix +:+ tenantID +:+ ":" +:+ bucketName.
Definition objectACLKey (tenantID bucketName objectKey : string) : string :=
  if String.eqb tenantID "" then objectACLPrefix +:+ bucketName +:+ ":" +:+ objectKey
  else objectACLPrefix +:+ tenantID +:+ ":" +:+ bucketName +:+ ":" +:+ objectKey.

(** What both getters do with their key. *)
Definition get_acl (m : kv) (key : string) : result acl_error ACL :=
  match m !! key with
  | None => Ok (CreateDefaultACL "maxiofs" "MaxIOFS")
  | Some data =>
      match unmarshal_acl data with
      | None => Err ErrUnmarshal
      | Some acl => Ok acl
      end
  end.

Definition GetBucketACL (m : kv) (tenantID bucketName : string) : result acl_error ACL :=
  get_acl m (bucketACLKey tenantID bucketName).
Definition SetBucketACL (m : kv) (tenantID bucketName : string) (acl : option ACL) : result acl_error kv :=
  match acl with
  | None => Err ErrInvalidACL
  | Some acl => Ok (<[bucketACLKey tenantID bucketName := RawACL acl]> m)
  end.
Definition GetObjectACL (m : kv) (tenantID bucketName objectKey : string) : result acl_error ACL :=
  get_acl m (objectACLKey tenantID bucketName objectKey).
Definition SetObjectACL (m : kv) (tenantID bucketName objectKey : string) (acl : option ACL) : result acl_error kv :=
  match acl with
  | None => Err ErrInvalidACL
  | Some acl => Ok (<[objectACLKey tenantID bucketName objectKey := RawACL acl]> m)
  end.
Definition DeleteBucketACL (m : kv) (tenantID bucketName : string) : kv :=
  delete (bucketACLKey tenantID bucketName) m.

Definition GetCannedACL (cannedACL ownerID ownerDisplayName : string) : result acl_error ACL :=
  if negb (IsValidCannedACL cannedACL) then Err ErrInvalidCannedACL
  else
    match GetCannedACLGrants cannedACL ownerID ownerDisplayName with
    | None => Err ErrInvalidCannedACL
    | Some grants => Ok (mkACL (mkOwner ownerID ownerDisplayName) grants cannedACL)
    end.

Definition permissionSatisfies (granted required : Permission) : bool :=
  if String.eqb granted PermissionFullControl then true else String.eqb granted required.

Definition grantMatchesUser (grant : Grant) (userID : string) : bool :=
  let ty := grantee_Type (grant_Grantee grant) in
  if String.eqb ty GranteeTypeCanonicalUser then String.eqb (grantee_ID (grant_Grantee grant)) userID
  else if String.eqb ty GranteeTypeGroup then false
  else if String.eqb ty GranteeTypeAmazonCustomer then false
  else false.

Definition CheckPermission (acl : option ACL) (userID : string) (permission : Permission) : bool :=
  match acl with
  | None => false
  | Some acl =>
      if String.eqb (owner_ID (acl_Owner acl)) userID then true
      else existsb (λ grant, grantMatchesUser grant userID &&
                             permissionSatisfies (grant_Permission grant) permission) (acl_Grants acl)
  end.

(** The loop of [CheckPublicAccess] and [CheckAuthenticatedAccess]. *)
Definition group_access (uri : string) (acl : option ACL) (permission : Permission) : bool :=
  match acl with
  | None => false
  | Some acl =>
      existsb (λ grant, String.eqb (grantee_Type (grant_Grantee grant)) GranteeTypeGroup &&
                        String.eqb (grantee_URI (grant_Grantee grant)) uri &&
                        permissionSatisfies (grant_Permission grant) permission) (acl_Grants acl)
  end.
Definition CheckPublicAccess : option ACL → Permission → bool := group_access GroupAllUsers.
Definition CheckAuthenticatedAccess : option ACL → Permission → bool := group_access GroupAuthenticatedUsers.

(** ** The S3 XML form ([conversion.go]) *)

Record S3Owner := mkS3Owner { s3o_ID : string; s3o_DisplayName : string }.
Record S3Grantee := mkS3Grantee {
  s3g_Type : string;
  s3g_ID : string;
  s3g_DisplayName : string;
  s3g_EmailAddress : string;
  s3g_URI : string
}.
Record S3Grant := mkS3Grant { s3_Grantee : S3Grantee; s3_Permission : string }.
Record S3AccessControlPolicy := mkS3Policy { s3_Owner : S3Owner; s3_Grants : list S3Grant }.

Definition ToS3Format (a : ACL) : S3AccessControlPolicy :=
  mkS3Policy (mkS3Owner (owner_ID (acl_Owner a)) (owner_DisplayName (acl_Owner a)))
    ((λ grant, let g := grant_Grantee grant in
       mkS3Grant (mkS3Grantee (grantee_Type g) (grantee_ID g) (grantee_DisplayName g)
                    (grantee_EmailAddress g) (grantee_URI g)) (grant_Permission grant)) <$> acl_Grants a).

Definition FromS3Format (s3ACL : S3AccessControlPolicy) : ACL :=
  mkACL (mkOwner (s3o_ID (s3_Owner s3ACL)) (s3o_DisplayName (s3_Owner s3ACL)))
    ((λ s3Grant, let g := s3_Grantee s3Grant in
       mkGrant (mkGrantee (s3g_Type g) (s3g_ID g) (s3g_DisplayName g)
                  (s3g_EmailAddress g) (s3g_URI g)) (s3_Permission s3Grant)) <$> s3_Grants s3ACL)
    "".

(** ** Permission checks *)

Definition grants_to (a : ACL) (applies : Grantee → Prop) (p : Permission) : Prop :=
  ∃ g, g ∈ acl_Grants a ∧ applies (grant_Grantee g) ∧
       (grant_Permission g = PermissionFullControl ∨ grant_Permission g = p).

Lemma permissionSatisfies_spec g r :
  permissionSatisfies g r = true ↔ g = PermissionFullControl ∨ g = r.
Proof.
  unfold permissionSatisfies. destruct (String.eqb_spec g PermissionFullControl); [tauto|].
  rewrite String.eqb_eq. tauto.
Qed.

Lemma existsb_grants (f : Grant → bool) (applies : Grantee → Prop) a p :
  (∀ g, f g = true ↔ applies (grant_Grantee g)) →
  existsb (λ g, f g && permissionSatisfies (grant_Permission g) p) (acl_Grants a) = true ↔ grants_to a applies p.
Proof.
  intros Hf. rewrite existsb_exists. unfold grants_to. setoid_rewrite andb_true_iff.
  setoid_rewrite permissionSatisfies_spec. setoid_rewrite <-list_elem_of_In. setoid_rewrite Hf. done.
Qed.

Lemma CheckPermission_spec a u p :
  CheckPermission (Some a) u p = true ↔
  owner_ID (acl_Owner a) = u ∨
  grants_to a (λ g, grantee_Type g = GranteeTypeCanonicalUser ∧ grantee_ID g = u) p.
Proof.
  unfold CheckPermission. destruct (String.eqb_spec (owner_ID (acl_Owner a)) u) as [->|Hne]; [tauto|].
  rewrite (existsb_grants (λ g, grantMatchesUser g u)
             (λ g, grantee_Type g = GranteeTypeCanonicalUser ∧ grantee_ID g = u)); [tauto|].
  intros g. unfold grantMatchesUser.
  destruct (String.eqb_spec (grantee_Type (grant_Grantee g)) GranteeTypeCanonicalUser) as [E|E].
  - rewrite String.eqb_eq. tauto.
  - repeat destruct (String.eqb _ _); (split; [done|tauto]).
Qed.

Lemma group_access_spec uri a p :
  group_access uri (Some a) p = true ↔
  grants_to a (λ g, grantee_Type g = GranteeTypeGroup ∧ grantee_URI g = uri) p.
Proof.
  apply (existsb_grants (λ g, String.eqb (grantee_Type (grant_Grantee g)) GranteeTypeGroup &&
                              String.eqb (grantee_URI (grant_Grantee g)) uri)).
  intros g. by rewrite andb_true_iff, !String.eqb_eq.
Qed.

Lemma group_access_canned uri owner name grants c p :
  group_access uri (Some (mkACL (mkOwner owner name) (owner_grant owner name :: grants) c)) p
  = group_access uri (Some (mkACL (mkOwner owner name) grants c)) p.
Proof. done. Qed.

Lemma group_access_cons u uri q o grants c p :
  group_access uri (Some (mkACL o (group_grant u q :: grants) c)) p
  = (String.eqb u uri && permissionSatisfies q p) || group_access uri (Some (mkACL o grants c)) p.
Proof. done. Qed.

(** The canned names and what each adds to the owner's full control. *)
Definition canned_grants : list (string * list Grant) :=
  [(CannedACLPrivate, []);
   (CannedACLPublicRead, [group_grant GroupAllUsers PermissionRead]);
   (CannedACLPublicReadWrite, [group_grant GroupAllUsers PermissionRead; group_grant GroupAllUsers PermissionWrite]);
   (CannedACLAuthenticatedRead, [group_grant GroupAuthenticatedUsers PermissionRead]);
   (CannedACLBucketOwnerRead, []); (CannedACLBucketOwnerFullControl, []);
   (CannedACLLogDeliveryWrite, [group_grant GroupLogDelivery PermissionWrite; group_grant GroupLogDelivery PermissionReadACP])].

Lemma GetCannedACL_cases c owner name a :
  GetCannedACL c owner name = Ok a →
  ∃ grants, (c, grants) ∈ canned_grants ∧ a = mkACL (mkOwner owner name) (owner_grant owner name :: grants) c.
Proof.
  unfold GetCannedACL. destruct (IsValidCannedACL c) eqn:Hv; [|done]. cbn [negb].
  unfold IsValidCannedACL in Hv. apply existsb_exists in Hv as (x & Hx & E). apply String.eqb_eq in E as <-.
  apply list_elem_of_In in Hx. rewrite !elem_of_cons, elem_of_nil in Hx.
  repeat (destruct Hx as [->|Hx];
    [intros H; vm_compute in H; injection H as <-; eexists; split; [|reflexivity];
     apply list_elem_of_In; vm_compute; tauto|]).
  done.
Qed.

Lemma canned_grants_group c grants g :
  (c, grants) ∈ canned_grants → g ∈ grants → grantee_Type (grant_Grantee g) = GranteeTypeGroup.
Proof.
  unfold canned_grants. rewrite !elem_of_cons, elem_of_nil. intros H Hg.
  repeat (destruct H as [[= -> ->]|H];
    [rewrite ?elem_of_cons, ?elem_of_nil in Hg; repeat (destruct Hg as [->|Hg]; [reflexivity|]); done|]). done.
Qed.

Ltac unfold_acl :=
  unfold PermissionRead, PermissionWrite, PermissionReadACP, PermissionFullControl,
    GroupAllUsers, GroupAuthenticatedUsers, GroupLogDelivery, CannedACLPrivate, CannedACLPublicRead,
    CannedACLPublicReadWrite, CannedACLAuthenticatedRead, CannedACLBucketOwnerRead,
    CannedACLBucketOwnerFullControl, CannedACLLogDeliveryWrite in *.


(** ** Storing and finding ACLs *)

Lemma lacks_not_colon s t u : lacks colon s = true → s ≠ t +:+ String colon u.
Proof. intros H ->. rewrite lacks_app in H. apply andb_prop in H as [_ H]. by apply lacks_cons in H as [? _]. Qed.

Lemma bucketACLKey_inj t b t' b' :
  lacks colon b = true → lacks colon b' = true → lacks colon t = true → lacks colon t' = true →
  bucketACLKey t b = bucketACLKey t' b' → t = t' ∧ b = b'.
Proof.
  unfold bucketACLKey. intros Hb Hb' Ht Ht'.
  destruct (String.eqb_spec t "") as [->|], (String.eqb_spec t' "") as [->|]; intros E%app_inv_head_str.
  - done.
  - by apply lacks_not_colon in E.
  - symmetry in E. by apply lacks_not_colon in E.
  - by apply (lacks_split_first colon) in E.
Qed.

Lemma objectACLKey_inj t b k t' b' k' :
  lacks colon b = true → lacks colon b' = true → lacks colon t = true → lacks colon t' = true →
  (t = "" ↔ t' = "") →
  objectACLKey t b k = objectACLKey t' b' k' → t = t' ∧ b = b' ∧ k = k'.
Proof.
  unfold objectACLKey. intros Hb Hb' Ht Ht' Hiff.
  destruct (String.eqb_spec t "") as [->|], (String.eqb_spec t' "") as [->|]; intros E%app_inv_head_str;
    try (by naive_solver).
  - by apply (lacks_split_first colon) in E as [-> ->].
  - apply (lacks_split_first colon) in E as [-> E]; [|done..].
    by apply (lacks_split_first colon) in E as [-> ->].
Qed.

Lemma acl_keys_disjoint t b t' b' k : bucketACLKey t b ≠ objectACLKey t' b' k.
Proof. unfold bucketACLKey, objectACLKey. repeat destruct (String.eqb _ _); discriminate. Qed.

(** C40: A bucket's ACL is the one last set for that tenant and bucket: setting
    it is read back, changes no other bucket's and no object's ACL, deleting it
    gives back the private default, and setting no ACL is refused.  Tenants and
    bucket names have no colon. *)
Theorem bucket_acl_store m m' t b a t' b' t'' b'' k :
  lacks colon t = true → lacks colon b = true → lacks colon t' = true → lacks colon b' = true →
  SetBucketACL m t b (Some a) = Ok m' →
  GetBucketACL m' t b = Ok a ∧
  ((t', b') ≠ (t, b) → GetBucketACL m' t' b' = GetBucketACL m t' b') ∧
  GetObjectACL m' t'' b'' k = GetObjectACL m t'' b'' k ∧
  GetBucketACL (DeleteBucketACL m' t b) t b = Ok (CreateDefaultACL "maxiofs" "MaxIOFS") ∧
  ((t', b') ≠ (t, b) → GetBucketACL (DeleteBucketACL m' t b) t' b' = GetBucketACL m t' b') ∧
  SetBucketACL m t b None = Err ErrInvalidACL.
Proof.
  intros Ht Hb Ht' Hb' [= <-]. unfold GetBucketACL, GetObjectACL, DeleteBucketACL, get_acl.
  assert ((t', b') ≠ (t, b) → bucketACLKey t b ≠ bucketACLKey t' b') as Hne.
  { intros Hne E. apply bucketACLKey_inj in E as [-> ->]; done. }
  split_and!.
  - by rewrite lookup_insert_eq.
  - intros H. rewrite lookup_insert_ne; [done|auto].
  - rewrite lookup_insert_ne; [done|]. apply acl_keys_disjoint.
  - by rewrite lookup_delete_eq.
  - intros H. rewrite lookup_delete_ne, lookup_insert_ne; [done|auto..].
  - done.
Qed.

Definition sample_acl : ACL := CreateDefaultACL "amy" "Amy".
Lemma bucket_acl_store_witness :
  ∃ m', SetBucketACL ∅ "t1" "logs" (Some sample_acl) = Ok m' ∧ GetBucketACL m' "t1" "logs" = Ok sample_acl.
Proof.
  eexists. split; [reflexivity|].
  exact (proj1 (bucket_acl_store ∅ _ "t1" "logs" sample_acl "t1" "data" "t1" "logs" "k"
           eq_refl eq_refl eq_refl eq_refl eq_refl)).
Defined.

(** An object's ACL set for one tenant's object is read back and changes no
    other object's ACL of a tenant bucket, and the same among global buckets;
    across the two the keys can meet, as [acl_key_collision] shows. *)
Theorem object_acl_store m m' t b k a t' b' k' :
  lacks colon t = true → lacks colon b = true → lacks colon t' = true → lacks colon b' = true →
  (t = "" ↔ t' = "") →
  SetObjectACL m t b k (Some a) = Ok m' →
  GetObjectACL m' t b k = Ok a ∧
  ((t', b', k') ≠ (t, b, k) → GetObjectACL m' t' b' k' = GetObjectACL m t' b' k') ∧
  (∀ t1 b1, GetBucketACL m' t1 b1 = GetBucketACL m t1 b1).
Proof.
  intros Ht Hb Ht' Hb' Hiff [= <-]. unfold GetBucketACL, GetObjectACL, get_acl. split_and!.
  - by rewrite lookup_insert_eq.
  - intros Hne. rewrite lookup_insert_ne; [done|]. intros E.
    apply objectACLKey_inj in E as (-> & -> & ->); done.
  - intros t1 b1. rewrite lookup_insert_ne; [done|]. intros E. by apply (acl_keys_disjoint t1 b1 t b k).
Qed.

Lemma object_acl_store_witness :
  ∃ m', SetObjectACL ∅ "t1" "logs" "a:b" (Some sample_acl) = Ok m' ∧
        GetObjectACL m' "t1" "logs" "a" = Ok (CreateDefaultACL "maxiofs" "MaxIOFS") ∧
        GetObjectACL m' "t1" "logs" "a" = GetObjectACL ∅ "t1" "logs" "a".
Proof.
  eexists. split; [reflexivity|]. split; [vm_compute; reflexivity|].
  exact (proj1 (proj2 (object_acl_store ∅ _ "t1" "logs" "a:b" sample_acl "t1" "logs" "a"
           eq_refl eq_refl eq_refl eq_refl (iff_refl _) eq_refl)) ltac:(discriminate)).
Defined.

(** A global bucket with a tenant's name shares keys with that tenant. *)
Example acl_key_collision :
  objectACLKey "" "acme" "logs:k" = objectACLKey "acme" "logs" "k".
Proof. reflexivity. Qed.

(** ** The XML form *)

(** The S3 XML form carries everything but the note of which canned ACL was
    used: reading it back gives the same owner and grants, so every permission
    check answers the same, and writing what was read gives the same XML. *)
Theorem acl_s3_roundtrip a x :
  FromS3Format (ToS3Format a) = mkACL (acl_Owner a) (acl_Grants a) "" ∧
  ToS3Format (FromS3Format x) = x ∧
  (∀ u p, CheckPermission (Some (FromS3Format (ToS3Format a))) u p = CheckPermission (Some a) u p) ∧
  (∀ p, CheckPublicAccess (Some (FromS3Format (ToS3Format a))) p = CheckPublicAccess (Some a) p) ∧
  (∀ p, CheckAuthenticatedAccess (Some (FromS3Format (ToS3Format a))) p = CheckAuthenticatedAccess (Some a) p).
Proof.
  assert (FromS3Format (ToS3Format a) = mkACL (acl_Owner a) (acl_Grants a) "") as ->.
  { destruct a as [[oi on] gs c]. unfold FromS3Format, ToS3Format. cbn. f_equal.
    rewrite <-list_fmap_compose. rewrite <-(list_fmap_id gs) at 2. apply list_fmap_ext.
    by intros i [[] ?] _. }
  split; [done|]. split; [|done].
  destruct x as [[xi xn] gs]. unfold FromS3Format, ToS3Format. cbn. f_equal.
  rewrite <-list_fmap_compose. rewrite <-(list_fmap_id gs) at 2. apply list_fmap_ext.
  by intros i [[] ?] _.
Qed.
